(** * A Redis-compatible store in Go: shallow embedding and verified claims

    The development embeds the parts of the store that the specification's
    testable properties talk about: hash-tag routing (cluster/core), the
    sharded lock table (lock), the skip list and its score borders
    (datastruct/sortedset), the linked list (datastruct/list), the
    append-only-file writer (aof) and the concurrent dictionary
    (datastruct/dict).

    Conventions used throughout.
    - Go [string] and [[]byte] are byte sequences: [string] (a list of
      [ascii]).
    - Go fixed-width integers are [Z]; where an operation can leave the
      range its wrap-around is written out.
    - A Go run-time panic is the result [None] of an [option]-valued
      function.
    - Go pointers into the heap are natural numbers indexing an explicit
      store. *)

From Stdlib Require Import ZArith Lia Ascii String SpecFloat DecimalString
  Zbitwise.
From stdpp Require Import base option list gmap strings sorting.

Local Open Scope Z_scope.

(** ** Package cluster/core: hash tags and slots (utils.go) *)

Module Cluster.

(** [const SlotCount int = 1024] *)
Definition SlotCount : Z := 1024.

(** [strings.Index(s, sep)] for a one-byte separator: the offset of the first
    occurrence, [-1] when there is none. *)
Fixpoint Index (s : string) (c : ascii) : Z :=
  match s with
  | EmptyString => -1
  | String a t =>
      if Ascii.eqb a c then 0
      else let r := Index t c in if r <? 0 then -1 else r + 1
  end.

(** The Go slice expression [s[lo:hi]] on a string; it panics unless
    [0 <= lo <= hi <= len(s)]. *)
Definition slice (s : string) (lo hi : Z) : option string :=
  if (0 <=? lo) && (lo <=? hi) && (hi <=? Z.of_nat (String.length s))
  then Some (String.substring (Z.to_nat lo) (Z.to_nat (hi - lo)) s)
  else None.

(** [GetPartitionKey]: extract the hash tag. *)
Definition GetPartitionKey (key : string) : option string :=
  let beg := Index key "{"%char in
  if beg =? -1 then Some key
  else
    let end_ := Index key "}"%char in
    if (end_ =? -1) || (end_ =? beg + 1) then Some key
    else slice key (beg + 1) end_.

(** [hash/crc32]: the IEEE polynomial in reversed form and the one table
    entry computed as [simplePopulateTable] does. *)
Definition IEEE : Z := 0xedb88320.

Fixpoint crc_table_loop (j : nat) (crc : Z) : Z :=
  match j with
  | O => crc
  | S j' =>
      crc_table_loop j'
        (if Z.land crc 1 =? 1 then Z.lxor (Z.shiftr crc 1) IEEE
         else Z.shiftr crc 1)
  end.

Definition crc_table (i : Z) : Z := crc_table_loop 8 i.

Definition byte_val (c : ascii) : Z := Z.of_N (N_of_ascii c).

(** The loop of [simpleUpdate] over the bytes of [p]. *)
Fixpoint crc_update (crc : Z) (p : string) : Z :=
  match p with
  | EmptyString => crc
  | String v t =>
      crc_update
        (Z.lxor (crc_table (Z.lxor (Z.land crc 0xff) (byte_val v)))
                (Z.shiftr crc 8)) t
  end.

(** [^x] on a [uint32]. *)
Definition not32 (x : Z) : Z := Z.lxor x 0xffffffff.

(** [crc32.ChecksumIEEE] *)
Definition ChecksumIEEE (p : string) : Z := not32 (crc_update (not32 0) p).

(** [GetSlot]; the remainder is the unsigned [%] of two [uint32]. *)
Definition GetSlot (key : string) : option Z :=
  partitionKey ← GetPartitionKey key;
  Some (ChecksumIEEE partitionKey mod SlotCount).

End Cluster.

(** ** Package lock: the sharded lock table *)

Module Lock.

(** [Locks.table] is a slice of mutexes; only its length matters for the
    order of acquisition, so the table is represented by [tableSize]. *)
Record Locks := mkLocks { tableSize : Z }.

Definition wrap32 (x : Z) : Z := x mod 2 ^ 32.

Definition prime32 : Z := 16777619.

(** The loop body of [fnv32], folded over the bytes of the key. *)
Fixpoint fnv32_loop (hash : Z) (key : string) : Z :=
  match key with
  | EmptyString => hash
  | String c t =>
      fnv32_loop (Z.lxor (wrap32 (hash * prime32)) (Cluster.byte_val c)) t
  end.

Definition fnv32 (key : string) : Z := fnv32_loop 2166136261 key.

(** [spread]: [hashCode & (tableSize-1)] on [uint32]. *)
Definition spread (locks : Locks) (hashCode : Z) : Z :=
  Z.land hashCode (wrap32 (tableSize locks - 1)).

(** The key set of [indexMap], a [map[uint32]struct{}]. *)
Definition indexSet (locks : Locks) (keys : list string) : gset Z :=
  list_to_set (map (fun key => spread locks (fnv32 key)) keys).

(** The comparison handed to [sort.Slice]. *)
Definition less (reverse : bool) (a b : Z) : bool :=
  if negb reverse then a <? b else a >? b.

(** [sort.Slice]: a sort by insertion; every sort by [less] returns the same
    slice of [uint32] values. *)
Fixpoint sort_insert (reverse : bool) (x : Z) (l : list Z) : list Z :=
  match l with
  | [] => [x]
  | y :: t => if less reverse y x then y :: sort_insert reverse x t
              else x :: y :: t
  end.

Definition sort_Slice (reverse : bool) (l : list Z) : list Z :=
  foldr (sort_insert reverse) [] l.

(** [toLockIndices].  [make([]uint32, len(indexMap))] is a slice of
    [len(indexMap)] zeros, and the [append]s in the loop over the map add the
    indices after them.  The loop visits the map in an unspecified order;
    the sort makes the result independent of it. *)
Definition toLockIndices (locks : Locks) (keys : list string)
    (reverse : bool) : list Z :=
  let indexMap := indexSet locks keys in
  let indices := replicate (size indexMap) 0 in
  let indices := indices ++ elements indexMap in
  sort_Slice reverse indices.

(** One call on a mutex of the table. *)
Inductive call :=
  | Lock_ (index : Z)
  | RLock_ (index : Z)
  | Unlock_ (index : Z)
  | RUnlock_ (index : Z).

(** [table[index]] panics outside the slice. *)
Definition table_at (locks : Locks) (index : Z) : option Z :=
  if (0 <=? index) && (index <? tableSize locks) then Some index else None.

(** The final loop of [RWLocks], as the sequence of mutex calls it makes.
    The list is the program order of the calls; whether each of them
    returns depends on the mutexes, which [RWLocks_run] follows. *)
Fixpoint RWLocks_loop (locks : Locks) (writeIndexSet : gset Z)
    (indices : list Z) : option (list call) :=
  match indices with
  | [] => Some []
  | index :: rest =>
      mu ← table_at locks index;
      calls ← RWLocks_loop locks writeIndexSet rest;
      Some ((if bool_decide (index ∈ writeIndexSet) then Lock_ mu
             else RLock_ mu) :: calls)
  end.

(** [RWLocks] *)
Definition RWLocks (locks : Locks) (writeKeys readKeys : list string)
    : option (list call) :=
  let keys := writeKeys ++ readKeys in
  let indices := toLockIndices locks keys false in
  let writeIndexSet := indexSet locks writeKeys in
  RWLocks_loop locks writeIndexSet indices.

(** [Lock], [RLock], [UnLock] and [RUnLock] on the shard of one key: the
    call each makes on [table[index]]. *)
Definition Lock (locks : Locks) (key : string) : option call :=
  let index := spread locks (fnv32 key) in
  mu ← table_at locks index; Some (Lock_ mu).

Definition RLock (locks : Locks) (key : string) : option call :=
  let index := spread locks (fnv32 key) in
  mu ← table_at locks index; Some (RLock_ mu).

Definition UnLock (locks : Locks) (key : string) : option call :=
  let index := spread locks (fnv32 key) in
  mu ← table_at locks index; Some (Unlock_ mu).

Definition RUnLock (locks : Locks) (key : string) : option call :=
  let index := spread locks (fnv32 key) in
  mu ← table_at locks index; Some (RUnlock_ mu).

(** [for _, index := range indices { lock.table[index].f() }] *)
Fixpoint range_calls (locks : Locks) (f : Z -> call) (indices : list Z)
    : option (list call) :=
  match indices with
  | [] => Some []
  | index :: rest =>
      mu ← table_at locks index;
      calls ← range_calls locks f rest;
      Some (f mu :: calls)
  end.

(** The methods [Locks], [RLocks], [Unlocks] and [RUnlocks] of the table
    (the first is written [Locks_]: [Locks] names the type). *)
Definition Locks_ (locks : Locks) (keys : list string) : option (list call) :=
  range_calls locks Lock_ (toLockIndices locks keys false).

Definition RLocks (locks : Locks) (keys : list string) : option (list call) :=
  range_calls locks RLock_ (toLockIndices locks keys false).

Definition Unlocks (locks : Locks) (keys : list string) : option (list call) :=
  range_calls locks Unlock_ (toLockIndices locks keys true).

Definition RUnlocks (locks : Locks) (keys : list string)
    : option (list call) :=
  range_calls locks RUnlock_ (toLockIndices locks keys true).

(** The final loop of [RWUnLock]. *)
Fixpoint RWUnLock_loop (locks : Locks) (writeIndexSet : gset Z)
    (indices : list Z) : option (list call) :=
  match indices with
  | [] => Some []
  | index :: rest =>
      mu ← table_at locks index;
      calls ← RWUnLock_loop locks writeIndexSet rest;
      Some ((if bool_decide (index ∈ writeIndexSet) then Unlock_ mu
             else RUnlock_ mu) :: calls)
  end.

(** [RWUnLock] *)
Definition RWUnLock (locks : Locks) (writeKeys readKeys : list string)
    : option (list call) :=
  let keys := writeKeys ++ readKeys in
  let indices := toLockIndices locks keys true in
  let writeIndexSet := indexSet locks writeKeys in
  RWUnLock_loop locks writeIndexSet indices.

(** The state of one [sync.RWMutex] of the table, while a single goroutine
    uses the table: held by nobody, held by [readers] read locks, or held
    for writing. *)
Inductive rwmutex :=
  | Unlocked
  | RLocked (readers : nat)
  | WLocked.

(** [mu.Lock()]: it returns once nobody holds the mutex.  The mutex is not
    reentrant: when the calling goroutine holds it already, for reading or
    for writing, and no other goroutine releases it, the call never
    returns ([None]). *)
Definition mu_Lock (mu : rwmutex) : option rwmutex :=
  match mu with
  | Unlocked => Some WLocked
  | RLocked _ | WLocked => None
  end.

(** [mu.RLock()]: it returns unless the mutex is held for writing; read
    locks add up. *)
Definition mu_RLock (mu : rwmutex) : option rwmutex :=
  match mu with
  | Unlocked => Some (RLocked 1)
  | RLocked readers => Some (RLocked (S readers))
  | WLocked => None
  end.

(** [Make]: a table of [tableSize] mutexes that nobody holds; [make]
    panics on a negative length. *)
Definition Make (tableSize : Z) : option (list rwmutex) :=
  if tableSize <? 0 then None
  else Some (replicate (Z.to_nat tableSize) Unlocked).

(** [lock.table[index]], which panics outside the slice. *)
Definition mutex_at (table : list rwmutex) (index : Z) : option rwmutex :=
  if index <? 0 then None else table !! Z.to_nat index.

(** How a call of [RWLocks] ends: it returns and leaves the mutexes in
    the state [table], it never returns because its call on the mutex
    [index] blocks, or it panics. *)
Inductive outcome :=
  | Returned (table : list rwmutex)
  | Blocked (index : Z)
  | Panicked.

(** The final loop of [RWLocks], run on the mutexes [table]. *)
Fixpoint RWLocks_run_loop (writeIndexSet : gset Z) (indices : list Z)
    (table : list rwmutex) : outcome :=
  match indices with
  | [] => Returned table
  | index :: rest =>
      match mutex_at table index with
      | None => Panicked
      | Some mu =>
          match (if bool_decide (index ∈ writeIndexSet) then mu_Lock mu
                 else mu_RLock mu) with
          | None => Blocked index
          | Some mu' =>
              RWLocks_run_loop writeIndexSet rest
                (<[Z.to_nat index := mu']> table)
          end
      end
  end.

(** [RWLocks] on a table whose mutexes are in the state [table];
    [len(locks.table)] is the length of that list. *)
Definition RWLocks_run (table : list rwmutex)
    (writeKeys readKeys : list string) : outcome :=
  let locks := mkLocks (Z.of_nat (length table)) in
  let keys := writeKeys ++ readKeys in
  let indices := toLockIndices locks keys false in
  let writeIndexSet := indexSet locks writeKeys in
  RWLocks_run_loop writeIndexSet indices table.

End Lock.

(** ** Package datastruct/sortedset: borders and the skip list *)

Module SortedSet.

(** A [float64] is a value of the IEEE-754 binary64 format, as the standard
    library specifies it ([spec_float]: zeros, infinities, NaN and finite
    numbers [(-1)^s * m * 2^e]).  The Go operators [<], [==] and [<=] on
    [float64] are [SFltb], [SFeqb] and [SFleb]. *)
Definition float64 := spec_float.

Definition f64_zero : float64 := S754_zero false.

(** [type Element struct { Member string; Score float64 }] *)
Record Element := mkElement { Member : string; Score : float64 }.

(** *** Score borders (border.go) *)

Definition scoreNegativeInf : Z := -1.
Definition scorePositiveInf : Z := 1.

(** [type ScoreBorder struct { Inf int8; Value float64; Exclude bool }] *)
Record ScoreBorder := mkScoreBorder {
  Inf : Z;
  Value : float64;
  Exclude : bool
}.

(** [greater]: the element is not above this upper border. *)
Definition greater (border : ScoreBorder) (element : Element) : bool :=
  let value := Score element in
  if Inf border =? scoreNegativeInf then false
  else if Inf border =? scorePositiveInf then true
  else if Exclude border then SFltb value (Value border)
  else SFleb value (Value border).

(** [less]: the element is not below this lower border. *)
Definition less (border : ScoreBorder) (element : Element) : bool :=
  let value := Score element in
  if Inf border =? scoreNegativeInf then true
  else if Inf border =? scorePositiveInf then false
  else if Exclude border then SFltb (Value border) value
  else SFleb (Value border) value.

Definition getExclude (border : ScoreBorder) : bool := Exclude border.

(** [var scorePositiveInfBorder = &ScoreBorder{Inf: scorePositiveInf}]: the
    other fields take their zero values. *)
Definition scorePositiveInfBorder : ScoreBorder :=
  mkScoreBorder scorePositiveInf f64_zero false.

Definition scoreNegativeInfBorder : ScoreBorder :=
  mkScoreBorder scoreNegativeInf f64_zero false.

(** [isIntersected] *)
Definition isIntersected (border max : ScoreBorder) : bool :=
  let minValue := Value border in
  let maxValue := Value max in
  SFltb maxValue minValue
  || (SFeqb minValue maxValue && (getExclude border || getExclude max)).

(** *** The skip list (skiplist.go) *)

Definition maxLevel : Z := 16.

(** A [*node] is an index into the store of nodes; [nil] is [None]. *)
Definition ptr := nat.

(** [type Level struct { forward *node; span int64 }] *)
Record Level := mkLevel { forward : option ptr; span : Z }.

(** [type node struct { Element; backward *node; level []*Level }].  Every
    entry of [level] is allocated by [makeNode] and never replaced, so the
    slice of pointers is kept as the list of the records they point to. *)
Record node := mkNode {
  elem : Element;
  backward : option ptr;
  level : list Level
}.

(** [type skiplist struct { header, tail *node; length int64; level int16 }]
    together with the store its pointers refer to. *)
Record skiplist := mkSkiplist {
  sl_heap : list node;
  sl_header : ptr;
  sl_tail : option ptr;
  sl_length : Z;
  sl_level : Z
}.

(** [makeNode] *)
Definition makeNode (lvl : Z) (score : float64) (member : string) : node :=
  mkNode (mkElement member score) None
         (replicate (Z.to_nat lvl) (mkLevel None 0)).

(** [makeSkiplist]: the header is the first node of a fresh store. *)
Definition makeSkiplist : skiplist :=
  mkSkiplist [makeNode maxLevel f64_zero ""] 0%nat None 0 1.

(** [bits.Len64]: the number of bits needed to write [x], [0] for [x = 0]. *)
Fixpoint Len64_loop (fuel : nat) (x : Z) : Z :=
  match fuel with
  | O => 0
  | S f => if x =? 0 then 0 else 1 + Len64_loop f (Z.shiftr x 1)
  end.

Definition Len64 (x : Z) : Z := Len64_loop 64 x.

(** [randomLevel], as a function of the value [u] that [rand.Uint64()]
    returns. *)
Definition randomLevel (u : Z) : Z :=
  let total := Z.shiftl 1 maxLevel - 1 in
  let k := u mod total in
  maxLevel - Len64 (k + 1) + 1.

(** Reading [x.level[i]]; [None] is the panic of a nil or out-of-range
    access. *)
Definition getLevel (h : list node) (x : ptr) (i : nat) : option Level :=
  nd ← h !! x; level nd !! i.

(** Writing [x.level[i]]. *)
Definition setLevel (h : list node) (x : ptr) (i : nat) (lv : Level)
    : option (list node) :=
  nd ← h !! x;
  _ ← level nd !! i;
  Some (<[x := mkNode (elem nd) (backward nd) (<[i := lv]> (level nd))]> h).

(** [x.level[i].forward = v] and [x.level[i].span = v] *)
Definition set_forward (h : list node) (x : ptr) (i : nat) (v : option ptr)
    : option (list node) :=
  lv ← getLevel h x i; setLevel h x i (mkLevel v (span lv)).

Definition set_span (h : list node) (x : ptr) (i : nat) (v : Z)
    : option (list node) :=
  lv ← getLevel h x i; setLevel h x i (mkLevel (forward lv) v).

(** [x.backward = v] *)
Definition set_backward (h : list node) (x : ptr) (v : option ptr)
    : option (list node) :=
  nd ← h !! x;
  Some (<[x := mkNode (elem nd) v (level nd)]> h).

(** The inner loop shared by the descents of [insert], [remove], [getRank]
    and [RemoveRangeByRank]:
    [for node.level[i].forward != nil && test { rank += span; node = forward }].
    The test sees the running rank, the level entry of the current node and
    the element of the next one.  [fuel] bounds the iterations; the
    operations below pass more than the number of allocated nodes. *)
Fixpoint walk (fuel : nat) (h : list node)
    (test : Z -> Level -> Element -> bool)
    (i : nat) (x : ptr) (rank : Z) : option (ptr * Z) :=
  match fuel with
  | O => None
  | S f =>
      lv ← getLevel h x i;
      match forward lv with
      | None => Some (x, rank)
      | Some y =>
          nd ← h !! y;
          if test rank lv (elem nd)
          then walk f h test i y (rank + span lv)
          else Some (x, rank)
      end
  end.

(** [a[i] = v] on a slice panics outside its length. *)
Definition store {A} (l : list A) (i : nat) (v : A) : option (list A) :=
  if decide (i < length l)%nat then Some (<[i := v]> l) else None.

(** The outer loop [for i := skiplist.level-1; i >= 0; i--], entered with [k]
    levels left ([i = k-1]).  It fills [update[i]] and [rank[i]] as [insert]
    does; an operation that has no such slice in the source ignores it. *)
Fixpoint descend (fuel : nat) (h : list node)
    (test : Z -> Level -> Element -> bool)
    (k : nat) (x : ptr) (r : Z)
    (update : list (option ptr)) (rank : list Z)
    : option (ptr * Z * list (option ptr) * list Z) :=
  match k with
  | O => Some (x, r, update, rank)
  | S i =>
      '(x', r') ← walk fuel h test i x r;
      rank ← store rank i r';
      update ← store update i (Some x');
      descend fuel h test i x' r' update rank
  end.

Definition fuel_of (h : list node) : nat := S (length h).

(** [make([]*node, maxLevel)] and [make([]int64, maxLevel)] *)
Definition new_update : list (option ptr) := replicate (Z.to_nat maxLevel) None.
Definition new_rank : list Z := replicate (Z.to_nat maxLevel) 0.

(** The tests of the four descents. *)
Definition before (score : float64) (member : string) (e : Element) : bool :=
  SFltb (Score e) score || (SFeqb (Score e) score && String.ltb (Member e) member).

Definition upto (score : float64) (member : string) (e : Element) : bool :=
  SFltb (Score e) score || (SFeqb (Score e) score && String.leb (Member e) member).

(** [for i := a; i < a + n; i++ { body }] over a state [St]. *)
Fixpoint for_loop {St} (n : nat) (i : nat) (body : nat -> St -> option St)
    (s : St) : option St :=
  match n with
  | O => Some s
  | S n' => s' ← body i s; for_loop n' (S i) body s'
  end.

(** The body of the loop of [insert] that opens the levels above the
    current one. *)
Definition raise_body (header : ptr) (len : Z) (i : nat)
    (s : list node * list (option ptr) * list Z)
    : option (list node * list (option ptr) * list Z) :=
  let '(h, update, rank) := s in
  rank ← store rank i 0;
  update ← store update i (Some header);
  ui ← mjoin (update !! i);
  h ← set_span h ui i len;
  Some (h, update, rank).

(** The body of the loop of [insert] that links the new node at level [i]. *)
Definition link_body (update : list (option ptr)) (rank : list Z)
    (x : ptr) (i : nat) (h : list node) : option (list node) :=
  ui ← mjoin (update !! i);
  r0 ← rank !! 0%nat;
  ri ← rank !! i;
  lu ← getLevel h ui i;
  h ← set_forward h x i (forward lu);
  h ← set_forward h ui i (Some x);
  lu ← getLevel h ui i;
  h ← set_span h x i (span lu - (r0 - ri));
  set_span h ui i (r0 + 1 - ri).

(** [update[i].level[i].span++] *)
Definition bump_body (update : list (option ptr)) (i : nat) (h : list node)
    : option (list node) :=
  ui ← mjoin (update !! i);
  lu ← getLevel h ui i;
  set_span h ui i (span lu + 1).

(** [insert], given the value [u] drawn by [randomLevel]; returns the new
    list and the new node. *)
Definition insert (sl : skiplist) (member : string) (score : float64)
    (u : Z) : option (skiplist * ptr) :=
  let h := sl_heap sl in
  '(_, _, update, rank) ←
    descend (fuel_of h) h (fun _ _ e => before score member e)
      (Z.to_nat (sl_level sl)) (sl_header sl) 0 new_update new_rank;
  let lvl := randomLevel u in
  '(h, update, rank) ←
    (if lvl >? sl_level sl
     then for_loop (Z.to_nat lvl - Z.to_nat (sl_level sl))
            (Z.to_nat (sl_level sl))
            (raise_body (sl_header sl) (sl_length sl)) (h, update, rank)
     else Some (h, update, rank));
  let cur := if lvl >? sl_level sl then lvl else sl_level sl in
  let x := length h in
  let h := h ++ [makeNode lvl score member] in
  h ← for_loop (Z.to_nat lvl) 0 (link_body update rank x) h;
  h ← for_loop (Z.to_nat cur - Z.to_nat lvl) (Z.to_nat lvl)
        (bump_body update) h;
  u0 ← mjoin (update !! 0%nat);
  h ← set_backward h x
        (if decide (u0 = sl_header sl) then None else Some u0);
  l0 ← getLevel h x 0;
  '(h, tail) ←
    match forward l0 with
    | Some y => h ← set_backward h y (Some x); Some (h, sl_tail sl)
    | None => Some (h, Some x)
    end;
  Some (mkSkiplist h (sl_header sl) tail (sl_length sl + 1) cur, x).

(** The body of the first loop of [removeNode]. *)
Definition unlink_body (update : list (option ptr)) (x : ptr) (i : nat)
    (h : list node) : option (list node) :=
  ui ← mjoin (update !! i);
  lu ← getLevel h ui i;
  if decide (forward lu = Some x) then
    ln ← getLevel h x i;
    h ← set_span h ui i (span lu + (span ln - 1));
    ln ← getLevel h x i;
    set_forward h ui i (forward ln)
  else set_span h ui i (span lu - 1).

(** [for skiplist.level > 1 && header.level[level-1].forward == nil { level-- }]
    with the level as the structural argument. *)
Fixpoint shrink (h : list node) (header : ptr) (lvl : nat) : option nat :=
  match lvl with
  | S (S _ as l') =>
      lv ← getLevel h header l';
      match forward lv with
      | None => shrink h header l'
      | Some _ => Some lvl
      end
  | _ => Some lvl
  end.

(** [removeNode] *)
Definition removeNode (sl : skiplist) (x : ptr)
    (update : list (option ptr)) : option skiplist :=
  h ← for_loop (Z.to_nat (sl_level sl)) 0 (unlink_body update x)
        (sl_heap sl);
  l0 ← getLevel h x 0;
  nd ← h !! x;
  '(h, tail) ←
    match forward l0 with
    | Some y => h ← set_backward h y (backward nd); Some (h, sl_tail sl)
    | None => Some (h, backward nd)
    end;
  lvl ←
    (if sl_level sl >? 1
     then Z.of_nat <$> shrink h (sl_header sl) (Z.to_nat (sl_level sl))
     else Some (sl_level sl));
  Some (mkSkiplist h (sl_header sl) tail (sl_length sl - 1) lvl).

(** [remove] *)
Definition remove (sl : skiplist) (member : string) (score : float64)
    : option (skiplist * bool) :=
  let h := sl_heap sl in
  '(x, _, update, _) ←
    descend (fuel_of h) h (fun _ _ e => before score member e)
      (Z.to_nat (sl_level sl)) (sl_header sl) 0 new_update new_rank;
  l0 ← getLevel h x 0;
  match forward l0 with
  | None => Some (sl, false)
  | Some y =>
      nd ← h !! y;
      if SFeqb (Score (elem nd)) score && String.eqb (Member (elem nd)) member
      then sl' ← removeNode sl y update; Some (sl', true)
      else Some (sl, false)
  end.

(** [getRank] *)
Definition getRank (sl : skiplist) (member : string) (score : float64)
    : option Z :=
  let h := sl_heap sl in
  '(x, rank, _, _) ←
    descend (fuel_of h) h (fun _ _ e => upto score member e)
      (Z.to_nat (sl_level sl)) (sl_header sl) 0 new_update new_rank;
  nd ← h !! x;
  if String.eqb (Member (elem nd)) member then Some rank else Some 0.

(** The removal loop of [RemoveRangeByRank],
    [for node != nil && rank < stop], with [n] the distance from [rank] to
    [stop]. *)
Fixpoint remove_loop (n : nat) (sl : skiplist) (x : option ptr)
    (update : list (option ptr)) (removed : list Element)
    : option (skiplist * list Element) :=
  match n, x with
  | S n', Some y =>
      l0 ← getLevel (sl_heap sl) y 0;
      nd ← sl_heap sl !! y;
      sl' ← removeNode sl y update;
      remove_loop n' sl' (forward l0) update (removed ++ [elem nd])
  | _, _ => Some (sl, removed)
  end.

(** [RemoveRangeByRank] *)
Definition RemoveRangeByRank (sl : skiplist) (start stop : Z)
    : option (skiplist * list Element) :=
  let h := sl_heap sl in
  '(x, rank, update, _) ←
    descend (fuel_of h) h (fun rank lv _ => rank + span lv <=? start)
      (Z.to_nat (sl_level sl)) (sl_header sl) 0 new_update new_rank;
  remove_loop (Z.to_nat (stop - rank)) sl (Some x) update [].

(** The elements of the list in level-0 order, read off the store. *)
Fixpoint contents_from (fuel : nat) (h : list node) (x : option ptr)
    : list Element :=
  match fuel, x with
  | S f, Some y =>
      match h !! y with
      | Some nd =>
          elem nd :: contents_from f h (level nd !! 0%nat ≫= forward)
      | None => []
      end
  | _, _ => []
  end.

Definition contents (sl : skiplist) : list Element :=
  contents_from (fuel_of (sl_heap sl)) (sl_heap sl)
    (getLevel (sl_heap sl) (sl_header sl) 0 ≫= forward).

(** A sequence of [insert] and [remove] calls; an [insert] carries the
    64-bit value that its [randomLevel] draws. *)
Inductive op :=
  | OpInsert (member : string) (score : float64) (u : Z)
  | OpRemove (member : string) (score : float64).

Definition step (sl : skiplist) (o : op) : option skiplist :=
  match o with
  | OpInsert member score u => fst <$> insert sl member score u
  | OpRemove member score => fst <$> remove sl member score
  end.

Fixpoint run (sl : skiplist) (ops : list op) : option skiplist :=
  match ops with
  | [] => Some sl
  | o :: rest => sl' ← step sl o; run sl' rest
  end.

(** *** Member borders and the [Border] interface (border.go) *)

(** [lexNegativeInf int8 = '-'] and [lexPositiveInf int8 = '+'] *)
Definition lexNegativeInf : Z := 45.
Definition lexPositiveInf : Z := 43.

(** [type LexBorder struct { Inf int8; Value string; Exclude bool }] *)
Record LexBorder := mkLexBorder {
  LexInf : Z;
  LexValue : string;
  LexExclude : bool
}.

(** [LexBorder.greater] and [LexBorder.less]; [<] and [<=] on Go strings
    compare byte by byte. *)
Definition lex_greater (border : LexBorder) (element : Element) : bool :=
  let value := Member element in
  if LexInf border =? lexNegativeInf then false
  else if LexInf border =? lexPositiveInf then true
  else if LexExclude border then String.ltb value (LexValue border)
  else String.leb value (LexValue border).

Definition lex_less (border : LexBorder) (element : Element) : bool :=
  let value := Member element in
  if LexInf border =? lexNegativeInf then true
  else if LexInf border =? lexPositiveInf then false
  else if LexExclude border then String.ltb (LexValue border) value
  else String.leb (LexValue border) value.

(** [LexBorder.isIntersected] *)
Definition lex_isIntersected (border max : LexBorder) : bool :=
  let minValue := LexValue border in
  let maxValue := LexValue max in
  (LexInf border =? 43)
  || String.ltb maxValue minValue
  || (String.eqb minValue maxValue && (LexExclude border || LexExclude max)).

(** [var lexPositiveInfBorder] and [var lexNegativeInfBorder] *)
Definition lexPositiveInfBorder : LexBorder :=
  mkLexBorder lexPositiveInf EmptyString false.

Definition lexNegativeInfBorder : LexBorder :=
  mkLexBorder lexNegativeInf EmptyString false.

(** [ParseLexBorder]; [s[0]] panics on the empty string, and [None] inside
    [Some] is the error ["ERR min or max not valid string range item"]. *)
Definition ParseLexBorder (s : string) : option (option LexBorder) :=
  if String.eqb s "+" then Some (Some lexPositiveInfBorder)
  else if String.eqb s "-" then Some (Some lexNegativeInfBorder)
  else
    match s with
    | EmptyString => None
    | String c rest =>
        if Ascii.eqb c "(" then Some (Some (mkLexBorder 0 rest true))
        else if Ascii.eqb c "[" then Some (Some (mkLexBorder 0 rest false))
        else Some None
    end.

(** [type Border interface]: its two implementations. *)
Inductive Border :=
  | ScoreB (border : ScoreBorder)
  | LexB (border : LexBorder).

Definition Border_greater (border : Border) (element : Element) : bool :=
  match border with
  | ScoreB b => greater b element
  | LexB b => lex_greater b element
  end.

Definition Border_less (border : Border) (element : Element) : bool :=
  match border with
  | ScoreB b => less b element
  | LexB b => lex_less b element
  end.

(** [min.isIntersected(max)]: each implementation asserts that [max] has
    its own type, and the assertion panics on a border of the other
    kind. *)
Definition Border_isIntersected (min max : Border) : option bool :=
  match min, max with
  | ScoreB a, ScoreB b => Some (isIntersected a b)
  | LexB a, LexB b => Some (lex_isIntersected a b)
  | _, _ => None
  end.

(** *** Ranks and ranges of the skip list (skiplist.go) *)

(** [getByRank]; the result may be [nil]. *)
Definition getByRank (sl : skiplist) (rank : Z) : option (option ptr) :=
  let h := sl_heap sl in
  '(x, currentRank, _, _) ←
    descend (fuel_of h) h (fun cur lv _ => cur + span lv <=? rank)
      (Z.to_nat (sl_level sl)) (sl_header sl) 0 new_update new_rank;
  Some (if currentRank =? rank then Some x else None).

(** The removal loop of [RemoveRange]: [for node != nil { ... }], at most
    once per node of the store. *)
Fixpoint RemoveRange_loop (fuel : nat) (sl : skiplist) (x : option ptr)
    (update : list (option ptr)) (max : Border) (limit : Z)
    (removed : list Element) : option (skiplist * list Element) :=
  match fuel with
  | O => None
  | S f =>
      match x with
      | None => Some (sl, removed)
      | Some y =>
          nd ← sl_heap sl !! y;
          if negb (Border_greater max (elem nd)) then Some (sl, removed)
          else
            let removed := removed ++ [elem nd] in
            l0 ← getLevel (sl_heap sl) y 0;
            sl' ← removeNode sl y update;
            if (limit >? 0) && (Z.of_nat (length removed) =? limit)
            then Some (sl', removed)
            else RemoveRange_loop f sl' (forward l0) update max limit removed
      end
  end.

(** [RemoveRange] *)
Definition RemoveRange (sl : skiplist) (min max : Border) (limit : Z)
    : option (skiplist * list Element) :=
  let h := sl_heap sl in
  '(x, _, update, _) ←
    descend (fuel_of h) h (fun _ _ e => negb (Border_less min e))
      (Z.to_nat (sl_level sl)) (sl_header sl) 0 new_update new_rank;
  l0 ← getLevel h x 0;
  RemoveRange_loop (fuel_of h) sl (forward l0) update max limit [].

(** [hasInRange] *)
Definition hasInRange (sl : skiplist) (min max : Border) : option bool :=
  let h := sl_heap sl in
  crossed ← Border_isIntersected min max;
  if (crossed : bool) then Some false
  else
    match sl_tail sl with
    | None => Some false
    | Some n =>
        nd ← h !! n;
        if negb (Border_less min (elem nd)) then Some false
        else
          l0 ← getLevel h (sl_header sl) 0;
          match forward l0 with
          | None => Some false
          | Some n =>
              nd ← h !! n;
              if negb (Border_greater max (elem nd)) then Some false
              else Some true
          end
    end.

(** [getFirstInRange]; [node.Element] panics when the node behind the
    place where the descent ends is [nil]. *)
Definition getFirstInRange (sl : skiplist) (min max : Border)
    : option (option ptr) :=
  let h := sl_heap sl in
  inRange ← hasInRange sl min max;
  if negb (inRange : bool) then Some None
  else
    '(x, _, _, _) ←
      descend (fuel_of h) h (fun _ _ e => negb (Border_less min e))
        (Z.to_nat (sl_level sl)) (sl_header sl) 0 new_update new_rank;
    l0 ← getLevel h x 0;
    y ← forward l0;
    nd ← h !! y;
    Some (if Border_greater max (elem nd) then Some y else None).

(** [getLastInRange] *)
Definition getLastInRange (sl : skiplist) (min max : Border)
    : option (option ptr) :=
  let h := sl_heap sl in
  inRange ← hasInRange sl min max;
  if negb (inRange : bool) then Some None
  else
    '(x, _, _, _) ←
      descend (fuel_of h) h (fun _ _ e => Border_greater max e)
        (Z.to_nat (sl_level sl)) (sl_header sl) 0 new_update new_rank;
    nd ← h !! x;
    Some (if Border_less min (elem nd) then Some x else None).

(** *** The sorted set (sortedset.go) *)

(** [type SortedSet struct { dict map[string]*Element; skiplist *skiplist }] *)
Record SortedSet := mkSortedSet {
  ss_dict : gmap string Element;
  ss_skiplist : skiplist
}.

(** [Make] *)
Definition Make : SortedSet := mkSortedSet ∅ makeSkiplist.

(** [Add], given the value [u] that the [randomLevel] of its [insert]
    draws; [score != element.Score] is the negation of [==] on floats. *)
Definition Add (sortedSet : SortedSet) (member : string) (score : float64)
    (u : Z) : option (SortedSet * bool) :=
  let dict := <[member := mkElement member score]> (ss_dict sortedSet) in
  match ss_dict sortedSet !! member with
  | Some element =>
      if negb (SFeqb score (Score element)) then
        '(sl, _) ← remove (ss_skiplist sortedSet) member (Score element);
        '(sl, _) ← insert sl member score u;
        Some (mkSortedSet dict sl, false)
      else Some (mkSortedSet dict (ss_skiplist sortedSet), false)
  | None =>
      '(sl, _) ← insert (ss_skiplist sortedSet) member score u;
      Some (mkSortedSet dict sl, true)
  end.

(** [Len] *)
Definition Len (sortedSet : SortedSet) : Z :=
  Z.of_nat (size (ss_dict sortedSet)).

(** [Get]: [None] is the result [(nil, false)]. *)
Definition Get (sortedSet : SortedSet) (member : string) : option Element :=
  ss_dict sortedSet !! member.

(** [Remove] *)
Definition Remove (sortedSet : SortedSet) (member : string)
    : option (SortedSet * bool) :=
  match ss_dict sortedSet !! member with
  | Some element =>
      '(sl, _) ← remove (ss_skiplist sortedSet) member (Score element);
      Some (mkSortedSet (delete member (ss_dict sortedSet)) sl, true)
  | None => Some (sortedSet, false)
  end.

(** [GetRank] *)
Definition GetRank (sortedSet : SortedSet) (member : string) (desc : bool)
    : option Z :=
  match ss_dict sortedSet !! member with
  | None => Some (-1)
  | Some element =>
      r ← getRank (ss_skiplist sortedSet) member (Score element);
      Some (if desc then sl_length (ss_skiplist sortedSet) - r else r - 1)
  end.

(** The step of the traversals: [node.backward] or
    [node.level[0].forward]. *)
Definition advance (h : list node) (desc : bool) (x : ptr)
    : option (option ptr) :=
  if desc then nd ← h !! x; Some (backward nd)
  else l0 ← getLevel h x 0; Some (forward l0).

(** The loop of [ForEachByRank] over [n] nodes.  The consumer is a closure
    over variables of its caller; here it takes their state [s] and
    returns the new state with its answer.  [&node.Element] panics on a
    [nil] node. *)
Fixpoint ForEachByRank_loop {St} (n : nat) (h : list node) (desc : bool)
    (x : option ptr) (consumer : Element -> St -> St * bool) (s : St)
    : option St :=
  match n with
  | O => Some s
  | S n' =>
      y ← x;
      nd ← h !! y;
      let '(s, continue) := consumer (elem nd) s in
      if negb continue then Some s
      else
        x ← advance h desc y;
        ForEachByRank_loop n' h desc x consumer s
  end.

(** [ForEachByRank] *)
Definition ForEachByRank {St} (sortedSet : SortedSet) (start stop : Z)
    (desc : bool) (consumer : Element -> St -> St * bool) (s : St)
    : option St :=
  let size := Len sortedSet in
  let sl := ss_skiplist sortedSet in
  if (start <? 0) || (start >=? size) then None
  else if (stop <=? start) || (stop >? size) then None
  else
    x ←
      (if desc then
         if start >? 0 then getByRank sl (size - start)
         else Some (sl_tail sl)
       else
         l0 ← getLevel (sl_heap sl) (sl_header sl) 0;
         if start >? 0 then getByRank sl (start + 1)
         else Some (forward l0));
    ForEachByRank_loop (Z.to_nat (stop - start)) (sl_heap sl) desc x
      consumer s.

(** [RangeByRank]: its consumer stores the element at the next index of a
    slice of [stop - start] entries and asks for more. *)
Definition RangeByRank (sortedSet : SortedSet) (start stop : Z)
    (desc : bool) : option (list Element) :=
  if stop - start <? 0 then None
  else
    ForEachByRank sortedSet start stop desc
      (fun element slice => (slice ++ [element], true)) [].

(** [RangeCount]: its consumer skips the elements below [min], stops at
    the first one above [max] and counts the others. *)
Definition RangeCount (sortedSet : SortedSet) (min max : Border)
    : option Z :=
  ForEachByRank sortedSet 0 (Len sortedSet) false
    (fun element i =>
       if negb (Border_less min element) then (i, true)
       else if negb (Border_greater max element) then (i, false)
       else (i + 1, true)) 0.

(** The loop [for _, element := range removed { delete(dict, element.Member) }] *)
Definition delete_members (dict : gmap string Element)
    (removed : list Element) : gmap string Element :=
  foldl (fun d element => delete (Member element) d) dict removed.

(** [SortedSet.RemoveRange] *)
Definition SortedSet_RemoveRange (sortedSet : SortedSet) (min max : Border)
    : option (SortedSet * Z) :=
  '(sl, removed) ← RemoveRange (ss_skiplist sortedSet) min max 0;
  Some (mkSortedSet (delete_members (ss_dict sortedSet) removed) sl,
        Z.of_nat (length removed)).

(** [RemoveByRank] *)
Definition RemoveByRank (sortedSet : SortedSet) (start stop : Z)
    : option (SortedSet * Z) :=
  '(sl, removed) ←
    RemoveRangeByRank (ss_skiplist sortedSet) (start + 1) (stop + 1);
  Some (mkSortedSet (delete_members (ss_dict sortedSet) removed) sl,
        Z.of_nat (length removed)).

(** [PopMin]; [None] inside [Some] is the [nil] slice returned for an
    empty set. *)
Definition PopMin (sortedSet : SortedSet) (count : Z)
    : option (SortedSet * option (list Element)) :=
  let sl := ss_skiplist sortedSet in
  first ← getFirstInRange sl (ScoreB scoreNegativeInfBorder)
             (ScoreB scorePositiveInfBorder);
  match first with
  | None => Some (sortedSet, None)
  | Some x =>
      nd ← sl_heap sl !! x;
      let border := mkScoreBorder 0 (Score (elem nd)) false in
      '(sl, removed) ←
        RemoveRange sl (ScoreB border) (ScoreB scorePositiveInfBorder) count;
      Some (mkSortedSet (delete_members (ss_dict sortedSet) removed) sl,
            Some removed)
  end.

(** The first loop of [ForEach]:
    [for node != nil && offset > 0 { node = next; offset-- }]. *)
Fixpoint skip_offset (h : list node) (desc : bool) (n : nat)
    (x : option ptr) : option (option ptr) :=
  match n, x with
  | S n', Some y => x' ← advance h desc y; skip_offset h desc n' x'
  | _, _ => Some x
  end.

(** The second loop of [ForEach], entered with [node != nil]:
    [for i := 0; (i < int(limit) || limit < 0) && node != nil; i++].
    [left] counts the iterations that are left when there is a limit, and
    [fuel] bounds them by the number of nodes otherwise. *)
Fixpoint ForEach_loop {St} (fuel : nat) (left : option nat)
    (h : list node) (desc : bool) (min max : Border) (y : ptr)
    (consumer : Element -> St -> St * bool) (s : St) : option St :=
  match fuel with
  | O => None
  | S f =>
      match left with
      | Some O => Some s
      | _ =>
          nd ← h !! y;
          let '(s, continue) := consumer (elem nd) s in
          if negb continue then Some s
          else
            x ← advance h desc y;
            match x with
            | None => Some s
            | Some y' =>
                nd' ← h !! y';
                if negb (Border_less min (elem nd'))
                   || negb (Border_greater max (elem nd'))
                then Some s
                else ForEach_loop f (Nat.pred <$> left) h desc min max y'
                       consumer s
            end
      end
  end.

(** [ForEach] *)
Definition ForEach {St} (sortedSet : SortedSet) (min max : Border)
    (offset limit : Z) (desc : bool)
    (consumer : Element -> St -> St * bool) (s : St) : option St :=
  let sl := ss_skiplist sortedSet in
  let h := sl_heap sl in
  x ← (if desc then getLastInRange sl min max
       else getFirstInRange sl min max);
  x ← skip_offset h desc (Z.to_nat offset) x;
  match x with
  | None => Some s
  | Some y =>
      ForEach_loop (fuel_of h)
        (if limit <? 0 then None else Some (Z.to_nat limit))
        h desc min max y consumer s
  end.

(** [Range] *)
Definition Range (sortedSet : SortedSet) (min max : Border)
    (offset limit : Z) (desc : bool) : option (list Element) :=
  if (limit =? 0) || (offset <? 0) then Some []
  else
    ForEach sortedSet min max offset limit desc
      (fun element slice => (slice ++ [element], true)) [].

End SortedSet.

(** ** Package datastruct/list: the doubly linked list (linked.go) *)

Module LinkedList.

Section Ops.

(** The element type, [interface{}] in the source. *)
Context {V : Type}.

Definition ptr := nat.

(** [type node struct { val interface{}; prev *node; next *node }] *)
Record node := mkNode { val : V; prev : option ptr; next : option ptr }.

(** [type LinkedList struct { first *node; last *node; size int }] with the
    store of its nodes. *)
Record LinkedList := mkList {
  heap : list node;
  first : option ptr;
  last : option ptr;
  size : Z
}.

(** [&LinkedList{}] *)
Definition empty : LinkedList := mkList [] None None 0.

(** Dereferencing [n]; [nil] panics. *)
Definition deref (h : list node) (n : option ptr) : option node :=
  x ← n; h !! x.

Definition set_next (h : list node) (n : option ptr) (v : option ptr)
    : option (list node) :=
  x ← n; nd ← h !! x; Some (<[x := mkNode (val nd) (prev nd) v]> h).

Definition set_prev (h : list node) (n : option ptr) (v : option ptr)
    : option (list node) :=
  x ← n; nd ← h !! x; Some (<[x := mkNode (val nd) v (next nd)]> h).

Definition set_val (h : list node) (n : option ptr) (v : V)
    : option (list node) :=
  x ← n; nd ← h !! x; Some (<[x := mkNode v (prev nd) (next nd)]> h).

(** [Add] *)
Definition Add (l : LinkedList) (v : V) : option LinkedList :=
  let n := length (heap l) in
  let h := heap l ++ [mkNode v None None] in
  match last l with
  | None => Some (mkList h (Some n) (Some n) (size l + 1))
  | Some _ =>
      h ← set_next h (last l) (Some n);
      h ← set_prev h (Some n) (last l);
      Some (mkList h (first l) (Some n) (size l + 1))
  end.

(** [for ... { n = n.next }], [k] times. *)
Fixpoint forward (h : list node) (k : nat) (n : option ptr)
    : option (option ptr) :=
  match k with
  | O => Some n
  | S k' => nd ← deref h n; forward h k' (next nd)
  end.

(** [for ... { n = n.prev }], [k] times. *)
Fixpoint back (h : list node) (k : nat) (n : option ptr)
    : option (option ptr) :=
  match k with
  | O => Some n
  | S k' => nd ← deref h n; back h k' (prev nd)
  end.

(** [find]; [size/2] is Go's truncating division.  The result may be
    [nil]. *)
Definition find (l : LinkedList) (index : Z) : option (option ptr) :=
  if index <? Z.quot (size l) 2
  then forward (heap l) (Z.to_nat index) (first l)
  else back (heap l) (Z.to_nat (size l - 1 - index)) (last l).

(** [Get] *)
Definition Get (l : LinkedList) (index : Z) : option V :=
  if (index <? 0) || (index >=? size l) then None
  else n ← find l index; nd ← deref (heap l) n; Some (val nd).

(** [Set] *)
Definition Set_ (l : LinkedList) (index : Z) (v : V) : option LinkedList :=
  if (index <? 0) || (index >? size l) then None
  else
    n ← find l index;
    h ← set_val (heap l) n v;
    Some (mkList h (first l) (last l) (size l)).

(** [Insert] *)
Definition Insert (l : LinkedList) (index : Z) (v : V)
    : option LinkedList :=
  if (index <? 0) || (index >? size l) then None
  else if index =? size l then Add l v
  else
    pivot ← find l index;
    p ← deref (heap l) pivot;
    let n := length (heap l) in
    let h := heap l ++ [mkNode v (prev p) pivot] in
    '(h, fst_) ←
      match prev p with
      | None => Some (h, Some n)
      | Some _ => h ← set_next h (prev p) (Some n); Some (h, first l)
      end;
    h ← set_prev h pivot (Some n);
    Some (mkList h fst_ (last l) (size l + 1)).

(** [removeNode] *)
Definition removeNode (l : LinkedList) (n : option ptr)
    : option LinkedList :=
  nd ← deref (heap l) n;
  '(h, fst_) ←
    match prev nd with
    | None => Some (heap l, next nd)
    | Some _ => h ← set_next (heap l) (prev nd) (next nd); Some (h, first l)
    end;
  '(h, lst) ←
    match next nd with
    | None => Some (h, prev nd)
    | Some _ => h ← set_prev h (next nd) (prev nd); Some (h, last l)
    end;
  h ← set_prev h n None;
  h ← set_next h n None;
  Some (mkList h fst_ lst (size l - 1)).

(** [Remove] *)
Definition Remove (l : LinkedList) (index : Z) : option (LinkedList * V) :=
  if (index <? 0) || (index >=? size l) then None
  else
    n ← find l index;
    nd ← deref (heap l) n;
    l' ← removeNode l n;
    Some (l', val nd).

(** [Len] *)
Definition Len (l : LinkedList) : Z := size l.

(** The values in order, as [ForEach] visits them. *)
Fixpoint values_from (fuel : nat) (h : list node) (n : option ptr) : list V :=
  match fuel, n with
  | S f, Some x =>
      match h !! x with
      | Some nd => val nd :: values_from f h (next nd)
      | None => []
      end
  | _, _ => []
  end.

Definition values (l : LinkedList) : list V :=
  values_from (length (heap l)) (heap l) (first l).

(** [Range]: the checks, then the values at positions [start..stop). *)
Definition Range (l : LinkedList) (start stop : Z) : option (list V) :=
  if (start <? 0) || (start >=? size l) then None
  else if (stop >? size l) || (stop <? start) then None
  else Some (take (Z.to_nat (stop - start))
               (drop (Z.to_nat start) (values l))).

(** [Make] *)
Definition Make (vals : list V) : option LinkedList :=
  foldl (fun l v => l ← l; Add l v) (Some empty) vals.

(** [RemoveLast]; [None] inside [Some] is the [nil] returned for an empty
    list. *)
Definition RemoveLast (l : LinkedList) : option (LinkedList * option V) :=
  match last l with
  | None => Some (l, None)
  | Some _ =>
      l' ← removeNode l (last l);
      nd ← deref (heap l') (last l);
      Some (l', Some (val nd))
  end.

(** The loop of [RemoveAllByVal], entered with the node [n] and the count
    [removed]; [fuel] bounds the number of nodes it visits. *)
Fixpoint RemoveAllByVal_loop (fuel : nat) (expected : V -> bool)
    (l : LinkedList) (n : option ptr) (removed : Z)
    : option (LinkedList * Z) :=
  match n with
  | None => Some (l, removed)
  | Some x =>
      match fuel with
      | O => None
      | S f =>
          nd ← heap l !! x;
          let nextNode := next nd in
          if expected (val nd) then
            l' ← removeNode l n;
            RemoveAllByVal_loop f expected l' nextNode (removed + 1)
          else RemoveAllByVal_loop f expected l nextNode removed
      end
  end.

(** [RemoveAllByVal] *)
Definition RemoveAllByVal (l : LinkedList) (expected : V -> bool)
    : option (LinkedList * Z) :=
  RemoveAllByVal_loop (S (length (heap l))) expected l (first l) 0.

(** The loop of [RemoveByVal] and of [ReverseRemoveByVal], which walks
    over [next] or over [prev]. *)
Fixpoint RemoveByVal_loop (fuel : nat) (reverse : bool) (expected : V -> bool)
    (count : Z) (l : LinkedList) (n : option ptr) (removed : Z)
    : option (LinkedList * Z) :=
  match n with
  | None => Some (l, removed)
  | Some x =>
      match fuel with
      | O => None
      | S f =>
          nd ← heap l !! x;
          let nextNode := if reverse then prev nd else next nd in
          '(l, removed) ←
            (if expected (val nd) then
               l' ← removeNode l n; Some (l', removed + 1)
             else Some (l, removed));
          if count =? removed then Some (l, removed)
          else RemoveByVal_loop f reverse expected count l nextNode removed
      end
  end.

(** [RemoveByVal] *)
Definition RemoveByVal (l : LinkedList) (expected : V -> bool) (count : Z)
    : option (LinkedList * Z) :=
  RemoveByVal_loop (S (length (heap l))) false expected count l (first l) 0.

(** [ReverseRemoveByVal] *)
Definition ReverseRemoveByVal (l : LinkedList) (expected : V -> bool)
    (count : Z) : option (LinkedList * Z) :=
  RemoveByVal_loop (S (length (heap l))) true expected count l (last l) 0.

(** The loop of [ForEach]; the consumer is a closure over variables of its
    caller, here it takes their state and returns the new state with its
    answer. *)
Fixpoint ForEach_loop {St} (fuel : nat) (h : list node) (n : option ptr)
    (i : Z) (consumer : Z -> V -> St -> St * bool) (s : St) : option St :=
  match n with
  | None => Some s
  | Some x =>
      match fuel with
      | O => None
      | S f =>
          nd ← h !! x;
          let '(s, continue) := consumer i (val nd) s in
          if negb continue then Some s
          else ForEach_loop f h (next nd) (i + 1) consumer s
      end
  end.

(** [ForEach] *)
Definition ForEach {St} (l : LinkedList)
    (consumer : Z -> V -> St -> St * bool) (s : St) : option St :=
  ForEach_loop (S (length (heap l))) (heap l) (first l) 0 consumer s.

(** [Contains]: its consumer sets [contains] and stops at the first value
    that is expected. *)
Definition Contains (l : LinkedList) (expected : V -> bool) : option bool :=
  ForEach l (fun _ v contains =>
               if expected v then (true, false) else (contains, true)) false.

(** The loop of [Range] over the nodes: it writes the values of the indices
    from [start] to [stop - 1] into the entries of [slice], which are [nil]
    at first, and stops at the index [stop].  Writing past the end of the
    slice panics. *)
Fixpoint Range_loop (fuel : nat) (h : list node) (n : option ptr)
    (i start stop : Z) (slice : list (option V)) (sliceIndex : nat)
    : option (list (option V)) :=
  match n with
  | None => Some slice
  | Some x =>
      match fuel with
      | O => None
      | S f =>
          nd ← h !! x;
          if (i >=? start) && (i <? stop) then
            if decide (sliceIndex < length slice)%nat then
              Range_loop f h (next nd) (i + 1) start stop
                (<[sliceIndex := Some (val nd)]> slice) (S sliceIndex)
            else None
          else if i >=? stop then Some slice
          else Range_loop f h (next nd) (i + 1) start stop slice sliceIndex
      end
  end.

(** [Range] as its loop computes it, entry by entry. *)
Definition Range_slice (l : LinkedList) (start stop : Z)
    : option (list (option V)) :=
  if (start <? 0) || (start >=? size l) then None
  else if (stop >? size l) || (stop <? start) then None
  else
    Range_loop (S (length (heap l))) (heap l) (first l) 0 start stop
      (replicate (Z.to_nat (stop - start)) None) 0.

End Ops.

Arguments node : clear implicits.
Arguments LinkedList : clear implicits.

End LinkedList.

(** ** Package aof: the writer of the append-only file *)

Module Aof.

(** [type CmdLine = [][]byte] *)
Definition CmdLine := list string.

(** [strconv.Itoa] *)
Definition Itoa (i : Z) : string :=
  DecimalString.NilZero.string_of_int (Z.to_int i).

Definition CRLF : string := String "013" (String "010" EmptyString).

(** Modelled from the spec: [utils.ToCmdLine] (lib/utils is not among the
    sources) turns its string arguments into the byte slices of a command
    line. *)
Definition ToCmdLine (cmd : list string) : CmdLine := cmd.

(** Modelled from the spec: [protocol.MakeMultiBulkReply(args).ToBytes()]
    (redis/protocol is not among the sources) serializes a command as a
    Redis multi-bulk: [*<n>CRLF] and then [$<len>CRLF<arg>CRLF] for every
    argument. *)
Definition ToBytes (args : CmdLine) : string :=
  ("*" ++ Itoa (Z.of_nat (length args)) ++ CRLF
   ++ String.concat ""
        (map (fun arg =>
                "$" ++ Itoa (Z.of_nat (String.length arg)) ++ CRLF
                ++ arg ++ CRLF) args))%string.

(** [type payload struct { cmdLine CmdLine; dbIndex int; ... }] *)
Record payload := mkPayload { cmdLine : CmdLine; dbIndex : Z }.

(** The fields of [Persister] that [writeAof] reads or writes; [aofFile] is
    the content of the file, opened with [O_APPEND], and [listeners] the
    number of registered listeners. *)
Record Persister := mkPersister {
  aofFile : string;
  aofFsync : string;
  currentDB : Z;
  listeners : nat;
  buffer : list CmdLine
}.

(** What the operating system answers to one [aofFile.Write(data)]: all of
    [data] is written, or an error is returned after [n] bytes. *)
Inductive write_result :=
  | WriteOk
  | WriteErr (n : nat).

(** [aofFile.Write(data)]: the new content and whether [err != nil]. *)
Definition Write (file data : string) (w : write_result) : string * bool :=
  match w with
  | WriteOk => ((file ++ data)%string, false)
  | WriteErr n => ((file ++ String.substring 0 n data)%string, true)
  end.

Definition FsyncAlways : string := "always".

(** What [writeAof] does besides changing the persister: the buffers handed
    to the listeners' [Callback] and whether [aofFile.Sync()] was called. *)
Record effects := mkEffects { callbacks : list (list CmdLine); synced : bool }.

(** [writeAof]; [w1] answers the write of the [SELECT] command (when there
    is one) and [w2] the write of the command itself. *)
Definition writeAof (persister : Persister) (p : payload)
    (w1 w2 : write_result) : Persister * effects :=
  let buffer0 : list CmdLine := [] in
  let after_select :=
    if negb (dbIndex p =? currentDB persister) then
      let selectCmd := ToCmdLine ["SELECT"%string; Itoa (dbIndex p)] in
      let buffer1 := buffer0 ++ [selectCmd] in
      let data := ToBytes selectCmd in
      let '(file, err) := Write (aofFile persister) data w1 in
      if err
      then inl (mkPersister file (aofFsync persister) (currentDB persister)
                  (listeners persister) buffer1)
      else inr (file, dbIndex p, buffer1)
    else inr (aofFile persister, currentDB persister, buffer0) in
  match after_select with
  | inl persister' => (persister', mkEffects [] false)
  | inr (file, db, buffer1) =>
      let data := ToBytes (cmdLine p) in
      let buffer2 := buffer1 ++ [cmdLine p] in
      let '(file, _) := Write file data w2 in
      (mkPersister file (aofFsync persister) db (listeners persister) buffer2,
       mkEffects (replicate (listeners persister) buffer2)
                 (String.eqb (aofFsync persister) FsyncAlways))
  end.

End Aof.

(** ** Package datastruct/dict: the concurrent dictionary *)

Module Dict.

Section Ops.

(** The value type, [interface{}] in the source. *)
Context {V : Type}.

(** [type ConcurrentDict struct { table []*shard; count int32; shardCount int }];
    a shard is its map (the mutex carries no data). *)
Record ConcurrentDict := mkDict {
  table : list (gmap string V);
  count : Z;
  shardCount : Z
}.

(** Conversion to [int32] and to [int] (64 bits), two's complement. *)
Definition int32 (x : Z) : Z := (x + 2 ^ 31) mod 2 ^ 32 - 2 ^ 31.
Definition int64 (x : Z) : Z := (x + 2 ^ 63) mod 2 ^ 64 - 2 ^ 63.

Definition MaxInt32 : Z := 2 ^ 31 - 1.

(** [computeCapacity] *)
Definition computeCapacity (param : Z) : Z :=
  if param <=? 16 then 16
  else
    let n := param - 1 in
    let n := Z.lor n (Z.shiftr n 1) in
    let n := Z.lor n (Z.shiftr n 2) in
    let n := Z.lor n (Z.shiftr n 4) in
    let n := Z.lor n (Z.shiftr n 8) in
    let n := Z.lor n (Z.shiftr n 16) in
    if n <? 0 then MaxInt32 else int64 (n + 1).

(** [make([]*shard, n)] with every entry a shard with an empty map; a
    negative length panics. *)
Definition make_table (n : Z) : option (list (gmap string V)) :=
  if n <? 0 then None else Some (replicate (Z.to_nat n) ∅).

(** [MakeConcurrent] *)
Definition MakeConcurrent (shardCount : Z) : option ConcurrentDict :=
  if shardCount =? 1 then Some (mkDict [∅] 0 shardCount)
  else
    let shardCount := computeCapacity shardCount in
    table ← make_table shardCount;
    Some (mkDict table 0 shardCount).

(** [spread] *)
Definition spread (dict : ConcurrentDict) (key : string) : Z :=
  if (length (table dict) =? 1)%nat then 0
  else
    let hashCode := Lock.fnv32 key in
    let tableSize := Lock.wrap32 (Z.of_nat (length (table dict))) in
    Z.land (Lock.wrap32 (tableSize - 1)) hashCode.

(** [getShard]; an index outside the table panics. *)
Definition getShard (dict : ConcurrentDict) (index : Z)
    : option (gmap string V) :=
  if index <? 0 then None else table dict !! Z.to_nat index.

(** Storing the map of the shard at [index] back. *)
Definition setShard (dict : ConcurrentDict) (index : Z) (m : gmap string V)
    (count' : Z) : ConcurrentDict :=
  mkDict (<[Z.to_nat index := m]> (table dict)) count' (shardCount dict).

(** [Len] *)
Definition Len (dict : ConcurrentDict) : Z := count dict.

(** [addCount] and [decreaseCount]: [atomic.AddInt32] wraps around. *)
Definition addCount (dict : ConcurrentDict) : Z := int32 (count dict + 1).
Definition decreaseCount (dict : ConcurrentDict) : Z := int32 (count dict - 1).

(** [Put] and [PutWithLock] (the same statements, without the shard lock) *)
Definition Put (dict : ConcurrentDict) (key : string) (val : V)
    : option (ConcurrentDict * Z) :=
  let index := spread dict key in
  s ← getShard dict index;
  match s !! key with
  | Some _ => Some (setShard dict index (<[key := val]> s) (count dict), 0)
  | None => Some (setShard dict index (<[key := val]> s) (addCount dict), 1)
  end.

Definition PutWithLock := Put.

(** [PutIfAbsent] and [PutIfAbsentWithLock] *)
Definition PutIfAbsent (dict : ConcurrentDict) (key : string) (val : V)
    : option (ConcurrentDict * Z) :=
  let index := spread dict key in
  s ← getShard dict index;
  match s !! key with
  | Some _ => Some (dict, 0)
  | None => Some (setShard dict index (<[key := val]> s) (addCount dict), 1)
  end.

Definition PutIfAbsentWithLock := PutIfAbsent.

(** [PutIfExists] and [PutIfExistsWithLock] *)
Definition PutIfExists (dict : ConcurrentDict) (key : string) (val : V)
    : option (ConcurrentDict * Z) :=
  let index := spread dict key in
  s ← getShard dict index;
  match s !! key with
  | Some _ => Some (setShard dict index (<[key := val]> s) (count dict), 1)
  | None => Some (dict, 0)
  end.

Definition PutIfExistsWithLock := PutIfExists.

(** [Remove] and [RemoveWithLock]; the removed value is [nil] on a miss. *)
Definition Remove (dict : ConcurrentDict) (key : string)
    : option (ConcurrentDict * option V * Z) :=
  let index := spread dict key in
  s ← getShard dict index;
  match s !! key with
  | Some val =>
      Some (setShard dict index (delete key s) (decreaseCount dict),
            Some val, 1)
  | None => Some (dict, None, 0)
  end.

Definition RemoveWithLock := Remove.

(** [Clear]: [*dict = *MakeConcurrent(dict.shardCount)] *)
Definition Clear (dict : ConcurrentDict) : option ConcurrentDict :=
  MakeConcurrent (shardCount dict).

(** The operations of the claim, and one step of a sequence of them. *)
Inductive op :=
  | OpPut (key : string) (val : V)
  | OpPutWithLock (key : string) (val : V)
  | OpPutIfAbsent (key : string) (val : V)
  | OpPutIfAbsentWithLock (key : string) (val : V)
  | OpPutIfExists (key : string) (val : V)
  | OpPutIfExistsWithLock (key : string) (val : V)
  | OpRemove (key : string)
  | OpRemoveWithLock (key : string)
  | OpClear.

Definition step (dict : ConcurrentDict) (o : op) : option ConcurrentDict :=
  match o with
  | OpPut k v => fst <$> Put dict k v
  | OpPutWithLock k v => fst <$> PutWithLock dict k v
  | OpPutIfAbsent k v => fst <$> PutIfAbsent dict k v
  | OpPutIfAbsentWithLock k v => fst <$> PutIfAbsentWithLock dict k v
  | OpPutIfExists k v => fst <$> PutIfExists dict k v
  | OpPutIfExistsWithLock k v => fst <$> PutIfExistsWithLock dict k v
  | OpRemove k => (fun r => fst (fst r)) <$> Remove dict k
  | OpRemoveWithLock k => (fun r => fst (fst r)) <$> RemoveWithLock dict k
  | OpClear => Clear dict
  end.

Fixpoint run (dict : ConcurrentDict) (ops : list op) : option ConcurrentDict :=
  match ops with
  | [] => Some dict
  | o :: rest => dict' ← step dict o; run dict' rest
  end.

(** The number of keys stored across all shards. *)
Definition total_keys (dict : ConcurrentDict) : Z :=
  foldr (fun m acc => Z.of_nat (size m) + acc) 0 (table dict).

(** [Get] and [GetWithLock]: [Some v] is the result [(v, true)] and [None]
    the result [(nil, false)]. *)
Definition Get (dict : ConcurrentDict) (key : string)
    : option (option V) :=
  let index := spread dict key in
  s ← getShard dict index;
  Some (s !! key).

Definition GetWithLock := Get.

(** The key set of [indexMap] in [toLockIndices]. *)
Definition indexSet (dict : ConcurrentDict) (keys : list string) : gset Z :=
  list_to_set (map (spread dict) keys).

(** [toLockIndices]: here the slice starts empty,
    [make([]uint32, 0, len(indexMap))]. *)
Definition toLockIndices (dict : ConcurrentDict) (keys : list string)
    (reverse : bool) : list Z :=
  let indexMap := indexSet dict keys in
  Lock.sort_Slice reverse (elements indexMap).

(** The final loops of [RWLocks] and [RWUnLocks], as the mutex calls they
    make; [dict.table[index]] panics outside the table. *)
Fixpoint RWLocks_loop (dict : ConcurrentDict) (writeIndexSet : gset Z)
    (indices : list Z) : option (list Lock.call) :=
  match indices with
  | [] => Some []
  | index :: rest =>
      _ ← getShard dict index;
      calls ← RWLocks_loop dict writeIndexSet rest;
      Some ((if bool_decide (index ∈ writeIndexSet) then Lock.Lock_ index
             else Lock.RLock_ index) :: calls)
  end.

Fixpoint RWUnLocks_loop (dict : ConcurrentDict) (writeIndexSet : gset Z)
    (indices : list Z) : option (list Lock.call) :=
  match indices with
  | [] => Some []
  | index :: rest =>
      _ ← getShard dict index;
      calls ← RWUnLocks_loop dict writeIndexSet rest;
      Some ((if bool_decide (index ∈ writeIndexSet) then Lock.Unlock_ index
             else Lock.RUnlock_ index) :: calls)
  end.

(** [RWLocks] and [RWUnLocks] *)
Definition RWLocks (dict : ConcurrentDict) (writeKeys readKeys : list string)
    : option (list Lock.call) :=
  let keys := writeKeys ++ readKeys in
  let indices := toLockIndices dict keys false in
  let writeIndexSet := indexSet dict writeKeys in
  RWLocks_loop dict writeIndexSet indices.

Definition RWUnLocks (dict : ConcurrentDict)
    (writeKeys readKeys : list string) : option (list Lock.call) :=
  let keys := writeKeys ++ readKeys in
  let indices := toLockIndices dict keys true in
  let writeIndexSet := indexSet dict writeKeys in
  RWUnLocks_loop dict writeIndexSet indices.

End Ops.

Arguments ConcurrentDict : clear implicits.
Arguments op : clear implicits.

End Dict.

(** * Verified properties *)

(** ** cluster/core *)

Module ClusterSpec.
Import Cluster.

Local Open Scope string_scope.

Lemma Index_range (s : string) (c : ascii) :
  Index s c = -1 \/ 0 <= Index s c < Z.of_nat (String.length s).
Proof.
  induction s as [|a t IH]; simpl; [left; reflexivity|].
  destruct (Ascii.eqb a c); [right; lia|].
  destruct (Z.ltb_spec (Index t c) 0); [left; reflexivity | right; lia].
Qed.

(** The first occurrence of [c] in [s ++ c :: t] when [s] has none. *)
Lemma Index_app_absent (s t : string) (c : ascii) :
  Index s c = -1 ->
  Index (s ++ String c t) c = Z.of_nat (String.length s).
Proof.
  induction s as [|a s IH]; simpl.
  - intros _. rewrite Ascii.eqb_refl. reflexivity.
  - destruct (Ascii.eqb a c); [discriminate|].
    destruct (Z.ltb_spec (Index s c) 0) as [Hneg|Hpos]; intros H.
    + destruct (Index_range s c) as [Hm|Hr]; [|lia].
      rewrite (IH Hm).
      destruct (Z.ltb_spec (Z.of_nat (String.length s)) 0); lia.
    + lia.
Qed.

Lemma length_append (s t : string) :
  String.length (s ++ t) = (String.length s + String.length t)%nat.
Proof. induction s as [|a s IH]; simpl; [|rewrite IH]; reflexivity. Qed.

Lemma substring_app_prefix (s t : string) :
  String.substring 0 (String.length s) (s ++ t) = s.
Proof.
  induction s as [|a s IH]; simpl.
  - destruct t; reflexivity.
  - rewrite IH. reflexivity.
Qed.

(** Wrapping a tag without ['}'] between the braces makes it the partition
    key of the wrapped key. *)
Lemma GetPartitionKey_wrapped (pk : string) :
  pk <> "" -> Index pk "}"%char = -1 ->
  GetPartitionKey ("prefix-{" ++ pk ++ "}-suffix") = Some pk.
Proof.
  intros Hne Hno.
  unfold GetPartitionKey.
  assert (Hbeg : Index ("prefix-{" ++ pk ++ "}-suffix") "{"%char = 7)
    by reflexivity.
  rewrite Hbeg.
  assert (Hend : Index ("prefix-{" ++ pk ++ "}-suffix") "}"%char
                 = 8 + Z.of_nat (String.length pk)).
  { change ("prefix-{" ++ pk ++ "}-suffix")
      with (String "p" (String "r" (String "e" (String "f" (String "i"
             (String "x" (String "-" (String "{"
                (pk ++ String "}" "-suffix"))))))))).
    cbn [Index Ascii.eqb Bool.eqb].
    rewrite (Index_app_absent pk "-suffix" "}"%char Hno).
    repeat match goal with
           | |- context [Z.ltb ?a 0] =>
               destruct (Z.ltb_spec a 0); [lia|]
           end.
    lia. }
  rewrite Hend.
  assert (Hlen : (0 < String.length pk)%nat).
  { destruct pk; [congruence | simpl; lia]. }
  change (7 =? -1)%Z with false. cbn [andb orb].
  destruct (Z.eqb_spec (8 + Z.of_nat (String.length pk)) (-1)); [lia|].
  destruct (Z.eqb_spec (8 + Z.of_nat (String.length pk)) (7 + 1)); [lia|].
  cbn [orb]. unfold slice.
  replace (8 + Z.of_nat (String.length pk) - (7 + 1))
    with (Z.of_nat (String.length pk)) by lia.
  rewrite Nat2Z.id.
  rewrite !length_append.
  change (String.length "prefix-{") with 8%nat.
  change (String.length "}-suffix") with 8%nat.
  destruct (Z.leb_spec 0 (7 + 1)); [|lia].
  destruct (Z.leb_spec (7 + 1) (8 + Z.of_nat (String.length pk))); [|lia].
  destruct (Z.leb_spec (8 + Z.of_nat (String.length pk))
              (Z.of_nat (8 + (String.length pk + 8)))); [|lia].
  cbn [andb]. f_equal.
  change (Z.to_nat (7 + 1)) with 8%nat.
  cbn [String.append String.substring].
  apply substring_app_prefix.
Qed.

(** C1, at the key ["}{"]: the first ['}'] stands before the first ['{'],
    the bounds of the slice expression are reversed, and [GetPartitionKey]
    and [GetSlot] panic instead of returning the slot of the whole key. *)
Theorem GetSlot_panics_when_closing_brace_first :
  Index "}{" "{"%char = 1 /\ Index "}{" "}"%char = 0 /\
  GetPartitionKey "}{" = None /\ GetSlot "}{" = None.
Proof. repeat split; reflexivity. Qed.

(** C6 as stated fails: the key ["a}b"] is its own, non-empty partition key,
    and wrapping it gives a key whose tag ends at the first ['}']. *)
Lemma GetSlot_wrapped_counterexample :
  ~ (forall k pk, GetPartitionKey k = Some pk -> pk <> "" ->
       GetSlot k = GetSlot ("prefix-{" ++ pk ++ "}-suffix")).
Proof.
  intros H. specialize (H "a}b" "a}b" eq_refl ltac:(discriminate)).
  vm_compute in H. discriminate.
Qed.

(** C6, amended: for every key [k] whose partition key is non-empty and has
    no ['}'], [GetSlot k] is the slot of ["prefix-{" + pk + "}-suffix"]. *)
Theorem GetSlot_wrapped (k pk : string) :
  GetPartitionKey k = Some pk -> pk <> "" -> Index pk "}"%char = -1 ->
  GetSlot k = GetSlot ("prefix-{" ++ pk ++ "}-suffix").
Proof.
  intros Hk Hne Hno. unfold GetSlot.
  rewrite Hk, (GetPartitionKey_wrapped pk Hne Hno). reflexivity.
Qed.

Lemma GetSlot_wrapped_witness :
  GetSlot "user:{42}:name" = GetSlot ("prefix-{" ++ "42" ++ "}-suffix").
Proof.
  apply (GetSlot_wrapped "user:{42}:name" "42");
    [reflexivity | discriminate | reflexivity].
Defined.

End ClusterSpec.

(** ** lock *)

Module LockSpec.
Import Lock.

Local Open Scope string_scope.

(** Sorting keeps the number of entries. *)
Lemma sort_Slice_length (reverse : bool) (l : list Z) :
  length (sort_Slice reverse l) = length l.
Proof.
  induction l as [|x l IH]; [reflexivity|].
  simpl. rewrite <- IH. generalize (sort_Slice reverse l). clear.
  intros l; induction l as [|y l IH]; simpl; [reflexivity|].
  destruct (less reverse y x); simpl; [rewrite IH|]; reflexivity.
Qed.

(** [toLockIndices] returns twice as many entries as there are shards to
    lock. *)
Lemma toLockIndices_length (locks : Locks) (keys : list string)
    (reverse : bool) :
  length (toLockIndices locks keys reverse)
  = (2 * size (indexSet locks keys))%nat.
Proof.
  unfold toLockIndices.
  rewrite sort_Slice_length, length_app, length_replicate.
  change (length (elements (indexSet locks keys)))
    with (size (indexSet locks keys)).
  lia.
Qed.

(** C2, at a table of 16 shards and the single write key ["a"], which lies
    in shard 14: [toLockIndices] returns the index 0 that no key touches
    before 14, and [RWLocks] read-locks shard 0 before it write-locks shard
    14. *)
Theorem RWLocks_locks_untouched_shard :
  spread (mkLocks 16) (fnv32 "a") = 14 /\
  toLockIndices (mkLocks 16) ["a"] false = [0; 14] /\
  RWLocks (mkLocks 16) ["a"] [] = Some [RLock_ 0; Lock_ 14].
Proof. repeat split; vm_compute; reflexivity. Qed.

End LockSpec.

(** ** datastruct/sortedset: borders and node levels *)

Module BorderSpec.
Import SortedSet.

(** The point of the extended real line that a border denotes: the
    infinity kinds are the infinities, whatever [Value] holds. *)
Definition border_point (b : ScoreBorder) : float64 :=
  if Inf b =? scoreNegativeInf then S754_infinity true
  else if Inf b =? scorePositiveInf then S754_infinity false
  else Value b.

(** The condition of the specification: [min > max], or [min == max] with
    one side exclusive. *)
Definition intersected_spec (min max : ScoreBorder) : bool :=
  SFltb (border_point max) (border_point min)
  || (SFeqb (border_point min) (border_point max)
      && (Exclude min || Exclude max)).

(** The [float64] value [-1]. *)
Definition f64_minus_one : float64 := S754_finite true 4503599627370496 (-52).

(** C5, at the range from negative infinity to the closed border [-1]: the
    range is not empty, yet [isIntersected] compares the zero [Value] of the
    infinite border with [-1] and answers [true]. *)
Theorem isIntersected_ignores_infinity :
  let min := scoreNegativeInfBorder in
  let max := mkScoreBorder 0 f64_minus_one false in
  isIntersected min max = true /\ intersected_spec min max = false /\
  less min (mkElement "m" f64_minus_one) = true /\
  greater max (mkElement "m" f64_minus_one) = true.
Proof. repeat split; reflexivity. Qed.

End BorderSpec.

Module LevelSpec.
Import SortedSet.

Lemma Len64_loop_log2 (fuel : nat) (x : Z) :
  0 < x < 2 ^ Z.of_nat fuel -> Len64_loop fuel x = Z.log2 x + 1.
Proof.
  revert x. induction fuel as [|f IH]; intros x Hx.
  - change (2 ^ Z.of_nat 0) with 1 in Hx. lia.
  - cbn [Len64_loop].
    destruct (Z.eqb_spec x 0) as [->|Hnz]; [lia|].
    rewrite Z.shiftr_div_pow2 by lia. change (2 ^ 1) with 2.
    destruct (Z.eq_dec x 1) as [->|Hx1].
    + change (1 / 2) with 0. destruct f; reflexivity.
    + assert (Hlog : Z.log2 x = Z.log2 (x / 2) + 1).
      { replace (x / 2) with (Z.shiftr x 1)
          by (rewrite Z.shiftr_div_pow2 by lia; reflexivity).
        rewrite Z.log2_shiftr by lia.
        assert (1 <= Z.log2 x) by (apply (Z.log2_le_mono 2 x); lia).
        lia. }
      rewrite IH; [lia|].
      split; [apply Z.div_str_pos; lia|].
      apply Z.div_lt_upper_bound; [lia|].
      rewrite Nat2Z.inj_succ, Z.pow_succ_r in Hx by lia. lia.
Qed.

Lemma Len64_log2 (x : Z) : 0 < x < 2 ^ 64 -> Len64 x = Z.log2 x + 1.
Proof. intros Hx. apply (Len64_loop_log2 64). exact Hx. Qed.

(** The levels that [randomLevel] draws fit the header's [level] slice. *)
Lemma randomLevel_range (u : Z) : 1 <= randomLevel u <= maxLevel.
Proof.
  unfold randomLevel, maxLevel. change (Z.shiftl 1 16 - 1) with 65535.
  assert (Hk : 0 <= u mod 65535 < 65535) by (apply Z.mod_pos_bound; lia).
  rewrite Len64_log2 by lia.
  assert (0 <= Z.log2 (u mod 65535 + 1)) by apply Z.log2_nonneg.
  assert (Z.log2 (u mod 65535 + 1) < 16)
    by (apply Z.log2_lt_pow2; lia).
  lia.
Qed.

(** C7 as stated fails: for the drawn value [0] the code returns level 16,
    the formula of the claim gives 17. *)
Lemma randomLevel_counterexample :
  ~ (forall u, 0 <= u < 2 ^ 64 ->
       randomLevel u = maxLevel - Z.log2 (u mod (2 ^ maxLevel - 1) + 1) + 1).
Proof. intros H. specialize (H 0 ltac:(lia)). vm_compute in H. discriminate. Qed.

(** C7, amended: for every drawn 64-bit value [u], [randomLevel] returns
    [maxLevel - floor(log2(u mod (2^maxLevel - 1) + 1))] with
    [maxLevel = 16], a level between 1 and [maxLevel]. *)
Theorem randomLevel_formula (u : Z) :
  0 <= u < 2 ^ 64 ->
  randomLevel u = maxLevel - Z.log2 (u mod (2 ^ maxLevel - 1) + 1) /\
  maxLevel = 16 /\ 1 <= randomLevel u <= maxLevel.
Proof.
  intros _. split; [|split; [reflexivity | apply randomLevel_range]].
  unfold randomLevel, maxLevel. change (Z.shiftl 1 16 - 1) with 65535.
  change (2 ^ 16 - 1) with 65535.
  assert (Hk : 0 <= u mod 65535 < 65535) by (apply Z.mod_pos_bound; lia).
  rewrite Len64_log2 by lia. lia.
Qed.

Lemma randomLevel_formula_witness :
  randomLevel 40000 = maxLevel - Z.log2 (40000 mod (2 ^ maxLevel - 1) + 1) /\
  maxLevel = 16 /\ 1 <= randomLevel 40000 <= maxLevel.
Proof. apply (randomLevel_formula 40000). lia. Defined.

End LevelSpec.

(** ** datastruct/sortedset: the skip list *)

Module SkiplistSpec.
Import SortedSet.

Local Open Scope Z_scope.

(** *** The order of [float64] scores *)

Definition nan (x : float64) : bool :=
  match x with S754_nan => true | _ => false end.

(** A key in [Z * Z * Z] whose lexicographic order is the order of the
    scores that are not NaN; both zeros have the same key. *)
Definition fkey (x : float64) : Z * Z * Z :=
  match x with
  | S754_infinity true => (-2, 0, 0)
  | S754_finite true m e => (-1, - e, - Z.pos m)
  | S754_zero _ | S754_nan => (0, 0, 0)
  | S754_finite false m e => (1, e, Z.pos m)
  | S754_infinity false => (2, 0, 0)
  end.

Definition klt (a b : Z * Z * Z) : Prop :=
  a.1.1 < b.1.1 \/
  (a.1.1 = b.1.1 /\ (a.1.2 < b.1.2 \/ (a.1.2 = b.1.2 /\ a.2 < b.2))).

Definition keq (a b : Z * Z * Z) : Prop :=
  a.1.1 = b.1.1 /\ a.1.2 = b.1.2 /\ a.2 = b.2.

Ltac float_cases :=
  repeat match goal with
         | |- context [Z.compare ?a ?b] => destruct (Z.compare_spec a b)
         | |- context [Pos.compare_cont Eq ?a ?b] =>
             change (Pos.compare_cont Eq a b) with (Pos.compare a b);
             destruct (Pos.compare_spec a b)
         end;
  simpl;
  (split; [try discriminate; intros _ | intros (? & ? & ?)]);
  try lia; repeat split; try reflexivity; try lia.

Lemma SFltb_key (x y : float64) :
  SFltb x y = true <-> nan x = false /\ nan y = false /\ klt (fkey x) (fkey y).
Proof.
  unfold SFltb, klt.
  destruct x as [sx|sx| |sx mx ex], y as [sy|sy| |sy my ey];
    try destruct sx; try destruct sy; simpl; float_cases.
Qed.

Lemma SFeqb_key (x y : float64) :
  SFeqb x y = true <-> nan x = false /\ nan y = false /\ keq (fkey x) (fkey y).
Proof.
  unfold SFeqb, keq.
  destruct x as [sx|sx| |sx mx ex], y as [sy|sy| |sy my ey];
    try destruct sx; try destruct sy; simpl; float_cases.
Qed.

Ltac score_order :=
  repeat match goal with
         | H : SFltb _ _ = false |- _ => apply not_true_iff_false in H
         | H : SFeqb _ _ = false |- _ => apply not_true_iff_false in H
         | |- SFltb _ _ = false => apply not_true_iff_false; intros ?
         | |- SFeqb _ _ = false => apply not_true_iff_false; intros ?
         end;
  rewrite ?SFltb_key, ?SFeqb_key in *; unfold klt, keq in *;
  repeat match goal with
         | |- context [fkey ?x] =>
             let k := fresh "k" in
             destruct (fkey x) as [[? ?] ?] eqn:k; clear k
         | H : context [fkey ?x] |- _ =>
             let k := fresh "k" in
             destruct (fkey x) as [[? ?] ?] eqn:k; clear k
         end;
  simpl in *; intuition (try congruence; try lia).

Lemma flt_trans (a b c : float64) :
  SFltb a b = true -> SFltb b c = true -> SFltb a c = true.
Proof. intros. score_order. Qed.

Lemma flt_eq (a b c : float64) :
  SFltb a b = true -> SFeqb b c = true -> SFltb a c = true.
Proof. intros. score_order. Qed.

Lemma feq_lt (a b c : float64) :
  SFeqb a b = true -> SFltb b c = true -> SFltb a c = true.
Proof. intros. score_order. Qed.

Lemma feq_trans (a b c : float64) :
  SFeqb a b = true -> SFeqb b c = true -> SFeqb a c = true.
Proof. intros. score_order. Qed.

Lemma feq_sym (a b : float64) : SFeqb a b = true -> SFeqb b a = true.
Proof. intros. score_order. Qed.

Lemma feq_refl (a : float64) : nan a = false -> SFeqb a a = true.
Proof. intros. score_order. Qed.

Lemma flt_total (a b : float64) :
  nan a = false -> nan b = false -> SFltb a b = false ->
  SFltb b a = true \/ SFeqb b a = true.
Proof.
  intros Ha Hb H. apply not_true_iff_false in H.
  rewrite !SFltb_key, !SFeqb_key in *. unfold klt, keq in *.
  destruct (fkey a) as [[a1 a2] a3], (fkey b) as [[b1 b2] b3]. simpl in *.
  assert (Hn : ~ (a1 < b1 \/ a1 = b1 /\ (a2 < b2 \/ a2 = b2 /\ a3 < b3)))
    by tauto.
  assert (b1 < a1 \/ b1 = a1 /\ (b2 < a2 \/ b2 = a2 /\ b3 < a3)
          \/ (b1 = a1 /\ b2 = a2 /\ b3 = a3)) as [?|[?|?]] by lia; tauto.
Qed.

Lemma flt_not_eq (a b : float64) :
  SFltb a b = true -> SFeqb a b = false /\ SFeqb b a = false
                      /\ SFltb b a = false.
Proof. intros. repeat split; score_order. Qed.

Lemma flt_nan (a b : float64) :
  SFltb a b = true -> nan a = false /\ nan b = false.
Proof. rewrite SFltb_key. tauto. Qed.

Lemma feq_nan (a b : float64) :
  SFeqb a b = true -> nan a = false /\ nan b = false.
Proof. rewrite SFeqb_key. tauto. Qed.

(** *** The order of members: Go compares strings byte by byte *)

Lemma ascii_compare_refl (a : ascii) : Ascii.compare a a = Eq.
Proof. apply N.compare_refl. Qed.

Lemma string_compare_refl (s : string) : String.compare s s = Eq.
Proof.
  induction s as [|a s IH]; simpl; [reflexivity|].
  rewrite ascii_compare_refl. exact IH.
Qed.

Lemma string_compare_lt_trans (a b c : string) :
  String.compare a b = Lt -> String.compare b c = Lt ->
  String.compare a c = Lt.
Proof.
  revert b c. induction a as [|x a IH]; intros [|y b] [|z c]; simpl;
    try discriminate; try reflexivity.
  unfold Ascii.compare.
  destruct (N.compare_spec (N_of_ascii x) (N_of_ascii y)) as [Hxy|Hxy|Hxy];
    destruct (N.compare_spec (N_of_ascii y) (N_of_ascii z)) as [Hyz|Hyz|Hyz];
    try discriminate; intros H1 H2.
  - rewrite Hxy, Hyz, N.compare_refl. eapply IH; eauto.
  - rewrite Hxy. apply N.compare_lt_iff in Hyz. rewrite Hyz. reflexivity.
  - rewrite <- Hyz. apply N.compare_lt_iff in Hxy. rewrite Hxy. reflexivity.
  - assert (Hxz : (N_of_ascii x < N_of_ascii z)%N) by lia.
    apply N.compare_lt_iff in Hxz. rewrite Hxz. reflexivity.
Qed.

Lemma sltb_leb (a b : string) : String.ltb a b = true -> String.leb a b = true.
Proof. unfold String.ltb, String.leb. destruct (String.compare a b); auto. Qed.

Lemma sleb_trans (a b c : string) :
  String.leb a b = true -> String.leb b c = true -> String.leb a c = true.
Proof.
  unfold String.leb.
  destruct (String.compare a b) eqn:Hab; try discriminate;
    destruct (String.compare b c) eqn:Hbc; try discriminate; intros _ _.
  - apply String.compare_eq_iff in Hab, Hbc. subst.
    rewrite string_compare_refl. reflexivity.
  - apply String.compare_eq_iff in Hab. subst. rewrite Hbc. reflexivity.
  - apply String.compare_eq_iff in Hbc. subst. rewrite Hab. reflexivity.
  - rewrite (string_compare_lt_trans a b c Hab Hbc). reflexivity.
Qed.

Lemma sltb_total (a b : string) :
  String.ltb a b = false -> String.leb b a = true.
Proof.
  unfold String.ltb, String.leb. rewrite (String.compare_antisym b a).
  destruct (String.compare a b); simpl; intros H;
    [reflexivity | discriminate H | reflexivity].
Qed.

Lemma sleb_split (a b : string) :
  String.leb a b = String.ltb a b || String.eqb a b.
Proof.
  unfold String.leb, String.ltb.
  destruct (String.compare a b) eqn:H.
  - apply String.compare_eq_iff in H. subst. rewrite String.eqb_refl.
    reflexivity.
  - reflexivity.
  - destruct (String.eqb a b) eqn:E; [|reflexivity].
    apply String.eqb_eq in E. subst.
    rewrite string_compare_refl in H. discriminate.
Qed.

Lemma sltb_irrefl (a : string) : String.ltb a a = false.
Proof. unfold String.ltb. rewrite string_compare_refl. reflexivity. Qed.

Lemma sleb_refl (a : string) : String.leb a a = true.
Proof. unfold String.leb. rewrite string_compare_refl. reflexivity. Qed.

(** *** The order of elements: by score, then by member *)

(** [a] is not after [b], and [a] is strictly before [b], as the descents
    of [getRank] and [insert] test them. *)
Definition ele (a b : Element) : bool := upto (Score b) (Member b) a.
Definition elt (a b : Element) : bool := before (Score b) (Member b) a.

(** The same element under Go's [==] on its two fields. *)
Definition same (score : float64) (member : string) (e : Element) : bool :=
  SFeqb (Score e) score && String.eqb (Member e) member.

Lemma elt_ele (a b : Element) : elt a b = true -> ele a b = true.
Proof.
  unfold elt, ele, before, upto.
  intros [H|[H1 H2]%andb_true_iff]%orb_true_iff; rewrite ?H, ?H1; simpl;
    [reflexivity|].
  rewrite (sltb_leb _ _ H2). apply orb_true_r.
Qed.

Lemma ele_trans (a b c : Element) :
  ele a b = true -> ele b c = true -> ele a c = true.
Proof.
  unfold ele, upto.
  intros [H1|[H1 M1]%andb_true_iff]%orb_true_iff
         [H2|[H2 M2]%andb_true_iff]%orb_true_iff.
  - rewrite (flt_trans _ _ _ H1 H2). reflexivity.
  - rewrite (flt_eq _ _ _ H1 H2). reflexivity.
  - rewrite (feq_lt _ _ _ H1 H2). reflexivity.
  - rewrite (feq_trans _ _ _ H1 H2), (sleb_trans _ _ _ M1 M2).
    apply orb_true_r.
Qed.

Lemma ele_total (a b : Element) :
  nan (Score a) = false -> nan (Score b) = false ->
  elt a b = false -> ele b a = true.
Proof.
  unfold elt, ele, before, upto. intros Ha Hb H.
  apply orb_false_iff in H as [Hlt H].
  destruct (flt_total _ _ Ha Hb Hlt) as [Hgt|Heq].
  - rewrite Hgt. reflexivity.
  - rewrite Heq. rewrite (feq_sym _ _ Heq) in H. simpl in H.
    rewrite (sltb_total _ _ H). apply orb_true_r.
Qed.

Lemma ele_refl (a : Element) : nan (Score a) = false -> ele a a = true.
Proof.
  intros Ha. unfold ele, upto. rewrite (feq_refl _ Ha), sleb_refl.
  apply orb_true_r.
Qed.

Lemma ele_antisym (a b : Element) :
  ele a b = true -> ele b a = true ->
  SFeqb (Score a) (Score b) = true /\ Member a = Member b.
Proof.
  unfold ele, upto.
  intros [H1|[H1 M1]%andb_true_iff]%orb_true_iff
         [H2|[H2 M2]%andb_true_iff]%orb_true_iff.
  - destruct (flt_not_eq _ _ H1) as (_ & _ & Hn). congruence.
  - destruct (flt_not_eq _ _ H1) as (_ & Hn & _). congruence.
  - destruct (flt_not_eq _ _ H2) as (_ & Hn & _). congruence.
  - split; [exact H1 | apply String.leb_antisym; assumption].
Qed.

(** [upto] holds of the elements strictly before and of the element
    itself. *)
Lemma upto_split (score : float64) (member : string) (e : Element) :
  upto score member e = before score member e || same score member e.
Proof.
  unfold upto, before, same. rewrite sleb_split.
  destruct (SFltb (Score e) score), (SFeqb (Score e) score),
    (String.ltb (Member e) member), (String.eqb (Member e) member);
    reflexivity.
Qed.

Lemma before_not_same (score : float64) (member : string) (e : Element) :
  before score member e = true -> same score member e = false.
Proof.
  unfold before, same.
  intros [H|[H1 H2]%andb_true_iff]%orb_true_iff.
  - destruct (flt_not_eq _ _ H) as (-> & _ & _). reflexivity.
  - destruct (String.eqb (Member e) member) eqn:E; [|apply andb_false_r].
    apply String.eqb_eq in E. rewrite E, sltb_irrefl in H2. discriminate.
Qed.

(** *** The store: reading and writing level entries *)

Definition get_elem (h : list node) (y : ptr) : option Element :=
  elem <$> h !! y.

(** [h'] has the nodes of [h] with the same elements. *)
Definition same_elems (h h' : list node) : Prop :=
  length h' = length h /\ forall y, get_elem h' y = get_elem h y.

Lemma same_elems_refl h : same_elems h h.
Proof. split; auto. Qed.

Lemma same_elems_trans h1 h2 h3 :
  same_elems h1 h2 -> same_elems h2 h3 -> same_elems h1 h3.
Proof.
  intros [L1 E1] [L2 E2]. split; [congruence|].
  intros y. rewrite E2. apply E1.
Qed.

Lemma setLevel_spec h x i lv0 lv :
  getLevel h x i = Some lv0 ->
  exists h', setLevel h x i lv = Some h' /\ same_elems h h' /\
    forall y j, getLevel h' y j
                = if decide (y = x /\ j = i) then Some lv else getLevel h y j.
Proof.
  unfold getLevel, setLevel. intros H.
  destruct (h !! x) as [nd|] eqn:Hx; simpl in *; [|discriminate].
  rewrite H. simpl. eexists. split; [reflexivity|].
  assert (Hlt : (x < length h)%nat) by (eapply lookup_lt_Some; eauto).
  assert (Hi : (i < length (level nd))%nat) by (eapply lookup_lt_Some; eauto).
  split; [split|].
  - apply length_insert.
  - intros y. unfold get_elem.
    destruct (decide (y = x)) as [->|Hne].
    + rewrite list_lookup_insert_eq by exact Hlt. rewrite Hx. reflexivity.
    + rewrite list_lookup_insert_ne by congruence. reflexivity.
  - intros y j. destruct (decide (y = x)) as [->|Hne].
    + rewrite list_lookup_insert_eq by exact Hlt. simpl.
      destruct (decide (j = i)) as [->|Hji].
      * rewrite list_lookup_insert_eq by exact Hi.
        rewrite decide_True by auto. reflexivity.
      * rewrite list_lookup_insert_ne by congruence.
        rewrite decide_False by tauto. rewrite Hx. reflexivity.
    + rewrite list_lookup_insert_ne by congruence.
      rewrite decide_False by tauto. reflexivity.
Qed.

Lemma set_span_spec h x i lv0 v :
  getLevel h x i = Some lv0 ->
  exists h', set_span h x i v = Some h' /\ same_elems h h' /\
    forall y j, getLevel h' y j
                = if decide (y = x /\ j = i)
                  then Some (mkLevel (forward lv0) v) else getLevel h y j.
Proof.
  intros H. unfold set_span. rewrite H. simpl.
  apply (setLevel_spec h x i lv0 _ H).
Qed.

Lemma set_forward_spec h x i lv0 v :
  getLevel h x i = Some lv0 ->
  exists h', set_forward h x i v = Some h' /\ same_elems h h' /\
    forall y j, getLevel h' y j
                = if decide (y = x /\ j = i)
                  then Some (mkLevel v (span lv0)) else getLevel h y j.
Proof.
  intros H. unfold set_forward. rewrite H. simpl.
  apply (setLevel_spec h x i lv0 _ H).
Qed.

Lemma set_backward_spec h x v :
  is_Some (h !! x) ->
  exists h', set_backward h x v = Some h' /\ same_elems h h' /\
    forall y j, getLevel h' y j = getLevel h y j.
Proof.
  intros [nd Hx]. unfold set_backward. rewrite Hx. simpl.
  eexists. split; [reflexivity|].
  assert (Hlt : (x < length h)%nat) by (eapply lookup_lt_Some; eauto).
  split; [split|].
  - apply length_insert.
  - intros y. unfold get_elem. destruct (decide (y = x)) as [->|Hne].
    + rewrite list_lookup_insert_eq by exact Hlt. rewrite Hx. reflexivity.
    + rewrite list_lookup_insert_ne by congruence. reflexivity.
  - intros y j. unfold getLevel. destruct (decide (y = x)) as [->|Hne].
    + rewrite list_lookup_insert_eq by exact Hlt. rewrite Hx. reflexivity.
    + rewrite list_lookup_insert_ne by congruence. reflexivity.
Qed.

Lemma get_elem_is_Some h y e : get_elem h y = Some e -> is_Some (h !! y).
Proof. unfold get_elem. destruct (h !! y); [eauto | discriminate]. Qed.

Lemma store_spec {A} (l : list A) (i : nat) (v : A) :
  (i < length l)%nat -> store l i v = Some (<[i := v]> l).
Proof. intros H. unfold store. rewrite decide_True by exact H. reflexivity. Qed.

(** *** The abstract list of nodes *)

(** A node of the list as the invariant sees it: where it lies in the
    store, how many levels it takes part in, and its element. *)
Record anode := mkA { aptr : ptr; aht : nat; ael : Element }.

(** The first node of [suf] that has a level [j], and the number of
    level-0 steps that lead to it (the length of [suf] when there is
    none). *)
Fixpoint nexta (j : nat) (suf : list anode) : option anode :=
  match suf with
  | [] => None
  | a :: t => if decide (j < aht a)%nat then Some a else nexta j t
  end.

Fixpoint skip (j : nat) (suf : list anode) : nat :=
  match suf with
  | [] => 0
  | a :: t => if decide (j < aht a)%nat then 1 else S (skip j t)
  end.

Definition entry (j : nat) (suf : list anode) : Level :=
  mkLevel (aptr <$> nexta j suf) (Z.of_nat (skip j suf)).

Lemma nexta_Some j suf b :
  nexta j suf = Some b ->
  exists d, suf !! d = Some b /\ skip j suf = S d /\ (j < aht b)%nat /\
    forall d' b', (d' < d)%nat -> suf !! d' = Some b' -> (aht b' <= j)%nat.
Proof.
  induction suf as [|a t IH]; simpl; [discriminate|].
  destruct (decide (j < aht a)%nat) as [Hlt|Hge].
  - intros [= ->]. exists 0%nat.
    split; [reflexivity|]. split; [reflexivity|]. split; [exact Hlt|].
    intros; lia.
  - intros H. destruct (IH H) as (d & Hd & Hs & Hb & Hlow).
    exists (S d).
    split; [exact Hd|]. split; [lia|]. split; [exact Hb|].
    intros [|d'] b' Hlt; simpl; [intros [= <-]; lia|].
    intros Hb'. eapply Hlow; eauto. lia.
Qed.

Lemma nexta_None j suf :
  nexta j suf = None ->
  skip j suf = length suf /\
  forall d b, suf !! d = Some b -> (aht b <= j)%nat.
Proof.
  induction suf as [|a t IH]; simpl.
  - intros _. split; [reflexivity|]. intros d b H. destruct d; discriminate.
  - destruct (decide (j < aht a)%nat) as [Hlt|Hge]; [discriminate|].
    intros H. destruct (IH H) as [Hs Hlow]. split; [lia|].
    intros [|d] b; simpl; [intros [= <-]; lia | apply Hlow].
Qed.

Lemma nexta_app_low j mid l :
  (forall d b, mid !! d = Some b -> (aht b <= j)%nat) ->
  nexta j (mid ++ l) = nexta j l /\
  skip j (mid ++ l) = (length mid + skip j l)%nat.
Proof.
  induction mid as [|a t IH]; intros Hlow; simpl; [auto|].
  pose proof (Hlow 0%nat a eq_refl).
  rewrite !decide_False by lia.
  destruct IH as [-> ->]; [|auto].
  intros d b Hd. apply (Hlow (S d) b Hd).
Qed.

Lemma nexta_app_high j mid l d b :
  mid !! d = Some b -> (j < aht b)%nat ->
  nexta j (mid ++ l) = nexta j mid /\ skip j (mid ++ l) = skip j mid.
Proof.
  revert d. induction mid as [|a t IH]; intros d Hd Hb; [destruct d; discriminate|].
  simpl. destruct (decide (j < aht a)%nat); [auto|].
  destruct d as [|d]; simpl in Hd; [injection Hd as ->; lia|].
  destruct (IH d Hd Hb) as [-> ->]. auto.
Qed.

(** *** Descending through a well-linked store *)

(** Every node of the chain [ch] (the header first) carries its element,
    and its entry at each of its levels points to the next node that has
    that level, over the right number of level-0 steps. *)
Definition links (h : list node) (ch : list anode) : Prop :=
  forall p a, ch !! p = Some a ->
    get_elem h (aptr a) = Some (ael a) /\
    forall j, (j < aht a)%nat ->
      getLevel h (aptr a) j = Some (entry j (drop (S p) ch)).

Section Search.

Variable h : list node.
Variable ch : list anode.
Variable P : Element -> bool.

Hypothesis Hlinks : links h ch.
Hypothesis Hpos : forall p a, ch !! S p = Some a -> (1 <= aht a)%nat.

Let test : Z -> Level -> Element -> bool := fun _ _ e => P e.

Lemma walk_spec (fuel j p : nat) (a : anode) (r : Z) :
  ch !! p = Some a -> (j < aht a)%nat -> (length ch - p < fuel)%nat ->
  exists p' a',
    walk fuel h test j (aptr a) r = Some (aptr a', r + Z.of_nat (p' - p)) /\
    (p <= p')%nat /\ ch !! p' = Some a' /\ (j < aht a')%nat /\
    (p' = p \/ P (ael a') = true) /\
    (forall b, nexta j (drop (S p') ch) = Some b -> P (ael b) = false) /\
    (forall q b, (p < q)%nat -> ch !! q = Some b -> (j < aht b)%nat ->
                 P (ael b) = false -> (p' < q)%nat).
Proof.
  revert p a r. induction fuel as [|f IH]; intros p a r Hp Hj Hfuel; [lia|].
  cbn [walk]. destruct (Hlinks p a Hp) as [_ Hlv]. rewrite (Hlv j Hj).
  cbn [mbind option_bind entry forward span].
  destruct (nexta j (drop (S p) ch)) as [b0|] eqn:Hn; cbn [fmap option_fmap option_map].
  - destruct (nexta_Some _ _ _ Hn) as (d & Hd & Hs & Hb0 & Hlow).
    rewrite lookup_drop in Hd.
    destruct (Hlinks _ b0 Hd) as [He0 _].
    unfold get_elem in He0.
    destruct (h !! aptr b0) as [nd|] eqn:Hnd; [|discriminate].
    injection He0 as He0. cbn [mbind option_bind]. unfold test at 1.
    rewrite He0. destruct (P (ael b0)) eqn:HP.
    + assert (Hlen : (S p + d < length ch)%nat)
        by (eapply lookup_lt_Some; eauto).
      destruct (IH (S p + d)%nat b0 (r + Z.of_nat (skip j (drop (S p) ch)))
                  Hd Hb0 ltac:(lia))
        as (p' & a' & Hw & Hle & Hp' & Hj' & Hor & Hstop & Hbound).
      exists p', a'. rewrite Hw, Hs.
      split; [f_equal; f_equal; lia|].
      split; [lia|]. split; [exact Hp'|]. split; [exact Hj'|].
      split; [right; destruct Hor as [->|]; [rewrite Hd in Hp'; congruence | assumption]|].
      split; [exact Hstop|].
      intros q b Hq Hqb Hjb HPb. apply (Hbound q b); auto.
      destruct (decide (q < S p + d)%nat) as [Hlt|Hge].
      * assert (Hlo := Hlow (q - S p)%nat b ltac:(lia)).
        rewrite lookup_drop in Hlo.
        replace (S p + (q - S p))%nat with q in Hlo by lia.
        specialize (Hlo Hqb). lia.
      * destruct (decide (q = S p + d)%nat) as [->|]; [|lia].
        rewrite Hd in Hqb. congruence.
    + exists p, a. replace (p - p)%nat with 0%nat by lia.
      split; [f_equal; f_equal; lia|].
      split; [lia|]. split; [exact Hp|]. split; [exact Hj|].
      split; [left; reflexivity|].
      split; [intros b Hb; rewrite Hn in Hb; congruence|].
      intros; lia.
  - exists p, a. replace (p - p)%nat with 0%nat by lia.
    split; [f_equal; f_equal; lia|].
    split; [lia|]. split; [exact Hp|]. split; [exact Hj|].
    split; [left; reflexivity|].
    split; [intros b Hb; rewrite Hn in Hb; discriminate|].
    intros; lia.
Qed.

(** What a descent through [k] levels from position [p] finds: the final
    position [c] and, per level [j < k], the last node [update[j]] of that
    level at or before [c] with its position [rank[j]]. *)
Definition found (k p c : nat) (update : list (option ptr)) (rank : list Z)
    : Prop :=
  forall j, (j < k)%nat ->
    exists pj uj,
      update !! j = Some (Some (aptr uj)) /\ rank !! j = Some (Z.of_nat pj) /\
      ch !! pj = Some uj /\ (p <= pj <= c)%nat /\ (j < aht uj)%nat /\
      forall q b, (pj < q <= c)%nat -> ch !! q = Some b -> (aht b <= j)%nat.

Lemma descend_spec (fuel k : nat) :
  (length ch < fuel)%nat ->
  forall p a update rank,
    ch !! p = Some a -> (k <= aht a)%nat ->
    (k <= length update)%nat -> (k <= length rank)%nat ->
    exists c ac update' rank',
      descend fuel h test k (aptr a) (Z.of_nat p) update rank
        = Some (aptr ac, Z.of_nat c, update', rank') /\
      (p <= c)%nat /\ ch !! c = Some ac /\
      (c = p \/ P (ael ac) = true) /\
      (k = 0%nat -> c = p) /\
      ((1 <= k)%nat -> forall b, ch !! S c = Some b -> P (ael b) = false) /\
      (forall q b, (p < q)%nat -> ch !! q = Some b -> (k <= aht b)%nat ->
                   P (ael b) = false -> (c < q)%nat) /\
      length update' = length update /\ length rank' = length rank /\
      found k p c update' rank' /\
      (forall j, (k <= j)%nat ->
         update' !! j = update !! j /\ rank' !! j = rank !! j).
Proof.
  intros Hfuel. induction k as [|i IH]; intros p a update rank Hp Hk Hu Hr.
  - exists p, a, update, rank. cbn [descend].
    split; [reflexivity|]. split; [lia|]. split; [exact Hp|].
    split; [left; reflexivity|]. split; [reflexivity|]. split; [lia|].
    split; [intros; lia|]. split; [reflexivity|]. split; [reflexivity|].
    split; [intros j Hj; lia|]. intros; split; reflexivity.
  - cbn [descend].
    destruct (walk_spec fuel i p a (Z.of_nat p) Hp ltac:(lia) ltac:(lia))
      as (p1 & a1 & Hw & Hle1 & Hp1 & Hj1 & Hor1 & Hstop1 & Hbound1).
    rewrite Hw. cbn [mbind option_bind].
    rewrite (store_spec rank i) by lia. cbn [mbind option_bind].
    rewrite (store_spec update i) by lia. cbn [mbind option_bind].
    replace (Z.of_nat p + Z.of_nat (p1 - p)) with (Z.of_nat p1) by lia.
    destruct (IH p1 a1 (<[i := Some (aptr a1)]> update)
                (<[i := Z.of_nat p1]> rank) Hp1 ltac:(lia)
                ltac:(rewrite length_insert; lia)
                ltac:(rewrite length_insert; lia))
      as (c & ac & u' & r' & Hd & Hle & Hc & Hor & Hzero & Hstop & Hbound
          & Hlu & Hlr & Hfound & Hrest).
    rewrite length_insert in Hlu. rewrite length_insert in Hlr.
    assert (Hlow : forall q b, (p1 < q <= c)%nat -> ch !! q = Some b ->
                               (aht b <= i)%nat).
    { intros q b Hq Hqb.
      destruct (decide (aht b <= i)%nat) as [|Hhigh]; [assumption|exfalso].
      destruct (nexta i (drop (S p1) ch)) as [b0|] eqn:Hn.
      - destruct (nexta_Some _ _ _ Hn) as (d & Hd0 & _ & Hb0 & Hlow0).
        rewrite lookup_drop in Hd0.
        assert (c < S p1 + d)%nat
          by (apply (Hbound (S p1 + d)%nat b0 ltac:(lia) Hd0 ltac:(lia));
              apply Hstop1; reflexivity).
        assert (Hlo := Hlow0 (q - S p1)%nat b ltac:(lia)).
        rewrite lookup_drop in Hlo.
        replace (S p1 + (q - S p1))%nat with q in Hlo by lia.
        specialize (Hlo Hqb). lia.
      - destruct (nexta_None _ _ Hn) as [_ Hall].
        specialize (Hall (q - S p1)%nat b). rewrite lookup_drop in Hall.
        replace (S p1 + (q - S p1))%nat with q in Hall by lia.
        specialize (Hall Hqb). lia. }
    exists c, ac, u', r'. split; [exact Hd|]. split; [lia|].
    split; [exact Hc|].
    split.
    { destruct Hor as [->|HP]; [|right; exact HP].
      destruct Hor1 as [->|HP]; [left; reflexivity|].
      right. rewrite Hp1 in Hc. congruence. }
    split; [intros; lia|].
    split.
    { intros _ b Hb. destruct i as [|i'].
      - rewrite (Hzero eq_refl) in Hb. apply Hstop1.
        rewrite (drop_S _ _ _ Hb). cbn [nexta].
        pose proof (Hpos _ _ Hb). rewrite decide_True by lia. reflexivity.
      - apply Hstop; [lia | exact Hb]. }
    split.
    { intros q b Hq Hqb Hhigh HP.
      assert (p1 < q)%nat by (apply (Hbound1 q b); auto; lia).
      apply (Hbound q b); auto; lia. }
    split; [exact Hlu|]. split; [exact Hlr|].
    split.
    { intros j Hj. destruct (decide (j = i)) as [->|Hne].
      - exists p1, a1. destruct (Hrest i ltac:(lia)) as [-> ->].
        rewrite !list_lookup_insert_eq by lia.
        split; [reflexivity|]. split; [reflexivity|].
        split; [exact Hp1|]. split; [lia|]. split; [exact Hj1|].
        exact Hlow.
      - destruct (Hfound j ltac:(lia))
          as (pj & uj & Hu1 & Hr1 & Hpj & Hrange & Hhj & Hlowj).
        exists pj, uj. repeat (split; [assumption || lia|]). exact Hlowj. }
    intros j Hj. destruct (Hrest j ltac:(lia)) as [-> ->].
    rewrite !list_lookup_insert_ne by lia. split; reflexivity.
Qed.

End Search.

(** *** The representation invariant *)

(** The skip list [sl] holds the nodes [ns] in this order behind the header
    [hd]; the height of [hd] is the current level of the list. *)
Record Rep (sl : skiplist) (hd : anode) (ns : list anode) : Prop := mkRep {
  rep_header : aptr hd = sl_header sl;
  rep_level : sl_level sl = Z.of_nat (aht hd);
  rep_level_range : (1 <= aht hd <= 16)%nat;
  rep_nodup : NoDup (aptr <$> hd :: ns);
  rep_links : links (sl_heap sl) (hd :: ns);
  rep_top : forall j, (aht hd <= j < 16)%nat ->
      exists lv, getLevel (sl_heap sl) (aptr hd) j = Some lv /\
                 forward lv = None;
  rep_heights : forall p a, ns !! p = Some a -> (1 <= aht a <= aht hd)%nat;
  rep_length : sl_length sl = Z.of_nat (length ns)
}.

Lemma links_valid h ch p a :
  links h ch -> ch !! p = Some a -> (aptr a < length h)%nat.
Proof.
  intros Hl Hp. destruct (Hl p a Hp) as [He _].
  apply get_elem_is_Some in He. destruct He as [nd He].
  eapply lookup_lt_Some; eauto.
Qed.

Lemma links_fuel h ch :
  links h ch -> NoDup (aptr <$> ch) -> (length ch < fuel_of h)%nat.
Proof.
  intros Hl Hnd. unfold fuel_of.
  assert (Hsub : (aptr <$> ch) ⊆+ seq 0 (length h)).
  { apply NoDup_submseteq; [exact Hnd|].
    intros y (a & -> & Ha)%list_elem_of_fmap.
    apply list_elem_of_lookup in Ha as [p Hp].
    apply elem_of_seq. pose proof (links_valid h ch p a Hl Hp). lia. }
  apply submseteq_length in Hsub.
  rewrite length_fmap, length_seq in Hsub. lia.
Qed.

Lemma nodup_pos (ch : list anode) p q a b :
  NoDup (aptr <$> ch) -> ch !! p = Some a -> ch !! q = Some b ->
  aptr a = aptr b -> p = q.
Proof.
  intros Hnd Hp Hq Heq.
  eapply (NoDup_lookup _ p q (aptr a) Hnd).
  - rewrite list_lookup_fmap, Hp. reflexivity.
  - rewrite list_lookup_fmap, Hq, Heq. reflexivity.
Qed.

Lemma new_update_length : length new_update = 16%nat.
Proof. reflexivity. Qed.

Lemma new_rank_length : length new_rank = 16%nat.
Proof. reflexivity. Qed.

(** The initial list. *)
Definition hd0 : anode := mkA 0%nat 1%nat (mkElement "" f64_zero).

Lemma Rep_makeSkiplist : Rep makeSkiplist hd0 [].
Proof.
  split; try reflexivity.
  - cbn; lia.
  - cbn. repeat constructor. set_solver.
  - intros [|p] a; [|discriminate]. intros [= <-]. split; [reflexivity|].
    intros j Hj. cbn in Hj. replace j with 0%nat by lia. reflexivity.
  - intros j Hj. cbn in Hj. exists (mkLevel None 0). split; [|reflexivity].
    unfold getLevel. cbn.
    do 16 (destruct j as [|j]; [first [lia | reflexivity]|]). lia.
  - intros p a. discriminate.
Qed.

(** The descent from the header, for a test on the next element. *)
Lemma descend_rep sl hd ns (P : Element -> bool) :
  Rep sl hd ns ->
  exists c ac update rank,
    descend (fuel_of (sl_heap sl)) (sl_heap sl) (fun _ _ e => P e)
      (Z.to_nat (sl_level sl)) (sl_header sl) 0 new_update new_rank
      = Some (aptr ac, Z.of_nat c, update, rank) /\
    (hd :: ns) !! c = Some ac /\
    (c = 0%nat \/ P (ael ac) = true) /\
    (forall b, ns !! c = Some b -> P (ael b) = false) /\
    length update = 16%nat /\ length rank = 16%nat /\
    found (hd :: ns) (aht hd) 0 c update rank.
Proof.
  intros R.
  pose proof (links_fuel _ _ (rep_links _ _ _ R) (rep_nodup _ _ _ R)) as Hfuel.
  assert (Hpos : forall p a, (hd :: ns) !! S p = Some a -> (1 <= aht a)%nat).
  { intros p a Hp. apply (rep_heights _ _ _ R p a Hp). }
  destruct (descend_spec (sl_heap sl) (hd :: ns) P (rep_links _ _ _ R) Hpos
              (fuel_of (sl_heap sl)) (aht hd) Hfuel 0%nat hd
              new_update new_rank eq_refl ltac:(lia)
              ltac:(rewrite new_update_length;
                    pose proof (rep_level_range _ _ _ R); lia)
              ltac:(rewrite new_rank_length;
                    pose proof (rep_level_range _ _ _ R); lia))
    as (c & ac & u' & r' & Hd & _ & Hc & Hor & _ & Hstop & _ & Hlu & Hlr
        & Hfound & _).
  exists c, ac, u', r'.
  rewrite (rep_level _ _ _ R), Nat2Z.id, <- (rep_header _ _ _ R).
  split; [exact Hd|]. split; [exact Hc|]. split; [exact Hor|].
  split; [apply Hstop; pose proof (rep_level_range _ _ _ R); lia|].
  split; [rewrite Hlu; reflexivity|]. split; [rewrite Hlr; reflexivity|].
  exact Hfound.
Qed.

(** [getRank] returns the position where its descent ends when the node
    there has the member asked for, and [0] otherwise. *)
Lemma getRank_rep sl hd ns member score :
  Rep sl hd ns ->
  exists c ac,
    getRank sl member score
      = Some (if String.eqb (Member (ael ac)) member then Z.of_nat c else 0) /\
    (hd :: ns) !! c = Some ac /\
    (c = 0%nat \/ upto score member (ael ac) = true) /\
    (forall b, ns !! c = Some b -> upto score member (ael b) = false).
Proof.
  intros R.
  destruct (descend_rep sl hd ns (upto score member) R)
    as (c & ac & u & r & Hd & Hc & Hor & Hstop & _).
  exists c, ac. unfold getRank. rewrite Hd. cbn [mbind option_bind].
  destruct (rep_links _ _ _ R c ac Hc) as [He _].
  unfold get_elem in He.
  destruct (sl_heap sl !! aptr ac) as [nd|]; [|discriminate].
  injection He as He. cbn [mbind option_bind]. rewrite He.
  split; [destruct (String.eqb _ _); reflexivity|].
  split; [exact Hc|]. split; [exact Hor | exact Hstop].
Qed.

(** [contents] lists the elements of the nodes in order. *)
Lemma nexta_zero (suf : list anode) :
  (forall d a, suf !! d = Some a -> (1 <= aht a)%nat) ->
  nexta 0 suf = head suf.
Proof.
  destruct suf as [|a t]; [reflexivity|]. intros H. cbn.
  pose proof (H 0%nat a eq_refl). rewrite decide_True by lia. reflexivity.
Qed.

Lemma contents_from_links h ch p fuel :
  links h ch ->
  (forall q a, ch !! q = Some a -> (1 <= aht a)%nat) ->
  (length ch - p <= fuel)%nat ->
  contents_from fuel h (aptr <$> ch !! p) = ael <$> drop p ch.
Proof.
  intros Hl Hpos. revert p. induction fuel as [|f IH]; intros p Hf.
  - rewrite drop_ge by lia. destruct (ch !! p); reflexivity.
  - destruct (ch !! p) as [a|] eqn:Hp.
    + cbn [fmap option_fmap option_map contents_from].
      destruct (Hl p a Hp) as [He Hlv].
      specialize (Hlv 0%nat (Hpos p a Hp)).
      unfold get_elem in He. unfold getLevel in Hlv.
      destruct (h !! aptr a) as [nd|] eqn:Hnd; [|discriminate].
      injection He as He. cbn [mbind option_bind] in Hlv.
      rewrite (drop_S _ _ _ Hp). cbn [fmap list_fmap].
      rewrite He, Hlv. cbn [mbind option_bind entry forward]. f_equal.
      rewrite nexta_zero, head_lookup, lookup_drop, Nat.add_0_r.
      * apply IH. assert (p < length ch)%nat by (eapply lookup_lt_Some; eauto).
        lia.
      * intros d b. rewrite lookup_drop. apply Hpos.
    + rewrite drop_ge by (apply lookup_ge_None; exact Hp). reflexivity.
Qed.

Lemma contents_rep sl hd ns : Rep sl hd ns -> contents sl = ael <$> ns.
Proof.
  intros R. unfold contents.
  assert (Hpos : forall q a, (hd :: ns) !! q = Some a -> (1 <= aht a)%nat).
  { intros [|q] a; cbn.
    - intros [= <-]. apply (rep_level_range _ _ _ R).
    - intros Hq. apply (rep_heights _ _ _ R q a Hq). }
  destruct (rep_links _ _ _ R 0%nat hd eq_refl) as [_ Hlv].
  rewrite <- (rep_header _ _ _ R), (Hlv 0%nat (Hpos 0%nat hd eq_refl)).
  cbn [mbind option_bind entry forward drop].
  rewrite nexta_zero, head_lookup
    by (intros d a Hd; apply (Hpos (S d) a Hd)).
  change (ns !! 0%nat) with ((hd :: ns) !! 1%nat).
  rewrite (contents_from_links _ _ 1 _ (rep_links _ _ _ R) Hpos).
  - reflexivity.
  - pose proof (links_fuel _ _ (rep_links _ _ _ R) (rep_nodup _ _ _ R)). lia.
Qed.

(** *** Lists with one element put in or taken out *)

Definition ins_at {A} (c : nat) (x : A) (l : list A) : list A :=
  take c l ++ x :: drop c l.

Definition del_at {A} (c : nat) (l : list A) : list A :=
  take c l ++ drop (S c) l.

Lemma lookup_ins_at {A} (c : nat) (x : A) (l : list A) (i : nat) :
  (c <= length l)%nat ->
  ins_at c x l !! i
  = if decide (i < c)%nat then l !! i
    else if decide (i = c) then Some x else l !! (i - 1)%nat.
Proof.
  intros Hc. unfold ins_at.
  assert (Hlen : length (take c l) = c) by (rewrite length_take; lia).
  destruct (decide (i < c)%nat) as [Hlt|Hge].
  - rewrite lookup_app_l by lia. apply lookup_take_lt. exact Hlt.
  - rewrite lookup_app_r by lia. rewrite Hlen.
    destruct (decide (i = c)) as [->|Hne].
    + rewrite Nat.sub_diag. reflexivity.
    + destruct (i - c)%nat as [|d] eqn:Hd; [lia|].
      change ((x :: drop c l) !! S d) with (drop c l !! d).
      rewrite lookup_drop. f_equal. lia.
Qed.

Lemma lookup_del_at {A} (c : nat) (l : list A) (i : nat) :
  (c <= length l)%nat ->
  del_at c l !! i = if decide (i < c)%nat then l !! i else l !! S i.
Proof.
  intros Hc. unfold del_at.
  assert (Hlen : length (take c l) = c) by (rewrite length_take; lia).
  destruct (decide (i < c)%nat) as [Hlt|Hge].
  - rewrite lookup_app_l by lia. apply lookup_take_lt. exact Hlt.
  - rewrite lookup_app_r by lia. rewrite Hlen, lookup_drop. f_equal. lia.
Qed.

Lemma length_ins_at {A} (c : nat) (x : A) (l : list A) :
  length (ins_at c x l) = S (length l).
Proof.
  unfold ins_at. rewrite length_app. cbn [length].
  rewrite length_take, length_drop. lia.
Qed.

Lemma length_del_at {A} (c : nat) (l : list A) :
  (c < length l)%nat -> length (del_at c l) = (length l - 1)%nat.
Proof.
  intros Hc. unfold del_at. rewrite length_app, length_take, length_drop. lia.
Qed.

Lemma fmap_ins_at {A B} (f : A -> B) c x l :
  f <$> ins_at c x l = ins_at c (f x) (f <$> l).
Proof.
  unfold ins_at. rewrite fmap_app, fmap_cons, fmap_take, fmap_drop.
  reflexivity.
Qed.

Lemma fmap_del_at {A B} (f : A -> B) c l :
  f <$> del_at c l = del_at c (f <$> l).
Proof. unfold del_at. rewrite fmap_app, fmap_take, fmap_drop. reflexivity. Qed.

(** *** Sorted element lists and ranks *)

(** The number of elements that satisfy a test. *)
Fixpoint count (P : Element -> bool) (l : list Element) : Z :=
  match l with
  | [] => 0
  | e :: t => (if P e then 1 else 0) + count P t
  end.

Lemma count_app P l1 l2 : count P (l1 ++ l2) = count P l1 + count P l2.
Proof. induction l1 as [|e t IH]; cbn; [|rewrite IH]; lia. Qed.

Lemma count_all P l :
  (forall i a, l !! i = Some a -> P a = true) ->
  count P l = Z.of_nat (length l).
Proof.
  induction l as [|e t IH]; intros H; cbn [count length]; [reflexivity|].
  rewrite (H 0%nat e eq_refl), IH; [lia|].
  intros i a Hi. apply (H (S i) a Hi).
Qed.

Lemma count_none P l :
  (forall i a, l !! i = Some a -> P a = false) -> count P l = 0.
Proof.
  induction l as [|e t IH]; intros H; cbn [count]; [reflexivity|].
  rewrite (H 0%nat e eq_refl), IH; [lia|].
  intros i a Hi. apply (H (S i) a Hi).
Qed.

Lemma count_split P Q R l :
  (forall e, P e = Q e || R e) -> (forall e, Q e = true -> R e = false) ->
  count P l = count Q l + count R l.
Proof.
  intros Hor Hdisj. induction l as [|e t IH]; cbn [count]; [reflexivity|].
  rewrite IH, Hor. specialize (Hdisj e).
  destruct (Q e) eqn:HQ, (R e) eqn:HR; cbn; try lia.
Qed.

(** No score is NaN, and every element is at or before the later ones. *)
Definition sorted (els : list Element) : Prop :=
  (forall i a, els !! i = Some a -> nan (Score a) = false) /\
  forall i j a b, (i < j)%nat -> els !! i = Some a -> els !! j = Some b ->
                  ele a b = true.

Lemma sorted_nil : sorted [].
Proof. split; intros; discriminate. Qed.

(** In a sorted list, a test that is closed downwards holds exactly on the
    prefix in front of the place where a descent with that test stops. *)
Lemma count_prefix (P : Element -> bool) (els : list Element) (c : nat) :
  sorted els ->
  (forall a b, ele a b = true -> P b = true -> P a = true) ->
  (c <= length els)%nat ->
  (forall a, (0 < c)%nat -> els !! (c - 1)%nat = Some a -> P a = true) ->
  (forall b, els !! c = Some b -> P b = false) ->
  count P els = Z.of_nat c.
Proof.
  intros [_ Hs] Hdown Hc Hlast Hstop.
  rewrite <- (take_drop c els), count_app.
  rewrite count_all, count_none, length_take; [lia| |].
  - intros i a. rewrite lookup_drop. intros Hi.
    destruct (els !! c) as [b|] eqn:Hb.
    + destruct (decide (i = 0)%nat) as [->|Hne].
      * rewrite Nat.add_0_r, Hb in Hi. injection Hi as <-. auto.
      * destruct (P a) eqn:HPa; [|reflexivity].
        rewrite <- (Hstop b eq_refl). symmetry.
        apply (Hdown b a); [|exact HPa].
        apply (Hs c (c + i)%nat); auto. lia.
    + apply lookup_ge_None in Hb.
      assert (c + i < length els)%nat by (eapply lookup_lt_Some; eauto). lia.
  - intros i a Hi.
    assert (Hic : (i < c)%nat).
    { apply lookup_lt_Some in Hi. rewrite length_take in Hi. lia. }
    rewrite lookup_take_lt in Hi by exact Hic.
    destruct (lookup_lt_is_Some_2 els (c - 1)%nat ltac:(lia)) as [l Hl].
    pose proof (Hlast l ltac:(lia) Hl) as HPl.
    destruct (decide (i = c - 1)%nat) as [->|Hne]; [congruence|].
    apply (Hdown a l); [|exact HPl].
    apply (Hs i (c - 1)%nat); auto. lia.
Qed.

Lemma sorted_ins_at (els : list Element) (c : nat) (new : Element) :
  sorted els -> nan (Score new) = false -> (c <= length els)%nat ->
  (forall a, (0 < c)%nat -> els !! (c - 1)%nat = Some a -> elt a new = true) ->
  (forall b, els !! c = Some b -> elt b new = false) ->
  sorted (ins_at c new els).
Proof.
  intros [Hn Hs] Hnew Hc Hlast Hstop. split.
  - intros i a. rewrite lookup_ins_at by exact Hc.
    repeat case_decide; [apply Hn | intros [= <-]; exact Hnew | apply Hn].
  - assert (Hbefore : forall i a, (i < c)%nat -> els !! i = Some a ->
                                  ele a new = true).
    { intros i a Hi Ha.
      destruct (lookup_lt_is_Some_2 els (c - 1)%nat ltac:(lia)) as [l Hl].
      pose proof (elt_ele _ _ (Hlast l ltac:(lia) Hl)) as Hle.
      destruct (decide (i = c - 1)%nat) as [->|Hne]; [congruence|].
      apply (ele_trans a l new); [|exact Hle].
      apply (Hs i (c - 1)%nat); auto. lia. }
    assert (Hafter : forall i a, (c <= i)%nat -> els !! i = Some a ->
                                 ele new a = true).
    { intros i a Hi Ha.
      destruct (lookup_lt_is_Some_2 els c) as [b Hb];
        [apply lookup_lt_Some in Ha; lia|].
      assert (Hle : ele new b = true).
      { apply ele_total; [eapply Hn; eauto | exact Hnew | auto]. }
      destruct (decide (i = c)) as [->|Hne]; [congruence|].
      apply (ele_trans new b a); [exact Hle|].
      apply (Hs c i); auto. lia. }
    intros i j a b Hij. rewrite !lookup_ins_at by exact Hc.
    repeat case_decide; try lia.
    + apply Hs. exact Hij.
    + intros Ha [= <-]. eapply Hbefore; eauto.
    + apply Hs. lia.
    + intros [= <-] Hb. eapply Hafter; [|exact Hb]. lia.
    + apply Hs. lia.
Qed.

Lemma sorted_del_at (els : list Element) (c : nat) :
  sorted els -> (c <= length els)%nat -> sorted (del_at c els).
Proof.
  intros [Hn Hs] Hc. split.
  - intros i a. rewrite lookup_del_at by exact Hc. case_decide; apply Hn.
  - intros i j a b Hij. rewrite !lookup_del_at by exact Hc.
    repeat case_decide; try lia; apply Hs; lia.
Qed.

(** *** Loops *)

Lemma for_loop_inv {St} (Inv : nat -> St -> Prop)
    (body : nat -> St -> option St) (n i : nat) (s : St) :
  Inv i s ->
  (forall k s, (i <= k < i + n)%nat -> Inv k s ->
     exists s', body k s = Some s' /\ Inv (S k) s') ->
  exists s', for_loop n i body s = Some s' /\ Inv (i + n)%nat s'.
Proof.
  revert i s. induction n as [|n IH]; intros i s Hi Hstep.
  - exists s. rewrite Nat.add_0_r. split; [reflexivity | exact Hi].
  - destruct (Hstep i s ltac:(lia) Hi) as (s1 & Hb & H1).
    destruct (IH (S i) s1 H1) as (s' & Hl & H').
    { intros k s2 Hk. apply Hstep. lia. }
    exists s'. cbn [for_loop]. rewrite Hb. cbn [mbind option_bind].
    split; [exact Hl|]. replace (i + S n)%nat with (S i + n)%nat by lia.
    exact H'.
Qed.

Lemma links_ext h h' ch :
  (forall y j, getLevel h' y j = getLevel h y j) ->
  (forall y, get_elem h' y = get_elem h y) ->
  links h ch -> links h' ch.
Proof.
  intros HL HE Hl p a Hp. destruct (Hl p a Hp) as [He Hlv].
  split; [rewrite HE; exact He|]. intros j Hj. rewrite HL. auto.
Qed.

Lemma nexta_all_low j (suf : list anode) :
  (forall d b, suf !! d = Some b -> (aht b <= j)%nat) ->
  nexta j suf = None /\ skip j suf = length suf.
Proof.
  intros H. destruct (nexta_app_low j suf [] H) as [H1 H2].
  rewrite app_nil_r in H1, H2. cbn in H1, H2. split; [exact H1 | lia].
Qed.

(** *** [insert]: opening new levels *)

Lemma raise_spec sl hd ns c update rank (L : nat) :
  Rep sl hd ns ->
  found (hd :: ns) (aht hd) 0 c update rank ->
  length update = 16%nat -> length rank = 16%nat ->
  (1 <= L <= 16)%nat ->
  exists h1 update1 rank1 hd1,
    (if Z.of_nat L >? sl_level sl
     then for_loop (L - Z.to_nat (sl_level sl)) (Z.to_nat (sl_level sl))
            (raise_body (sl_header sl) (sl_length sl))
            (sl_heap sl, update, rank)
     else Some (sl_heap sl, update, rank)) = Some (h1, update1, rank1) /\
    aptr hd1 = aptr hd /\ ael hd1 = ael hd /\
    aht hd1 = Nat.max L (aht hd) /\
    Rep (mkSkiplist h1 (sl_header sl) (sl_tail sl) (sl_length sl)
           (Z.of_nat (aht hd1))) hd1 ns /\
    found (hd1 :: ns) (aht hd1) 0 c update1 rank1 /\
    length update1 = 16%nat /\ length rank1 = 16%nat.
Proof.
  intros R Hfound Hlu Hlr HL.
  pose proof (rep_level_range _ _ _ R) as Hrange.
  rewrite (rep_level _ _ _ R), Nat2Z.id.
  destruct (Z.gtb_spec (Z.of_nat L) (Z.of_nat (aht hd))) as [Hgt|Hle].
  2:{ exists (sl_heap sl), update, rank, hd.
      split; [reflexivity|]. split; [reflexivity|]. split; [reflexivity|].
      split; [lia|]. split; [|auto].
      destruct sl; cbn in *. rewrite <- (rep_level _ _ _ R). exact R. }
  set (lv0 := aht hd) in *. set (h := sl_heap sl).
  set (Inv := fun (k : nat) (s : list node * list (option ptr) * list Z) =>
    let '(h', u', r') := s in
    same_elems h h' /\
    (forall y j, getLevel h' y j
       = if decide (y = aptr hd /\ (lv0 <= j < k)%nat)
         then Some (mkLevel None (sl_length sl)) else getLevel h y j) /\
    length u' = 16%nat /\ length r' = 16%nat /\
    (forall j, u' !! j = if decide (lv0 <= j < k)%nat
                         then Some (Some (aptr hd)) else update !! j) /\
    (forall j, r' !! j = if decide (lv0 <= j < k)%nat
                         then Some 0 else rank !! j)).
  destruct (for_loop_inv Inv (raise_body (sl_header sl) (sl_length sl))
              (L - lv0) lv0 (h, update, rank))
    as ([[h1 u1] r1] & Hloop & Hinv).
  { unfold Inv. split; [apply same_elems_refl|].
    split; [intros y j; rewrite decide_False by lia; reflexivity|].
    split; [exact Hlu|]. split; [exact Hlr|].
    split; intros j; rewrite decide_False by lia; reflexivity. }
  { intros k [[h' u'] r'] Hk (Hse & Hget & Hlu' & Hlr' & Hu' & Hr').
    unfold raise_body.
    rewrite (store_spec r' k) by lia. cbn [mbind option_bind].
    rewrite (store_spec u' k) by lia. cbn [mbind option_bind].
    rewrite list_lookup_insert_eq by lia.
    cbn [mjoin option_join mbind option_bind].
    destruct (rep_top _ _ _ R k ltac:(lia)) as (lv & Hlv & Hfw).
    assert (Hcur : getLevel h' (sl_header sl) k = Some lv).
    { rewrite Hget, decide_False by lia.
      rewrite <- (rep_header _ _ _ R). exact Hlv. }
    destruct (set_span_spec h' (sl_header sl) k lv (sl_length sl) Hcur)
      as (h'' & Hset & Hse' & Hget').
    rewrite Hset. cbn [mbind option_bind]. eexists. split; [reflexivity|].
    unfold Inv. split; [eapply same_elems_trans; eauto|].
    split.
    { intros y j. rewrite Hget', Hget, Hfw, <- (rep_header _ _ _ R).
      repeat case_decide; try reflexivity; exfalso; intuition lia. }
    rewrite !length_insert. split; [exact Hlu'|]. split; [exact Hlr'|].
    split; intros j.
    - destruct (decide (j = k)) as [->|Hne].
      + rewrite list_lookup_insert_eq by lia. rewrite decide_True by lia.
        rewrite (rep_header _ _ _ R). reflexivity.
      + rewrite list_lookup_insert_ne by lia. rewrite Hu'.
        repeat case_decide; try reflexivity; lia.
    - destruct (decide (j = k)) as [->|Hne].
      + rewrite list_lookup_insert_eq by lia. rewrite decide_True by lia.
        reflexivity.
      + rewrite list_lookup_insert_ne by lia. rewrite Hr'.
        repeat case_decide; try reflexivity; lia. }
  replace (lv0 + (L - lv0))%nat with L in Hinv by lia.
  destruct Hinv as (Hse & Hget & Hlu1 & Hlr1 & Hu1 & Hr1).
  exists h1, u1, r1, (mkA (aptr hd) L (ael hd)).
  split; [exact Hloop|]. cbn [aptr ael aht].
  split; [reflexivity|]. split; [reflexivity|]. split; [lia|].
  assert (Hlow : forall j, (lv0 <= j)%nat -> forall d b,
            ns !! d = Some b -> (aht b <= j)%nat).
  { intros j Hj d b Hd. pose proof (rep_heights _ _ _ R d b Hd). lia. }
  assert (Hne : forall p a, ns !! p = Some a -> aptr a <> aptr hd).
  { intros p a Hp Heq.
    assert (S p = 0)%nat; [|lia].
    eapply (nodup_pos (hd :: ns) (S p) 0 a hd (rep_nodup _ _ _ R)); eauto. }
  split; [|split; [|auto]].
  - split; cbn [sl_header sl_level sl_heap sl_length aptr aht ael].
    + apply (rep_header _ _ _ R).
    + reflexivity.
    + lia.
    + apply (rep_nodup _ _ _ R).
    + intros [|p] a Hp; cbn in Hp.
      * injection Hp as <-. cbn [aptr ael aht drop].
        destruct (rep_links _ _ _ R 0%nat hd eq_refl) as [He Hlv].
        split; [destruct Hse as [_ Hse]; rewrite Hse; exact He|].
        intros j Hj. rewrite Hget. case_decide as Hc.
        -- destruct (nexta_all_low j ns (Hlow j ltac:(lia))) as [Hn Hs].
           rewrite drop_0. unfold entry.
           rewrite Hn, Hs, (rep_length _ _ _ R). reflexivity.
        -- apply (Hlv j). lia.
      * destruct (rep_links _ _ _ R (S p) a Hp) as [He Hlv].
        split; [destruct Hse as [_ Hse]; rewrite Hse; exact He|].
        intros j Hj. rewrite Hget, decide_False; [apply (Hlv j Hj)|].
        intros [Heq _]. apply (Hne p a Hp Heq).
    + intros j Hj. rewrite Hget, decide_False by lia.
      apply (rep_top _ _ _ R). fold lv0. lia.
    + intros p a Hp. pose proof (rep_heights _ _ _ R p a Hp). lia.
    + apply (rep_length _ _ _ R).
  - intros j Hj. destruct (decide (j < lv0)%nat) as [Hlt|Hge].
    + destruct (Hfound j Hlt)
        as (pj & uj & Hu & Hr & Hpj & Hrange' & Hhj & Hlowj).
      exists pj, (if decide (pj = 0)%nat then mkA (aptr hd) L (ael hd) else uj).
      rewrite Hu1, Hr1.
      destruct (decide (lv0 <= j < L)%nat) as [?|_]; [lia|].
      split; [rewrite Hu; destruct pj; cbn in Hpj |- *;
              [injection Hpj as <-|]; reflexivity|].
      split; [exact Hr|].
      split; [destruct pj; cbn in Hpj |- *; [reflexivity | exact Hpj]|].
      split; [lia|].
      split; [case_decide; cbn [aht]; lia|].
      intros q b Hq Hqb. destruct q as [|q]; [lia|]. eapply Hlowj; eauto.
    + exists 0%nat, (mkA (aptr hd) L (ael hd)).
      rewrite Hu1, Hr1.
      destruct (decide (lv0 <= j < L)%nat) as [_|?]; [|lia]. cbn [aptr aht].
      split; [reflexivity|]. split; [reflexivity|]. split; [reflexivity|].
      split; [lia|]. split; [lia|].
      intros q b Hq Hqb. destruct q as [|q]; [lia|]. cbn in Hqb.
      eapply Hlow; [|exact Hqb]. lia.
Qed.

(** *** [insert]: linking the new node *)

Lemma alloc_spec (h : list node) (nd : node) :
  (forall y j, getLevel (h ++ [nd]) y j
     = if decide (y = length h) then level nd !! j else getLevel h y j) /\
  (forall y, get_elem (h ++ [nd]) y
     = if decide (y = length h) then Some (elem nd) else get_elem h y).
Proof.
  split; intros y; [intros j|]; unfold getLevel, get_elem;
    (destruct (decide (y = length h)) as [->|Hne];
     [rewrite lookup_app_r, Nat.sub_diag by lia; reflexivity|]);
    (destruct (decide (y < length h)%nat);
     [rewrite lookup_app_l by lia; reflexivity|]);
    rewrite !lookup_ge_None_2; try reflexivity;
    rewrite ?length_app; cbn; lia.
Qed.

(** The nodes between [update[j]] and the final position take no part in
    level [j], so the entry of [update[j]] reaches beyond that position. *)
Lemma entry_low (ch : list anode) (j pj c : nat) :
  (pj <= c < length ch)%nat ->
  (forall q b, (pj < q <= c)%nat -> ch !! q = Some b -> (aht b <= j)%nat) ->
  nexta j (drop (S pj) ch) = nexta j (drop (S c) ch) /\
  skip j (drop (S pj) ch) = (c - pj + skip j (drop (S c) ch))%nat.
Proof.
  intros Hc Hlow.
  rewrite <- (take_drop (c - pj) (drop (S pj) ch)).
  rewrite drop_drop. replace (S pj + (c - pj))%nat with (S c) by lia.
  destruct (nexta_app_low j (take (c - pj) (drop (S pj) ch))
              (drop (S c) ch)) as [Hn Hs].
  { intros d b Hd.
    assert (d < c - pj)%nat.
    { apply lookup_lt_Some in Hd. rewrite length_take in Hd. lia. }
    rewrite lookup_take_lt, lookup_drop in Hd by lia.
    apply (Hlow (S pj + d)%nat b); [lia | exact Hd]. }
  rewrite Hn, Hs, length_take, length_drop. split; [reflexivity | lia].
Qed.

Lemma found_zero (ch : list anode) (k c : nat) update rank :
  found ch k 0 c update rank -> (1 <= k)%nat -> (c < length ch)%nat ->
  (forall p a, ch !! S p = Some a -> (1 <= aht a)%nat) ->
  exists ac, ch !! c = Some ac /\ update !! 0%nat = Some (Some (aptr ac)) /\
             rank !! 0%nat = Some (Z.of_nat c).
Proof.
  intros Hfound Hk Hc Hpos.
  destruct (Hfound 0%nat ltac:(lia)) as (p0 & u0 & Hu & Hr & Hp0 & Hrange & _ & Hlow).
  assert (p0 = c) as ->.
  { destruct (decide (p0 = c)) as [|Hne]; [assumption|exfalso].
    destruct (lookup_lt_is_Some_2 ch c Hc) as [b Hb].
    pose proof (Hlow c b ltac:(lia) Hb).
    destruct c as [|c']; [lia|]. pose proof (Hpos c' b Hb). lia. }
  exists u0. auto.
Qed.

Section Link.

Variable h1 : list node.
Variable hd1 : anode.
Variable ns : list anode.
Variable c L : nat.
Variable update : list (option ptr).
Variable rank : list Z.
Variable score : float64.
Variable member : string.

Let ch1 := hd1 :: ns.
Let x : ptr := length h1.
Let B := drop (S c) ch1.
Let h2 := h1 ++ [makeNode (Z.of_nat L) score member].
Let anew := mkA x L (mkElement member score).

Hypothesis Hlinks : links h1 ch1.
Hypothesis Hnodup : NoDup (aptr <$> ch1).
Hypothesis Hfound : found ch1 (aht hd1) 0 c update rank.
Hypothesis Hpos : forall p a, ch1 !! S p = Some a -> (1 <= aht a)%nat.
Hypothesis HL : (1 <= L <= aht hd1)%nat.
Hypothesis Hc : (c < length ch1)%nat.

Lemma h2_level y j :
  getLevel h2 y j
  = if decide (y = x) then (if decide (j < L)%nat then Some (mkLevel None 0) else None)
    else getLevel h1 y j.
Proof.
  unfold h2. rewrite (proj1 (alloc_spec h1 _)). fold x.
  case_decide; [|reflexivity]. cbn [makeNode level].
  rewrite Nat2Z.id. case_decide.
  - apply lookup_replicate_2. lia.
  - apply lookup_ge_None_2. rewrite length_replicate. lia.
Qed.

Lemma h2_elem y :
  get_elem h2 y
  = if decide (y = x) then Some (mkElement member score) else get_elem h1 y.
Proof. unfold h2. rewrite (proj2 (alloc_spec h1 _)). reflexivity. Qed.

Lemma found_old pj uj :
  ch1 !! pj = Some uj -> aptr uj <> x.
Proof.
  intros Hp. pose proof (links_valid _ _ _ _ Hlinks Hp). unfold x. lia.
Qed.

(** The entry of [update[j]] before the insertion. *)
Lemma update_entry j pj uj :
  ch1 !! pj = Some uj -> (pj <= c)%nat -> (j < aht uj)%nat ->
  (forall q b, (pj < q <= c)%nat -> ch1 !! q = Some b -> (aht b <= j)%nat) ->
  getLevel h1 (aptr uj) j
  = Some (mkLevel (aptr <$> nexta j B) (Z.of_nat (c - pj + skip j B))).
Proof.
  intros Hp Hle Hj Hlow. destruct (Hlinks pj uj Hp) as [_ Hlv].
  rewrite (Hlv j Hj). unfold entry.
  destruct (entry_low ch1 j pj c ltac:(lia) Hlow) as [-> ->]. reflexivity.
Qed.

Definition linked (k : nat) (h' : list node) : Prop :=
  same_elems h2 h' /\
  forall y j, getLevel h' y j
    = if decide (j < k)%nat then
        if decide (y = x) then Some (entry j B)
        else if decide (update !! j = Some (Some y))
             then Some (mkLevel (Some x)
                          (Z.of_nat (S c) - default 0 (rank !! j)))
             else getLevel h2 y j
      else getLevel h2 y j.

Lemma link_loop :
  exists h3, for_loop L 0 (link_body update rank x) h2 = Some h3 /\
             linked L h3.
Proof.
  destruct (found_zero ch1 (aht hd1) c update rank Hfound ltac:(lia) Hc Hpos)
    as (ac & Hac & Hu0 & Hr0).
  apply (for_loop_inv linked (link_body update rank x) L 0 h2).
  { split; [apply same_elems_refl|]. intros y j.
    rewrite decide_False by lia. reflexivity. }
  intros i h' Hi [Hse Hget].
  destruct (Hfound i ltac:(lia))
    as (pi & ui & Hu & Hr & Hpi & Hrange & Hhi & Hlow).
  pose proof (found_old pi ui Hpi) as Hux.
  pose proof (update_entry i pi ui Hpi ltac:(lia) Hhi Hlow) as Hold.
  unfold link_body. rewrite Hu, Hr0, Hr.
  cbn [mjoin option_join mbind option_bind].
  assert (G0 : getLevel h' (aptr ui) i
               = Some (mkLevel (aptr <$> nexta i B)
                         (Z.of_nat (c - pi + skip i B)))).
  { rewrite Hget, decide_False by lia. rewrite h2_level, decide_False by exact Hux.
    exact Hold. }
  rewrite G0. cbn [mbind option_bind forward span].
  assert (G1 : getLevel h' x i = Some (mkLevel None 0)).
  { rewrite Hget, decide_False by lia.
    rewrite h2_level, decide_True, decide_True by (reflexivity || lia).
    reflexivity. }
  destruct (set_forward_spec h' x i _ (aptr <$> nexta i B) G1)
    as (ha & Ea & Sa & Ga). rewrite Ea. cbn [mbind option_bind span].
  assert (G2 : getLevel ha (aptr ui) i
               = Some (mkLevel (aptr <$> nexta i B)
                         (Z.of_nat (c - pi + skip i B)))).
  { rewrite Ga, decide_False by (intros [? _]; congruence). exact G0. }
  destruct (set_forward_spec ha (aptr ui) i _ (Some x) G2)
    as (hb & Eb & Sb & Gb). rewrite Eb. cbn [mbind option_bind span].
  rewrite Gb, decide_True by auto. cbn [mbind option_bind span].
  assert (G3 : getLevel hb x i = Some (mkLevel (aptr <$> nexta i B) 0)).
  { rewrite Gb, decide_False by (intros [? _]; congruence).
    rewrite Ga, decide_True by auto. reflexivity. }
  destruct (set_span_spec hb x i _
              (Z.of_nat (c - pi + skip i B) - (Z.of_nat c - Z.of_nat pi)) G3)
    as (hc & Ec & Sc & Gc). rewrite Ec. cbn [mbind option_bind forward].
  assert (G4 : getLevel hc (aptr ui) i
               = Some (mkLevel (Some x) (Z.of_nat (c - pi + skip i B)))).
  { rewrite Gc, decide_False by (intros [? _]; congruence).
    rewrite Gb, decide_True by auto. reflexivity. }
  destruct (set_span_spec hc (aptr ui) i _
              (Z.of_nat c + 1 - Z.of_nat pi) G4)
    as (hd & Ed & Sd & Gd). rewrite Ed. cbn [forward].
  exists hd. split; [reflexivity|].
  split.
  { eapply same_elems_trans; [exact Hse|].
    eapply same_elems_trans; [exact Sa|].
    eapply same_elems_trans; [exact Sb|].
    eapply same_elems_trans; [exact Sc | exact Sd]. }
  intros y j. rewrite Gd, Gc, Gb, Ga, Hget. cbn [forward span].
  destruct (decide (j = i)) as [->|Hji].
  - rewrite (decide_True (P := (i < S i)%nat)) by lia.
    rewrite (decide_False (P := (i < i)%nat)) by lia.
    rewrite Hu, Hr. cbn [default].
    destruct (decide (y = x)) as [->|Hyx].
    + rewrite decide_False by (intros [? _]; congruence).
      rewrite decide_True by auto. unfold entry. do 2 f_equal. lia.
    + destruct (decide (y = aptr ui)) as [->|Hyu].
      * rewrite decide_True by auto. rewrite decide_True by reflexivity.
        do 2 f_equal. unfold id. lia.
      * rewrite !decide_False by (first [intros [? _]; congruence | congruence]).
        reflexivity.
  - rewrite !(decide_False (P := (_ /\ j = i))) by (intros [_ ?]; congruence).
    destruct (decide (j < i)%nat).
    + rewrite (decide_True (P := (j < S i)%nat)) by lia. reflexivity.
    + rewrite (decide_False (P := (j < S i)%nat)) by lia. reflexivity.
Qed.

Definition bump (lv : Level) : Level := mkLevel (forward lv) (span lv + 1).

Definition bumped (h3 : list node) (k : nat) (h' : list node) : Prop :=
  same_elems h3 h' /\
  forall y j, getLevel h' y j
    = if decide ((L <= j < k)%nat /\ update !! j = Some (Some y))
      then bump <$> getLevel h3 y j else getLevel h3 y j.

Lemma bump_loop h3 :
  linked L h3 ->
  exists h4, for_loop (aht hd1 - L) L (bump_body update) h3 = Some h4 /\
             bumped h3 (aht hd1) h4.
Proof.
  intros [Hse3 Hget3].
  replace (bumped h3 (aht hd1)) with (bumped h3 (L + (aht hd1 - L))%nat)
    by (f_equal; lia).
  apply (for_loop_inv (bumped h3) (bump_body update) (aht hd1 - L) L h3).
  { split; [apply same_elems_refl|]. intros y j.
    rewrite decide_False by lia. reflexivity. }
  intros i h' Hi [Hse Hget].
  destruct (Hfound i ltac:(lia))
    as (pi & ui & Hu & Hr & Hpi & Hrange & Hhi & Hlow).
  pose proof (found_old pi ui Hpi) as Hux.
  pose proof (update_entry i pi ui Hpi ltac:(lia) Hhi Hlow) as Hold.
  assert (G3 : getLevel h3 (aptr ui) i
               = Some (mkLevel (aptr <$> nexta i B)
                         (Z.of_nat (c - pi + skip i B)))).
  { rewrite Hget3, decide_False by lia.
    rewrite h2_level, decide_False by exact Hux. exact Hold. }
  assert (G0 : getLevel h' (aptr ui) i
               = Some (mkLevel (aptr <$> nexta i B)
                         (Z.of_nat (c - pi + skip i B)))).
  { rewrite Hget, decide_False by lia. exact G3. }
  unfold bump_body. rewrite Hu. cbn [mjoin option_join mbind option_bind].
  rewrite G0. cbn [mbind option_bind span].
  destruct (set_span_spec h' (aptr ui) i _
              (Z.of_nat (c - pi + skip i B) + 1) G0)
    as (ha & Ea & Sa & Ga).
  exists ha. split; [exact Ea|].
  split; [eapply same_elems_trans; eauto|].
  intros y j. rewrite Ga, Hget. cbn [forward].
  destruct (decide (j = i)) as [->|Hji].
  - rewrite Hu.
    destruct (decide (y = aptr ui)) as [->|Hyu].
    + rewrite decide_True by auto.
      rewrite (decide_True (P := ((L <= i < S i)%nat /\ _))) by (split; [lia | reflexivity]).
      rewrite G3. reflexivity.
    + rewrite !decide_False; try reflexivity.
      * intros [_ ?]; congruence.
      * intros [? _]; lia.
      * intros [? _]; congruence.
  - rewrite (decide_False (P := (_ /\ j = i))) by (intros [_ ?]; congruence).
    destruct (decide ((L <= j < i)%nat /\ update !! j = Some (Some y)))
      as [[? ?]|Hn].
    + rewrite decide_True by (split; [lia | assumption]). reflexivity.
    + rewrite decide_False; [reflexivity|].
      intros [? ?]. apply Hn. split; [lia | assumption].
Qed.

Hypothesis Hhts : forall p a, ch1 !! p = Some a -> (aht a <= aht hd1)%nat.

Lemma ins_at_cons {A} (n : nat) (v a : A) (l : list A) :
  ins_at (S n) v (a :: l) = a :: ins_at n v l.
Proof. reflexivity. Qed.

(** The store after both loops, and the chain with the new node. *)
Lemma link_links h3 h4 :
  linked L h3 -> bumped h3 (aht hd1) h4 ->
  links h4 (ins_at (S c) anew ch1) /\
  getLevel h4 x 0 = Some (entry 0 B) /\
  same_elems h2 h4 /\
  (forall j, (aht hd1 <= j)%nat ->
             getLevel h4 (aptr hd1) j = getLevel h1 (aptr hd1) j).
Proof.
  intros [Hse3 Hget3] [Hse4 Hget4].
  assert (Hother : forall y j, y <> x ->
            ((j < aht hd1)%nat -> update !! j <> Some (Some y)) ->
            getLevel h4 y j = getLevel h1 y j).
  { intros y j Hyx Hupd. rewrite Hget4, decide_False.
    - rewrite Hget3. case_decide.
      + rewrite decide_False by exact Hyx.
        rewrite decide_False by (apply Hupd; lia).
        rewrite h2_level, decide_False by exact Hyx. reflexivity.
      + rewrite h2_level, decide_False by exact Hyx. reflexivity.
    - intros [? ?]. apply Hupd; [lia | assumption]. }
  assert (Hse24 : same_elems h2 h4) by (eapply same_elems_trans; eauto).
  split; [|split; [|split; [exact Hse24|]]].
  - intros p' a. rewrite lookup_ins_at by lia.
    destruct (decide (p' < S c)%nat) as [Hlt|Hge].
    + (* a node in front of the new one *)
      intros Hp'. pose proof (found_old p' a Hp') as Hax.
      destruct (Hlinks p' a Hp') as [He Hlv].
      split.
      { destruct Hse24 as [_ E]. rewrite E, h2_elem, decide_False by exact Hax.
        exact He. }
      intros j Hj.
      destruct (Hfound j ltac:(pose proof (Hhts p' a Hp'); lia))
        as (pj & uj & Hu & Hr & Hpj & Hrange & Hhj & Hlow).
      unfold ins_at. rewrite drop_app_le by (rewrite length_take; lia).
      fold B. set (mid := drop (S p') (take (S c) ch1)).
      assert (Hmid : forall d, (S p' + d < S c)%nat ->
                mid !! d = ch1 !! (S p' + d)%nat).
      { intros d Hd. unfold mid.
        rewrite lookup_drop, lookup_take_lt by lia. reflexivity. }
      assert (Hmidlen : length mid = (c - p')%nat).
      { unfold mid. rewrite length_drop, length_take. lia. }
      assert (Hmid' : forall d b, mid !! d = Some b -> (S p' + d < S c)%nat).
      { intros d b Hd. apply lookup_lt_Some in Hd. lia. }
      assert (Hold : drop (S p') ch1 = mid ++ B).
      { unfold mid, B. rewrite <- (take_drop (S c) ch1) at 1.
        rewrite drop_app_le by (rewrite length_take; lia). reflexivity. }
      destruct (decide (p' = pj)) as [->|Hne].
      * assert (a = uj) as -> by congruence.
        destruct (nexta_app_low j mid (anew :: B)) as [Hn Hs].
        { intros d b Hd. pose proof (Hmid' d b Hd).
          rewrite Hmid in Hd by lia. apply (Hlow (S pj + d)%nat b); [lia|exact Hd]. }
        unfold entry. rewrite Hn, Hs, Hmidlen. cbn [nexta skip anew aht].
        rewrite Hget4, Hget3.
        destruct (decide (j < L)%nat) as [HjL|HjL].
        -- rewrite decide_False by (intros [? _]; lia).
           rewrite decide_False by exact Hax.
           rewrite decide_True by exact Hu. rewrite Hr.
           cbn [default fmap option_fmap option_map aptr].
           do 2 f_equal. unfold id. lia.
        -- pose proof (Hhts pj uj Hpj).
           rewrite decide_True by (split; [lia | exact Hu]).
           rewrite h2_level, decide_False by exact Hax.
           rewrite (update_entry j pj uj Hpj ltac:(lia) Hhj Hlow).
           cbn [fmap option_fmap option_map]. unfold bump. cbn [forward span].
           do 2 f_equal. lia.
      * assert (Hpp : (p' < pj)%nat).
        { destruct (decide (p' < pj)%nat); [assumption|exfalso].
          pose proof (Hlow p' a ltac:(lia) Hp'). lia. }
        destruct (nexta_app_high j mid (anew :: B) (pj - S p')%nat uj)
          as [Hn Hs]; [rewrite Hmid by lia; rewrite <- Hpj; f_equal; lia
                      | exact Hhj |].
        destruct (nexta_app_high j mid B (pj - S p')%nat uj)
          as [Hn' Hs']; [rewrite Hmid by lia; rewrite <- Hpj; f_equal; lia
                        | exact Hhj |].
        unfold entry. rewrite Hn, Hs, <- Hn', <- Hs', <- Hold.
        rewrite Hother; [apply (Hlv j Hj) | exact Hax |].
        intros _. rewrite Hu. intros [= Heq]. apply Hne.
        symmetry. eapply (nodup_pos ch1 pj p' uj a Hnodup); eauto.
    + destruct (decide (p' = S c)) as [->|Hne].
      * (* the new node *)
        intros [= <-]. cbn [aptr ael aht anew].
        split; [destruct Hse24 as [_ E]; rewrite E, h2_elem, decide_True by reflexivity; reflexivity|].
        intros j Hj. rewrite Hget4, decide_False by (intros [? _]; lia).
        rewrite Hget3, decide_True, decide_True by (reflexivity || lia).
        unfold ins_at. rewrite drop_app_ge by (rewrite length_take; lia).
        rewrite length_take.
        replace (S (S c) - S c `min` length ch1)%nat with 1%nat by lia.
        reflexivity.
      * (* a node behind the new one *)
        intros Hp'. pose proof (found_old _ a Hp') as Hax.
        destruct (Hlinks _ a Hp') as [He Hlv].
        split.
        { destruct Hse24 as [_ E]. rewrite E, h2_elem, decide_False by exact Hax.
          exact He. }
        intros j Hj.
        assert (Hsuf : drop (S p') (ins_at (S c) anew ch1)
                       = drop (S (p' - 1)) ch1).
        { unfold ins_at. rewrite drop_app_ge by (rewrite length_take; lia).
          rewrite length_take.
          replace (S p' - S c `min` length ch1)%nat with (S (p' - S c)) by lia.
          cbn [drop]. rewrite drop_drop. f_equal. lia. }
        unfold ins_at in Hsuf. unfold ins_at. rewrite Hsuf.
        rewrite Hother; [apply (Hlv j Hj) | exact Hax |].
        intros Hjh.
        destruct (Hfound j Hjh)
          as (pj & uj & Hu & Hr & Hpj & Hrange & Hhj & Hlow).
        rewrite Hu. intros [= Heq].
        assert (pj = p' - 1)%nat
          by (eapply (nodup_pos ch1 pj (p' - 1) uj a Hnodup); eauto).
        lia.
  - rewrite Hget4, decide_False by (intros [? _]; lia).
    rewrite Hget3, decide_True, decide_True by (reflexivity || lia).
    reflexivity.
  - intros j Hj. apply Hother.
    + apply (found_old 0 hd1 eq_refl).
    + intros; lia.
Qed.

End Link.

Lemma ins_at_perm {A} (n : nat) (v : A) (l : list A) :
  ins_at n v l ≡ₚ v :: l.
Proof.
  unfold ins_at. rewrite <- Permutation_middle, take_drop. reflexivity.
Qed.

Lemma same_elems_valid h h' y :
  same_elems h h' -> is_Some (h !! y) -> is_Some (h' !! y).
Proof.
  intros [Hlen _] Hy. apply lookup_lt_is_Some. rewrite Hlen.
  apply lookup_lt_is_Some. exact Hy.
Qed.

(** [insert] keeps the invariant and puts the new node behind the last
    element that is strictly before it. *)
Lemma insert_rep sl hd ns member score u :
  Rep sl hd ns ->
  exists sl' x c hd',
    insert sl member score u = Some (sl', x) /\
    Rep sl' hd'
      (ins_at c (mkA x (Z.to_nat (randomLevel u)) (mkElement member score))
         ns) /\
    (c <= length ns)%nat /\
    (forall a, (0 < c)%nat -> ns !! (c - 1)%nat = Some a ->
               before score member (ael a) = true) /\
    (forall b, ns !! c = Some b -> before score member (ael b) = false).
Proof.
  intros R. unfold insert.
  destruct (descend_rep sl hd ns (before score member) R)
    as (c & ac & upd & rk & Hd & Hc & Hor & Hstop & Hlu & Hlr & Hfound).
  rewrite Hd. cbn [mbind option_bind].
  pose proof (LevelSpec.randomLevel_range u) as Hlvl. unfold maxLevel in Hlvl.
  set (L := Z.to_nat (randomLevel u)).
  replace (randomLevel u) with (Z.of_nat L) by (unfold L; lia).
  destruct (raise_spec sl hd ns c upd rk L R Hfound Hlu Hlr ltac:(unfold L; lia))
    as (h1 & u1 & r1 & hd1 & Hraise & Hp1 & He1 & Hh1 & R1 & Hf1 & Hlu1 & Hlr1).
  rewrite Hraise. cbn [mbind option_bind].
  assert (Hcur : (if Z.of_nat L >? sl_level sl then Z.of_nat L else sl_level sl)
                 = Z.of_nat (aht hd1)).
  { rewrite (rep_level _ _ _ R), Hh1.
    destruct (Z.gtb_spec (Z.of_nat L) (Z.of_nat (aht hd))); lia. }
  rewrite Hcur, Nat2Z.id.
  pose proof (rep_links _ _ _ R1) as Hlinks1. cbn [sl_heap] in Hlinks1.
  pose proof (rep_nodup _ _ _ R1) as Hnodup1.
  assert (Hpos1 : forall p a, (hd1 :: ns) !! S p = Some a -> (1 <= aht a)%nat).
  { intros p a Hp. apply (rep_heights _ _ _ R1 p a Hp). }
  assert (Hhts1 : forall p a, (hd1 :: ns) !! p = Some a ->
                              (aht a <= aht hd1)%nat).
  { intros [|p] a; cbn; [intros [= <-]; lia|].
    intros Hp. apply (rep_heights _ _ _ R1 p a Hp). }
  assert (HL1 : (1 <= L <= aht hd1)%nat) by (unfold L; lia).
  assert (Hc1 : (c < length (hd1 :: ns))%nat).
  { apply lookup_lt_Some in Hc. cbn [length] in *. lia. }
  destruct (link_loop h1 hd1 ns c L u1 r1 score member
              Hlinks1 Hf1 Hpos1 HL1 Hc1) as (h3 & Hloop3 & Hlinked).
  rewrite Hloop3. cbn [mbind option_bind].
  destruct (bump_loop h1 hd1 ns c L u1 r1 score member
              Hlinks1 Hf1 HL1 Hc1 h3 Hlinked) as (h4 & Hloop4 & Hbumped).
  rewrite Hloop4. cbn [mbind option_bind].
  destruct (link_links h1 hd1 ns c L u1 r1 score member
              Hlinks1 Hnodup1 Hf1 HL1 Hc1 Hhts1 h3 h4 Hlinked Hbumped)
    as (Hlinks4 & Hx0 & Hse24 & Htop4).
  destruct (found_zero (hd1 :: ns) (aht hd1) c u1 r1 Hf1 ltac:(lia) Hc1 Hpos1)
    as (ac1 & Hac1 & Hu0 & Hr0).
  rewrite Hu0. cbn [mjoin option_join mbind option_bind].
  set (x := length h1) in *.
  set (anew := mkA x L (mkElement member score)) in *.
  set (h2 := h1 ++ [makeNode (Z.of_nat L) score member]) in *.
  assert (Hxv : is_Some (h4 !! x)).
  { apply (same_elems_valid h2 h4 x Hse24). apply lookup_lt_is_Some.
    unfold h2. rewrite length_app. cbn. unfold x. lia. }
  destruct (set_backward_spec h4 x
              (if decide (aptr ac1 = sl_header sl) then None
               else Some (aptr ac1)) Hxv) as (h5 & E5 & S5 & G5).
  rewrite E5. cbn [mbind option_bind]. rewrite G5, Hx0.
  cbn [mbind option_bind entry forward].
  assert (Hfinal : forall h6 tail,
    same_elems h5 h6 -> (forall y j, getLevel h6 y j = getLevel h5 y j) ->
    Rep (mkSkiplist h6 (sl_header sl) tail (sl_length sl + 1)
           (Z.of_nat (aht hd1))) hd1 (ins_at c anew ns)).
  { intros h6 tail S6 G6.
    assert (Hlinks6 : links h6 (hd1 :: ins_at c anew ns)).
    { apply (links_ext h4); [intros; rewrite G6; apply G5 | | exact Hlinks4].
      intros y. destruct S6 as [_ ->]. destruct S5 as [_ ->]. reflexivity. }
    split; cbn [sl_header sl_level sl_heap sl_length].
    - apply (rep_header _ _ _ R1).
    - reflexivity.
    - apply (rep_level_range _ _ _ R1).
    - rewrite fmap_cons, fmap_ins_at.
      apply (NoDup_Permutation_proper _ (aptr anew :: aptr hd1 :: (aptr <$> ns))).
      { rewrite ins_at_perm. apply perm_swap. }
      apply NoDup_cons. split; [|exact Hnodup1].
      intros (a & Hx & Ha)%(list_elem_of_fmap aptr (hd1 :: ns)).
      apply list_elem_of_lookup in Ha as [p Hp].
      pose proof (links_valid _ _ _ _ Hlinks1 Hp). cbn [aptr anew] in Hx.
      unfold x in Hx. lia.
    - exact Hlinks6.
    - intros j Hj. rewrite G6, G5, Htop4 by lia.
      apply (rep_top _ _ _ R1 j Hj).
    - intros p a. rewrite lookup_ins_at by (cbn [length] in Hc1; lia).
      destruct (decide (p < c)%nat); [|destruct (decide (p = c))].
      + exact (rep_heights _ _ _ R1 p a).
      + intros [= <-]. cbn [aht anew]. lia.
      + exact (rep_heights _ _ _ R1 (p - 1)%nat a).
    - pose proof (rep_length _ _ _ R1) as Hlen1. cbn [sl_length] in Hlen1.
      rewrite length_ins_at, Hlen1. lia. }
  assert (Hpost : (c <= length ns)%nat /\
    (forall a, (0 < c)%nat -> ns !! (c - 1)%nat = Some a ->
               before score member (ael a) = true) /\
    (forall b, ns !! c = Some b -> before score member (ael b) = false)).
  { split; [cbn [length] in Hc1; lia|]. split; [|exact Hstop].
    intros a Hpos Ha. destruct Hor as [->|HP]; [lia|].
    destruct c as [|c']; [lia|]. change (ns !! c' = Some ac) in Hc.
    replace (S c' - 1)%nat with c' in Ha by lia.
    rewrite Hc in Ha. injection Ha as <-. exact HP. }
  destruct (nexta 0 (drop (S c) (hd1 :: ns))) as [b|] eqn:Hn;
    cbn [fmap option_fmap option_map].
  - destruct (nexta_Some _ _ _ Hn) as (d & Hdb & _).
    rewrite lookup_drop in Hdb.
    assert (Hbv : is_Some (h5 !! aptr b)).
    { apply (same_elems_valid h4 h5 _ S5).
      apply (same_elems_valid h2 h4 _ Hse24).
      apply lookup_lt_is_Some. unfold h2. rewrite length_app.
      pose proof (links_valid _ _ _ _ Hlinks1 Hdb). lia. }
    destruct (set_backward_spec h5 (aptr b) (Some x) Hbv)
      as (h6 & E6 & S6 & G6).
    rewrite E6. cbn [mbind option_bind].
    eexists _, x, c, hd1. split; [reflexivity|].
    split; [apply Hfinal; assumption | exact Hpost].
  - eexists _, x, c, hd1. split; [reflexivity|].
    split; [apply Hfinal; [apply same_elems_refl | reflexivity] | exact Hpost].
Qed.

(** *** [remove]: unlinking a node *)

Ltac goal_decide H :=
  match goal with
  | |- context [decide ?P] => destruct (decide P) as [H|H]
  end.

Section Unlink.

Variable h : list node.
Variable hd : anode.
Variable ns : list anode.
Variable c : nat.
Variable update : list (option ptr).
Variable rank : list Z.
Variable t : anode.

Let ch := hd :: ns.
Let B2 := drop (S (S c)) ch.

Hypothesis Hlinks : links h ch.
Hypothesis Hnodup : NoDup (aptr <$> ch).
Hypothesis Hfound : found ch (aht hd) 0 c update rank.
Hypothesis Ht : ch !! S c = Some t.
Hypothesis Hhts : forall p a, ch !! p = Some a -> (aht a <= aht hd)%nat.

Lemma drop_target : drop (S c) ch = t :: B2.
Proof. unfold B2. apply drop_S. exact Ht. Qed.

(** The entry of [update[j]] before the removal. *)
Lemma unlink_entry j pj uj :
  ch !! pj = Some uj -> (pj <= c)%nat -> (j < aht uj)%nat ->
  (forall q b, (pj < q <= c)%nat -> ch !! q = Some b -> (aht b <= j)%nat) ->
  getLevel h (aptr uj) j
  = Some (if decide (j < aht t)%nat
          then mkLevel (Some (aptr t)) (Z.of_nat (c - pj + 1))
          else mkLevel (aptr <$> nexta j B2)
                 (Z.of_nat (c - pj + S (skip j B2)))).
Proof.
  intros Hp Hle Hj Hlow. destruct (Hlinks pj uj Hp) as [_ Hlv].
  rewrite (Hlv j Hj). unfold entry.
  assert (Hc : (c < length ch)%nat)
    by (apply lookup_lt_Some in Ht; lia).
  destruct (entry_low ch j pj c ltac:(lia) Hlow) as [-> ->].
  rewrite drop_target. cbn [nexta skip].
  case_decide; reflexivity.
Qed.

Lemma target_entry j :
  (j < aht t)%nat -> getLevel h (aptr t) j = Some (entry j B2).
Proof. intros Hj. destruct (Hlinks (S c) t Ht) as [_ Hlv]. apply (Hlv j Hj). Qed.

(** A forward pointer that skips the target does not point to it. *)
Lemma beyond_target j :
  aptr <$> nexta j B2 <> Some (aptr t).
Proof.
  destruct (nexta j B2) as [b|] eqn:Hn; [|discriminate].
  destruct (nexta_Some _ _ _ Hn) as (d & Hd & _).
  unfold B2 in Hd. rewrite lookup_drop in Hd.
  intros [= Heq].
  assert (S (S c) + d = S c)%nat; [|lia].
  eapply (nodup_pos ch _ _ b t Hnodup); eauto.
Qed.

Definition unlinked (k : nat) (h' : list node) : Prop :=
  same_elems h h' /\
  forall z j, getLevel h' z j
    = if decide ((j < k)%nat /\ update !! j = Some (Some z))
      then Some (mkLevel (aptr <$> nexta j B2)
                   (Z.of_nat c - default 0 (rank !! j)
                    + Z.of_nat (skip j B2)))
      else getLevel h z j.

Lemma unlink_loop :
  exists h3, for_loop (aht hd) 0 (unlink_body update (aptr t)) h = Some h3 /\
             unlinked (aht hd) h3.
Proof.
  apply (for_loop_inv unlinked (unlink_body update (aptr t)) (aht hd) 0 h).
  { split; [apply same_elems_refl|]. intros z j.
    rewrite decide_False by (intros [? _]; lia). reflexivity. }
  intros i h' Hi [Hse Hget].
  destruct (Hfound i ltac:(lia))
    as (pi & ui & Hu & Hr & Hpi & Hrange & Hhi & Hlow).
  pose proof (unlink_entry i pi ui Hpi ltac:(lia) Hhi Hlow) as Hold.
  assert (Hut : aptr ui <> aptr t).
  { intros Heq. assert (pi = S c); [|lia].
    eapply (nodup_pos ch _ _ ui t Hnodup); eauto. }
  assert (G0 : getLevel h' (aptr ui) i = getLevel h (aptr ui) i).
  { rewrite Hget, decide_False by (intros [? _]; lia). reflexivity. }
  assert (Gt : forall j, getLevel h' (aptr t) j = getLevel h (aptr t) j).
  { intros j. rewrite Hget. goal_decide Hcase; [|reflexivity].
    destruct Hcase as [Hj Huj].
    destruct (Hfound j ltac:(lia))
      as (pj & uj & Hu' & _ & Hpj & Hrange' & _).
    rewrite Hu' in Huj. injection Huj as Heq.
    assert (pj = S c); [|lia].
    eapply (nodup_pos ch _ _ uj t Hnodup); eauto. }
  unfold unlink_body. rewrite Hu. cbn [mjoin option_join mbind option_bind].
  rewrite G0, Hold. cbn [mbind option_bind].
  assert (Hfinal : forall h'',
    same_elems h' h'' ->
    (forall z j, getLevel h'' z j
       = if decide (z = aptr ui /\ j = i)
         then Some (mkLevel (aptr <$> nexta i B2)
                      (Z.of_nat c - Z.of_nat pi + Z.of_nat (skip i B2)))
         else getLevel h' z j) ->
    unlinked (S i) h'').
  { intros h'' Hse' Hget'. split; [eapply same_elems_trans; eauto|].
    intros z j. rewrite Hget', Hget.
    destruct (decide (j = i)) as [->|Hji].
    - rewrite Hu, Hr. cbn [default].
      destruct (decide (z = aptr ui)) as [->|Hzu].
      + rewrite decide_True by auto.
        rewrite decide_True by (split; [lia | reflexivity]). reflexivity.
      + rewrite !decide_False; try reflexivity.
        * intros [_ ?]; congruence.
        * intros [? _]; lia.
        * intros [? _]; congruence.
    - rewrite (decide_False (P := (_ /\ j = i))) by (intros [_ ?]; congruence).
      destruct (decide ((j < i)%nat /\ update !! j = Some (Some z)))
        as [[? ?]|Hn].
      + rewrite decide_True by (split; [lia | assumption]). reflexivity.
      + rewrite decide_False; [reflexivity|].
        intros [? ?]. apply Hn. split; [lia | assumption]. }
  destruct (decide (i < aht t)%nat) as [Hit|Hit]; cbn [forward span].
  - rewrite decide_True by reflexivity.
    rewrite Gt, (target_entry i Hit). cbn [mbind option_bind entry span].
    assert (G1 : getLevel h' (aptr ui) i
                 = Some (mkLevel (Some (aptr t)) (Z.of_nat (c - pi + 1)))).
    { rewrite G0, Hold. reflexivity. }
    destruct (set_span_spec h' (aptr ui) i _
                (Z.of_nat (c - pi + 1) + (Z.of_nat (skip i B2) - 1)) G1)
      as (ha & Ea & Sa & Ga).
    rewrite Ea. cbn [mbind option_bind forward].
    assert (G2 : getLevel ha (aptr t) i = Some (entry i B2)).
    { rewrite Ga, decide_False by (intros [? _]; congruence).
      rewrite Gt. apply (target_entry i Hit). }
    rewrite G2. cbn [mbind option_bind entry forward].
    assert (G3 : getLevel ha (aptr ui) i
                 = Some (mkLevel (Some (aptr t))
                           (Z.of_nat (c - pi + 1)
                            + (Z.of_nat (skip i B2) - 1)))).
    { rewrite Ga, decide_True by auto. reflexivity. }
    destruct (set_forward_spec ha (aptr ui) i _ (aptr <$> nexta i B2) G3)
      as (hb & Eb & Sb & Gb).
    exists hb. split; [exact Eb|]. apply Hfinal.
    + eapply same_elems_trans; eauto.
    + intros z j. rewrite Gb, Ga. cbn [span].
      goal_decide Hcase; [|reflexivity]. do 2 f_equal. lia.
  - rewrite decide_False by (intros Heq; apply (beyond_target i); exact Heq).
    assert (G1 : getLevel h' (aptr ui) i
                 = Some (mkLevel (aptr <$> nexta i B2)
                           (Z.of_nat (c - pi + S (skip i B2))))).
    { rewrite G0, Hold. reflexivity. }
    destruct (set_span_spec h' (aptr ui) i _
                (Z.of_nat (c - pi + S (skip i B2)) - 1) G1)
      as (ha & Ea & Sa & Ga).
    exists ha. split; [exact Ea|]. apply Hfinal; [exact Sa|].
    intros z j. rewrite Ga. cbn [forward].
    goal_decide Hcase; [|reflexivity]. do 2 f_equal. lia.
Qed.

(** The store after the loop, and the chain without the target. *)
Lemma unlink_links h3 :
  unlinked (aht hd) h3 -> links h3 (del_at (S c) ch).
Proof.
  intros [Hse Hget].
  assert (Hc : (S c < length ch)%nat) by (apply lookup_lt_Some in Ht; lia).
  assert (Hother : forall z j,
            ((j < aht hd)%nat -> update !! j <> Some (Some z)) ->
            getLevel h3 z j = getLevel h z j).
  { intros z j Hupd. rewrite Hget, decide_False; [reflexivity|].
    intros [? ?]. apply Hupd; assumption. }
  intros p' a. rewrite lookup_del_at by lia.
  destruct (decide (p' < S c)%nat) as [Hlt|Hge].
  - intros Hp'. destruct (Hlinks p' a Hp') as [He Hlv].
    split; [destruct Hse as [_ E]; rewrite E; exact He|].
    intros j Hj.
    destruct (Hfound j ltac:(pose proof (Hhts p' a Hp'); lia))
      as (pj & uj & Hu & Hr & Hpj & Hrange & Hhj & Hlow).
    unfold del_at. rewrite drop_app_le by (rewrite length_take; lia).
    fold B2. set (mid := drop (S p') (take (S c) ch)).
    assert (Hmid : forall d, (S p' + d < S c)%nat ->
              mid !! d = ch !! (S p' + d)%nat).
    { intros d Hd. unfold mid.
      rewrite lookup_drop, lookup_take_lt by lia. reflexivity. }
    assert (Hmidlen : length mid = (c - p')%nat).
    { unfold mid. rewrite length_drop, length_take. lia. }
    assert (Hmid' : forall d b, mid !! d = Some b -> (S p' + d < S c)%nat).
    { intros d b Hd. apply lookup_lt_Some in Hd. lia. }
    assert (Hold : drop (S p') ch = mid ++ t :: B2).
    { unfold mid. rewrite <- drop_target.
      rewrite <- (take_drop (S c) ch) at 1.
      rewrite drop_app_le by (rewrite length_take; lia). reflexivity. }
    destruct (decide (p' = pj)) as [->|Hne].
    + assert (a = uj) as -> by congruence.
      destruct (nexta_app_low j mid B2) as [Hn Hs].
      { intros d b Hd. pose proof (Hmid' d b Hd).
        rewrite Hmid in Hd by lia.
        apply (Hlow (S pj + d)%nat b); [lia | exact Hd]. }
      unfold entry. rewrite Hn, Hs, Hmidlen.
      rewrite Hget, decide_True
        by (split; [pose proof (Hhts pj uj Hpj); lia | exact Hu]).
      rewrite Hr. cbn [default]. do 2 f_equal. unfold id. lia.
    + assert (Hpp : (p' < pj)%nat).
      { destruct (decide (p' < pj)%nat); [assumption|exfalso].
        pose proof (Hlow p' a ltac:(lia) Hp'). lia. }
      destruct (nexta_app_high j mid B2 (pj - S p')%nat uj)
        as [Hn Hs]; [rewrite Hmid by lia; rewrite <- Hpj; f_equal; lia
                    | exact Hhj |].
      destruct (nexta_app_high j mid (t :: B2) (pj - S p')%nat uj)
        as [Hn' Hs']; [rewrite Hmid by lia; rewrite <- Hpj; f_equal; lia
                      | exact Hhj |].
      unfold entry. rewrite Hn, Hs, <- Hn', <- Hs', <- Hold.
      rewrite Hother; [apply (Hlv j Hj)|].
      intros _. rewrite Hu. intros [= Heq]. apply Hne.
      symmetry. eapply (nodup_pos ch pj p' uj a Hnodup); eauto.
  - intros Hp'. destruct (Hlinks _ a Hp') as [He Hlv].
    split; [destruct Hse as [_ E]; rewrite E; exact He|].
    intros j Hj.
    assert (Hsuf : drop (S p') (del_at (S c) ch) = drop (S (S p')) ch).
    { unfold del_at. rewrite drop_app_ge by (rewrite length_take; lia).
      rewrite length_take, drop_drop. f_equal. lia. }
    rewrite Hsuf, Hother; [apply (Hlv j Hj)|].
    intros Hjh.
    destruct (Hfound j Hjh)
      as (pj & uj & Hu & Hr & Hpj & Hrange & Hhj & Hlow).
    rewrite Hu. intros [= Heq].
    assert (pj = S p')
      by (eapply (nodup_pos ch pj (S p') uj a Hnodup); eauto).
    lia.
Qed.

Lemma unlink_other h3 z j :
  unlinked (aht hd) h3 -> (aht hd <= j)%nat ->
  getLevel h3 z j = getLevel h z j.
Proof.
  intros [_ Hget] Hj. rewrite Hget, decide_False; [reflexivity|].
  intros [? _]. lia.
Qed.

Lemma unlink_target h3 j :
  unlinked (aht hd) h3 -> getLevel h3 (aptr t) j = getLevel h (aptr t) j.
Proof.
  intros [_ Hget]. rewrite Hget. goal_decide Hcase; [|reflexivity].
  destruct Hcase as [Hj Huj].
  destruct (Hfound j Hj) as (pj & uj & Hu' & _ & Hpj & Hrange' & _).
  rewrite Hu' in Huj. injection Huj as Heq.
  assert (pj = S c); [|lia].
  eapply (nodup_pos ch _ _ uj t Hnodup); eauto.
Qed.

End Unlink.

Lemma shrink_spec (h : list node) (hdr : ptr) (ns' : list anode) (n : nat) :
  (forall j, (j < n)%nat -> getLevel h hdr j = Some (entry j ns')) ->
  (1 <= n)%nat ->
  exists n', shrink h hdr n = Some n' /\ (1 <= n' <= n)%nat /\
             forall j, (n' <= j < n)%nat -> nexta j ns' = None.
Proof.
  induction n as [|m IH]; intros Hget Hn; [lia|].
  destruct m as [|m].
  - exists 1%nat. split; [reflexivity|]. split; [lia|]. intros; lia.
  - cbn [shrink]. rewrite (Hget (S m)) by lia.
    cbn [mbind option_bind entry forward].
    destruct (nexta (S m) ns') as [b|] eqn:Hb; cbn [fmap option_fmap option_map].
    + exists (S (S m)). split; [reflexivity|]. split; [lia|]. intros; lia.
    + destruct IH as (n' & Hs & Hr & Hnone); [intros; apply Hget; lia | lia |].
      exists n'. split; [exact Hs|]. split; [lia|].
      intros j Hj. destruct (decide (j = S m)) as [->|]; [exact Hb|].
      apply Hnone. lia.
Qed.

Lemma del_at_cons {A} (n : nat) (a : A) (l : list A) :
  del_at (S n) (a :: l) = a :: del_at n l.
Proof. reflexivity. Qed.

Lemma NoDup_del_at {A} (n : nat) (l : list A) : NoDup l -> NoDup (del_at n l).
Proof.
  intros Hnd. destruct (l !! n) as [v|] eqn:Hv.
  - rewrite <- (take_drop_middle l n v Hv) in Hnd.
    apply NoDup_app in Hnd as (H1 & H2 & H3).
    apply NoDup_cons in H3 as [H3 H4].
    unfold del_at. apply NoDup_app. split; [exact H1|]. split; [|exact H4].
    intros y Hy Hy'. apply (H2 y Hy). right. exact Hy'.
  - unfold del_at. apply lookup_ge_None in Hv.
    rewrite take_ge, drop_ge, app_nil_r by lia. exact Hnd.
Qed.

(** [removeNode], called as [remove] calls it, keeps the invariant. *)
Lemma removeNode_rep sl hd ns c update rank t :
  Rep sl hd ns ->
  found (hd :: ns) (aht hd) 0 c update rank ->
  ns !! c = Some t ->
  exists sl' hd',
    removeNode sl (aptr t) update = Some sl' /\ Rep sl' hd' (del_at c ns).
Proof.
  intros R Hfound Ht.
  pose proof (rep_links _ _ _ R) as Hlinks.
  pose proof (rep_nodup _ _ _ R) as Hnodup.
  pose proof (rep_level_range _ _ _ R) as Hrange.
  assert (Hhts : forall p a, (hd :: ns) !! p = Some a ->
                             (aht a <= aht hd)%nat).
  { intros [|p] a; cbn; [intros [= <-]; lia|].
    intros Hp. apply (rep_heights _ _ _ R p a Hp). }
  assert (Ht' : (hd :: ns) !! S c = Some t) by exact Ht.
  assert (Hclen : (c < length ns)%nat) by (eapply lookup_lt_Some; eauto).
  unfold removeNode. rewrite (rep_level _ _ _ R), Nat2Z.id.
  destruct (unlink_loop _ hd ns c update rank t Hlinks Hnodup Hfound Ht')
    as (h3 & Hloop & Hunl).
  rewrite Hloop. cbn [mbind option_bind].
  pose proof (unlink_links _ hd ns c update rank t Hlinks Hnodup Hfound Ht'
                Hhts h3 Hunl) as Hlinks3.
  rewrite del_at_cons in Hlinks3.
  pose proof (rep_heights _ _ _ R c t Ht) as Htht.
  rewrite (unlink_target _ hd ns c update rank t Hnodup Hfound Ht' h3 0 Hunl).
  rewrite (target_entry _ hd ns c t Hlinks Ht' 0%nat ltac:(lia)).
  cbn [mbind option_bind].
  destruct Hunl as [Hse3 Hget3].
  assert (Htv : is_Some (h3 !! aptr t)).
  { apply (same_elems_valid _ _ _ Hse3). apply lookup_lt_is_Some.
    apply (links_valid _ _ _ _ Hlinks Ht'). }
  destruct Htv as [nd Hnd]. rewrite Hnd. cbn [mbind option_bind].
  set (ns' := del_at c ns) in *.
  assert (Hfinal : forall h4 tail,
    same_elems h3 h4 -> (forall y j, getLevel h4 y j = getLevel h3 y j) ->
    exists sl' hd',
      (lvl ← (if Z.of_nat (aht hd) >? 1
              then Z.of_nat <$> shrink h4 (sl_header sl) (aht hd)
              else Some (Z.of_nat (aht hd)));
       Some (mkSkiplist h4 (sl_header sl) tail (sl_length sl - 1) lvl))
      = Some sl' /\ Rep sl' hd' ns').
  { intros h4 tail S4 G4.
    assert (Hlinks4 : links h4 (hd :: ns')).
    { apply (links_ext h3); [exact G4 | | exact Hlinks3].
      intros y. destruct S4 as [_ ->]. reflexivity. }
    assert (Hhdr : forall j, (j < aht hd)%nat ->
              getLevel h4 (sl_header sl) j = Some (entry j ns')).
    { intros j Hj. destruct (Hlinks4 0%nat hd eq_refl) as [_ Hlv].
      rewrite <- (rep_header _ _ _ R). apply (Hlv j Hj). }
    destruct (shrink_spec h4 (sl_header sl) ns' (aht hd) Hhdr ltac:(lia))
      as (n' & Hshrink & Hn' & Hnone).
    assert (Hlvl : (if Z.of_nat (aht hd) >? 1
                    then Z.of_nat <$> shrink h4 (sl_header sl) (aht hd)
                    else Some (Z.of_nat (aht hd)))
                   = Some (Z.of_nat n')).
    { destruct (Z.gtb_spec (Z.of_nat (aht hd)) 1) as [Hgt|Hle].
      - rewrite Hshrink. reflexivity.
      - assert (aht hd = 1%nat) as Heq by lia.
        rewrite Heq in Hshrink |- *. cbn in Hshrink.
        injection Hshrink as <-. reflexivity. }
    rewrite Hlvl. cbn [mbind option_bind].
    eexists _, (mkA (aptr hd) n' (ael hd)). split; [reflexivity|].
    assert (Hns' : forall p a, ns' !! p = Some a ->
              exists q, ns !! q = Some a).
    { intros p a. unfold ns'. rewrite lookup_del_at by lia.
      goal_decide Hcase; eauto. }
    split; cbn [sl_header sl_level sl_heap sl_length aptr aht ael].
    - apply (rep_header _ _ _ R).
    - reflexivity.
    - lia.
    - change (NoDup (aptr <$> del_at (S c) (hd :: ns))).
      rewrite fmap_del_at. apply NoDup_del_at. exact Hnodup.
    - intros [|p] a Hp.
      + injection Hp as <-. cbn [aptr ael aht].
        destruct (Hlinks4 0%nat hd eq_refl) as [He Hlv].
        split; [exact He|]. intros j Hj. apply (Hlv j). lia.
      + apply (Hlinks4 (S p) a Hp).
    - intros j Hj. destruct (decide (j < aht hd)%nat) as [Hlt|Hge].
      + exists (entry j ns'). rewrite <- (rep_header _ _ _ R) in Hhdr.
        split; [apply (Hhdr j Hlt)|].
        unfold entry. rewrite (Hnone j ltac:(lia)). reflexivity.
      + rewrite G4, Hget3, decide_False by (intros [? _]; lia).
        apply (rep_top _ _ _ R). lia.
    - intros p a Hp. destruct (Hns' p a Hp) as [q Hq].
      pose proof (rep_heights _ _ _ R q a Hq).
      split; [lia|].
      destruct (decide (n' = aht hd)) as [->|Hne]; [lia|].
      destruct (nexta_None _ _ (Hnone n' ltac:(lia))) as [_ Hall].
      apply (Hall p a Hp).
    - unfold ns'. rewrite length_del_at by lia.
      rewrite (rep_length _ _ _ R). lia. }
  unfold entry. cbn [forward].
  destruct (nexta 0 (drop (S (S c)) (hd :: ns))) as [b|] eqn:Hn;
    cbn [fmap option_fmap option_map].
  - destruct (nexta_Some _ _ _ Hn) as (d & Hdb & _).
    rewrite lookup_drop in Hdb.
    assert (Hbv : is_Some (h3 !! aptr b)).
    { apply (same_elems_valid _ _ _ Hse3). apply lookup_lt_is_Some.
      apply (links_valid _ _ _ _ Hlinks Hdb). }
    destruct (set_backward_spec h3 (aptr b) (backward nd) Hbv)
      as (h4 & E4 & S4 & G4).
    rewrite E4. cbn [mbind option_bind].
    apply Hfinal; assumption.
  - cbn [mbind option_bind].
    apply Hfinal; [apply same_elems_refl | reflexivity].
Qed.

(** [remove] keeps the invariant; it takes out at most one node. *)
Lemma remove_rep sl hd ns member score :
  Rep sl hd ns ->
  exists sl' b hd' ns',
    remove sl member score = Some (sl', b) /\ Rep sl' hd' ns' /\
    (ns' = ns \/ exists c, (c < length ns)%nat /\ ns' = del_at c ns).
Proof.
  intros R. unfold remove.
  destruct (descend_rep sl hd ns (before score member) R)
    as (c & ac & upd & rk & Hd & Hc & Hor & Hstop & Hlu & Hlr & Hfound).
  rewrite Hd. cbn [mbind option_bind].
  assert (Hpos : forall q a, (hd :: ns) !! q = Some a -> (1 <= aht a)%nat).
  { intros [|q] a; cbn.
    - intros [= <-]. apply (rep_level_range _ _ _ R).
    - intros Hq. apply (rep_heights _ _ _ R q a Hq). }
  destruct (rep_links _ _ _ R c ac Hc) as [_ Hlv].
  rewrite (Hlv 0%nat (Hpos c ac Hc)).
  cbn [mbind option_bind entry forward].
  rewrite nexta_zero, head_lookup, lookup_drop, Nat.add_0_r
    by (intros d a; rewrite lookup_drop; apply Hpos).
  change ((hd :: ns) !! S c) with (ns !! c).
  destruct (ns !! c) as [t|] eqn:Ht; cbn [fmap option_fmap option_map].
  - destruct (rep_links _ _ _ R (S c) t Ht) as [He _].
    unfold get_elem in He.
    destruct (sl_heap sl !! aptr t) as [nd|]; [|discriminate].
    cbn [mbind option_bind].
    destruct (SFeqb (Score (elem nd)) score
              && String.eqb (Member (elem nd)) member).
    + destruct (removeNode_rep sl hd ns c upd rk t R Hfound Ht)
        as (sl' & hd' & Hrm & R').
      rewrite Hrm. cbn [mbind option_bind].
      exists sl', true, hd', (del_at c ns).
      split; [reflexivity|]. split; [exact R'|].
      right. exists c. split; [eapply lookup_lt_Some; eauto | reflexivity].
    + exists sl, false, hd, ns. split; [reflexivity|]. split; [exact R|].
      left; reflexivity.
  - exists sl, false, hd, ns. split; [reflexivity|]. split; [exact R|].
    left; reflexivity.
Qed.

(** *** Reachable lists *)

(** An [insert] of a score that is a number. *)
Definition op_ok (o : op) : Prop :=
  match o with
  | OpInsert _ score _ => nan score = false
  | OpRemove _ _ => True
  end.

(** What holds of every list that [insert] and [remove] build. *)
Definition good (sl : skiplist) : Prop :=
  exists hd ns, Rep sl hd ns /\ sorted (ael <$> ns).

Lemma good_makeSkiplist : good makeSkiplist.
Proof.
  exists hd0, []. split; [apply Rep_makeSkiplist | apply sorted_nil].
Qed.

Lemma step_good sl o :
  good sl -> op_ok o -> exists sl', step sl o = Some sl' /\ good sl'.
Proof.
  intros (hd & ns & R & Hs) Hok. destruct o as [member score u|member score].
  - destruct (insert_rep sl hd ns member score u R)
      as (sl' & x & c & hd' & Hins & R' & Hc & Hlast & Hstop).
    exists sl'. cbn [step]. rewrite Hins. split; [reflexivity|].
    exists hd', (ins_at c (mkA x (Z.to_nat (randomLevel u))
                             (mkElement member score)) ns).
    split; [exact R'|]. rewrite fmap_ins_at. cbn [ael].
    apply sorted_ins_at; [exact Hs | exact Hok | rewrite length_fmap; exact Hc | |].
    + intros a Hpos. rewrite list_lookup_fmap.
      destruct (ns !! (c - 1)%nat) as [b|] eqn:Hb; [|discriminate].
      intros [= <-]. apply (Hlast b Hpos eq_refl).
    + intros a. rewrite list_lookup_fmap.
      destruct (ns !! c) as [b|] eqn:Hb; [|discriminate].
      intros [= <-]. apply (Hstop b eq_refl).
  - destruct (remove_rep sl hd ns member score R)
      as (sl' & b & hd' & ns' & Hrm & R' & Hns').
    exists sl'. cbn [step]. rewrite Hrm. split; [reflexivity|].
    exists hd', ns'. split; [exact R'|].
    destruct Hns' as [->|(c & Hc & ->)]; [exact Hs|].
    rewrite fmap_del_at. apply sorted_del_at; [exact Hs|].
    rewrite length_fmap. lia.
Qed.

(** A sequence of operations never panics and never runs out of fuel. *)
Lemma run_good ops : forall sl,
  good sl -> Forall op_ok ops -> exists sl', run sl ops = Some sl' /\ good sl'.
Proof.
  induction ops as [|o ops IH]; intros sl Hg Hok.
  - exists sl. split; [reflexivity | exact Hg].
  - apply Forall_cons in Hok as [Ho Hok].
    destruct (step_good sl o Hg Ho) as (sl1 & Hstep & Hg1).
    destruct (IH sl1 Hg1 Hok) as (sl' & Hrun & Hg').
    exists sl'. cbn [run]. rewrite Hstep. split; [exact Hrun | exact Hg'].
Qed.

(** *** The rank that [getRank] returns *)

Lemma upto_down score member (a b : Element) :
  ele a b = true -> upto score member b = true -> upto score member a = true.
Proof.
  intros Hab Hb.
  apply (ele_trans a b (mkElement member score) Hab Hb).
Qed.

(** In a good list, [getRank] of an element that the list holds returns the
    number of elements at or before it. *)
Lemma getRank_counts_upto sl member score :
  good sl ->
  0 < count (same score member) (contents sl) ->
  getRank sl member score
  = Some (count (upto score member) (contents sl)).
Proof.
  intros (hd & ns & R & Hs) Hpresent.
  rewrite (contents_rep sl hd ns R) in *.
  set (els := ael <$> ns) in *.
  destruct (getRank_rep sl hd ns member score R)
    as (c & ac & Hget & Hc & Hor & Hstop).
  assert (Hclen : (c <= length els)%nat).
  { apply lookup_lt_Some in Hc. unfold els. rewrite length_fmap.
    cbn [length] in Hc. lia. }
  assert (Hlast : forall a, (0 < c)%nat -> els !! (c - 1)%nat = Some a ->
                            upto score member a = true).
  { intros a Hpos. destruct Hor as [->|HP]; [lia|].
    destruct c as [|c']; [lia|]. change (ns !! c' = Some ac) in Hc.
    replace (S c' - 1)%nat with c' by lia.
    unfold els. rewrite list_lookup_fmap, Hc. intros [= <-]. exact HP. }
  assert (Hstop' : forall b, els !! c = Some b -> upto score member b = false).
  { intros b. unfold els. rewrite list_lookup_fmap.
    destruct (ns !! c) as [b'|] eqn:Hb; [|discriminate].
    intros [= <-]. apply (Hstop b' eq_refl). }
  pose proof (count_prefix (upto score member) els c Hs
                (upto_down score member) Hclen Hlast Hstop') as Hcount.
  rewrite Hget, Hcount.
  (* the node where the descent ends carries the member asked for *)
  assert (Hex : exists q e, els !! q = Some e /\ same score member e = true).
  { clear -Hpresent. induction els as [|e t IH]; cbn [count] in Hpresent; [lia|].
    destruct (same score member e) eqn:He.
    - exists 0%nat, e. split; [reflexivity | exact He].
    - destruct IH as (q & e' & Hq & He'); [lia|]. exists (S q), e'. auto. }
  destruct Hex as (q & e & Hq & He).
  assert (Hupto : upto score member e = true)
    by (rewrite upto_split, He; apply orb_true_r).
  assert (Hqc : (q < c)%nat).
  { destruct (decide (q < c)%nat) as [|Hge]; [assumption|exfalso].
    destruct Hs as [_ Hs'].
    destruct (lookup_lt_is_Some_2 els c) as [b Hb];
      [apply lookup_lt_Some in Hq; lia|].
    pose proof (Hstop' b Hb) as Hnb.
    destruct (decide (q = c)) as [->|Hne]; [congruence|].
    rewrite (upto_down score member b e) in Hnb; [discriminate| |exact Hupto].
    apply (Hs' c q); auto. lia. }
  destruct c as [|c']; [lia|]. change (ns !! c' = Some ac) in Hc.
  destruct Hor as [|Hac]; [lia|].
  assert (Hle : ele e (ael ac) = true).
  { destruct (decide (q = c')) as [->|Hne].
    - unfold els in Hq. rewrite list_lookup_fmap, Hc in Hq.
      injection Hq as <-. apply ele_refl. destruct Hs as [Hn _].
      apply (Hn c'). unfold els. rewrite list_lookup_fmap, Hc. reflexivity.
    - destruct Hs as [_ Hs']. apply (Hs' q c'); [lia | exact Hq|].
      unfold els. rewrite list_lookup_fmap, Hc. reflexivity. }
  apply andb_true_iff in He as [Hes Hem]. apply String.eqb_eq in Hem.
  assert (Hte : ele (mkElement member score) e = true).
  { unfold ele, upto. cbn [Score Member]. rewrite (feq_sym _ _ Hes), Hem.
    rewrite sleb_refl. apply orb_true_r. }
  pose proof (ele_trans (ael ac) (mkElement member score) e Hac Hte) as Hace.
  destruct (ele_antisym _ _ Hace Hle) as [_ Hmem].
  rewrite Hmem, Hem, String.eqb_refl. reflexivity.
Qed.

(** The [float64] values [1] and [2]. *)
Definition f64_one : float64 := S754_finite false 4503599627370496 (-52).
Definition f64_two : float64 := S754_finite false 4503599627370496 (-51).

(** C3 as stated fails: [insert] does not look for the element first, so
    the list reached by inserting [("a", 1)] twice holds it twice, and
    [getRank] returns the rank [2] of the second copy although no element
    is before [("a", 1)]. *)
Lemma getRank_duplicate_counterexample :
  exists sl,
    run makeSkiplist [OpInsert "a" f64_one 0; OpInsert "a" f64_one 0]
      = Some sl /\
    In (mkElement "a" f64_one) (contents sl) /\
    getRank sl "a" f64_one = Some 2 /\
    1 + count (before f64_one "a") (contents sl) = 1.
Proof.
  eexists. split; [vm_compute; reflexivity|].
  split; [left; reflexivity|]. split; vm_compute; reflexivity.
Qed.

(** A NaN score breaks the order of the list: after [("b", 1)] and
    [("a", NaN)], [getRank] does not find [("b", 1)]. *)
Example getRank_nan_example :
  exists sl,
    run makeSkiplist [OpInsert "b" f64_one 0; OpInsert "a" S754_nan 0]
      = Some sl /\
    contents sl = [mkElement "a" S754_nan; mkElement "b" f64_one] /\
    getRank sl "b" f64_one = Some 0.
Proof.
  eexists. split; [vm_compute; reflexivity|]. split; vm_compute; reflexivity.
Qed.

(** C3, amended: in every skip list that a sequence of [insert] and
    [remove] calls builds from the empty list, with no NaN among the
    inserted scores, [getRank(member, score)] of an element that the list
    holds exactly once returns 1 plus the number of elements [(m', s')]
    with [s' < score], or [s' == score] and [m' < member].  (The calls
    themselves never fail: [run_good].) *)
Theorem getRank_is_rank (ops : list op) (sl : skiplist)
    (member : string) (score : float64) :
  Forall op_ok ops ->
  run makeSkiplist ops = Some sl ->
  count (same score member) (contents sl) = 1 ->
  getRank sl member score
  = Some (1 + count (before score member) (contents sl)).
Proof.
  intros Hok Hrun Hone.
  destruct (run_good ops makeSkiplist good_makeSkiplist Hok)
    as (sl' & Hrun' & Hg).
  rewrite Hrun in Hrun'. injection Hrun' as <-.
  rewrite (getRank_counts_upto sl member score Hg) by lia.
  rewrite (count_split (upto score member) (before score member)
             (same score member)), Hone.
  - f_equal. lia.
  - apply upto_split.
  - apply before_not_same.
Qed.

Definition rank_ops : list op :=
  [OpInsert "a" f64_one 0; OpInsert "b" f64_two 40000;
   OpInsert "c" f64_two 65534; OpInsert "d" f64_one 7;
   OpRemove "b" f64_two].

Lemma getRank_is_rank_witness :
  match run makeSkiplist rank_ops with
  | Some sl =>
      getRank sl "c" f64_two
      = Some (1 + count (before f64_two "c") (contents sl))
  | None => False
  end.
Proof.
  destruct (run makeSkiplist rank_ops) as [sl|] eqn:Hrun.
  - apply (getRank_is_rank rank_ops sl "c" f64_two).
    + repeat constructor.
    + exact Hrun.
    + vm_compute in Hrun. injection Hrun as <-. vm_compute. reflexivity.
  - vm_compute in Hrun. discriminate.
Defined.

(** *** [RemoveRangeByRank] *)

(** The list [a(1) b(2) c(2)]. *)
Definition abc : option skiplist :=
  run makeSkiplist [OpInsert "a" f64_one 0; OpInsert "b" f64_two 40000;
                    OpInsert "c" f64_two 65534].

(** C4, at the list [a b c]: the descent of [RemoveRangeByRank] stops on the
    node of rank [start] itself (or on the last node when [start] is beyond
    the length) and takes it for its own predecessor.  With ranks [1, 3)
    the call reports [a] and [b] as removed but leaves [a] linked; with
    ranks [4, 5) it reports the last element [c], leaves all three nodes
    linked and lowers the length to 2. *)
Theorem RemoveRangeByRank_misses_first_node :
  exists sl sl1 sl2,
    abc = Some sl /\
    contents sl
      = [mkElement "a" f64_one; mkElement "b" f64_two; mkElement "c" f64_two] /\
    RemoveRangeByRank sl 1 3
      = Some (sl1, [mkElement "a" f64_one; mkElement "b" f64_two]) /\
    contents sl1 = [mkElement "a" f64_one; mkElement "c" f64_two] /\
    RemoveRangeByRank sl 4 5 = Some (sl2, [mkElement "c" f64_two]) /\
    contents sl2 = contents sl /\ sl_length sl2 = 2.
Proof.
  eexists. eexists. eexists.
  split; [vm_compute; reflexivity|].
  split; [vm_compute; reflexivity|].
  split; [vm_compute; reflexivity|].
  split; [vm_compute; reflexivity|].
  split; [vm_compute; reflexivity|].
  split; vm_compute; reflexivity.
Qed.

End SkiplistSpec.

(** ** datastruct/list *)

Module LinkedListSpec.
Import LinkedList.

Local Open Scope string_scope.

Section Bounds.
Context {V : Type}.

(** [Get], [Remove], [Insert] and [Range] refuse every index outside their
    range before they touch the list. *)
Lemma Get_out_of_range (l : LinkedList V) (index : Z) :
  index < 0 \/ size l <= index -> Get l index = None.
Proof.
  intros H. unfold Get.
  destruct (Z.ltb_spec index 0), (Z.geb_spec index (size l));
    try reflexivity; lia.
Qed.

Lemma Remove_out_of_range (l : LinkedList V) (index : Z) :
  index < 0 \/ size l <= index -> Remove l index = None.
Proof.
  intros H. unfold Remove.
  destruct (Z.ltb_spec index 0), (Z.geb_spec index (size l));
    try reflexivity; lia.
Qed.

Lemma Insert_out_of_range (l : LinkedList V) (index : Z) (v : V) :
  index < 0 \/ size l < index -> Insert l index v = None.
Proof.
  intros H. unfold Insert.
  destruct (Z.ltb_spec index 0), (Z.gtb_spec index (size l));
    try reflexivity; lia.
Qed.

Lemma Range_out_of_range (l : LinkedList V) (start stop : Z) :
  start < 0 \/ size l <= start \/ size l < stop \/ stop < start ->
  Range l start stop = None.
Proof.
  intros H. unfold Range.
  destruct (Z.ltb_spec start 0), (Z.geb_spec start (size l)),
    (Z.gtb_spec stop (size l)), (Z.ltb_spec stop start);
    try reflexivity; lia.
Qed.

(** [Set] refuses the indices below 0 and above [Len()]. *)
Lemma Set_out_of_range (l : LinkedList V) (index : Z) (v : V) :
  index < 0 \/ size l < index -> Set_ l index v = None.
Proof.
  intros H. unfold Set_.
  destruct (Z.ltb_spec index 0), (Z.gtb_spec index (size l));
    try reflexivity; lia.
Qed.

End Bounds.

(** C8, at the list [["a"; "b"; "c"]] and the index [3 = Len()]: [Get]
    panics there, but [Set] passes its check [index > list.size], [find]
    returns the last node, and the list becomes [["a"; "b"; "z"]]. *)
Theorem Set_at_Len_overwrites_last :
  exists l l' : LinkedList string,
    Make ["a"; "b"; "c"] = Some l /\ Len l = 3 /\ values l = ["a"; "b"; "c"] /\
    Get l 3 = None /\
    Set_ l 3 "z" = Some l' /\ values l' = ["a"; "b"; "z"].
Proof.
  eexists. eexists. split; [vm_compute; reflexivity|].
  repeat split; vm_compute; reflexivity.
Qed.

End LinkedListSpec.

(** ** aof *)

Module AofSpec.
Import Aof.

Local Open Scope string_scope.

(** C9 as stated fails, since it is stated for every payload and the
    write of the [SELECT] line can fail.  With [currentDB] at [0], a
    payload for database [3] and a write that fails before any byte is
    written, [writeAof] returns at once: nothing is appended, the command
    is lost and [currentDB] stays [0]. *)
Lemma writeAof_failed_select_counterexample :
  let persister := mkPersister "" FsyncAlways 0 0 [] in
  let p := mkPayload ["PING"] 3 in
  let persister' := fst (writeAof persister p (WriteErr 0) WriteOk) in
  dbIndex p <> currentDB persister /\
  aofFile persister' = "" /\
  currentDB persister' = 0 /\
  ~ (aofFile persister' =
       (aofFile persister
        ++ ToBytes (ToCmdLine ["SELECT"; Itoa (dbIndex p)]))
       ++ ToBytes (cmdLine p) /\
     currentDB persister' = dbIndex p).
Proof.
  cbv zeta. split; [cbn; lia|].
  split; [vm_compute; reflexivity|].
  split; [vm_compute; reflexivity|].
  intros [_ H]. vm_compute in H. discriminate.
Qed.

(** C9, amended: when every write to the file succeeds, [writeAof] appends
    the serialization of [SELECT <dbIndex>] followed by that of [cmdLine]
    and sets [currentDB] to [dbIndex] if [dbIndex] differs from
    [currentDB]; otherwise it appends exactly the serialization of
    [cmdLine] and leaves [currentDB] as it is. *)
Theorem writeAof_appends (persister : Persister) (p : payload) :
  let persister' := fst (writeAof persister p WriteOk WriteOk) in
  aofFile persister' =
    (if (dbIndex p =? currentDB persister)%Z
     then aofFile persister ++ ToBytes (cmdLine p)
     else (aofFile persister
           ++ ToBytes (ToCmdLine ["SELECT"; Itoa (dbIndex p)]))
          ++ ToBytes (cmdLine p)) /\
  currentDB persister' =
    (if (dbIndex p =? currentDB persister)%Z then currentDB persister
     else dbIndex p).
Proof.
  unfold writeAof.
  destruct (dbIndex p =? currentDB persister)%Z; simpl; split; reflexivity.
Qed.

(** When the write of the [SELECT] fails, [writeAof] returns at once: the
    command is not written and [currentDB] keeps its value. *)
Lemma writeAof_select_fails (persister : Persister) (p : payload)
    (n : nat) (w2 : write_result) :
  dbIndex p <> currentDB persister ->
  let persister' := fst (writeAof persister p (WriteErr n) w2) in
  aofFile persister' =
    aofFile persister
    ++ String.substring 0 n (ToBytes (ToCmdLine ["SELECT"; Itoa (dbIndex p)]))
  /\ currentDB persister' = currentDB persister.
Proof.
  intros Hne. unfold writeAof.
  destruct (Z.eqb_spec (dbIndex p) (currentDB persister)); [contradiction|].
  simpl. split; reflexivity.
Qed.

End AofSpec.

(** ** datastruct/dict *)

Module DictSpec.
Import Dict.

Section Counter.
Context {V : Type}.

Implicit Types (dict : ConcurrentDict V) (m : gmap string V).

(** The counter agrees with the number of stored keys, as an [int32]. *)
Definition counted dict : Prop := count dict = int32 (total_keys dict).

Lemma int32_add (a b : Z) : int32 (int32 a + b) = int32 (a + b).
Proof.
  unfold int32.
  replace ((a + 2 ^ 31) mod 2 ^ 32 - 2 ^ 31 + b + 2 ^ 31)
    with ((a + 2 ^ 31) mod 2 ^ 32 + b) by lia.
  rewrite Zplus_mod_idemp_l. do 2 f_equal. lia.
Qed.

Lemma int32_small (a : Z) : - 2 ^ 31 <= a < 2 ^ 31 -> int32 a = a.
Proof. intros H. unfold int32. rewrite Z.mod_small; lia. Qed.

Definition sum_sizes (t : list (gmap string V)) : Z :=
  foldr (fun m acc => Z.of_nat (size m) + acc) 0 t.

Lemma sum_sizes_insert (t : list (gmap string V)) (i : nat) m m' :
  t !! i = Some m ->
  sum_sizes (<[i := m']> t)
  = sum_sizes t - Z.of_nat (size m) + Z.of_nat (size m').
Proof.
  revert i. induction t as [|a t IH]; intros [|i] H; simpl in *;
    try discriminate.
  - injection H as ->. lia.
  - rewrite (IH i H). lia.
Qed.

Lemma sum_sizes_replicate (n : nat) : sum_sizes (replicate n ∅) = 0.
Proof.
  induction n as [|n IH]; [reflexivity|].
  change (sum_sizes (replicate (S n) ∅))
    with (Z.of_nat (size (∅ : gmap string V)) + sum_sizes (replicate n ∅)).
  rewrite map_size_empty, IH. reflexivity.
Qed.

Lemma total_keys_setShard dict (index : Z) m m' (c : Z) :
  getShard dict index = Some m ->
  total_keys (setShard dict index m' c)
  = total_keys dict - Z.of_nat (size m) + Z.of_nat (size m').
Proof.
  unfold getShard, total_keys, setShard. simpl.
  destruct (index <? 0); [discriminate|].
  apply sum_sizes_insert.
Qed.

(** A fresh dictionary is empty and its counter is zero. *)
Lemma MakeConcurrent_counted (n : Z) dict :
  MakeConcurrent n = Some dict -> counted dict /\ total_keys dict = 0.
Proof.
  unfold MakeConcurrent, counted, make_table.
  destruct (n =? 1).
  - intros [= <-]. split; reflexivity.
  - destruct (computeCapacity n <? 0); simpl; [discriminate|].
    intros [= <-]. unfold total_keys. simpl.
    fold (sum_sizes (replicate (Z.to_nat (computeCapacity n)) ∅)).
    rewrite sum_sizes_replicate. split; reflexivity.
Qed.

(** Each operation moves the counter by the number of keys it adds or
    deletes. *)
Lemma Put_counted dict key (val : V) dict' r :
  counted dict -> Put dict key val = Some (dict', r) ->
  counted dict' /\ total_keys dict' = total_keys dict + r.
Proof.
  unfold counted, Put. intros Hc.
  destruct (getShard dict (spread dict key)) as [s|] eqn:Hs; simpl;
    [|discriminate].
  destruct (s !! key) as [old|] eqn:Hk; intros [= <- <-];
    rewrite (total_keys_setShard _ _ _ _ _ Hs); simpl.
  - rewrite map_size_insert_Some by eauto. rewrite Hc. split; [f_equal|]; lia.
  - rewrite map_size_insert_None by exact Hk. unfold addCount.
    rewrite Hc, int32_add. split; [f_equal|]; lia.
Qed.

Lemma PutIfAbsent_counted dict key (val : V) dict' r :
  counted dict -> PutIfAbsent dict key val = Some (dict', r) ->
  counted dict' /\ total_keys dict' = total_keys dict + r.
Proof.
  unfold counted, PutIfAbsent. intros Hc.
  destruct (getShard dict (spread dict key)) as [s|] eqn:Hs; simpl;
    [|discriminate].
  destruct (s !! key) as [old|] eqn:Hk; intros [= <- <-].
  - split; [exact Hc | lia].
  - rewrite (total_keys_setShard _ _ _ _ _ Hs); simpl.
    rewrite map_size_insert_None by exact Hk. unfold addCount.
    rewrite Hc, int32_add. split; [f_equal|]; lia.
Qed.

Lemma PutIfExists_counted dict key (val : V) dict' r :
  counted dict -> PutIfExists dict key val = Some (dict', r) ->
  counted dict' /\ total_keys dict' = total_keys dict.
Proof.
  unfold counted, PutIfExists. intros Hc.
  destruct (getShard dict (spread dict key)) as [s|] eqn:Hs; simpl;
    [|discriminate].
  destruct (s !! key) as [old|] eqn:Hk; intros [= <- <-].
  - rewrite (total_keys_setShard _ _ _ _ _ Hs); simpl.
    rewrite map_size_insert_Some by eauto. rewrite Hc. split; [f_equal|]; lia.
  - split; [exact Hc | reflexivity].
Qed.

Lemma Remove_counted dict key dict' (v : option V) r :
  counted dict -> Remove dict key = Some (dict', v, r) ->
  counted dict' /\ total_keys dict' = total_keys dict - r.
Proof.
  unfold counted, Remove. intros Hc.
  destruct (getShard dict (spread dict key)) as [s|] eqn:Hs; simpl;
    [|discriminate].
  destruct (s !! key) as [old|] eqn:Hk; intros [= <- <- <-].
  - rewrite (total_keys_setShard _ _ _ _ _ Hs); simpl.
    assert (Hsz : size (delete key s) = pred (size s))
      by (apply map_size_delete_Some; eauto).
    rewrite Hsz.
    assert (size s <> 0%nat)
      by (intros H0; apply map_size_empty_inv in H0; subst s;
          rewrite lookup_empty in Hk; discriminate).
    unfold decreaseCount. rewrite Hc.
    replace (int32 (total_keys dict) - 1)
      with (int32 (total_keys dict) + -1) by lia.
    rewrite int32_add. split; [f_equal|]; lia.
  - split; [exact Hc | lia].
Qed.

Lemma step_counted dict (o : op V) dict' :
  counted dict -> step dict o = Some dict' -> counted dict'.
Proof.
  intros Hc. destruct o; simpl;
    unfold PutWithLock, PutIfAbsentWithLock, PutIfExistsWithLock,
      RemoveWithLock, Clear;
    intros H;
    try (apply fmap_Some in H as [[[d' v'] r'] [H ->]]).
  all: try (apply fmap_Some in H as [[d' r'] [H ->]]).
  - eapply Put_counted; eauto.
  - eapply Put_counted; eauto.
  - eapply PutIfAbsent_counted; eauto.
  - eapply PutIfAbsent_counted; eauto.
  - eapply PutIfExists_counted; eauto.
  - eapply PutIfExists_counted; eauto.
  - eapply Remove_counted; eauto.
  - eapply Remove_counted; eauto.
  - eapply MakeConcurrent_counted; eauto.
Qed.

Lemma run_counted (ops : list (op V)) dict dict' :
  counted dict -> run dict ops = Some dict' -> counted dict'.
Proof.
  revert dict. induction ops as [|o ops IH]; intros dict Hc; simpl.
  - intros [= <-]. exact Hc.
  - destruct (step dict o) as [d1|] eqn:Hstep; simpl; [|discriminate].
    apply IH. eapply step_counted; eauto.
Qed.

Lemma total_keys_nonneg dict : 0 <= total_keys dict.
Proof.
  unfold total_keys. induction (table dict) as [|m t IH]; simpl; lia.
Qed.

End Counter.

(** C10, amended: in every state that a sequence of [Put], [PutWithLock],
    [PutIfAbsent], [PutIfAbsentWithLock], [PutIfExists],
    [PutIfExistsWithLock], [Remove], [RemoveWithLock] and [Clear] reaches
    from a dictionary made by [MakeConcurrent] and that holds fewer than
    [2^31] keys, the counter that [Len()] returns is the number of keys
    stored across all shards. *)
Theorem Len_counts_keys {V : Type} (n : Z) (ops : list (op V))
    (dict0 dict : ConcurrentDict V) :
  MakeConcurrent n = Some dict0 ->
  run dict0 ops = Some dict ->
  total_keys dict < 2 ^ 31 ->
  Len dict = total_keys dict.
Proof.
  intros Hmake Hrun Hsmall.
  pose proof (run_counted ops dict0 dict
                (proj1 (MakeConcurrent_counted n dict0 Hmake)) Hrun) as Hc.
  unfold Len. rewrite Hc. apply int32_small.
  pose proof (total_keys_nonneg dict). lia.
Qed.

Definition counter_ops : list (op Z) :=
  [OpPut "a"%string 1; OpPutIfAbsent "b"%string 2; OpPut "a"%string 3;
   OpRemove "b"%string; OpPutIfExists "c"%string 4;
   OpPutWithLock "d"%string 5].

Lemma Len_counts_keys_witness :
  match MakeConcurrent 4 ≫= (fun dict0 => run dict0 counter_ops) with
  | Some dict => total_keys dict = 2 /\ Len dict = total_keys dict
  | None => False
  end.
Proof.
  destruct (MakeConcurrent 4) as [dict0|] eqn:Hmake;
    [|vm_compute in Hmake; discriminate].
  cbn [mbind option_bind].
  destruct (run dict0 counter_ops) as [dict|] eqn:Hrun.
  - assert (Hkeys : total_keys dict = 2).
    { vm_compute in Hmake. injection Hmake as <-.
      vm_compute in Hrun. injection Hrun as <-. reflexivity. }
    split; [exact Hkeys|].
    apply (Len_counts_keys 4 counter_ops dict0 dict Hmake Hrun). lia.
  - vm_compute in Hmake. injection Hmake as <-.
    vm_compute in Hrun. discriminate.
Defined.

Section Grow.
Context {V : Type}.

(** In a dictionary of one shard, [Put] with a key that the shard does not
    hold adds the key to that shard. *)
Lemma Put_fresh (m : gmap string V) (c : Z) (key : string) (val : V) :
  m !! key = None ->
  Put (mkDict [m] c 1) key val
  = Some (mkDict [<[key := val]> m] (int32 (c + 1)) 1, 1).
Proof.
  intros Hk. unfold Put, spread, getShard.
  cbn [table length Nat.eqb Z.ltb Z.compare].
  change ([m] !! Z.to_nat 0) with (Some m).
  cbn [mbind option_bind]. rewrite Hk. reflexivity.
Qed.

(** Any number of keys can be added to a dictionary of one shard:
    there are always keys that it does not hold. *)
Lemma run_grows (val : V) (k : nat) :
  forall (m : gmap string V) (c : Z),
  exists (ops : list (op V)) (m' : gmap string V) (c' : Z),
    run (mkDict [m] c 1) ops = Some (mkDict [m'] c' 1) /\
    size m' = (size m + k)%nat.
Proof.
  induction k as [|k IH]; intros m c.
  - exists [], m, c. split; [reflexivity | lia].
  - set (key := fresh (dom m) : string).
    assert (Hk : m !! key = None)
      by (apply not_elem_of_dom; apply is_fresh).
    destruct (IH (<[key := val]> m) (int32 (c + 1)))
      as (ops & m' & c' & Hrun & Hsize).
    exists (OpPut key val :: ops), m', c'. split.
    + cbn [run step]. rewrite (Put_fresh m c key val Hk).
      cbn [fmap option_fmap option_map fst mbind option_bind]. exact Hrun.
    + rewrite Hsize, map_size_insert_None by exact Hk. lia.
Qed.

End Grow.

(** C10 as stated fails: the counter is an [int32] that [atomic.AddInt32]
    wraps around.  A dictionary of one shard reaches [2^31] keys by as
    many calls of [Put] with new keys, and [Len()] then returns
    [-2^31]. *)
Lemma Len_wraps_counterexample :
  exists (ops : list (op unit)) (dict0 dict : ConcurrentDict unit),
    MakeConcurrent 1 = Some dict0 /\
    run dict0 ops = Some dict /\
    total_keys dict = 2 ^ 31 /\
    Len dict = - 2 ^ 31 /\
    Len dict <> total_keys dict.
Proof.
  destruct (run_grows tt (Z.to_nat (2 ^ 31)) ∅ 0)
    as (ops & m' & c' & Hrun & Hsize).
  exists ops, (mkDict [∅] 0 1), (mkDict [m'] c' 1).
  assert (Hmake : MakeConcurrent 1 = Some (mkDict [∅ : gmap string unit] 0 1))
    by reflexivity.
  assert (Hkeys : total_keys (mkDict [m'] c' 1) = 2 ^ 31).
  { unfold total_keys. cbn [table foldr]. rewrite Hsize, map_size_empty.
    rewrite Nat.add_0_l, Z2Nat.id by lia. lia. }
  assert (Hlen : Len (mkDict [m'] c' 1) = - 2 ^ 31).
  { pose proof (run_counted ops _ _
                  (proj1 (MakeConcurrent_counted 1 _ Hmake)) Hrun) as Hc.
    unfold Len. rewrite Hc, Hkeys. reflexivity. }
  split; [exact Hmake|]. split; [exact Hrun|]. split; [exact Hkeys|].
  split; [exact Hlen|]. rewrite Hlen, Hkeys. lia.
Qed.

End DictSpec.

Module ClusterProps.
Import Cluster ClusterSpec.

Local Open Scope string_scope.

(** The byte at the offset that [Index] returns is the separator. *)
Lemma Index_get (s : string) (c : ascii) :
  0 <= Index s c -> String.get (Z.to_nat (Index s c)) s = Some c.
Proof.
  induction s as [|a t IH]; simpl; [lia|].
  destruct (Ascii.eqb_spec a c) as [->|Hne]; [reflexivity|].
  destruct (Z.ltb_spec (Index t c) 0) as [Hneg|Hpos]; [lia|].
  intros _. replace (Z.to_nat (Index t c + 1)) with (S (Z.to_nat (Index t c))) by lia.
  apply IH. lia.
Qed.

Lemma append_cons (a : ascii) (s t : string) :
  String a s ++ t = String a (s ++ t).
Proof. reflexivity. Qed.

Lemma Index_absent_app (s t : string) (c : ascii) :
  Index s c = -1 -> Index t c = -1 -> Index (s ++ t) c = -1.
Proof.
  intros Hs Ht.
  induction s as [|a s IH]; [exact Ht|].
  rewrite append_cons. cbn [Index] in *.
  destruct (Ascii.eqb a c); [discriminate|].
  cbn zeta in *.
  destruct (Index_range s c) as [Hm|Hr].
  - rewrite (IH Hm). reflexivity.
  - destruct (Z.ltb_spec (Index s c) 0); lia.
Qed.

Lemma substring_app_skip (s t : string) (m : nat) :
  String.substring (String.length s) m (s ++ t) = String.substring 0 m t.
Proof.
  induction s as [|a s IH]; [reflexivity|].
  rewrite append_cons. cbn [String.length String.substring]. exact IH.
Qed.

Lemma append_assoc (a b c : string) : (a ++ b) ++ c = a ++ (b ++ c).
Proof.
  induction a as [|x a IH]; [reflexivity|].
  rewrite !append_cons, IH. reflexivity.
Qed.

(** The hash tag of a key [a{tag}b]: when [a] has no brace and [tag] is not
    empty and has no ['}'], the partition key is [tag]. *)
Lemma GetPartitionKey_hashtag (a tag b : string) :
  Index a "{"%char = -1 -> Index a "}"%char = -1 ->
  Index tag "}"%char = -1 -> tag <> "" ->
  GetPartitionKey (a ++ String "{" (tag ++ String "}" b)) = Some tag.
Proof.
  intros Ha1 Ha2 Htag Hne. unfold GetPartitionKey.
  rewrite (Index_app_absent a (tag ++ String "}" b) "{"%char Ha1).
  assert (Hend : Index (a ++ String "{" (tag ++ String "}" b)) "}"%char
                 = Z.of_nat (String.length a) + 1 + Z.of_nat (String.length tag)).
  { change (a ++ String "{" (tag ++ String "}" b))
      with (a ++ (String "{" tag ++ String "}" b)).
    rewrite <- append_assoc.
    rewrite (Index_app_absent (a ++ String "{" tag) b "}"%char).
    - rewrite length_append. cbn [String.length]. lia.
    - apply Index_absent_app; [exact Ha2|].
      cbn [Index]. change (Ascii.eqb "{" "}") with false. cbn iota.
      rewrite Htag. reflexivity. }
  rewrite Hend.
  assert (Hlen : (0 < String.length tag)%nat).
  { destruct tag; [congruence | simpl; lia]. }
  destruct (Z.eqb_spec (Z.of_nat (String.length a)) (-1)); [lia|].
  destruct (Z.eqb_spec (Z.of_nat (String.length a) + 1
                        + Z.of_nat (String.length tag)) (-1)); [lia|].
  destruct (Z.eqb_spec (Z.of_nat (String.length a) + 1
                        + Z.of_nat (String.length tag))
                       (Z.of_nat (String.length a) + 1)); [lia|].
  cbn [orb]. unfold slice.
  rewrite !length_append. cbn [String.length]. rewrite !length_append.
  cbn [String.length].
  destruct (Z.leb_spec 0 (Z.of_nat (String.length a) + 1)); [|lia].
  destruct (Z.leb_spec (Z.of_nat (String.length a) + 1)
              (Z.of_nat (String.length a) + 1 + Z.of_nat (String.length tag)));
    [|lia].
  destruct (Z.leb_spec
              (Z.of_nat (String.length a) + 1 + Z.of_nat (String.length tag))
              (Z.of_nat (String.length a
                         + S (String.length tag + S (String.length b)))));
    [|lia].
  cbn [andb]. f_equal.
  replace (Z.to_nat (Z.of_nat (String.length a) + 1))
    with (String.length (a ++ "{")) by (rewrite length_append; simpl; lia).
  replace (Z.of_nat (String.length a) + 1 + Z.of_nat (String.length tag)
           - (Z.of_nat (String.length a) + 1))
    with (Z.of_nat (String.length tag)) by lia.
  rewrite Nat2Z.id.
  change (a ++ String "{" (tag ++ String "}" b))
    with (a ++ ("{" ++ (tag ++ String "}" b))).
  rewrite <- append_assoc, substring_app_skip.
  apply substring_app_prefix.
Qed.

(** [GetPartitionKey] panics exactly on the keys in which a ['}'] stands
    before the first ['{']; on every other key it returns a result. *)
Theorem GetPartitionKey_panics_iff (key : string) :
  GetPartitionKey key = None
  <-> 0 <= Index key "}"%char < Index key "{"%char.
Proof.
  unfold GetPartitionKey, slice.
  pose proof (Index_range key "{"%char) as Hb.
  pose proof (Index_range key "}"%char) as He.
  assert (Hdiff : 0 <= Index key "{"%char ->
                  Index key "}"%char <> Index key "{"%char).
  { intros Hpos Heq.
    pose proof (Index_get key "{"%char Hpos) as H1.
    pose proof (Index_get key "}"%char ltac:(lia)) as H2.
    rewrite Heq, H1 in H2. discriminate. }
  destruct (Z.eqb_spec (Index key "{"%char) (-1)) as [Hm|Hm].
  { split; [discriminate | lia]. }
  destruct (Z.eqb_spec (Index key "}"%char) (-1)) as [Hn|Hn]; cbn [orb].
  { split; [discriminate | lia]. }
  destruct (Z.eqb_spec (Index key "}"%char) (Index key "{"%char + 1))
    as [Hadj|Hadj].
  { split; [discriminate | lia]. }
  destruct (Z.leb_spec 0 (Index key "{"%char + 1)); [|lia].
  destruct (Z.leb_spec (Index key "}"%char) (Z.of_nat (String.length key)));
    [|lia].
  destruct (Z.leb_spec (Index key "{"%char + 1) (Index key "}"%char));
    cbn [andb].
  - split; [discriminate | lia].
  - split; [intros _; specialize (Hdiff ltac:(lia)); lia | reflexivity].
Qed.

(** Keys that carry the same hash tag fall into the same slot, the slot of
    the tag: for a brace-free prefix [a] and a non-empty [tag] without
    ['}'], the slot of [a{tag}b] is [CRC32(tag) mod 1024] whatever [a] and
    [b] are. *)
Theorem GetSlot_hashtag (a tag b : string) :
  Index a "{"%char = -1 -> Index a "}"%char = -1 ->
  Index tag "}"%char = -1 -> tag <> "" ->
  GetSlot (a ++ String "{" (tag ++ String "}" b))
  = Some (ChecksumIEEE tag mod SlotCount).
Proof.
  intros Ha1 Ha2 Htag Hne. unfold GetSlot.
  rewrite (GetPartitionKey_hashtag a tag b Ha1 Ha2 Htag Hne). reflexivity.
Qed.

Lemma GetSlot_hashtag_witness :
  GetSlot "user:{42}:name" = Some (ChecksumIEEE "42" mod SlotCount).
Proof.
  apply (GetSlot_hashtag "user:" "42" ":name");
    [reflexivity | reflexivity | reflexivity | discriminate].
Defined.

End ClusterProps.

Module LockProps.
Import Lock.

(** *** [sort.Slice] *)

(** The order that [less reverse] sorts into. *)
Definition ord (reverse : bool) : relation Z :=
  if reverse then flip Z.le else Z.le.

Lemma sort_insert_perm (reverse : bool) (x : Z) (l : list Z) :
  sort_insert reverse x l ≡ₚ x :: l.
Proof.
  induction l as [|y l IH]; cbn [sort_insert]; [reflexivity|].
  destruct (less reverse y x); [|reflexivity].
  rewrite IH. apply Permutation_swap.
Qed.

Lemma sort_Slice_perm (reverse : bool) (l : list Z) :
  sort_Slice reverse l ≡ₚ l.
Proof.
  induction l as [|x l IH]; [reflexivity|].
  cbn [sort_Slice foldr]. fold (sort_Slice reverse l).
  rewrite sort_insert_perm, IH. reflexivity.
Qed.

Lemma less_ord (reverse : bool) (a b : Z) :
  (less reverse a b = true -> ord reverse a b) /\
  (less reverse a b = false -> ord reverse b a).
Proof.
  unfold less, ord, flip. destruct reverse; cbn [negb].
  - destruct (Z.gtb_spec a b); split; intros; (lia || discriminate).
  - destruct (Z.ltb_spec a b); split; intros; (lia || discriminate).
Qed.

Lemma sort_insert_sorted (reverse : bool) (x : Z) (l : list Z) :
  Sorted (ord reverse) l -> Sorted (ord reverse) (sort_insert reverse x l).
Proof.
  induction l as [|y l IH]; cbn [sort_insert]; intros Hs.
  - repeat constructor.
  - destruct (less reverse y x) eqn:Hless.
    + apply Sorted_inv in Hs as [Hs Hhd].
      constructor; [apply IH; exact Hs|].
      destruct l as [|z l]; cbn [sort_insert].
      * constructor. apply (proj1 (less_ord reverse y x)). exact Hless.
      * destruct (less reverse z x); constructor.
        -- inversion Hhd; assumption.
        -- apply (proj1 (less_ord reverse y x)). exact Hless.
    + constructor; [exact Hs|]. constructor.
      apply (proj2 (less_ord reverse y x)). exact Hless.
Qed.

Lemma sort_Slice_sorted (reverse : bool) (l : list Z) :
  Sorted (ord reverse) (sort_Slice reverse l).
Proof.
  induction l as [|x l IH]; [constructor|].
  cbn [sort_Slice foldr]. apply sort_insert_sorted. exact IH.
Qed.

Local Instance ord_trans reverse : Transitive (ord reverse).
Proof. unfold ord, flip. destruct reverse; intros a b c; lia. Qed.

Local Instance ord_antisym reverse : AntiSymm (=) (ord reverse).
Proof. unfold ord, flip. destruct reverse; intros a b; lia. Qed.

(** Sorting downwards gives the upward sort read backwards. *)
Lemma sort_Slice_reverse (l : list Z) :
  sort_Slice true l = reverse (sort_Slice false l).
Proof.
  apply (Sorted_unique (ord true)).
  - apply sort_Slice_sorted.
  - apply (Sorted_reverse (ord false)). apply sort_Slice_sorted.
  - rewrite reverse_Permutation, !sort_Slice_perm. reflexivity.
Qed.

Lemma toLockIndices_reverse (locks : Locks) (keys : list string) :
  toLockIndices locks keys true = reverse (toLockIndices locks keys false).
Proof. unfold toLockIndices. apply sort_Slice_reverse. Qed.

(** *** Indices stay inside the table *)

Lemma fnv32_loop_nonneg (key : string) (hash : Z) :
  0 <= hash -> 0 <= fnv32_loop hash key.
Proof.
  revert hash. induction key as [|c t IH]; intros hash Hh; cbn [fnv32_loop];
    [exact Hh|].
  apply IH. apply Z.lxor_nonneg. unfold wrap32, Cluster.byte_val.
  pose proof (Z.mod_pos_bound (hash * prime32) (2 ^ 32) ltac:(lia)). lia.
Qed.

Lemma fnv32_nonneg (key : string) : 0 <= fnv32 key.
Proof. apply fnv32_loop_nonneg. lia. Qed.

Lemma land_upper (a b : Z) : 0 <= b -> 0 <= Z.land a b <= b.
Proof.
  intros Hb. split; [apply Z.land_nonneg; right; exact Hb|].
  rewrite Z.land_comm.
  pose proof (Z.sub_land_same_l b a) as H.
  assert (0 <= Z.land b (Z.lnot a)) by (apply Z.land_nonneg; left; exact Hb).
  lia.
Qed.

(** In a table that is not empty, [spread] returns an index of the table. *)
Lemma spread_in_table (locks : Locks) (hashCode : Z) :
  1 <= tableSize locks ->
  0 <= spread locks hashCode < tableSize locks.
Proof.
  intros Hsize. unfold spread, wrap32.
  pose proof (Z.mod_pos_bound (tableSize locks - 1) (2 ^ 32) ltac:(lia)).
  pose proof (Z.mod_le (tableSize locks - 1) (2 ^ 32) ltac:(lia) ltac:(lia)).
  pose proof (land_upper hashCode ((tableSize locks - 1) mod 2 ^ 32)
                ltac:(lia)).
  lia.
Qed.

Lemma table_at_spread (locks : Locks) (hashCode : Z) :
  1 <= tableSize locks ->
  table_at locks (spread locks hashCode) = Some (spread locks hashCode).
Proof.
  intros Hsize. unfold table_at.
  pose proof (spread_in_table locks hashCode Hsize).
  destruct (Z.leb_spec 0 (spread locks hashCode)); [|lia].
  destruct (Z.ltb_spec (spread locks hashCode) (tableSize locks)); [|lia].
  reflexivity.
Qed.

(** Every entry of [toLockIndices] is [0] or the shard of one of the
    keys. *)
Lemma elem_of_toLockIndices (locks : Locks) (keys : list string)
    (reverse : bool) (i : Z) :
  i ∈ toLockIndices locks keys reverse
  <-> (i = 0 /\ keys <> [])
      \/ exists key, key ∈ keys /\ i = spread locks (fnv32 key).
Proof.
  unfold toLockIndices. rewrite sort_Slice_perm, elem_of_app, elem_of_elements.
  unfold indexSet. rewrite elem_of_list_to_set, elem_of_replicate.
  rewrite list_elem_of_fmap.
  split.
  - intros [[-> Hsz]|(key & -> & Hkey)]; [left|right; eauto].
    split; [reflexivity|]. intros ->. apply Hsz. reflexivity.
  - intros [[-> Hne]|(key & Hkey & ->)]; [left|right; eauto].
    split; [reflexivity|].
    destruct keys as [|k ks]; [congruence|].
    intros Hsz. apply size_empty_iff in Hsz.
    cbn [map list_to_set] in Hsz. set_solver.
Qed.

Lemma toLockIndices_in_table (locks : Locks) (keys : list string)
    (reverse : bool) :
  1 <= tableSize locks ->
  Forall (fun i => table_at locks i = Some i)
    (toLockIndices locks keys reverse).
Proof.
  intros Hsize. apply Forall_forall. intros i Hi.
  apply elem_of_toLockIndices in Hi as [[-> _]|(key & _ & ->)].
  - unfold table_at. destruct (Z.ltb_spec 0 (tableSize locks)); [|lia].
    reflexivity.
  - apply table_at_spread. exact Hsize.
Qed.

(** The call [RWLocks] makes for an index, and the one [RWUnLock] makes. *)
Definition acquire (writeIndexSet : gset Z) (index : Z) : call :=
  if bool_decide (index ∈ writeIndexSet) then Lock_ index else RLock_ index.

Definition release (writeIndexSet : gset Z) (index : Z) : call :=
  if bool_decide (index ∈ writeIndexSet) then Unlock_ index
  else RUnlock_ index.

Lemma RWLocks_loop_total (locks : Locks) (ws : gset Z) (indices : list Z) :
  Forall (fun i => table_at locks i = Some i) indices ->
  RWLocks_loop locks ws indices = Some (acquire ws <$> indices).
Proof.
  induction 1 as [|i l Hi _ IH]; [reflexivity|].
  cbn [RWLocks_loop]. rewrite Hi, IH. reflexivity.
Qed.

(** The index a call is made on, and the call that undoes it. *)
Definition index_of (c : call) : Z :=
  match c with
  | Lock_ i | RLock_ i | Unlock_ i | RUnlock_ i => i
  end.

Definition undo (c : call) : call :=
  match c with
  | Lock_ i => Unlock_ i
  | RLock_ i => RUnlock_ i
  | c => c
  end.

(** *** [RWLocks] on the mutexes *)

(** The state in which [count] calls of [RWLocks] leave a mutex that
    nobody held: a write-locked mutex after its one [Lock], a mutex with
    [count] read locks after [count] calls of [RLock]. *)
Definition locked (write : bool) (count : nat) : rwmutex :=
  match count with
  | O => Unlocked
  | S _ => if write then WLocked else RLocked count
  end.

Lemma mutex_at_insert (table : list rwmutex) (i j : Z) (mu : rwmutex) :
  0 <= i < Z.of_nat (length table) -> 0 <= j ->
  mutex_at (<[Z.to_nat i := mu]> table) j
  = if decide (j = i) then Some mu else mutex_at table j.
Proof.
  intros Hi Hj. unfold mutex_at.
  destruct (Z.ltb_spec j 0); [lia|].
  destruct (decide (j = i)) as [->|Hne].
  - apply list_lookup_insert_eq. lia.
  - apply list_lookup_insert_ne. lia.
Qed.

(** The loop returns when no index of the write set comes up twice, and
    every mutex then holds the locks of the calls made on it. *)
Lemma RWLocks_run_loop_returns (ws : gset Z) (indices : list Z) :
  forall (table : list rwmutex) (cnt : Z -> nat),
  (forall i, i ∈ indices -> 0 <= i < Z.of_nat (length table)) ->
  (forall i, 0 <= i < Z.of_nat (length table) ->
     mutex_at table i = Some (locked (bool_decide (i ∈ ws)) (cnt i))) ->
  (forall i, i ∈ ws -> (cnt i + count_occ Z.eq_dec indices i <= 1)%nat) ->
  exists table',
    RWLocks_run_loop ws indices table = Returned table' /\
    length table' = length table /\
    forall i, 0 <= i < Z.of_nat (length table) ->
      mutex_at table' i
      = Some (locked (bool_decide (i ∈ ws))
                (cnt i + count_occ Z.eq_dec indices i)).
Proof.
  induction indices as [|index rest IH]; intros table cnt Hin Hst Hws.
  - exists table. split; [reflexivity|]. split; [reflexivity|].
    intros i Hi. cbn [count_occ]. rewrite Nat.add_0_r. apply Hst. exact Hi.
  - assert (Hidx : 0 <= index < Z.of_nat (length table))
      by (apply Hin; apply list_elem_of_here).
    cbn [RWLocks_run_loop]. rewrite (Hst index Hidx).
    set (cnt' := fun j => if decide (j = index) then S (cnt j) else cnt j).
    assert (Hcall :
      (if bool_decide (index ∈ ws)
       then mu_Lock (locked (bool_decide (index ∈ ws)) (cnt index))
       else mu_RLock (locked (bool_decide (index ∈ ws)) (cnt index)))
      = Some (locked (bool_decide (index ∈ ws)) (S (cnt index)))).
    { destruct (decide (index ∈ ws)) as [Hw|Hw].
      - rewrite (bool_decide_eq_true_2 _ Hw).
        specialize (Hws index Hw). cbn [count_occ] in Hws.
        destruct (Z.eq_dec index index) as [_|Hne]; [|congruence].
        assert (cnt index = 0%nat) as -> by lia. reflexivity.
      - rewrite (bool_decide_eq_false_2 _ Hw).
        destruct (cnt index); reflexivity. }
    rewrite Hcall.
    destruct (IH (<[Z.to_nat index := locked (bool_decide (index ∈ ws))
                                        (S (cnt index))]> table) cnt')
      as (table' & Hrun & Hlen & Hfin).
    + intros i Hi. rewrite length_insert. apply Hin.
      apply list_elem_of_further. exact Hi.
    + intros i Hi. rewrite length_insert in Hi.
      rewrite mutex_at_insert by lia. unfold cnt'.
      destruct (decide (i = index)) as [->|Hne]; [reflexivity|].
      apply Hst. exact Hi.
    + intros i Hi. specialize (Hws i Hi). cbn [count_occ] in Hws.
      unfold cnt'. destruct (Z.eq_dec index i) as [->|Hne].
      * rewrite decide_True by reflexivity. lia.
      * rewrite decide_False by congruence. exact Hws.
    + exists table'. split; [exact Hrun|].
      rewrite length_insert in Hlen, Hfin. split; [exact Hlen|].
      intros i Hi. rewrite (Hfin i Hi). do 2 f_equal.
      unfold cnt'. cbn [count_occ].
      destruct (Z.eq_dec index i) as [->|Hne].
      * rewrite decide_True by reflexivity. lia.
      * rewrite decide_False by congruence. reflexivity.
Qed.

(** A second [Lock] on the mutex that the first one took never returns. *)
Lemma RWLocks_run_loop_blocks (ws : gset Z) (index : Z) (rest : list Z)
    (table : list rwmutex) :
  index ∈ ws -> mutex_at table index = Some Unlocked ->
  RWLocks_run_loop ws (index :: index :: rest) table = Blocked index.
Proof.
  intros Hw Hat. cbn [RWLocks_run_loop].
  rewrite Hat, (bool_decide_eq_true_2 _ Hw). cbn [mu_Lock].
  assert (Hidx : 0 <= index < Z.of_nat (length table)).
  { unfold mutex_at in Hat. destruct (Z.ltb_spec index 0); [discriminate|].
    apply lookup_lt_Some in Hat. lia. }
  rewrite mutex_at_insert by lia. rewrite decide_True by reflexivity.
  reflexivity.
Qed.

Lemma mutex_at_Make (tableSize : Z) (table : list rwmutex) (i : Z) :
  Make tableSize = Some table ->
  Z.of_nat (length table) = tableSize /\
  (0 <= i < tableSize -> mutex_at table i = Some Unlocked).
Proof.
  unfold Make. destruct (Z.ltb_spec tableSize 0); [discriminate|].
  intros [= <-]. rewrite length_replicate. split; [lia|].
  intros Hi. unfold mutex_at. destruct (Z.ltb_spec i 0); [lia|].
  apply lookup_replicate_2. lia.
Qed.

(** An ascending list of indices that holds [0] starts with it. *)
Lemma sorted_starts_with_zero (l : list Z) :
  Sorted Z.le l -> Forall (Z.le 0) l -> 0 ∈ l -> exists t, l = 0 :: t.
Proof.
  intros Hs Hpos H0. destruct l as [|x t]; [inversion H0|].
  exists t. f_equal.
  apply Sorted_StronglySorted in Hs; [|intros a b c; lia].
  apply StronglySorted_inv in Hs as [_ Hall].
  apply Forall_cons in Hpos as [Hx _].
  apply elem_of_cons in H0 as [->|H0]; [reflexivity|].
  rewrite Forall_forall in Hall. specialize (Hall 0 H0). lia.
Qed.

Lemma toLockIndices_count (locks : Locks) (keys : list string) (i : Z) :
  count_occ Z.eq_dec (toLockIndices locks keys false) i
  = ((if decide (i = 0%Z) then size (indexSet locks keys) else 0%nat)
     + count_occ Z.eq_dec (elements (indexSet locks keys)) i)%nat.
Proof.
  unfold toLockIndices.
  rewrite (proj1 (Permutation_count_occ Z.eq_dec _ _)
             (sort_Slice_perm false _) i).
  rewrite count_occ_app. f_equal.
  generalize (size (indexSet locks keys)). intros n.
  induction n as [|n IH]; cbn [replicate count_occ].
  - destruct (decide (i = 0)); reflexivity.
  - rewrite IH. destruct (Z.eq_dec 0 i) as [<-|Hne].
    + rewrite !decide_True by reflexivity. reflexivity.
    + rewrite !decide_False by congruence. reflexivity.
Qed.

Lemma indexSet_app (locks : Locks) (writeKeys readKeys : list string) :
  indexSet locks writeKeys ⊆ indexSet locks (writeKeys ++ readKeys).
Proof.
  unfold indexSet. rewrite map_app, list_to_set_app_L.
  apply union_subseteq_l.
Qed.

(** With a write key on shard [0] the sorted indices start with two
    zeros. *)
Lemma toLockIndices_two_zeros (locks : Locks)
    (writeKeys readKeys : list string) :
  1 <= tableSize locks ->
  0 ∈ indexSet locks writeKeys ->
  exists rest,
    toLockIndices locks (writeKeys ++ readKeys) false = 0 :: 0 :: rest.
Proof.
  intros Hsize Hw.
  set (keys := writeKeys ++ readKeys).
  assert (H0 : 0 ∈ indexSet locks keys)
    by (apply (indexSet_app locks writeKeys readKeys); exact Hw).
  assert (Hcount : (2 <= count_occ Z.eq_dec
                          (toLockIndices locks keys false) 0%Z)%nat).
  { rewrite toLockIndices_count, decide_True by reflexivity.
    assert (Hsize0 : size (indexSet locks keys) <> 0%nat).
    { intros Hsz. apply size_empty_iff in Hsz.
      apply (not_elem_of_empty (C := gset Z) 0). rewrite <- Hsz. exact H0. }
    assert (Hin : In 0 (elements (indexSet locks keys)))
      by (apply list_elem_of_In, elem_of_elements; exact H0).
    apply (count_occ_In Z.eq_dec) in Hin. lia. }
  assert (Hpos : Forall (Z.le 0) (toLockIndices locks keys false)).
  { apply Forall_forall. intros i Hi.
    apply elem_of_toLockIndices in Hi as [[-> _]|(key & _ & ->)]; [lia|].
    apply (spread_in_table locks (fnv32 key) Hsize). }
  pose proof (sort_Slice_sorted false
                (replicate (size (indexSet locks keys)) 0
                 ++ elements (indexSet locks keys))) as Hs.
  change (Sorted Z.le (toLockIndices locks keys false)) in Hs.
  destruct (sorted_starts_with_zero _ Hs Hpos) as [t Ht].
  { apply list_elem_of_In, (count_occ_In Z.eq_dec). lia. }
  rewrite Ht in Hs, Hpos, Hcount |- *.
  cbn [count_occ] in Hcount.
  destruct (Z.eq_dec 0 0) as [_|Hne]; [|congruence].
  apply Sorted_inv in Hs as [Hs _]. apply Forall_cons in Hpos as [_ Hpos].
  destruct (sorted_starts_with_zero _ Hs Hpos) as [rest ->].
  { apply list_elem_of_In, (count_occ_In Z.eq_dec). lia. }
  exists rest. reflexivity.
Qed.

(** On a lock table with at least one mutex no method indexes outside of
    it: the single-key methods make their call on the mutex of the shard
    of their key.  [RWLocks], called by the only goroutine that uses a
    table fresh from [Make], never returns when a write key belongs to
    shard [0]: the slice of [toLockIndices] starts with two zeros, and the
    second [Lock] on mutex [0] blocks.  Otherwise it returns, and leaves
    every mutex with the locks of the entries of [toLockIndices] that name
    it: a write lock for the shard of a write key, and as many read locks
    as there are entries for the others. *)
Theorem Lock_in_table (locks : Locks) (key : string)
    (writeKeys readKeys : list string) (table : list rwmutex) :
  1 <= tableSize locks ->
  Make (tableSize locks) = Some table ->
  Lock locks key = Some (Lock_ (spread locks (fnv32 key))) /\
  RLock locks key = Some (RLock_ (spread locks (fnv32 key))) /\
  UnLock locks key = Some (Unlock_ (spread locks (fnv32 key))) /\
  RUnLock locks key = Some (RUnlock_ (spread locks (fnv32 key))) /\
  0 <= spread locks (fnv32 key) < tableSize locks /\
  (0 ∈ indexSet locks writeKeys ->
   RWLocks_run table writeKeys readKeys = Blocked 0) /\
  (0 ∉ indexSet locks writeKeys ->
   exists table',
     RWLocks_run table writeKeys readKeys = Returned table' /\
     length table' = length table /\
     forall index, 0 <= index < tableSize locks ->
       mutex_at table' index
       = Some (locked (bool_decide (index ∈ indexSet locks writeKeys))
                 (count_occ Z.eq_dec
                    (toLockIndices locks (writeKeys ++ readKeys) false)
                    index))).
Proof.
  intros Hsize Hmake. unfold Lock, RLock, UnLock, RUnLock.
  rewrite (table_at_spread locks (fnv32 key) Hsize). cbn [mbind option_bind].
  repeat (split; [reflexivity|]).
  split; [apply spread_in_table; exact Hsize|].
  destruct (mutex_at_Make _ _ 0 Hmake) as [Hlen H0].
  assert (Hfree : forall i, 0 <= i < tableSize locks ->
            mutex_at table i = Some Unlocked)
    by (intros i; apply (mutex_at_Make _ _ i Hmake)).
  unfold RWLocks_run. rewrite Hlen.
  replace (mkLocks (tableSize locks)) with locks by (destruct locks; reflexivity).
  split.
  - intros Hw.
    destruct (toLockIndices_two_zeros locks writeKeys readKeys Hsize Hw)
      as [rest ->].
    apply RWLocks_run_loop_blocks; [exact Hw | apply H0; lia].
  - intros Hw.
    destruct (RWLocks_run_loop_returns (indexSet locks writeKeys)
                (toLockIndices locks (writeKeys ++ readKeys) false)
                table (fun _ => 0%nat))
      as (table' & Hrun & Hlen' & Hfin).
    + intros i Hi. rewrite Hlen.
      apply elem_of_toLockIndices in Hi as [[-> _]|(k & _ & ->)]; [lia|].
      apply (spread_in_table locks (fnv32 k) Hsize).
    + intros i Hi. rewrite Hlen in Hi. rewrite (Hfree i Hi). reflexivity.
    + intros i Hi. rewrite toLockIndices_count.
      rewrite decide_False by (intros ->; contradiction).
      pose proof (proj1 (NoDup_count_occ Z.eq_dec _)
                    (proj1 (NoDup_ListNoDup _)
                       (NoDup_elements
                          (indexSet locks (writeKeys ++ readKeys)))) i).
      lia.
    + exists table'. split; [exact Hrun|]. split; [exact Hlen'|].
      intros index Hindex. rewrite Hlen in Hfin. apply (Hfin index Hindex).
Qed.

Lemma Lock_in_table_witness :
  RWLocks_run (replicate 16 Unlocked) ["o"%string] ["a"%string] = Blocked 0.
Proof.
  apply (Lock_in_table (mkLocks 16) "o" ["o"%string] ["a"%string]
           (replicate 16 Unlocked)).
  - cbn. lia.
  - reflexivity.
  - apply (bool_decide_unpack (0 ∈ indexSet (mkLocks 16) ["o"%string])).
    vm_compute. exact I.
Defined.

(** [RWUnLock] releases what [RWLocks] acquired, last acquired first: its
    calls are the calls of [RWLocks] read backwards, each lock call replaced
    by the unlock call on the same mutex. *)
Theorem RWUnLock_mirrors_RWLocks (locks : Locks)
    (writeKeys readKeys : list string) (calls : list call) :
  RWLocks locks writeKeys readKeys = Some calls ->
  RWUnLock locks writeKeys readKeys = Some (reverse (undo <$> calls)).
Proof.
  unfold RWLocks, RWUnLock. rewrite toLockIndices_reverse.
  generalize (toLockIndices locks (writeKeys ++ readKeys) false).
  generalize (indexSet locks writeKeys). intros ws l. revert calls.
  assert (Hsnoc : forall l i, table_at locks i = Some i ->
            forall cs, RWUnLock_loop locks ws l = Some cs ->
            RWUnLock_loop locks ws (l ++ [i]) = Some (cs ++ [release ws i])).
  { clear. intros l i Hi. induction l as [|j l IH]; intros cs.
    - intros [= <-]. cbn [app RWUnLock_loop]. rewrite Hi. reflexivity.
    - cbn [app RWUnLock_loop].
      destruct (table_at locks j) as [mu|]; [|discriminate].
      cbn [mbind option_bind].
      destruct (RWUnLock_loop locks ws l) as [cs'|]; [|discriminate].
      intros [= <-]. rewrite (IH cs' eq_refl). reflexivity. }
  induction l as [|i l IH]; intros calls.
  - intros [= <-]. reflexivity.
  - cbn [RWLocks_loop]. unfold table_at at 1.
    destruct ((0 <=? i) && (i <? tableSize locks)) eqn:Hi; [|discriminate].
    cbn [mbind option_bind].
    destruct (RWLocks_loop locks ws l) as [cs|]; [|discriminate].
    intros [= <-]. rewrite reverse_cons.
    assert (Hti : table_at locks i = Some i)
      by (unfold table_at; rewrite Hi; reflexivity).
    rewrite (Hsnoc (reverse l) i Hti (reverse (undo <$> cs)))
      by (apply IH; reflexivity).
    cbn [fmap list_fmap]. rewrite reverse_cons. f_equal. f_equal. f_equal.
    unfold release. cbn [undo]. destruct (bool_decide _); reflexivity.
Qed.

Lemma RWUnLock_mirrors_RWLocks_witness :
  RWUnLock (mkLocks 16) ["a"%string] []
  = Some (reverse (undo <$> [RLock_ 0; Lock_ 14])).
Proof.
  apply (RWUnLock_mirrors_RWLocks (mkLocks 16) ["a"%string] []).
  vm_compute. reflexivity.
Defined.

Lemma RWLocks_loop_Some (locks : Locks) (ws : gset Z) (indices : list Z)
    (calls : list call) :
  RWLocks_loop locks ws indices = Some calls ->
  calls = acquire ws <$> indices.
Proof.
  revert calls. induction indices as [|i l IH]; intros calls.
  - intros [= <-]. reflexivity.
  - cbn [RWLocks_loop]. unfold table_at.
    destruct ((0 <=? i) && (i <? tableSize locks)); [|discriminate].
    cbn [mbind option_bind].
    destruct (RWLocks_loop locks ws l) as [cs|]; [|discriminate].
    intros [= <-]. rewrite (IH cs eq_refl). reflexivity.
Qed.

(** What [RWLocks] acquires: the mutexes are taken in ascending order of
    their index, the shard of every write key is write-locked, the shard
    of every read key is locked (for writing when a write key shares it),
    and only shards of write keys are write-locked. *)
Theorem RWLocks_covers (locks : Locks) (writeKeys readKeys : list string)
    (calls : list call) :
  RWLocks locks writeKeys readKeys = Some calls ->
  Sorted Z.le (index_of <$> calls) /\
  (forall key, key ∈ writeKeys ->
     Lock_ (spread locks (fnv32 key)) ∈ calls) /\
  (forall key, key ∈ readKeys ->
     RLock_ (spread locks (fnv32 key)) ∈ calls
     \/ Lock_ (spread locks (fnv32 key)) ∈ calls) /\
  (forall i, Lock_ i ∈ calls ->
     exists key, key ∈ writeKeys /\ i = spread locks (fnv32 key)).
Proof.
  unfold RWLocks. intros H. apply RWLocks_loop_Some in H. subst calls.
  set (ws := indexSet locks writeKeys).
  set (l := toLockIndices locks (writeKeys ++ readKeys) false).
  assert (Hws : forall i, i ∈ ws <->
            exists key, key ∈ writeKeys /\ i = spread locks (fnv32 key)).
  { intros i. unfold ws, indexSet.
    rewrite elem_of_list_to_set, list_elem_of_fmap.
    split; intros (key & H1 & H2); exists key; auto. }
  assert (Hl : forall key, key ∈ writeKeys ++ readKeys ->
                 spread locks (fnv32 key) ∈ l).
  { intros key Hkey. apply elem_of_toLockIndices. right. eauto. }
  split; [|split; [|split]].
  - rewrite <- list_fmap_compose.
    replace (index_of ∘ acquire ws <$> l) with l.
    + apply (sort_Slice_sorted false).
    + rewrite <- (list_fmap_id l) at 1. apply list_fmap_ext.
      intros _ i _. unfold acquire. cbn. destruct (bool_decide _); reflexivity.
  - intros key Hkey. apply list_elem_of_fmap.
    exists (spread locks (fnv32 key)). split.
    + unfold acquire. rewrite bool_decide_eq_true_2; [reflexivity|].
      apply Hws. eauto.
    + apply Hl. apply elem_of_app. left. exact Hkey.
  - intros key Hkey.
    assert (Hin : spread locks (fnv32 key) ∈ l)
      by (apply Hl; apply elem_of_app; right; exact Hkey).
    destruct (decide (spread locks (fnv32 key) ∈ ws)) as [Hw|Hw].
    + right. apply list_elem_of_fmap. exists (spread locks (fnv32 key)).
      split; [|exact Hin]. unfold acquire.
      rewrite bool_decide_eq_true_2; [reflexivity | exact Hw].
    + left. apply list_elem_of_fmap. exists (spread locks (fnv32 key)).
      split; [|exact Hin]. unfold acquire.
      rewrite bool_decide_eq_false_2; [reflexivity | exact Hw].
  - intros i (j & Hj & _)%list_elem_of_fmap. unfold acquire in Hj.
    destruct (decide (j ∈ ws)) as [Hw|Hw].
    + rewrite bool_decide_eq_true_2 in Hj by exact Hw.
      injection Hj as ->. apply Hws. exact Hw.
    + rewrite bool_decide_eq_false_2 in Hj by exact Hw. discriminate.
Qed.

Lemma RWLocks_covers_witness :
  Lock_ (spread (mkLocks 16) (fnv32 "a")) ∈ [RLock_ 0; Lock_ 14].
Proof.
  apply (RWLocks_covers (mkLocks 16) ["a"%string] [] [RLock_ 0; Lock_ 14]).
  - vm_compute. reflexivity.
  - apply list_elem_of_here.
Defined.

End LockProps.

Module DictProps.
Import Dict.

(** *** [computeCapacity] *)

(** One step [n |= n >> s] of the smearing: when bit [i] of [a] tells
    whether [n] has a bit in [i .. i+w], bit [i] of [a | a >> (w+1)] tells
    whether [n] has a bit in [i .. i+2w+1]. *)
Definition covers (n a w : Z) : Prop :=
  forall i, 0 <= i ->
    Z.testbit a i = true <-> exists j, i <= j <= i + w /\ Z.testbit n j = true.

Lemma covers_step (n a w : Z) :
  0 <= w -> covers n a w ->
  covers n (Z.lor a (Z.shiftr a (w + 1))) (2 * w + 1).
Proof.
  intros Hw Ha i Hi.
  rewrite Z.lor_spec, Z.shiftr_spec by lia.
  rewrite orb_true_iff, (Ha i Hi), (Ha (i + (w + 1)) ltac:(lia)).
  split.
  - intros [(j & Hj & Hb)|(j & Hj & Hb)]; exists j; split; (lia || exact Hb).
  - intros (j & Hj & Hb).
    destruct (Z.le_gt_cases j (i + w)); [left|right]; exists j; split;
      (lia || exact Hb).
Qed.

Lemma smear_ones (n : Z) :
  0 < n < 2 ^ 32 ->
  let n1 := Z.lor n (Z.shiftr n 1) in
  let n2 := Z.lor n1 (Z.shiftr n1 2) in
  let n3 := Z.lor n2 (Z.shiftr n2 4) in
  let n4 := Z.lor n3 (Z.shiftr n3 8) in
  let n5 := Z.lor n4 (Z.shiftr n4 16) in
  n5 = 2 ^ (Z.log2 n + 1) - 1.
Proof.
  intros Hn n1 n2 n3 n4 n5.
  assert (H0 : covers n n 0).
  { intros i Hi. split.
    - intros Hb. exists i. split; [lia | exact Hb].
    - intros (j & Hj & Hb). replace i with j by lia. exact Hb. }
  assert (H1 : covers n n1 1) by exact (covers_step n n 0 ltac:(lia) H0).
  assert (H2 : covers n n2 3) by exact (covers_step n n1 1 ltac:(lia) H1).
  assert (H3 : covers n n3 7) by exact (covers_step n n2 3 ltac:(lia) H2).
  assert (H4 : covers n n4 15) by exact (covers_step n n3 7 ltac:(lia) H3).
  assert (H5 : covers n n5 31) by exact (covers_step n n4 15 ltac:(lia) H4).
  assert (Hlog : 0 <= Z.log2 n < 32).
  { split; [apply Z.log2_nonneg|]. apply Z.log2_lt_pow2; lia. }
  replace (2 ^ (Z.log2 n + 1) - 1) with (Z.ones (Z.log2 n + 1))
    by (rewrite Z.ones_equiv; lia).
  apply Z.bits_inj'. intros i Hi.
  destruct (Z.testbit n5 i) eqn:Hb.
  - apply (H5 i Hi) in Hb as (j & Hj & Hb).
    assert (j <= Z.log2 n).
    { destruct (Z.le_gt_cases j (Z.log2 n)) as [|Hgt]; [assumption|].
      rewrite Z.bits_above_log2 in Hb by lia. discriminate. }
    symmetry. apply Z.ones_spec_low. lia.
  - destruct (Z.le_gt_cases i (Z.log2 n)) as [Hle|Hgt].
    + assert (Z.testbit n5 i = true); [|congruence].
      apply (H5 i Hi). exists (Z.log2 n). split; [lia|].
      apply Z.bit_log2. lia.
    + symmetry. apply Z.ones_spec_high. lia.
Qed.

Lemma computeCapacity_log2 (param : Z) :
  16 < param <= 2 ^ 32 ->
  computeCapacity param = 2 ^ (Z.log2 (param - 1) + 1).
Proof.
  intros Hp. unfold computeCapacity.
  destruct (Z.leb_spec param 16); [lia|].
  cbv zeta. rewrite (smear_ones (param - 1)) by lia.
  assert (Hlog : 0 <= Z.log2 (param - 1) < 32).
  { split; [apply Z.log2_nonneg|]. apply Z.log2_lt_pow2; lia. }
  assert (Hpow : 0 < 2 ^ (Z.log2 (param - 1) + 1) <= 2 ^ 32).
  { split; [apply Z.pow_pos_nonneg; lia|].
    apply Z.pow_le_mono_r; lia. }
  destruct (Z.ltb_spec (2 ^ (Z.log2 (param - 1) + 1) - 1) 0); [lia|].
  unfold int64. rewrite Z.mod_small; lia.
Qed.

Lemma computeCapacity_exponent (param : Z) :
  param <= 2 ^ 32 ->
  exists k, 4 <= k <= 32 /\ computeCapacity param = 2 ^ k.
Proof.
  intros Hp. destruct (Z.le_gt_cases param 16) as [Hle|Hgt].
  - exists 4. unfold computeCapacity.
    destruct (Z.leb_spec param 16); [|lia]. split; [lia | reflexivity].
  - exists (Z.log2 (param - 1) + 1).
    rewrite computeCapacity_log2 by lia. split; [|reflexivity].
    split; [assert (4 <= Z.log2 (param - 1))
              by (apply Z.log2_le_pow2; simpl; lia); lia|].
    assert (Z.log2 (param - 1) < 32) by (apply Z.log2_lt_pow2; lia). lia.
Qed.

(** [computeCapacity] returns a power of two that is at least [16] and at
    least its argument, and the least such power: for every argument up to
    [2^32] the result is [2^k] with [param <= 2^k], and [2^k < 2 * param]
    once [param] exceeds [16]. *)
Theorem computeCapacity_power_of_two (param : Z) :
  param <= 2 ^ 32 ->
  exists k, 4 <= k <= 32 /\ computeCapacity param = 2 ^ k /\
            param <= 2 ^ k /\ (16 < param -> 2 ^ k < 2 * param).
Proof.
  intros Hp. destruct (Z.le_gt_cases param 16) as [Hle|Hgt].
  - exists 4. unfold computeCapacity.
    destruct (Z.leb_spec param 16); [|lia].
    split; [lia|]. split; [reflexivity|]. split; [simpl; lia | lia].
  - exists (Z.log2 (param - 1) + 1).
    rewrite computeCapacity_log2 by lia.
    pose proof (Z.log2_spec (param - 1) ltac:(lia)) as [Hlo Hhi].
    assert (Hlog : 4 <= Z.log2 (param - 1) < 32).
    { split; [apply Z.log2_le_pow2; simpl; lia|].
      apply Z.log2_lt_pow2; lia. }
    replace (Z.succ (Z.log2 (param - 1))) with (Z.log2 (param - 1) + 1)
      in Hhi by lia.
    split; [lia|]. split; [reflexivity|]. split; [lia|].
    intros _. rewrite Z.pow_add_r by lia. lia.
Qed.

Lemma computeCapacity_power_of_two_witness :
  exists k, 4 <= k <= 32 /\ computeCapacity 1000 = 2 ^ k /\
            1000 <= 2 ^ k /\ (16 < 1000 -> 2 ^ k < 2 * 1000).
Proof. apply (computeCapacity_power_of_two 1000). simpl. lia. Defined.

Section Table.
Context {V : Type}.

Implicit Types (dict : ConcurrentDict V) (m : gmap string V).

(** *** Indices stay inside the table *)

Lemma dict_spread_in_table dict (key : string) :
  (1 <= length (table dict))%nat ->
  0 <= spread dict key < Z.of_nat (length (table dict)).
Proof.
  intros Hlen. unfold spread.
  destruct (Nat.eqb_spec (length (table dict)) 1) as [->|Hne]; [lia|].
  set (len := Z.of_nat (length (table dict))).
  assert (Hpos : 1 <= len) by (unfold len; lia).
  unfold Lock.wrap32.
  pose proof (Z.mod_pos_bound len (2 ^ 32) ltac:(lia)) as Ht.
  pose proof (Z.mod_le len (2 ^ 32) ltac:(lia) ltac:(lia)) as Hle.
  pose proof (Z.mod_pos_bound (len mod 2 ^ 32 - 1) (2 ^ 32) ltac:(lia)) as Hm.
  pose proof (LockProps.land_upper (Lock.fnv32 key)
                ((len mod 2 ^ 32 - 1) mod 2 ^ 32) ltac:(lia)) as Hland.
  rewrite Z.land_comm.
  destruct (Z.eq_dec (len mod 2 ^ 32) 0) as [Hz|Hnz].
  - assert (2 ^ 32 <= len).
    { destruct (Z.lt_ge_cases len (2 ^ 32)); [|assumption].
      rewrite Z.mod_small in Hz by lia. lia. }
    lia.
  - rewrite (Z.mod_small (len mod 2 ^ 32 - 1)) in Hland |- * by lia. lia.
Qed.

Lemma getShard_spread dict (key : string) :
  (1 <= length (table dict))%nat ->
  is_Some (getShard dict (spread dict key)).
Proof.
  intros Hlen. pose proof (dict_spread_in_table dict key Hlen).
  unfold getShard. destruct (Z.ltb_spec (spread dict key) 0); [lia|].
  apply lookup_lt_is_Some. lia.
Qed.

Lemma length_setShard dict (index : Z) m (c : Z) :
  length (table (setShard dict index m c)) = length (table dict).
Proof. unfold setShard. cbn [table]. apply length_insert. Qed.

Lemma spread_setShard dict (index : Z) m (c : Z) (key : string) :
  spread (setShard dict index m c) key = spread dict key.
Proof. unfold spread. rewrite length_setShard. reflexivity. Qed.

Lemma getShard_setShard dict (index index' : Z) m (c : Z) :
  is_Some (getShard dict index) ->
  getShard (setShard dict index m c) index'
  = if decide (index' = index) then Some m else getShard dict index'.
Proof.
  unfold getShard, setShard. cbn [table]. intros Hs.
  destruct (Z.ltb_spec index 0); [destruct Hs; discriminate|].
  apply lookup_lt_is_Some in Hs.
  destruct (decide (index' = index)) as [->|Hne].
  - destruct (Z.ltb_spec index 0); [lia|].
    apply list_lookup_insert_eq. exact Hs.
  - destruct (Z.ltb_spec index' 0); [reflexivity|].
    apply list_lookup_insert_ne. lia.
Qed.

(** *** Lookup after an update *)

(** The effect of writing the map [m'] into the shard of [key], where [m']
    differs from the old map at [key] only. *)
Lemma Get_setShard dict (key key' : string) m m' (c : Z) :
  getShard dict (spread dict key) = Some m ->
  (forall k, k <> key -> m' !! k = m !! k) ->
  Get (setShard dict (spread dict key) m' c) key'
  = if decide (key' = key) then Some (m' !! key) else Get dict key'.
Proof.
  intros Hs Hm. unfold Get. rewrite spread_setShard.
  rewrite getShard_setShard by (rewrite Hs; eauto).
  destruct (decide (key' = key)) as [->|Hne].
  - rewrite decide_True by reflexivity. reflexivity.
  - destruct (decide (spread dict key' = spread dict key)) as [Heq|Hneq].
    + rewrite Heq, Hs. cbn [mbind option_bind]. rewrite (Hm key' Hne).
      reflexivity.
    + reflexivity.
Qed.

End Table.

(** [Put] then [Get]: the key holds the value put, every other key holds
    what it held before, and [Put] answers [1] exactly when the key was
    absent. *)
Theorem Get_after_Put {V : Type} (dict dict' : ConcurrentDict V)
    (key key' : string) (val : V) (r : Z) :
  Put dict key val = Some (dict', r) ->
  Get dict' key' = (if decide (key' = key) then Some (Some val)
                    else Get dict key') /\
  r = match Get dict key with Some (Some _) => 0 | _ => 1 end.
Proof.
  unfold Put. intros H.
  destruct (getShard dict (spread dict key)) as [s|] eqn:Hs;
    cbn [mbind option_bind] in H; [|discriminate].
  assert (Hget : Get dict key = Some (s !! key))
    by (unfold Get; rewrite Hs; reflexivity).
  rewrite Hget.
  assert (Hm : forall k, k <> key -> <[key := val]> s !! k = s !! k)
    by (intros k Hk; apply lookup_insert_ne; congruence).
  destruct (s !! key) as [old|] eqn:Hk; injection H as <- <-;
    (split; [|reflexivity]);
    rewrite (Get_setShard dict key key' s _ _ Hs Hm), lookup_insert_eq;
    reflexivity.
Qed.

(** [Remove] then [Get]: [Remove] hands back what [Get] would have found,
    the key is gone afterwards, and every other key holds what it held
    before. *)
Theorem Get_after_Remove {V : Type} (dict dict' : ConcurrentDict V)
    (key key' : string) (v : option V) (r : Z) :
  Remove dict key = Some (dict', v, r) ->
  Get dict key = Some v /\
  Get dict' key' = (if decide (key' = key) then Some None
                    else Get dict key') /\
  r = match v with Some _ => 1 | None => 0 end.
Proof.
  unfold Remove. intros H.
  destruct (getShard dict (spread dict key)) as [s|] eqn:Hs;
    cbn [mbind option_bind] in H; [|discriminate].
  assert (Hget : Get dict key = Some (s !! key))
    by (unfold Get; rewrite Hs; reflexivity).
  rewrite Hget.
  assert (Hm : forall k, k <> key -> delete key s !! k = s !! k)
    by (intros k Hk; apply lookup_delete_ne; congruence).
  destruct (s !! key) as [old|] eqn:Hk; injection H as <- <- <-.
  - split; [reflexivity|]. split; [|reflexivity].
    rewrite (Get_setShard dict key key' s _ _ Hs Hm), lookup_delete_eq.
    reflexivity.
  - split; [reflexivity|]. split; [|reflexivity].
    destruct (decide (key' = key)) as [->|]; [|reflexivity].
    exact Hget.
Qed.

(** [PutIfAbsent] leaves a dictionary that holds the key as it is and
    answers [0]; otherwise it stores the value, as [Put] does, and answers
    [1]. *)
Theorem PutIfAbsent_keeps_present {V : Type} (dict dict' : ConcurrentDict V)
    (key : string) (val : V) (r : Z) :
  PutIfAbsent dict key val = Some (dict', r) ->
  match Get dict key with
  | Some (Some _) => dict' = dict /\ r = 0
  | _ => r = 1 /\
         forall key', Get dict' key'
                      = if decide (key' = key) then Some (Some val)
                        else Get dict key'
  end.
Proof.
  unfold PutIfAbsent. intros H.
  destruct (getShard dict (spread dict key)) as [s|] eqn:Hs;
    cbn [mbind option_bind] in H; [|discriminate].
  assert (Hget : Get dict key = Some (s !! key))
    by (unfold Get; rewrite Hs; reflexivity).
  rewrite Hget.
  assert (Hm : forall k, k <> key -> <[key := val]> s !! k = s !! k)
    by (intros k Hk; apply lookup_insert_ne; congruence).
  destruct (s !! key) as [old|] eqn:Hk; injection H as <- <-.
  - split; reflexivity.
  - split; [reflexivity|]. intros key'.
    rewrite (Get_setShard dict key key' s _ _ Hs Hm), lookup_insert_eq.
    reflexivity.
Qed.

(** [PutIfExists] overwrites the value of a key that the dictionary holds
    and answers [1]; it leaves a dictionary without the key as it is and
    answers [0]. *)
Theorem PutIfExists_skips_absent {V : Type} (dict dict' : ConcurrentDict V)
    (key : string) (val : V) (r : Z) :
  PutIfExists dict key val = Some (dict', r) ->
  match Get dict key with
  | Some (Some _) =>
      r = 1 /\
      forall key', Get dict' key'
                   = if decide (key' = key) then Some (Some val)
                     else Get dict key'
  | _ => dict' = dict /\ r = 0
  end.
Proof.
  unfold PutIfExists. intros H.
  destruct (getShard dict (spread dict key)) as [s|] eqn:Hs;
    cbn [mbind option_bind] in H; [|discriminate].
  assert (Hget : Get dict key = Some (s !! key))
    by (unfold Get; rewrite Hs; reflexivity).
  rewrite Hget.
  assert (Hm : forall k, k <> key -> <[key := val]> s !! k = s !! k)
    by (intros k Hk; apply lookup_insert_ne; congruence).
  destruct (s !! key) as [old|] eqn:Hk; injection H as <- <-.
  - split; [reflexivity|]. intros key'.
    rewrite (Get_setShard dict key key' s _ _ Hs Hm), lookup_insert_eq.
    reflexivity.
  - split; reflexivity.
Qed.

Lemma Get_after_Put_witness :
  match Put (mkDict [(∅ : gmap string Z)] 0 1) "k" 7 with
  | Some (dict', r) => Get dict' "k" = Some (Some 7) /\ r = 1
  | None => False
  end.
Proof.
  destruct (Put (mkDict [(∅ : gmap string Z)] 0 1) "k" 7)
    as [[dict' r]|] eqn:Hp.
  - pose proof (Get_after_Put _ _ "k" "k" 7 r Hp) as [H1 H2].
    split; [exact H1 | exact H2].
  - vm_compute in Hp. discriminate.
Defined.

Lemma Get_after_Remove_witness :
  match Put (mkDict [(∅ : gmap string Z)] 0 1) "k" 7
          ≫= (fun d => Remove (fst d) "k") with
  | Some (dict', v, r) => Get dict' "k" = Some None /\ r = 1
  | None => False
  end.
Proof.
  destruct (Put (mkDict [(∅ : gmap string Z)] 0 1) "k" 7)
    as [[d r0]|] eqn:Hp; [|vm_compute in Hp; discriminate].
  cbn [mbind option_bind fst].
  destruct (Remove d "k") as [[[dict' v] r]|] eqn:Hr.
  - pose proof (Get_after_Remove d dict' "k" "k" v r Hr) as (H1 & H2 & H3).
    split; [exact H2|]. subst r.
    vm_compute in Hp. injection Hp as <- _. vm_compute in H1.
    injection H1 as <-. reflexivity.
  - vm_compute in Hp. injection Hp as <- _. vm_compute in Hr. discriminate.
Defined.

Lemma PutIfAbsent_keeps_present_witness :
  match PutIfAbsent (mkDict [(∅ : gmap string Z)] 0 1) "k" 7 with
  | Some (dict', r) => r = 1 /\ Get dict' "k" = Some (Some 7)
  | None => False
  end.
Proof.
  destruct (PutIfAbsent (mkDict [(∅ : gmap string Z)] 0 1) "k" 7)
    as [[dict' r]|] eqn:Hp.
  - pose proof (PutIfAbsent_keeps_present _ _ "k" 7 r Hp) as [H1 H2].
    split; [exact H1 | exact (H2 "k")].
  - vm_compute in Hp. discriminate.
Defined.

Lemma PutIfExists_skips_absent_witness :
  match PutIfExists (mkDict [(∅ : gmap string Z)] 0 1) "k" 7 with
  | Some (dict', r) => dict' = mkDict [∅] 0 1 /\ r = 0
  | None => False
  end.
Proof.
  destruct (PutIfExists (mkDict [(∅ : gmap string Z)] 0 1) "k" 7)
    as [[dict' r]|] eqn:Hp.
  - exact (PutIfExists_skips_absent _ _ "k" 7 r Hp).
  - vm_compute in Hp. discriminate.
Defined.

(** *** No operation leaves the table *)

Section Total.
Context {V : Type}.

Implicit Types (dict : ConcurrentDict V).

(** A dictionary with at least one shard and a shard count that
    [computeCapacity] handles. *)
Definition wf dict : Prop :=
  (1 <= length (table dict))%nat /\ shardCount dict <= 2 ^ 32.

Lemma MakeConcurrent_wf (n : Z) :
  n <= 2 ^ 32 -> exists dict, MakeConcurrent (V:=V) n = Some dict /\ wf dict.
Proof.
  intros Hn. unfold MakeConcurrent.
  destruct (Z.eqb_spec n 1) as [->|Hne].
  - eexists. split; [reflexivity|]. split; cbn; lia.
  - destruct (computeCapacity_exponent n Hn) as (k & Hk & Hc).
    rewrite Hc. unfold make_table.
    assert (Hpow : 16 <= 2 ^ k <= 2 ^ 32).
    { split; [change 16 with (2 ^ 4)|]; apply Z.pow_le_mono_r; lia. }
    destruct (Z.ltb_spec (2 ^ k) 0); [lia|].
    cbn [mbind option_bind]. eexists. split; [reflexivity|].
    split; cbn [table shardCount]; [rewrite length_replicate|]; lia.
Qed.

Lemma wf_setShard dict (index : Z) (m : gmap string V) (c : Z) :
  wf dict -> wf (setShard dict index m c).
Proof.
  intros [H1 H2]. split; [rewrite length_setShard; exact H1 | exact H2].
Qed.

Lemma step_wf dict (o : op V) :
  wf dict -> exists dict', step dict o = Some dict' /\ wf dict'.
Proof.
  intros Hwf.
  assert (Hs : forall key, is_Some (getShard dict (spread dict key)))
    by (intros key; apply getShard_spread; apply Hwf).
  destruct o as [k v|k v|k v|k v|k v|k v|k|k|]; cbn [step];
    try (unfold PutWithLock, PutIfAbsentWithLock, PutIfExistsWithLock,
           RemoveWithLock;
         unfold Put, PutIfAbsent, PutIfExists, Remove;
         destruct (Hs k) as [s ->]; cbn [mbind option_bind];
         destruct (s !! k); cbn [fmap option_fmap option_map fst];
         eexists; (split; [reflexivity|]);
         first [exact Hwf | apply wf_setShard; exact Hwf]).
  unfold Clear. apply MakeConcurrent_wf. apply Hwf.
Qed.

Lemma run_wf (ops : list (op V)) : forall dict,
  wf dict -> exists dict', run dict ops = Some dict' /\ wf dict'.
Proof.
  induction ops as [|o ops IH]; intros dict Hwf.
  - exists dict. split; [reflexivity | exact Hwf].
  - destruct (step_wf dict o Hwf) as (d1 & Hstep & Hwf1).
    destruct (IH d1 Hwf1) as (d2 & Hrun & Hwf2).
    exists d2. cbn [run]. rewrite Hstep. split; [exact Hrun | exact Hwf2].
Qed.

End Total.

(** No operation on a dictionary built by [MakeConcurrent] panics: for a
    requested shard count up to [2^32] the constructor returns a
    dictionary, every sequence of [Put], [PutIfAbsent], [PutIfExists],
    [Remove] (with or without lock) and [Clear] calls runs to its end on
    it, and [Get] answers for every key afterwards. *)
Theorem run_never_panics {V : Type} (n : Z) (ops : list (op V))
    (key : string) :
  n <= 2 ^ 32 ->
  exists dict0 dict,
    MakeConcurrent n = Some dict0 /\ run dict0 ops = Some dict /\
    is_Some (Get dict key).
Proof.
  intros Hn.
  destruct (MakeConcurrent_wf (V:=V) n Hn) as (dict0 & Hmk & Hwf0).
  destruct (run_wf ops dict0 Hwf0) as (dict & Hrun & Hwf).
  exists dict0, dict. split; [exact Hmk|]. split; [exact Hrun|].
  unfold Get. destruct (getShard_spread dict key (proj1 Hwf)) as [s ->].
  cbn [mbind option_bind]. eauto.
Qed.

Lemma run_never_panics_witness :
  exists dict0 dict,
    MakeConcurrent 100 = Some dict0 /\
    run dict0 [OpPut "a"%string 1; OpRemove "b"%string; OpClear] = Some dict /\
    is_Some (Get dict "a").
Proof.
  apply (run_never_panics 100 [OpPut "a"%string 1; OpRemove "b"%string; OpClear]
           "a").
  simpl. lia.
Defined.

(** *** Lock order *)

Lemma Sorted_le_NoDup_lt (l : list Z) :
  Sorted Z.le l -> NoDup l -> Sorted Z.lt l.
Proof.
  induction 1 as [|x l Hs IH Hhd]; intros Hnd; [constructor|].
  apply NoDup_cons in Hnd as [Hx Hnd].
  constructor; [apply IH; exact Hnd|].
  destruct Hhd as [|y l Hxy]; constructor.
  assert (x <> y) by (intros ->; apply Hx; apply list_elem_of_here).
  lia.
Qed.

Section Locking.
Context {V : Type}.

Implicit Types (dict : ConcurrentDict V).

Lemma elem_of_indexSet dict (keys : list string) (i : Z) :
  i ∈ indexSet dict keys <-> exists key, key ∈ keys /\ i = spread dict key.
Proof.
  unfold indexSet. rewrite elem_of_list_to_set, list_elem_of_fmap.
  split; intros (key & H1 & H2); exists key; auto.
Qed.

Lemma toLockIndices_sorted dict (keys : list string) :
  Sorted Z.lt (toLockIndices dict keys false).
Proof.
  unfold toLockIndices. apply Sorted_le_NoDup_lt.
  - apply (LockProps.sort_Slice_sorted false).
  - rewrite LockProps.sort_Slice_perm. apply NoDup_elements.
Qed.

Lemma dict_elem_of_toLockIndices dict (keys : list string) (reverse : bool)
    (i : Z) :
  i ∈ toLockIndices dict keys reverse
  <-> exists key, key ∈ keys /\ i = spread dict key.
Proof.
  unfold toLockIndices.
  rewrite LockProps.sort_Slice_perm, elem_of_elements.
  apply elem_of_indexSet.
Qed.

Lemma dict_RWLocks_loop_total dict (ws : gset Z) (indices : list Z) :
  Forall (fun i => is_Some (getShard dict i)) indices ->
  RWLocks_loop dict ws indices = Some (LockProps.acquire ws <$> indices).
Proof.
  induction 1 as [|i l [s Hi] _ IH]; [reflexivity|].
  cbn [RWLocks_loop]. rewrite Hi, IH. reflexivity.
Qed.

End Locking.

(** The lock order of the dictionary: [toLockIndices(keys, false)] is the
    strictly ascending list of the shard indices of the keys, nothing
    else; and on a dictionary with at least one shard [RWLocks] makes one
    call per entry, in that order, a write lock exactly on the shards of
    the write keys and a read lock on the others. *)
Theorem RWLocks_exact {V : Type} (dict : ConcurrentDict V)
    (writeKeys readKeys : list string) :
  (1 <= length (table dict))%nat ->
  let indices := toLockIndices dict (writeKeys ++ readKeys) false in
  Sorted Z.lt indices /\
  (forall i, i ∈ indices
     <-> exists key, key ∈ writeKeys ++ readKeys /\ i = spread dict key) /\
  exists calls,
    RWLocks dict writeKeys readKeys = Some calls /\
    LockProps.index_of <$> calls = indices /\
    forall c, c ∈ calls ->
      (c = Lock.Lock_ (LockProps.index_of c) /\
       exists key, key ∈ writeKeys /\ LockProps.index_of c = spread dict key)
      \/ (c = Lock.RLock_ (LockProps.index_of c) /\
          forall key, key ∈ writeKeys ->
                      LockProps.index_of c <> spread dict key).
Proof.
  intros Hlen indices.
  split; [apply toLockIndices_sorted|].
  split; [intros i; apply dict_elem_of_toLockIndices|].
  unfold RWLocks. fold indices.
  rewrite dict_RWLocks_loop_total.
  - eexists. split; [reflexivity|]. split.
    + rewrite <- list_fmap_compose. rewrite <- (list_fmap_id indices) at 2.
      apply list_fmap_ext. intros _ i _. unfold LockProps.acquire. cbn.
      destruct (bool_decide _); reflexivity.
    + intros c (i & -> & _)%list_elem_of_fmap. unfold LockProps.acquire.
      destruct (decide (i ∈ indexSet dict writeKeys)) as [Hw|Hw].
      * rewrite (bool_decide_eq_true_2 (i ∈ _)) by exact Hw.
        cbn [LockProps.index_of]. left. split; [reflexivity|].
        apply elem_of_indexSet. exact Hw.
      * rewrite (bool_decide_eq_false_2 (i ∈ _)) by exact Hw.
        cbn [LockProps.index_of]. right. split; [reflexivity|].
        intros key Hkey Heq. apply Hw. apply elem_of_indexSet. eauto.
  - apply Forall_forall. intros i Hi.
    apply dict_elem_of_toLockIndices in Hi as (key & _ & ->).
    apply getShard_spread. exact Hlen.
Qed.

Lemma RWLocks_exact_witness :
  Sorted Z.lt
    (toLockIndices (mkDict [(∅ : gmap string Z)] 0 1)
       (["a"%string] ++ ["b"%string]) false).
Proof.
  apply (RWLocks_exact (mkDict [(∅ : gmap string Z)] 0 1)
           ["a"%string] ["b"%string]).
  cbn. lia.
Defined.

End DictProps.

Module AofProps.
Import Aof.

(** When the database changes and the write of the [SELECT] line fails,
    [writeAof] gives up: what the failed write left is all that reaches
    the file, the command itself is not written, [currentDB] keeps its
    value (so the next call writes the [SELECT] again), no listener is
    called and the file is not synced. *)
Theorem writeAof_drops_command (persister : Persister) (p : payload)
    (n : nat) (w2 : write_result) :
  dbIndex p <> currentDB persister ->
  let '(persister', eff) := writeAof persister p (WriteErr n) w2 in
  aofFile persister' =
    (aofFile persister
     ++ String.substring 0 n
          (ToBytes (ToCmdLine ["SELECT"%string; Itoa (dbIndex p)])))%string
  /\ currentDB persister' = currentDB persister
  /\ callbacks eff = [] /\ synced eff = false.
Proof.
  intros Hne. unfold writeAof.
  destruct (Z.eqb_spec (dbIndex p) (currentDB persister)); [contradiction|].
  cbn. repeat split; reflexivity.
Qed.

Lemma writeAof_drops_command_witness :
  let '(persister', eff) :=
    writeAof (mkPersister "log" "always" 0 1 []) (mkPayload ["PING"%string] 3)
      (WriteErr 2) WriteOk in
  aofFile persister' =
    ("log" ++ String.substring 0 2
             (ToBytes (ToCmdLine ["SELECT"%string; Itoa 3])))%string
  /\ currentDB persister' = 0
  /\ callbacks eff = [] /\ synced eff = false.
Proof.
  apply (writeAof_drops_command (mkPersister "log" "always" 0 1 [])
           (mkPayload ["PING"%string] 3) 2 WriteOk).
  cbn. lia.
Defined.

End AofProps.

Module SkiplistProps.
Import SortedSet SkiplistSpec.

(** *** Backward pointers and the tail *)

(** The [backward] field of the node at [y]. *)
Definition bw (h : list node) (y : ptr) : option (option ptr) :=
  backward <$> h !! y.

(** [h'] has the backward pointers of [h]. *)
Definition same_bw (h h' : list node) : Prop := forall y, bw h' y = bw h y.

Lemma same_bw_refl h : same_bw h h.
Proof. intros y. reflexivity. Qed.

Lemma same_bw_trans h1 h2 h3 : same_bw h1 h2 -> same_bw h2 h3 -> same_bw h1 h3.
Proof. intros H1 H2 y. rewrite H2. apply H1. Qed.

Lemma setLevel_bw h x i lv h' : setLevel h x i lv = Some h' -> same_bw h h'.
Proof.
  unfold setLevel. destruct (h !! x) as [nd|] eqn:Hx; [|discriminate].
  cbn [mbind option_bind]. destruct (level nd !! i); [|discriminate].
  cbn [mbind option_bind]. intros [= <-] y. unfold bw.
  assert (Hlt : (x < length h)%nat) by (eapply lookup_lt_Some; eauto).
  destruct (decide (y = x)) as [->|Hne].
  - rewrite list_lookup_insert_eq by exact Hlt. rewrite Hx. reflexivity.
  - rewrite list_lookup_insert_ne by congruence. reflexivity.
Qed.

Lemma set_span_bw h x i v h' : set_span h x i v = Some h' -> same_bw h h'.
Proof.
  unfold set_span. destruct (getLevel h x i); [|discriminate].
  cbn [mbind option_bind]. apply setLevel_bw.
Qed.

Lemma set_forward_bw h x i v h' : set_forward h x i v = Some h' -> same_bw h h'.
Proof.
  unfold set_forward. destruct (getLevel h x i); [|discriminate].
  cbn [mbind option_bind]. apply setLevel_bw.
Qed.

Lemma set_backward_bw h x v h' :
  set_backward h x v = Some h' ->
  forall y, bw h' y = if decide (y = x) then Some v else bw h y.
Proof.
  unfold set_backward. destruct (h !! x) as [nd|] eqn:Hx; [|discriminate].
  cbn [mbind option_bind]. intros [= <-] y. unfold bw.
  assert (Hlt : (x < length h)%nat) by (eapply lookup_lt_Some; eauto).
  destruct (decide (y = x)) as [->|Hne].
  - rewrite list_lookup_insert_eq by exact Hlt. reflexivity.
  - rewrite list_lookup_insert_ne by congruence. reflexivity.
Qed.

(** A loop whose body keeps a preorder on states keeps it. *)
Lemma for_loop_keeps {St} (F : St -> St -> Prop)
    (body : nat -> St -> option St) :
  (forall s, F s s) -> (forall a b c, F a b -> F b c -> F a c) ->
  (forall k s s', body k s = Some s' -> F s s') ->
  forall n i s s', for_loop n i body s = Some s' -> F s s'.
Proof.
  intros Hrefl Htrans Hbody. induction n as [|n IH]; intros i s s'.
  - intros [= <-]. apply Hrefl.
  - cbn [for_loop]. destruct (body i s) as [s1|] eqn:Hb; [|discriminate].
    cbn [mbind option_bind]. intros Hl.
    apply (Htrans s s1 s'); [apply (Hbody i); exact Hb | apply (IH _ _ _ Hl)].
Qed.

Lemma raise_body_bw header len i s s' :
  raise_body header len i s = Some s' -> same_bw s.1.1 s'.1.1.
Proof.
  destruct s as [[h update] rank]. unfold raise_body.
  destruct (store rank i 0); [|discriminate]. cbn [mbind option_bind].
  destruct (store update i (Some header)) as [u|]; [|discriminate].
  cbn [mbind option_bind].
  destruct (mjoin (u !! i)) as [ui|]; [|discriminate].
  cbn [mbind option_bind].
  destruct (set_span h ui i len) as [h1|] eqn:E; [|discriminate].
  cbn [mbind option_bind]. intros [= <-]. cbn [fst].
  apply (set_span_bw _ _ _ _ _ E).
Qed.

Lemma link_body_bw update rank x i h h' :
  link_body update rank x i h = Some h' -> same_bw h h'.
Proof.
  unfold link_body.
  destruct (mjoin (update !! i)) as [ui|]; [|discriminate].
  cbn [mbind option_bind].
  destruct (rank !! 0%nat) as [r0|]; [|discriminate].
  cbn [mbind option_bind].
  destruct (rank !! i) as [ri|]; [|discriminate].
  cbn [mbind option_bind].
  destruct (getLevel h ui i) as [lu|]; [|discriminate].
  cbn [mbind option_bind].
  destruct (set_forward h x i (forward lu)) as [h1|] eqn:E1; [|discriminate].
  cbn [mbind option_bind].
  destruct (set_forward h1 ui i (Some x)) as [h2|] eqn:E2; [|discriminate].
  cbn [mbind option_bind].
  destruct (getLevel h2 ui i) as [lu2|]; [|discriminate].
  cbn [mbind option_bind].
  destruct (set_span h2 x i _) as [h3|] eqn:E3; [|discriminate].
  cbn [mbind option_bind]. intros E4.
  apply set_forward_bw in E1. apply set_forward_bw in E2.
  apply set_span_bw in E3. apply set_span_bw in E4.
  intros y. rewrite E4, E3, E2, E1. reflexivity.
Qed.

Lemma bump_body_bw update i h h' :
  bump_body update i h = Some h' -> same_bw h h'.
Proof.
  unfold bump_body.
  destruct (mjoin (update !! i)) as [ui|]; [|discriminate].
  cbn [mbind option_bind].
  destruct (getLevel h ui i) as [lu|]; [|discriminate].
  cbn [mbind option_bind]. apply set_span_bw.
Qed.

Lemma unlink_body_bw update x i h h' :
  unlink_body update x i h = Some h' -> same_bw h h'.
Proof.
  unfold unlink_body.
  destruct (mjoin (update !! i)) as [ui|]; [|discriminate].
  cbn [mbind option_bind].
  destruct (getLevel h ui i) as [lu|]; [|discriminate].
  cbn [mbind option_bind].
  destruct (decide (forward lu = Some x)); [|apply set_span_bw].
  destruct (getLevel h x i) as [ln|]; [|discriminate].
  cbn [mbind option_bind].
  destruct (set_span h ui i _) as [h1|] eqn:E1; [|discriminate].
  cbn [mbind option_bind].
  destruct (getLevel h1 x i) as [ln1|]; [|discriminate].
  cbn [mbind option_bind]. intros E2.
  apply set_span_bw in E1. apply set_forward_bw in E2.
  intros y. rewrite E2, E1. reflexivity.
Qed.

(** The backward pointers and the tail of the list that holds the nodes
    [ns]: each node points back to the node in front of it, the first one
    to [nil], and [tail] is the last node. *)
Definition Back (sl : skiplist) (ns : list anode) : Prop :=
  (forall p a, ns !! p = Some a ->
     bw (sl_heap sl) (aptr a)
     = Some (match p with
             | O => None
             | S p' => aptr <$> ns !! p'
             end)) /\
  sl_tail sl = aptr <$> last ns.

Lemma Back_makeSkiplist : Back makeSkiplist [].
Proof. split; [intros p a; discriminate | reflexivity]. Qed.

Lemma insert_rep2 sl hd ns member score u :
  Rep sl hd ns -> Back sl ns ->
  exists sl' x c hd',
    insert sl member score u = Some (sl', x) /\
    Rep sl' hd'
      (ins_at c (mkA x (Z.to_nat (randomLevel u)) (mkElement member score))
         ns) /\
    Back sl'
      (ins_at c (mkA x (Z.to_nat (randomLevel u)) (mkElement member score))
         ns) /\
    (c <= length ns)%nat /\
    (forall a, (0 < c)%nat -> ns !! (c - 1)%nat = Some a ->
               before score member (ael a) = true) /\
    (forall b, ns !! c = Some b -> before score member (ael b) = false).
Proof.
  intros R [Hbw Htail]. unfold insert.
  destruct (descend_rep sl hd ns (before score member) R)
    as (c & ac & upd & rk & Hd & Hc & Hor & Hstop & Hlu & Hlr & Hfound).
  rewrite Hd. cbn [mbind option_bind].
  pose proof (LevelSpec.randomLevel_range u) as Hlvl. unfold maxLevel in Hlvl.
  set (L := Z.to_nat (randomLevel u)).
  replace (randomLevel u) with (Z.of_nat L) by (unfold L; lia).
  destruct (raise_spec sl hd ns c upd rk L R Hfound Hlu Hlr ltac:(unfold L; lia))
    as (h1 & u1 & r1 & hd1 & Hraise & Hp1 & He1 & Hh1 & R1 & Hf1 & Hlu1 & Hlr1).
  assert (Hbw1 : same_bw (sl_heap sl) h1).
  { destruct (Z.of_nat L >? sl_level sl).
    - apply (for_loop_keeps (fun s s' => same_bw s.1.1 s'.1.1)
               (raise_body (sl_header sl) (sl_length sl))
               (fun s => same_bw_refl _)
               (fun a b c => same_bw_trans _ _ _)
               (raise_body_bw _ _) _ _ _ _ Hraise).
    - injection Hraise as <- _ _. apply same_bw_refl. }
  rewrite Hraise. cbn [mbind option_bind].
  assert (Hcur : (if Z.of_nat L >? sl_level sl then Z.of_nat L else sl_level sl)
                 = Z.of_nat (aht hd1)).
  { rewrite (rep_level _ _ _ R), Hh1.
    destruct (Z.gtb_spec (Z.of_nat L) (Z.of_nat (aht hd))); lia. }
  rewrite Hcur, Nat2Z.id.
  pose proof (rep_links _ _ _ R1) as Hlinks1. cbn [sl_heap] in Hlinks1.
  pose proof (rep_nodup _ _ _ R1) as Hnodup1.
  assert (Hpos1 : forall p a, (hd1 :: ns) !! S p = Some a -> (1 <= aht a)%nat).
  { intros p a Hp. apply (rep_heights _ _ _ R1 p a Hp). }
  assert (Hhts1 : forall p a, (hd1 :: ns) !! p = Some a ->
                              (aht a <= aht hd1)%nat).
  { intros [|p] a; cbn; [intros [= <-]; lia|].
    intros Hp. apply (rep_heights _ _ _ R1 p a Hp). }
  assert (HL1 : (1 <= L <= aht hd1)%nat) by (unfold L; lia).
  assert (Hc1 : (c < length (hd1 :: ns))%nat).
  { apply lookup_lt_Some in Hc. cbn [length] in *. lia. }
  destruct (link_loop h1 hd1 ns c L u1 r1 score member
              Hlinks1 Hf1 Hpos1 HL1 Hc1) as (h3 & Hloop3 & Hlinked).
  pose proof (for_loop_keeps same_bw _ same_bw_refl same_bw_trans
                (link_body_bw u1 r1 (length h1)) _ _ _ _ Hloop3) as Hbw3.
  rewrite Hloop3. cbn [mbind option_bind].
  destruct (bump_loop h1 hd1 ns c L u1 r1 score member
              Hlinks1 Hf1 HL1 Hc1 h3 Hlinked) as (h4 & Hloop4 & Hbumped).
  pose proof (for_loop_keeps same_bw _ same_bw_refl same_bw_trans
                (bump_body_bw u1) _ _ _ _ Hloop4) as Hbw4.
  rewrite Hloop4. cbn [mbind option_bind].
  destruct (link_links h1 hd1 ns c L u1 r1 score member
              Hlinks1 Hnodup1 Hf1 HL1 Hc1 Hhts1 h3 h4 Hlinked Hbumped)
    as (Hlinks4 & Hx0 & Hse24 & Htop4).
  destruct (found_zero (hd1 :: ns) (aht hd1) c u1 r1 Hf1 ltac:(lia) Hc1 Hpos1)
    as (ac1 & Hac1 & Hu0 & Hr0).
  rewrite Hu0. cbn [mjoin option_join mbind option_bind].
  set (x := length h1) in *.
  set (anew := mkA x L (mkElement member score)) in *.
  set (h2 := h1 ++ [makeNode (Z.of_nat L) score member]) in *.
  assert (Hxv : is_Some (h4 !! x)).
  { apply (same_elems_valid h2 h4 x Hse24). apply lookup_lt_is_Some.
    unfold h2. rewrite length_app. cbn. unfold x. lia. }
  destruct (set_backward_spec h4 x
              (if decide (aptr ac1 = sl_header sl) then None
               else Some (aptr ac1)) Hxv) as (h5 & E5 & S5 & G5).
  pose proof (set_backward_bw _ _ _ _ E5) as Hbw5.
  rewrite E5. cbn [mbind option_bind]. rewrite G5, Hx0.
  cbn [mbind option_bind entry forward].
  assert (Hfinal : forall h6 tail,
    same_elems h5 h6 -> (forall y j, getLevel h6 y j = getLevel h5 y j) ->
    Rep (mkSkiplist h6 (sl_header sl) tail (sl_length sl + 1)
           (Z.of_nat (aht hd1))) hd1 (ins_at c anew ns)).
  { intros h6 tail S6 G6.
    assert (Hlinks6 : links h6 (hd1 :: ins_at c anew ns)).
    { apply (links_ext h4); [intros; rewrite G6; apply G5 | | exact Hlinks4].
      intros y. destruct S6 as [_ ->]. destruct S5 as [_ ->]. reflexivity. }
    split; cbn [sl_header sl_level sl_heap sl_length].
    - apply (rep_header _ _ _ R1).
    - reflexivity.
    - apply (rep_level_range _ _ _ R1).
    - rewrite fmap_cons, fmap_ins_at.
      apply (NoDup_Permutation_proper _ (aptr anew :: aptr hd1 :: (aptr <$> ns))).
      { rewrite ins_at_perm. apply perm_swap. }
      apply NoDup_cons. split; [|exact Hnodup1].
      intros (a & Hx & Ha)%(list_elem_of_fmap aptr (hd1 :: ns)).
      apply list_elem_of_lookup in Ha as [p Hp].
      pose proof (links_valid _ _ _ _ Hlinks1 Hp). cbn [aptr anew] in Hx.
      unfold x in Hx. lia.
    - exact Hlinks6.
    - intros j Hj. rewrite G6, G5, Htop4 by lia.
      apply (rep_top _ _ _ R1 j Hj).
    - intros p a. rewrite lookup_ins_at by (cbn [length] in Hc1; lia).
      destruct (decide (p < c)%nat); [|destruct (decide (p = c))].
      + exact (rep_heights _ _ _ R1 p a).
      + intros [= <-]. cbn [aht anew]. lia.
      + exact (rep_heights _ _ _ R1 (p - 1)%nat a).
    - pose proof (rep_length _ _ _ R1) as Hlen1. cbn [sl_length] in Hlen1.
      rewrite length_ins_at, Hlen1. lia. }
  assert (Hpost : (c <= length ns)%nat /\
    (forall a, (0 < c)%nat -> ns !! (c - 1)%nat = Some a ->
               before score member (ael a) = true) /\
    (forall b, ns !! c = Some b -> before score member (ael b) = false)).
  { split; [cbn [length] in Hc1; lia|]. split; [|exact Hstop].
    intros a Hpos Ha. destruct Hor as [->|HP]; [lia|].
    destruct c as [|c']; [lia|]. change (ns !! c' = Some ac) in Hc.
    replace (S c' - 1)%nat with c' in Ha by lia.
    rewrite Hc in Ha. injection Ha as <-. exact HP. }
  assert (Hh0 : nexta 0 (drop (S c) (hd1 :: ns)) = ns !! c).
  { rewrite nexta_zero, head_lookup, lookup_drop, Nat.add_0_r; [reflexivity|].
    intros d a. rewrite lookup_drop. apply Hpos1. }
  rewrite Hh0.
  assert (Hold : forall p a, ns !! p = Some a -> aptr a <> x).
  { intros p a Hp. pose proof (links_valid _ _ (S p) a Hlinks1 Hp). unfold x.
    lia. }
  assert (Hprev : (if decide (aptr ac1 = sl_header sl) then None
                   else Some (aptr ac1))
                  = match c with
                    | O => None
                    | S c' => aptr <$> ns !! c'
                    end).
  { destruct c as [|c'].
    - injection Hac1 as <-. rewrite decide_True; [reflexivity|].
      rewrite Hp1. apply (rep_header _ _ _ R).
    - change (ns !! c' = Some ac1) in Hac1. rewrite Hac1.
      rewrite decide_False; [reflexivity|].
      rewrite <- (rep_header _ _ _ R), <- Hp1. intros Heq.
      pose proof (nodup_pos (hd1 :: ns) (S c') 0 ac1 hd1 Hnodup1 Hac1 eq_refl
                    Heq). lia. }
  assert (Hbw2 : forall y, bw h2 y
                 = if decide (y = x) then Some None else bw h1 y).
  { intros y. unfold bw, h2, x. destruct (decide (y = length h1)) as [->|Hne].
    - rewrite lookup_app_r, Nat.sub_diag by lia. reflexivity.
    - destruct (decide (y < length h1)%nat).
      + rewrite lookup_app_l by lia. reflexivity.
      + rewrite !lookup_ge_None_2; [reflexivity|lia|].
        rewrite length_app. cbn. lia. }
  assert (HfinalB : forall h6 tail,
    (forall y, bw h6 y
       = if decide (Some y = aptr <$> ns !! c) then Some (Some x)
         else bw h5 y) ->
    tail = match ns !! c with Some _ => sl_tail sl | None => Some x end ->
    Back (mkSkiplist h6 (sl_header sl) tail (sl_length sl + 1)
            (Z.of_nat (aht hd1))) (ins_at c anew ns)).
  { intros h6 tail Hbw6 Htl. split; cbn [sl_heap sl_tail].
    - intros p a. rewrite lookup_ins_at by (cbn [length] in Hc1; lia).
      destruct (decide (p < c)%nat) as [Hlt|Hge];
        [|destruct (decide (p = c)) as [->|Hne]].
      + intros Hp. rewrite Hbw6.
        destruct (ns !! c) as [b|] eqn:Hb; cbn [fmap option_fmap option_map].
        * rewrite decide_False.
          2:{ intros [= Heq].
              pose proof (nodup_pos (hd1 :: ns) (S p) (S c) a b Hnodup1 Hp Hb
                            Heq). lia. }
          rewrite Hbw5, decide_False by (apply (Hold p a Hp)).
          rewrite Hbw4, Hbw3, Hbw2, decide_False by (apply (Hold p a Hp)).
          rewrite Hbw1, (Hbw p a Hp). f_equal.
          destruct p as [|p']; [reflexivity|].
          rewrite lookup_ins_at by (cbn [length] in Hc1; lia).
          rewrite decide_True by lia. reflexivity.
        * rewrite decide_False by discriminate.
          rewrite Hbw5, decide_False by (apply (Hold p a Hp)).
          rewrite Hbw4, Hbw3, Hbw2, decide_False by (apply (Hold p a Hp)).
          rewrite Hbw1, (Hbw p a Hp). f_equal.
          destruct p as [|p']; [reflexivity|].
          rewrite lookup_ins_at by (cbn [length] in Hc1; lia).
          rewrite decide_True by lia. reflexivity.
      + intros [= <-]. cbn [aptr anew]. rewrite Hbw6.
        rewrite decide_False.
        2:{ destruct (ns !! c) as [b|] eqn:Hb; [|discriminate].
            intros [= Heq]. apply (Hold c b Hb). congruence. }
        rewrite Hbw5, decide_True by reflexivity. rewrite Hprev. f_equal.
        destruct c as [|c']; [reflexivity|].
        rewrite lookup_ins_at by (cbn [length] in Hc1; lia).
        rewrite decide_True by lia. reflexivity.
      + intros Hp. rewrite Hbw6.
        destruct (decide (p = S c)) as [->|Hne2].
        * replace (S c - 1)%nat with c in Hp by lia. rewrite Hp.
          cbn [fmap option_fmap option_map].
          rewrite decide_True by reflexivity. f_equal.
          rewrite lookup_ins_at by (cbn [length] in Hc1; lia).
          rewrite decide_False by lia. rewrite decide_True by reflexivity.
          reflexivity.
        * destruct p as [|p']; [lia|].
          replace (S p' - 1)%nat with p' in Hp by lia.
          rewrite decide_False.
          2:{ destruct (ns !! c) as [b|] eqn:Hb; [|discriminate].
              intros [= Heq].
              pose proof (nodup_pos (hd1 :: ns) (S p') (S c) a b Hnodup1 Hp Hb
                            Heq). lia. }
          rewrite Hbw5, decide_False by (apply (Hold p' a Hp)).
          rewrite Hbw4, Hbw3, Hbw2, decide_False by (apply (Hold p' a Hp)).
          rewrite Hbw1, (Hbw p' a Hp). f_equal.
          destruct p' as [|p'']; [lia|].
          rewrite lookup_ins_at by (cbn [length] in Hc1; lia).
          rewrite decide_False by lia. rewrite decide_False by lia.
          replace (S (S p'') - 1)%nat with (S p'') by lia.
          replace (S p'' - 1)%nat with p'' by lia.
          reflexivity.
    - rewrite Htl. unfold ins_at.
      destruct (ns !! c) as [b|] eqn:Hb.
      + rewrite Htail. rewrite <- (take_drop c ns) at 1.
        rewrite (drop_S _ _ _ Hb). rewrite !last_app. cbn [last].
        rewrite last_cons. destruct (last (drop (S c) ns)); reflexivity.
      + rewrite drop_ge by (apply lookup_ge_None; exact Hb).
        rewrite last_snoc. reflexivity. }
  destruct (ns !! c) as [b|] eqn:Hb; cbn [fmap option_fmap option_map].
  - assert (Hdb : (hd1 :: ns) !! S c = Some b) by exact Hb.
    assert (Hbv : is_Some (h5 !! aptr b)).
    { apply (same_elems_valid h4 h5 _ S5).
      apply (same_elems_valid h2 h4 _ Hse24).
      apply lookup_lt_is_Some. unfold h2. rewrite length_app.
      pose proof (links_valid _ _ _ _ Hlinks1 Hdb). lia. }
    destruct (set_backward_spec h5 (aptr b) (Some x) Hbv)
      as (h6 & E6 & S6 & G6).
    pose proof (set_backward_bw _ _ _ _ E6) as Hbw6.
    rewrite E6. cbn [mbind option_bind].
    eexists _, x, c, hd1. split; [reflexivity|].
    split; [apply Hfinal; assumption|].
    split; [|rewrite <- Hb in Hpost; exact Hpost].
    apply HfinalB; [|reflexivity].
    intros y. rewrite Hbw6. cbn [fmap option_fmap option_map].
    destruct (decide (y = aptr b)) as [->|Hne].
    + rewrite decide_True by reflexivity. reflexivity.
    + rewrite decide_False by congruence. reflexivity.
  - eexists _, x, c, hd1. split; [reflexivity|].
    split; [apply Hfinal; [apply same_elems_refl | reflexivity]|].
    split; [|rewrite <- Hb in Hpost; exact Hpost].
    apply HfinalB; [|reflexivity].
    intros y. rewrite decide_False by discriminate. reflexivity.
Qed.


Lemma removeNode_rep2 sl hd ns c update rank t :
  Rep sl hd ns -> Back sl ns ->
  found (hd :: ns) (aht hd) 0 c update rank ->
  ns !! c = Some t ->
  exists sl' hd',
    removeNode sl (aptr t) update = Some sl' /\ Rep sl' hd' (del_at c ns) /\
    Back sl' (del_at c ns) /\
    aptr hd' = aptr hd /\ (aht hd' <= aht hd)%nat /\ ael hd' = ael hd.
Proof.
  intros R [Hbw Htail] Hfound Ht.
  pose proof (rep_links _ _ _ R) as Hlinks.
  pose proof (rep_nodup _ _ _ R) as Hnodup.
  pose proof (rep_level_range _ _ _ R) as Hrange.
  assert (Hhts : forall p a, (hd :: ns) !! p = Some a ->
                             (aht a <= aht hd)%nat).
  { intros [|p] a; cbn; [intros [= <-]; lia|].
    intros Hp. apply (rep_heights _ _ _ R p a Hp). }
  assert (Ht' : (hd :: ns) !! S c = Some t) by exact Ht.
  assert (Hclen : (c < length ns)%nat) by (eapply lookup_lt_Some; eauto).
  unfold removeNode. rewrite (rep_level _ _ _ R), Nat2Z.id.
  destruct (unlink_loop _ hd ns c update rank t Hlinks Hnodup Hfound Ht')
    as (h3 & Hloop & Hunl).
  pose proof (for_loop_keeps same_bw _ same_bw_refl same_bw_trans
                (unlink_body_bw update (aptr t)) _ _ _ _ Hloop) as Hbw3.
  rewrite Hloop. cbn [mbind option_bind].
  pose proof (unlink_links _ hd ns c update rank t Hlinks Hnodup Hfound Ht'
                Hhts h3 Hunl) as Hlinks3.
  rewrite del_at_cons in Hlinks3.
  pose proof (rep_heights _ _ _ R c t Ht) as Htht.
  rewrite (unlink_target _ hd ns c update rank t Hnodup Hfound Ht' h3 0 Hunl).
  rewrite (target_entry _ hd ns c t Hlinks Ht' 0%nat ltac:(lia)).
  cbn [mbind option_bind].
  destruct Hunl as [Hse3 Hget3].
  assert (Htv : is_Some (h3 !! aptr t)).
  { apply (same_elems_valid _ _ _ Hse3). apply lookup_lt_is_Some.
    apply (links_valid _ _ _ _ Hlinks Ht'). }
  destruct Htv as [nd Hnd]. rewrite Hnd. cbn [mbind option_bind].
  set (prev := match c with
               | O => None
               | S c' => aptr <$> ns !! c'
               end).
  assert (Hndb : backward nd = prev).
  { pose proof (Hbw c t Ht) as Hb. rewrite <- Hbw3 in Hb. unfold bw in Hb.
    rewrite Hnd in Hb. injection Hb as Hb. exact Hb. }
  set (ns' := del_at c ns) in *.
  assert (Hfinal : forall h4 tail,
    same_elems h3 h4 -> (forall y j, getLevel h4 y j = getLevel h3 y j) ->
    exists sl' hd',
      (lvl ← (if Z.of_nat (aht hd) >? 1
              then Z.of_nat <$> shrink h4 (sl_header sl) (aht hd)
              else Some (Z.of_nat (aht hd)));
       Some (mkSkiplist h4 (sl_header sl) tail (sl_length sl - 1) lvl))
      = Some sl' /\ Rep sl' hd' ns' /\
      (sl_heap sl' = h4 /\ sl_tail sl' = tail /\
       aptr hd' = aptr hd /\ (aht hd' <= aht hd)%nat /\ ael hd' = ael hd)).
  { intros h4 tail S4 G4.
    assert (Hlinks4 : links h4 (hd :: ns')).
    { apply (links_ext h3); [exact G4 | | exact Hlinks3].
      intros y. destruct S4 as [_ ->]. reflexivity. }
    assert (Hhdr : forall j, (j < aht hd)%nat ->
              getLevel h4 (sl_header sl) j = Some (entry j ns')).
    { intros j Hj. destruct (Hlinks4 0%nat hd eq_refl) as [_ Hlv].
      rewrite <- (rep_header _ _ _ R). apply (Hlv j Hj). }
    destruct (shrink_spec h4 (sl_header sl) ns' (aht hd) Hhdr ltac:(lia))
      as (n' & Hshrink & Hn' & Hnone).
    assert (Hlvl : (if Z.of_nat (aht hd) >? 1
                    then Z.of_nat <$> shrink h4 (sl_header sl) (aht hd)
                    else Some (Z.of_nat (aht hd)))
                   = Some (Z.of_nat n')).
    { destruct (Z.gtb_spec (Z.of_nat (aht hd)) 1) as [Hgt|Hle].
      - rewrite Hshrink. reflexivity.
      - assert (aht hd = 1%nat) as Heq by lia.
        rewrite Heq in Hshrink |- *. cbn in Hshrink.
        injection Hshrink as <-. reflexivity. }
    rewrite Hlvl. cbn [mbind option_bind].
    eexists _, (mkA (aptr hd) n' (ael hd)). split; [reflexivity|].
    split; [|cbn [sl_heap sl_tail aptr aht ael]; repeat split;
              (reflexivity || lia)].
    assert (Hns' : forall p a, ns' !! p = Some a ->
              exists q, ns !! q = Some a).
    { intros p a. unfold ns'. rewrite lookup_del_at by lia.
      goal_decide Hcase; eauto. }
    split; cbn [sl_header sl_level sl_heap sl_length aptr aht ael].
    - apply (rep_header _ _ _ R).
    - reflexivity.
    - lia.
    - change (NoDup (aptr <$> del_at (S c) (hd :: ns))).
      rewrite fmap_del_at. apply NoDup_del_at. exact Hnodup.
    - intros [|p] a Hp.
      + injection Hp as <-. cbn [aptr ael aht].
        destruct (Hlinks4 0%nat hd eq_refl) as [He Hlv].
        split; [exact He|]. intros j Hj. apply (Hlv j). lia.
      + apply (Hlinks4 (S p) a Hp).
    - intros j Hj. destruct (decide (j < aht hd)%nat) as [Hlt|Hge].
      + exists (entry j ns'). rewrite <- (rep_header _ _ _ R) in Hhdr.
        split; [apply (Hhdr j Hlt)|].
        unfold entry. rewrite (Hnone j ltac:(lia)). reflexivity.
      + rewrite G4, Hget3, decide_False by (intros [? _]; lia).
        apply (rep_top _ _ _ R). lia.
    - intros p a Hp. destruct (Hns' p a Hp) as [q Hq].
      pose proof (rep_heights _ _ _ R q a Hq).
      split; [lia|].
      destruct (decide (n' = aht hd)) as [->|Hne]; [lia|].
      destruct (nexta_None _ _ (Hnone n' ltac:(lia))) as [_ Hall].
      apply (Hall p a Hp).
    - unfold ns'. rewrite length_del_at by lia.
      rewrite (rep_length _ _ _ R). lia. }
  assert (Hh0 : nexta 0 (drop (S (S c)) (hd :: ns)) = ns !! S c).
  { rewrite nexta_zero, head_lookup, lookup_drop, Nat.add_0_r; [reflexivity|].
    intros d a. rewrite lookup_drop. intros Hda.
    apply (rep_heights _ _ _ R _ a Hda). }
  unfold entry. cbn [forward]. rewrite Hh0.
  assert (HfinalB : forall sl' h4 tail,
    sl_heap sl' = h4 -> sl_tail sl' = tail ->
    (forall y, bw h4 y
       = if decide (Some y = aptr <$> ns !! S c) then Some prev
         else bw h3 y) ->
    tail = match ns !! S c with Some _ => sl_tail sl | None => prev end ->
    Back sl' ns').
  { intros sl' h4 tail Hh4 Ht4 Hbw4 Htl. split; rewrite ?Hh4, ?Ht4.
    - intros p a. unfold ns'. rewrite lookup_del_at by lia.
      destruct (decide (p < c)%nat) as [Hlt|Hge].
      + intros Hp. rewrite Hbw4, decide_False.
        2:{ destruct (ns !! S c) as [b|] eqn:Hb; [|discriminate].
            intros [= Heq].
            pose proof (nodup_pos (hd :: ns) (S p) (S (S c)) a b Hnodup Hp Hb
                          Heq). lia. }
        rewrite Hbw3, (Hbw p a Hp). f_equal.
        destruct p as [|p']; [reflexivity|].
        rewrite lookup_del_at by lia. rewrite decide_True by lia. reflexivity.
      + intros Hp. rewrite Hbw4.
        destruct (decide (p = c)) as [->|Hne].
        * rewrite Hp. cbn [fmap option_fmap option_map].
          rewrite decide_True by reflexivity. f_equal. unfold prev.
          destruct c as [|c']; [reflexivity|].
          rewrite lookup_del_at by lia. rewrite decide_True by lia.
          reflexivity.
        * rewrite decide_False.
          2:{ destruct (ns !! S c) as [b|] eqn:Hb; [|discriminate].
              intros [= Heq].
              pose proof (nodup_pos (hd :: ns) (S (S p)) (S (S c)) a b Hnodup
                            Hp Hb Heq). lia. }
          rewrite Hbw3, (Hbw (S p) a Hp). f_equal.
          destruct p as [|p']; [lia|].
          rewrite lookup_del_at by lia. rewrite decide_False by lia.
          reflexivity.
    - rewrite Htl. unfold ns', del_at.
      destruct (ns !! S c) as [b|] eqn:Hb.
      + rewrite Htail. rewrite <- (take_drop (S c) ns) at 1.
        rewrite (drop_S _ _ _ Hb). rewrite !last_app. cbn [last].
        rewrite last_cons. destruct (last (drop (S (S c)) ns)); reflexivity.
      + rewrite drop_ge by (apply lookup_ge_None; exact Hb).
        rewrite app_nil_r. unfold prev.
        destruct c as [|c']; [reflexivity|].
        rewrite last_lookup, length_take.
        replace (Nat.pred (S c' `min` length ns)) with c' by lia.
        rewrite lookup_take, decide_True by lia. reflexivity. }
  destruct (ns !! S c) as [b|] eqn:Hb; cbn [fmap option_fmap option_map].
  - assert (Hdb : (hd :: ns) !! S (S c) = Some b) by exact Hb.
    assert (Hbv : is_Some (h3 !! aptr b)).
    { apply (same_elems_valid _ _ _ Hse3). apply lookup_lt_is_Some.
      apply (links_valid _ _ _ _ Hlinks Hdb). }
    destruct (set_backward_spec h3 (aptr b) (backward nd) Hbv)
      as (h4 & E4 & S4 & G4).
    pose proof (set_backward_bw _ _ _ _ E4) as Hbw4.
    rewrite E4. cbn [mbind option_bind].
    destruct (Hfinal h4 (sl_tail sl) S4 G4)
      as (sl' & hd' & Heq & R' & Hh4 & Ht4 & Hhd').
    exists sl', hd'. split; [exact Heq|]. split; [exact R'|].
    split; [|exact Hhd'].
    apply (HfinalB sl' h4 (sl_tail sl) Hh4 Ht4); [|reflexivity].
    intros y. rewrite Hbw4, Hndb. cbn [fmap option_fmap option_map].
    destruct (decide (y = aptr b)) as [->|Hne].
    + rewrite decide_True by reflexivity. reflexivity.
    + rewrite decide_False by congruence. reflexivity.
  - cbn [mbind option_bind].
    destruct (Hfinal h3 (backward nd) (same_elems_refl _)
                (fun _ _ => eq_refl))
      as (sl' & hd' & Heq & R' & Hh4 & Ht4 & Hhd').
    exists sl', hd'. split; [exact Heq|]. split; [exact R'|].
    split; [|exact Hhd'].
    apply (HfinalB sl' h3 (backward nd) Hh4 Ht4); [|exact Hndb].
    intros y. rewrite decide_False by discriminate. reflexivity.
Qed.

(** *** Lists in good order *)

(** The list [sl] holds the nodes [ns] behind the header [hd], its backward
    pointers and tail are right, and its elements are in order. *)
Definition Well (sl : skiplist) (hd : anode) (ns : list anode) : Prop :=
  Rep sl hd ns /\ Back sl ns /\ sorted (ael <$> ns).

Lemma Well_makeSkiplist : Well makeSkiplist hd0 [].
Proof.
  split; [apply Rep_makeSkiplist|].
  split; [apply Back_makeSkiplist | apply sorted_nil].
Qed.

Lemma Well_good sl hd ns : Well sl hd ns -> good sl.
Proof. intros (R & _ & Hs). exists hd, ns. auto. Qed.

Lemma Well_contents sl hd ns : Well sl hd ns -> contents sl = ael <$> ns.
Proof. intros (R & _ & _). apply (contents_rep _ _ _ R). Qed.

Lemma Well_length sl hd ns :
  Well sl hd ns -> sl_length sl = Z.of_nat (length (contents sl)).
Proof.
  intros W. rewrite (Well_contents _ _ _ W), length_fmap.
  destruct W as (R & _ & _). apply (rep_length _ _ _ R).
Qed.

(** In a sorted list every element in front of one that passes a test
    closed downwards passes it. *)
Lemma sorted_prefix (P : Element -> bool) (els : list Element) (c : nat) :
  sorted els ->
  (forall a b, ele a b = true -> P b = true -> P a = true) ->
  (c <= length els)%nat ->
  (forall a, (0 < c)%nat -> els !! (c - 1)%nat = Some a -> P a = true) ->
  forall q a, (q < c)%nat -> els !! q = Some a -> P a = true.
Proof.
  intros [_ Hs] Hdown Hc Hlast q a Hq Ha.
  destruct (decide (q = c - 1)%nat) as [->|Hne]; [apply Hlast; [lia|exact Ha]|].
  destruct (lookup_lt_is_Some_2 els (c - 1)%nat) as [b Hb]; [lia|].
  apply (Hdown a b); [apply (Hs q (c - 1)%nat); auto; lia|].
  apply Hlast; [lia | exact Hb].
Qed.

(** And every element behind one that fails the test fails it. *)
Lemma sorted_suffix (P : Element -> bool) (els : list Element) (c : nat) :
  sorted els ->
  (forall a b, ele a b = true -> P b = true -> P a = true) ->
  (forall b, els !! c = Some b -> P b = false) ->
  forall q a, (c <= q)%nat -> els !! q = Some a -> P a = false.
Proof.
  intros [_ Hs] Hdown Hstop q a Hq Ha.
  destruct (decide (q = c)) as [->|Hne]; [apply Hstop; exact Ha|].
  destruct (lookup_lt_is_Some_2 els c) as [b Hb];
    [apply lookup_lt_Some in Ha; lia|].
  destruct (P a) eqn:HP; [|reflexivity].
  pose proof (Hstop b Hb) as Hnb.
  rewrite (Hdown b a) in Hnb; [discriminate | |exact HP].
  apply (Hs c q); auto. lia.
Qed.

Lemma before_down score member (a b : Element) :
  ele a b = true -> before score member b = true ->
  before score member a = true.
Proof.
  unfold ele, upto, before.
  intros [H1|[H1 M1]%andb_true_iff]%orb_true_iff
         [H2|[H2 M2]%andb_true_iff]%orb_true_iff.
  - rewrite (flt_trans _ _ _ H1 H2). reflexivity.
  - rewrite (flt_eq _ _ _ H1 H2). reflexivity.
  - rewrite (feq_lt _ _ _ H1 H2). reflexivity.
  - rewrite (feq_trans _ _ _ H1 H2). cbn [andb].
    assert (String.ltb (Member a) member = true) as ->;
      [|apply orb_true_r].
    unfold String.leb, String.ltb in *.
    destruct (String.compare (Member a) (Member b)) eqn:Hab;
      try discriminate.
    + apply String.compare_eq_iff in Hab. rewrite Hab. exact M2.
    + destruct (String.compare (Member b) member) eqn:Hbm; try discriminate.
      rewrite (string_compare_lt_trans _ _ _ Hab Hbm). reflexivity.
Qed.

(** [insert] on a list in good order. *)
Lemma insert_well sl hd ns member score u :
  Well sl hd ns -> nan score = false ->
  exists sl' x c hd',
    insert sl member score u = Some (sl', x) /\
    Well sl' hd'
      (ins_at c (mkA x (Z.to_nat (randomLevel u)) (mkElement member score))
         ns) /\
    (c <= length ns)%nat /\
    (forall q a, (q < c)%nat -> ns !! q = Some a ->
                 before score member (ael a) = true) /\
    (forall q a, (c <= q)%nat -> ns !! q = Some a ->
                 before score member (ael a) = false).
Proof.
  intros (R & B & Hs) Hnan.
  destruct (insert_rep2 sl hd ns member score u R B)
    as (sl' & x & c & hd' & Hins & R' & B' & Hc & Hlast & Hstop).
  exists sl', x, c, hd'. split; [exact Hins|].
  assert (Hlast' : forall a, (0 < c)%nat ->
            (ael <$> ns) !! (c - 1)%nat = Some a ->
            before score member a = true).
  { intros a Hpos. rewrite list_lookup_fmap.
    destruct (ns !! (c - 1)%nat) as [b|] eqn:Hb; [|discriminate].
    intros [= <-]. apply (Hlast b Hpos eq_refl). }
  assert (Hstop' : forall a, (ael <$> ns) !! c = Some a ->
            before score member a = false).
  { intros a. rewrite list_lookup_fmap.
    destruct (ns !! c) as [b|] eqn:Hb; [|discriminate].
    intros [= <-]. apply (Hstop b eq_refl). }
  split; [split; [exact R'|split; [exact B'|]]|].
  - rewrite fmap_ins_at. cbn [ael].
    apply sorted_ins_at; [exact Hs | exact Hnan | rewrite length_fmap; exact Hc
                          | exact Hlast' | exact Hstop'].
  - split; [exact Hc|]. split.
    + intros q a Hq Ha.
      apply (sorted_prefix (before score member) (ael <$> ns) c Hs
               (before_down score member)
               ltac:(rewrite length_fmap; exact Hc) Hlast' q (ael a) Hq).
      rewrite list_lookup_fmap, Ha. reflexivity.
    + intros q a Hq Ha.
      apply (sorted_suffix (before score member) (ael <$> ns) c Hs
               (before_down score member) Hstop' q (ael a) Hq).
      rewrite list_lookup_fmap, Ha. reflexivity.
Qed.

(** The predecessors that a descent found stay the predecessors of the
    position when the node behind it is taken out. *)
Lemma found_del_at hd hd' ns c update rank :
  found (hd :: ns) (aht hd) 0 c update rank ->
  (c < length ns)%nat ->
  aptr hd' = aptr hd -> (aht hd' <= aht hd)%nat ->
  found (hd' :: del_at c ns) (aht hd') 0 c update rank.
Proof.
  intros Hfound Hc Hp Hh j Hj.
  destruct (Hfound j ltac:(lia))
    as (pj & uj & Hu & Hr & Hpj & Hrange & Hhj & Hlow).
  assert (Hsame : forall q, (1 <= q <= c)%nat ->
            (hd' :: del_at c ns) !! q = (hd :: ns) !! q).
  { intros [|q] Hq; [lia|]. cbn [lookup list_lookup].
    change ((del_at c ns) !! q = ns !! q).
    rewrite lookup_del_at by lia. rewrite decide_True by lia. reflexivity. }
  destruct pj as [|pj'].
  - injection Hpj as <-. exists 0%nat, hd'. rewrite Hp.
    split; [exact Hu|]. split; [exact Hr|]. split; [reflexivity|].
    split; [lia|]. split; [lia|].
    intros q b Hq. rewrite Hsame by lia. apply Hlow. lia.
  - exists (S pj'), uj. split; [exact Hu|]. split; [exact Hr|].
    split; [rewrite Hsame by lia; exact Hpj|]. split; [lia|].
    split; [exact Hhj|].
    intros q b Hq. rewrite Hsame by lia. apply Hlow. lia.
Qed.

(** [remove] on a list in good order: it takes out the element asked for
    when the list holds it, and changes nothing otherwise. *)
Lemma remove_well sl hd ns member score :
  Well sl hd ns ->
  exists sl' b,
    remove sl member score = Some (sl', b) /\
    ((b = true /\ exists c t hd',
        ns !! c = Some t /\ same score member (ael t) = true /\
        Well sl' hd' (del_at c ns)) \/
     (b = false /\ sl' = sl /\
      forall p a, ns !! p = Some a -> same score member (ael a) = false)).
Proof.
  intros (R & B & Hs). unfold remove.
  destruct (descend_rep sl hd ns (before score member) R)
    as (c & ac & upd & rk & Hd & Hc & Hor & Hstop & Hlu & Hlr & Hfound).
  rewrite Hd. cbn [mbind option_bind].
  assert (Hpos : forall q a, (hd :: ns) !! q = Some a -> (1 <= aht a)%nat).
  { intros [|q] a; cbn.
    - intros [= <-]. apply (rep_level_range _ _ _ R).
    - intros Hq. apply (rep_heights _ _ _ R q a Hq). }
  destruct (rep_links _ _ _ R c ac Hc) as [_ Hlv].
  rewrite (Hlv 0%nat (Hpos c ac Hc)).
  cbn [mbind option_bind entry forward].
  rewrite nexta_zero, head_lookup, lookup_drop, Nat.add_0_r
    by (intros d a; rewrite lookup_drop; apply Hpos).
  change ((hd :: ns) !! S c) with (ns !! c).
  assert (Hlast' : forall a, (0 < c)%nat ->
            (ael <$> ns) !! (c - 1)%nat = Some a ->
            before score member a = true).
  { intros a Hpos'. destruct Hor as [->|HP]; [lia|].
    destruct c as [|c']; [lia|]. change (ns !! c' = Some ac) in Hc.
    replace (S c' - 1)%nat with c' by lia.
    rewrite list_lookup_fmap, Hc. intros [= <-]. exact HP. }
  assert (Hbefore : forall q a, (q < c)%nat -> ns !! q = Some a ->
            same score member (ael a) = false).
  { intros q a Hq Ha. apply before_not_same.
    apply (sorted_prefix (before score member) (ael <$> ns) c Hs
             (before_down score member)
             ltac:(rewrite length_fmap; apply lookup_lt_Some in Hc;
                   cbn [length] in Hc; lia) Hlast' q (ael a) Hq).
    rewrite list_lookup_fmap, Ha. reflexivity. }
  assert (Hafter : forall t, ns !! c = Some t ->
            same score member (ael t) = false ->
            forall q a, (c < q)%nat -> ns !! q = Some a ->
                        same score member (ael a) = false).
  { intros t Ht Hnt q a Hq Ha.
    destruct (same score member (ael a)) eqn:Hsa; [|reflexivity].
    assert (Hta : ele (ael t) (ael a) = true).
    { destruct Hs as [_ Hs']. apply (Hs' c q); [lia| |];
        rewrite list_lookup_fmap; [rewrite Ht | rewrite Ha]; reflexivity. }
    assert (Hat : upto score member (ael a) = true)
      by (rewrite upto_split, Hsa; apply orb_true_r).
    pose proof (ele_trans (ael t) (ael a) (mkElement member score) Hta Hat)
      as Htt.
    unfold ele in Htt. cbn [Score Member] in Htt.
    rewrite upto_split, (Hstop t Ht), Hnt in Htt. discriminate. }
  destruct (ns !! c) as [t|] eqn:Ht; cbn [fmap option_fmap option_map].
  - destruct (rep_links _ _ _ R (S c) t Ht) as [He _].
    unfold get_elem in He.
    destruct (sl_heap sl !! aptr t) as [nd|]; [|discriminate].
    injection He as He. cbn [mbind option_bind]. rewrite He.
    fold (same score member (ael t)).
    destruct (same score member (ael t)) eqn:Hsame.
    + destruct (removeNode_rep2 sl hd ns c upd rk t R B Hfound Ht)
        as (sl' & hd' & Hrm & R' & B' & _).
      rewrite Hrm. cbn [mbind option_bind].
      exists sl', true. split; [reflexivity|]. left.
      split; [reflexivity|]. exists c, t, hd'.
      split; [exact Ht|]. split; [exact Hsame|].
      split; [exact R'|]. split; [exact B'|].
      rewrite fmap_del_at. apply sorted_del_at; [exact Hs|].
      rewrite length_fmap. apply lookup_lt_Some in Ht. lia.
    + exists sl, false. split; [reflexivity|]. right.
      split; [reflexivity|]. split; [reflexivity|].
      intros p a Ha.
      destruct (decide (p < c)%nat) as [Hlt|Hge];
        [|destruct (decide (p = c)) as [Heq|Hne]].
      * apply (Hbefore p a Hlt Ha).
      * subst p. rewrite Ht in Ha. injection Ha as <-. exact Hsame.
      * apply (Hafter t eq_refl Hsame p a ltac:(lia) Ha).
  - exists sl, false. split; [reflexivity|]. right.
    split; [reflexivity|]. split; [reflexivity|].
    intros p a Ha. apply (Hbefore p a); [|exact Ha].
    apply lookup_lt_Some in Ha. apply lookup_ge_None in Ht. lia.
Qed.

Lemma step_well sl hd ns o :
  Well sl hd ns -> op_ok o ->
  exists sl' hd' ns', step sl o = Some sl' /\ Well sl' hd' ns'.
Proof.
  intros W Hok. destruct o as [member score u|member score]; cbn [step].
  - destruct (insert_well sl hd ns member score u W Hok)
      as (sl' & x & c & hd' & Hins & W' & _).
    rewrite Hins. eauto.
  - destruct (remove_well sl hd ns member score W)
      as (sl' & b & Hrm & [(_ & c & t & hd' & _ & _ & W')|(_ & -> & _)]);
      rewrite Hrm; eauto.
Qed.

Lemma run_well ops : forall sl hd ns,
  Well sl hd ns -> Forall op_ok ops ->
  exists sl' hd' ns', run sl ops = Some sl' /\ Well sl' hd' ns'.
Proof.
  induction ops as [|o ops IH]; intros sl hd ns W Hok.
  - exists sl, hd, ns. split; [reflexivity | exact W].
  - apply Forall_cons in Hok as [Ho Hok].
    destruct (step_well sl hd ns o W Ho) as (sl1 & hd1 & ns1 & Hstep & W1).
    destruct (IH sl1 hd1 ns1 W1 Hok) as (sl' & hd' & ns' & Hrun & W').
    exists sl', hd', ns'. cbn [run]. rewrite Hstep. split; assumption.
Qed.

(** The lists that [insert] and [remove] build from the empty list, with no
    NaN among the inserted scores. *)
Definition reachable (sl : skiplist) : Prop :=
  exists ops, Forall op_ok ops /\ run makeSkiplist ops = Some sl.

Lemma reachable_well sl : reachable sl -> exists hd ns, Well sl hd ns.
Proof.
  intros (ops & Hok & Hrun).
  destruct (run_well ops makeSkiplist hd0 [] Well_makeSkiplist Hok)
    as (sl' & hd & ns & Hrun' & W).
  rewrite Hrun in Hrun'. injection Hrun' as <-. eauto.
Qed.

(** *** Descending by rank *)

Section RankSearch.

Variable h : list node.
Variable ch : list anode.
Variable target : Z.

Hypothesis Hlinks : links h ch.
Hypothesis Hpos : forall p a, ch !! S p = Some a -> (1 <= aht a)%nat.

Let test : Z -> Level -> Element -> bool :=
  fun cur lv _ => cur + span lv <=? target.

Lemma walk_rank (fuel j p : nat) (a : anode) :
  ch !! p = Some a -> (j < aht a)%nat -> (length ch - p < fuel)%nat ->
  exists p' a',
    walk fuel h test j (aptr a) (Z.of_nat p) = Some (aptr a', Z.of_nat p') /\
    (p <= p')%nat /\ ch !! p' = Some a' /\ (j < aht a')%nat /\
    (p' = p \/ Z.of_nat p' <= target) /\
    (forall b, nexta j (drop (S p') ch) = Some b ->
               target < Z.of_nat (p' + skip j (drop (S p') ch))).
Proof.
  revert p a. induction fuel as [|f IH]; intros p a Hp Hj Hfuel; [lia|].
  cbn [walk]. destruct (Hlinks p a Hp) as [_ Hlv]. rewrite (Hlv j Hj).
  cbn [mbind option_bind entry forward span].
  destruct (nexta j (drop (S p) ch)) as [b0|] eqn:Hn;
    cbn [fmap option_fmap option_map].
  - destruct (nexta_Some _ _ _ Hn) as (d & Hd & Hs & Hb0 & Hlow).
    rewrite lookup_drop in Hd.
    destruct (Hlinks _ b0 Hd) as [He0 _].
    unfold get_elem in He0.
    destruct (h !! aptr b0) as [nd|] eqn:Hnd; [|discriminate].
    cbn [mbind option_bind]. unfold test at 1. cbn [entry span].
    destruct (Z.leb_spec (Z.of_nat p + Z.of_nat (skip j (drop (S p) ch)))
                target) as [Hle|Hgt].
    + assert (Hlen : (S p + d < length ch)%nat)
        by (eapply lookup_lt_Some; eauto).
      replace (Z.of_nat p + Z.of_nat (skip j (drop (S p) ch)))
        with (Z.of_nat (S p + d)) in * by lia.
      destruct (IH (S p + d)%nat b0 Hd Hb0 ltac:(lia))
        as (p' & a' & Hw & Hle' & Hp' & Hj' & Hor & Hstop).
      exists p', a'. rewrite Hw.
      split; [reflexivity|]. split; [lia|]. split; [exact Hp'|].
      split; [exact Hj'|]. split; [|exact Hstop].
      right. destruct Hor as [->|]; lia.
    + exists p, a. split; [reflexivity|]. split; [lia|]. split; [exact Hp|].
      split; [exact Hj|]. split; [left; reflexivity|].
      intros b _. lia.
  - exists p, a. split; [reflexivity|]. split; [lia|]. split; [exact Hp|].
    split; [exact Hj|]. split; [left; reflexivity|].
    intros b Hb. rewrite Hn in Hb. discriminate.
Qed.

Lemma descend_rank (fuel k : nat) :
  (length ch < fuel)%nat ->
  forall p a update rank,
    ch !! p = Some a -> (k <= aht a)%nat ->
    (k <= length update)%nat -> (k <= length rank)%nat ->
    exists c ac update' rank',
      descend fuel h test k (aptr a) (Z.of_nat p) update rank
        = Some (aptr ac, Z.of_nat c, update', rank') /\
      (p <= c)%nat /\ ch !! c = Some ac /\
      (c = p \/ Z.of_nat c <= target) /\
      (k = 0%nat -> c = p) /\
      ((1 <= k)%nat ->
       forall b, ch !! S c = Some b -> target < Z.of_nat (S c)).
Proof.
  intros Hfuel. induction k as [|i IH]; intros p a update rank Hp Hk Hu Hr.
  - exists p, a, update, rank. cbn [descend].
    split; [reflexivity|]. split; [lia|]. split; [exact Hp|].
    split; [left; reflexivity|]. split; [reflexivity | lia].
  - cbn [descend].
    destruct (walk_rank fuel i p a Hp ltac:(lia) ltac:(lia))
      as (p1 & a1 & Hw & Hle1 & Hp1 & Hj1 & Hor1 & Hstop1).
    rewrite Hw. cbn [mbind option_bind].
    rewrite (store_spec rank i) by lia. cbn [mbind option_bind].
    rewrite (store_spec update i) by lia. cbn [mbind option_bind].
    destruct (IH p1 a1 (<[i := Some (aptr a1)]> update)
                (<[i := Z.of_nat p1]> rank) Hp1 ltac:(lia)
                ltac:(rewrite length_insert; lia)
                ltac:(rewrite length_insert; lia))
      as (c & ac & u' & r' & Hd & Hle & Hc & Hor & Hzero & Hstop).
    exists c, ac, u', r'. split; [exact Hd|]. split; [lia|].
    split; [exact Hc|]. split.
    { destruct Hor as [->|]; [|right; assumption].
      destruct Hor1 as [->|]; [left; reflexivity | right; assumption]. }
    split; [intros; lia|].
    intros _ b Hb. destruct i as [|i'].
    + rewrite (Hzero eq_refl) in *.
      specialize (Hstop1 b). rewrite (drop_S _ _ _ Hb) in Hstop1.
      cbn [nexta skip] in Hstop1. pose proof (Hpos _ _ Hb).
      rewrite !decide_True in Hstop1 by lia.
      specialize (Hstop1 eq_refl). lia.
    + apply (Hstop ltac:(lia) b Hb).
Qed.

End RankSearch.

(** [getByRank] returns the node at the position asked for, counting the
    header as position [0], and [nil] outside the list. *)
Lemma getByRank_rep sl hd ns (rank : Z) :
  Rep sl hd ns ->
  getByRank sl rank
  = Some (if (0 <=? rank) && (rank <=? Z.of_nat (length ns))
          then aptr <$> (hd :: ns) !! Z.to_nat rank else None).
Proof.
  intros R. unfold getByRank.
  pose proof (links_fuel _ _ (rep_links _ _ _ R) (rep_nodup _ _ _ R)) as Hfuel.
  assert (Hpos : forall p a, (hd :: ns) !! S p = Some a -> (1 <= aht a)%nat).
  { intros p a Hp. apply (rep_heights _ _ _ R p a Hp). }
  pose proof (rep_level_range _ _ _ R) as Hrange.
  destruct (descend_rank (sl_heap sl) (hd :: ns) rank (rep_links _ _ _ R) Hpos
              (fuel_of (sl_heap sl)) (aht hd) Hfuel 0%nat hd
              new_update new_rank eq_refl ltac:(lia)
              ltac:(rewrite new_update_length; lia)
              ltac:(rewrite new_rank_length; lia))
    as (c & ac & u' & r' & Hd & _ & Hc & Hor & _ & Hstop).
  rewrite (rep_level _ _ _ R), Nat2Z.id, <- (rep_header _ _ _ R).
  change 0 with (Z.of_nat 0) at 1. rewrite Hd. cbn [mbind option_bind].
  f_equal.
  assert (Hclen : (c <= length ns)%nat).
  { apply lookup_lt_Some in Hc. cbn [length] in Hc. lia. }
  destruct (Z.leb_spec 0 rank) as [H0|H0]; cbn [andb].
  - destruct (Z.leb_spec rank (Z.of_nat (length ns))) as [H1|H1].
    + assert (Z.of_nat c = rank) as Heq.
      { destruct (Z.lt_trichotomy (Z.of_nat c) rank) as [Hlt|[Heq|Hgt]];
          [|exact Heq|destruct Hor as [->|]; lia].
        destruct (lookup_lt_is_Some_2 (hd :: ns) (S c)) as [b Hb];
          [cbn [length]; lia|].
        pose proof (Hstop ltac:(lia) b Hb). lia. }
      rewrite <- Heq, Z.eqb_refl, Nat2Z.id, Hc. reflexivity.
    + destruct (Z.eqb_spec (Z.of_nat c) rank); [lia | reflexivity].
  - destruct (Z.eqb_spec (Z.of_nat c) rank); [lia | reflexivity].
Qed.

(** *** [RemoveRange] *)

(** The number of nodes that the loop of [RemoveRange] takes out of the
    elements [l] that lie in front of it, after [k] removals. *)
Fixpoint taken (max : Border) (limit : Z) (k : Z) (l : list Element) : nat :=
  match l with
  | [] => O
  | e :: t =>
      if negb (Border_greater max e) then O
      else if (limit >? 0) && (k + 1 =? limit) then 1%nat
      else S (taken max limit (k + 1) t)
  end.

Lemma taken_le max limit k l : (taken max limit k l <= length l)%nat.
Proof.
  revert k. induction l as [|e t IH]; intros k; cbn [taken length]; [lia|].
  destruct (negb _); [lia|]. destruct (_ && _); [lia|].
  specialize (IH (k + 1)). lia.
Qed.

Lemma Well_heights sl hd ns :
  Well sl hd ns ->
  forall q a, (hd :: ns) !! q = Some a -> (1 <= aht a)%nat.
Proof.
  intros (R & _ & _) [|q] a; cbn.
  - intros [= <-]. apply (rep_level_range _ _ _ R).
  - intros Hq. apply (rep_heights _ _ _ R q a Hq).
Qed.

(** The node behind position [c] of the chain, read off the store. *)
Lemma next_zero sl hd ns c ac :
  Well sl hd ns -> (hd :: ns) !! c = Some ac ->
  getLevel (sl_heap sl) (aptr ac) 0
  = Some (mkLevel (aptr <$> ns !! c)
            (span (entry 0 (drop (S c) (hd :: ns))))).
Proof.
  intros W Hc. pose proof (Well_heights _ _ _ W) as Hpos.
  destruct W as (R & _ & _).
  destruct (rep_links _ _ _ R c ac Hc) as [_ Hlv].
  rewrite (Hlv 0%nat (Hpos c ac Hc)). unfold entry. cbn [span]. do 2 f_equal.
  rewrite nexta_zero, head_lookup, lookup_drop, Nat.add_0_r; [reflexivity|].
  intros d a. rewrite lookup_drop. apply Hpos.
Qed.

Lemma node_elem sl hd ns q a :
  Well sl hd ns -> (hd :: ns) !! q = Some a ->
  exists nd, sl_heap sl !! aptr a = Some nd /\ elem nd = ael a.
Proof.
  intros (R & _ & _) Hq. destruct (rep_links _ _ _ R q a Hq) as [He _].
  unfold get_elem in He. destruct (sl_heap sl !! aptr a) as [nd|];
    [|discriminate].
  injection He as He. eauto.
Qed.

Lemma RemoveRange_loop_well (max : Border) (limit : Z) (update : list (option ptr))
    (rank : list Z) (c : nat) (fuel : nat) :
  forall sl hd ns removed,
    Well sl hd ns ->
    found (hd :: ns) (aht hd) 0 c update rank ->
    (c <= length ns)%nat -> (length ns - c < fuel)%nat ->
    let n := taken max limit (Z.of_nat (length removed)) (ael <$> drop c ns) in
    exists sl' hd',
      RemoveRange_loop fuel sl (aptr <$> ns !! c) update max limit removed
        = Some (sl', removed ++ (ael <$> take n (drop c ns))) /\
      Well sl' hd' (take c ns ++ drop (c + n) ns).
Proof.
  induction fuel as [|f IH]; intros sl hd ns removed W Hfound Hc Hfuel;
    [lia|].
  cbn zeta. cbn [RemoveRange_loop].
  destruct (ns !! c) as [t|] eqn:Ht; cbn [fmap option_fmap option_map].
  2:{ rewrite drop_ge by (apply lookup_ge_None; exact Ht).
      cbn [fmap list_fmap taken take]. rewrite app_nil_r.
      exists sl, hd. split; [reflexivity|].
      rewrite drop_ge by (apply lookup_ge_None in Ht; lia).
      rewrite app_nil_r, take_ge by (apply lookup_ge_None; exact Ht).
      exact W. }
  destruct (node_elem sl hd ns (S c) t W Ht) as (nd & Hnd & He).
  rewrite Hnd. cbn [mbind option_bind]. rewrite He.
  rewrite (drop_S _ _ _ Ht). cbn [fmap list_fmap taken].
  destruct (Border_greater max (ael t)) eqn:Hg; cbn [negb].
  2:{ cbn [take fmap list_fmap]. rewrite app_nil_r, Nat.add_0_r, take_drop.
      exists sl, hd. split; [reflexivity | exact W]. }
  rewrite (next_zero sl hd ns (S c) t W Ht). cbn [mbind option_bind forward].
  destruct W as (R & B & Hs).
  destruct (removeNode_rep2 sl hd ns c update rank t R B Hfound Ht)
    as (sl1 & hd1 & Hrm & R1 & B1 & Hp1 & Hh1 & _).
  rewrite Hrm. cbn [mbind option_bind].
  assert (Hclt : (c < length ns)%nat) by (eapply lookup_lt_Some; eauto).
  assert (W1 : Well sl1 hd1 (del_at c ns)).
  { split; [exact R1|]. split; [exact B1|].
    rewrite fmap_del_at. apply sorted_del_at; [exact Hs|].
    rewrite length_fmap. lia. }
  rewrite length_app. cbn [length].
  replace (Z.of_nat (length removed + 1)) with (Z.of_nat (length removed) + 1)
    by lia.
  destruct ((limit >? 0) && (Z.of_nat (length removed) + 1 =? limit)).
  - exists sl1, hd1. cbn [take fmap list_fmap]. rewrite take_0.
    split; [reflexivity|].
    replace (c + 1)%nat with (S c) by lia. exact W1.
  - pose proof (found_del_at hd hd1 ns c update rank Hfound Hclt Hp1 Hh1)
      as Hfound1.
    destruct (IH sl1 hd1 (del_at c ns) (removed ++ [ael t]) W1 Hfound1
                ltac:(rewrite length_del_at by lia; lia)
                ltac:(rewrite length_del_at by lia; lia))
      as (sl' & hd' & Hloop & W').
    assert (Hdrop : drop c (del_at c ns) = drop (S c) ns).
    { unfold del_at. rewrite drop_app_length'; [reflexivity|].
      rewrite length_take. lia. }
    assert (Hnext : del_at c ns !! c = ns !! S c).
    { rewrite lookup_del_at by lia. rewrite decide_False by lia.
      reflexivity. }
    rewrite Hnext, Hdrop, length_app in Hloop. cbn [length] in Hloop.
    replace (Z.of_nat (length removed + 1))
      with (Z.of_nat (length removed) + 1) in Hloop by lia.
    rewrite Hloop. exists sl', hd'. split.
    + cbn [take fmap list_fmap]. rewrite <- app_assoc. reflexivity.
    + rewrite Hdrop, length_app in W'. cbn [length] in W'.
      replace (Z.of_nat (length removed + 1))
        with (Z.of_nat (length removed) + 1) in W' by lia.
      set (n' := taken max limit (Z.of_nat (length removed) + 1)
                   (ael <$> drop (S c) ns)) in *.
      assert (Htake : take c (del_at c ns) = take c ns).
      { unfold del_at. rewrite take_app_length'; [reflexivity|].
        rewrite length_take. lia. }
      assert (Hdrop2 : drop (c + n') (del_at c ns) = drop (c + S n') ns).
      { rewrite <- drop_drop, Hdrop, drop_drop. f_equal. lia. }
      rewrite Htake, Hdrop2 in W'. exact W'.
Qed.

(** [RemoveRange] on a list in good order: the descent stops in front of
    position [c], and the loop takes out the [n] nodes from there on. *)
Lemma RemoveRange_well sl hd ns (min max : Border) (limit : Z) :
  Well sl hd ns ->
  exists c sl' hd',
    let n := taken max limit 0 (ael <$> drop c ns) in
    RemoveRange sl min max limit
      = Some (sl', ael <$> take n (drop c ns)) /\
    Well sl' hd' (take c ns ++ drop (c + n) ns) /\
    (c <= length ns)%nat /\
    (forall a, (0 < c)%nat -> ns !! (c - 1)%nat = Some a ->
               Border_less min (ael a) = false) /\
    (forall b, ns !! c = Some b -> Border_less min (ael b) = true).
Proof.
  intros W. pose proof W as (R & B & Hs). unfold RemoveRange.
  destruct (descend_rep sl hd ns (fun e => negb (Border_less min e)) R)
    as (c & ac & upd & rk & Hd & Hc & Hor & Hstop & Hlu & Hlr & Hfound).
  rewrite Hd. cbn [mbind option_bind].
  rewrite (next_zero sl hd ns c ac W Hc). cbn [mbind option_bind forward].
  assert (Hclen : (c <= length ns)%nat).
  { apply lookup_lt_Some in Hc. cbn [length] in Hc. lia. }
  pose proof (links_fuel _ _ (rep_links _ _ _ R) (rep_nodup _ _ _ R)) as Hfuel.
  cbn [length] in Hfuel.
  destruct (RemoveRange_loop_well max limit upd rk c (fuel_of (sl_heap sl))
              sl hd ns [] W Hfound Hclen ltac:(lia))
    as (sl' & hd' & Hloop & W').
  cbn [length app] in Hloop, W'. change (Z.of_nat 0) with 0 in Hloop, W'.
  exists c, sl', hd'. cbn zeta. split; [exact Hloop|]. split; [exact W'|].
  split; [exact Hclen|]. split.
  - intros a Hpos Ha. destruct Hor as [->|HP]; [lia|].
    destruct c as [|c']; [lia|]. change (ns !! c' = Some ac) in Hc.
    replace (S c' - 1)%nat with c' in Ha by lia.
    rewrite Hc in Ha. injection Ha as <-.
    apply negb_true_iff in HP. exact HP.
  - intros b Hb. apply negb_false_iff. apply (Hstop b Hb).
Qed.

(** *** Score borders on a sorted list *)

Lemma SFleb_split (x y : float64) : SFleb x y = SFltb x y || SFeqb x y.
Proof.
  unfold SFleb, SFltb, SFeqb. destruct (SFcompare x y) as [[| |]|]; reflexivity.
Qed.

(** An element behind one that is not below the border is not below it. *)
Lemma less_up (min : ScoreBorder) (a b : Element) :
  ele a b = true -> less min a = true -> less min b = true.
Proof.
  unfold less, ele, upto. intros Hab.
  destruct (Inf min =? scoreNegativeInf); [auto|].
  destruct (Inf min =? scorePositiveInf); [auto|].
  assert (Hlt : SFltb (Value min) (Score a) = true ->
                SFltb (Value min) (Score b) = true).
  { intros H.
    destruct (proj1 (orb_true_iff _ _) Hab) as [H1|[H1 _]%andb_true_iff].
    - apply (flt_trans _ _ _ H H1).
    - apply (flt_eq _ _ _ H H1). }
  destruct (Exclude min); [exact Hlt|].
  rewrite !SFleb_split. intros [H|H]%orb_true_iff.
  - rewrite (Hlt H). reflexivity.
  - destruct (proj1 (orb_true_iff _ _) Hab) as [H1|[H1 _]%andb_true_iff].
    + rewrite (feq_lt _ _ _ H H1). reflexivity.
    + rewrite (feq_trans _ _ _ H H1). apply orb_true_r.
Qed.

(** An element in front of one that is not above the border is not above
    it. *)
Lemma greater_down (max : ScoreBorder) (a b : Element) :
  ele a b = true -> greater max b = true -> greater max a = true.
Proof.
  unfold greater, ele, upto. intros Hab.
  destruct (Inf max =? scoreNegativeInf); [auto|].
  destruct (Inf max =? scorePositiveInf); [auto|].
  assert (Hlt : SFltb (Score b) (Value max) = true ->
                SFltb (Score a) (Value max) = true).
  { intros H.
    destruct (proj1 (orb_true_iff _ _) Hab) as [H1|[H1 _]%andb_true_iff].
    - apply (flt_trans _ _ _ H1 H).
    - apply (feq_lt _ _ _ H1 H). }
  destruct (Exclude max); [exact Hlt|].
  rewrite !SFleb_split. intros [H|H]%orb_true_iff.
  - rewrite (Hlt H). reflexivity.
  - destruct (proj1 (orb_true_iff _ _) Hab) as [H1|[H1 _]%andb_true_iff].
    + rewrite (flt_eq _ _ _ H1 H). reflexivity.
    + rewrite (feq_trans _ _ _ H1 H). apply orb_true_r.
Qed.

Lemma notless_down (min : ScoreBorder) (a b : Element) :
  ele a b = true -> negb (less min b) = true -> negb (less min a) = true.
Proof.
  intros Hab Hb. destruct (less min a) eqn:Ha; [|reflexivity].
  rewrite (less_up min a b Hab Ha) in Hb. discriminate.
Qed.

(** The elements of a sorted list that lie between two score borders are
    the [m] elements from position [c] on: [c] elements are below [min],
    and [m] of the others are not above [max]. *)
Definition below (min : ScoreBorder) (els : list Element) : nat :=
  length (List.filter (fun e => negb (less min e)) els).

Definition within (min max : ScoreBorder) (e : Element) : bool :=
  less min e && greater max e.

Lemma filter_all {A} (f : A -> bool) (l : list A) :
  (forall i a, l !! i = Some a -> f a = true) -> List.filter f l = l.
Proof.
  induction l as [|x l IH]; intros H; [reflexivity|]. cbn [List.filter].
  rewrite (H 0%nat x eq_refl), IH; [reflexivity|].
  intros i a. apply (H (S i)).
Qed.

Lemma filter_none {A} (f : A -> bool) (l : list A) :
  (forall i a, l !! i = Some a -> f a = false) -> List.filter f l = [].
Proof.
  induction l as [|x l IH]; intros H; [reflexivity|]. cbn [List.filter].
  rewrite (H 0%nat x eq_refl). apply IH. intros i a. apply (H (S i)).
Qed.

(** Where the descent by [min] stops. *)
Lemma below_position (min : ScoreBorder) (els : list Element) (c : nat) :
  sorted els -> (c <= length els)%nat ->
  (forall a, (0 < c)%nat -> els !! (c - 1)%nat = Some a -> less min a = false) ->
  (forall b, els !! c = Some b -> less min b = true) ->
  below min els = c /\
  (forall q a, (q < c)%nat -> els !! q = Some a -> less min a = false) /\
  (forall q a, (c <= q)%nat -> els !! q = Some a -> less min a = true).
Proof.
  intros Hs Hc Hlast Hstop.
  assert (Hlast' : forall a, (0 < c)%nat -> els !! (c - 1)%nat = Some a ->
                             negb (less min a) = true).
  { intros b Hpos Hb. apply negb_true_iff. apply (Hlast b Hpos Hb). }
  assert (Hstop' : forall b, els !! c = Some b -> negb (less min b) = false).
  { intros b Hb. apply negb_false_iff. apply (Hstop b Hb). }
  assert (Hpre : forall q a, (q < c)%nat -> els !! q = Some a ->
                             less min a = false).
  { intros q a Hq Ha. apply negb_true_iff.
    apply (sorted_prefix (fun e => negb (less min e)) els c Hs
             (notless_down min) Hc Hlast' q a Hq Ha). }
  assert (Hsuf : forall q a, (c <= q)%nat -> els !! q = Some a ->
                             less min a = true).
  { intros q a Hq Ha. apply negb_false_iff.
    apply (sorted_suffix (fun e => negb (less min e)) els c Hs
             (notless_down min) Hstop' q a Hq Ha). }
  split; [|split; assumption].
  unfold below. rewrite <- (take_drop c els) at 1.
  rewrite List.filter_app, filter_all, filter_none.
  - rewrite app_nil_r, length_take. lia.
  - intros i a. rewrite lookup_drop. intros Ha. apply negb_false_iff.
    apply (Hsuf (c + i)%nat a); [lia | exact Ha].
  - intros i a Ha. apply negb_true_iff.
    pose proof (lookup_lt_Some _ _ _ Ha) as Hlt. rewrite length_take in Hlt.
    rewrite lookup_take, decide_True in Ha by lia.
    apply (Hpre i a); [lia | exact Ha].
Qed.

(** A test that holds exactly on the first [k] entries selects them. *)
Lemma filter_prefix {A} (f : A -> bool) (l : list A) (k : nat) :
  (forall i a, l !! i = Some a -> f a = bool_decide (i < k)%nat) ->
  List.filter f l = take k l.
Proof.
  revert k. induction l as [|x l IH]; intros k H; [destruct k; reflexivity|].
  cbn [List.filter]. rewrite (H 0%nat x eq_refl).
  destruct k as [|k].
  - rewrite bool_decide_eq_false_2 by lia. cbn [take].
    apply filter_none. intros i a Ha. rewrite (H (S i) a Ha).
    apply bool_decide_eq_false_2. lia.
  - rewrite bool_decide_eq_true_2 by lia. cbn [take]. f_equal.
    apply IH. intros i a Ha. rewrite (H (S i) a Ha).
    apply bool_decide_ext. lia.
Qed.

Lemma sorted_tail (x : Element) (l : list Element) :
  sorted (x :: l) -> sorted l.
Proof.
  intros [Hn Hs]. split.
  - intros i a Ha. apply (Hn (S i) a Ha).
  - intros i j a b Hij Ha Hb. apply (Hs (S i) (S j) a b); [lia|exact Ha|exact Hb].
Qed.

(** In a sorted list a test closed downwards holds exactly on a prefix. *)
Lemma down_closed_prefix (P : Element -> bool) (els : list Element) :
  sorted els ->
  (forall a b, ele a b = true -> P b = true -> P a = true) ->
  forall i a, els !! i = Some a ->
    P a = bool_decide (i < length (List.filter P els))%nat.
Proof.
  intros Hs Hdown. induction els as [|x l IH]; intros i a Ha;
    [discriminate|].
  cbn [List.filter]. destruct (P x) eqn:Hx.
  - destruct i as [|i].
    + injection Ha as <-. rewrite Hx. symmetry.
      apply bool_decide_eq_true_2. cbn [length]. lia.
    + rewrite (IH (sorted_tail _ _ Hs) i a Ha). cbn [length].
      apply bool_decide_ext. lia.
  - rewrite filter_none.
    + rewrite bool_decide_eq_false_2 by (cbn [length]; lia).
      apply (sorted_suffix P (x :: l) 0 Hs Hdown
               ltac:(intros b [= <-]; exact Hx) i a ltac:(lia) Ha).
    + intros j b Hb.
      apply (sorted_suffix P (x :: l) 0 Hs Hdown
               ltac:(intros b' [= <-]; exact Hx) (S j) b ltac:(lia) Hb).
Qed.

(** The number of elements of [els] that are not above [max]. *)
Definition upto_max (max : ScoreBorder) (els : list Element) : nat :=
  length (List.filter (greater max) els).

Lemma greater_prefix (max : ScoreBorder) (els : list Element) :
  sorted els ->
  forall i a, els !! i = Some a ->
    greater max a = bool_decide (i < upto_max max els)%nat.
Proof.
  intros Hs. apply (down_closed_prefix (greater max) els Hs (greater_down max)).
Qed.

Lemma less_suffix (min : ScoreBorder) (els : list Element) :
  sorted els ->
  forall i a, els !! i = Some a ->
    less min a = bool_decide (below min els <= i)%nat.
Proof.
  intros Hs i a Ha.
  pose proof (down_closed_prefix (fun e => negb (less min e)) els Hs
                (notless_down min) i a Ha) as H.
  cbn beta in H. fold (below min els) in H.
  destruct (less min a); cbn [negb] in H.
  - symmetry. apply bool_decide_eq_true_2.
    symmetry in H. apply bool_decide_eq_false in H. lia.
  - symmetry. apply bool_decide_eq_false_2.
    symmetry in H. apply bool_decide_eq_true in H. lia.
Qed.

Lemma below_le (min : ScoreBorder) (els : list Element) :
  (below min els <= length els)%nat.
Proof. unfold below. apply List.filter_length_le. Qed.

Lemma upto_max_le (max : ScoreBorder) (els : list Element) :
  (upto_max max els <= length els)%nat.
Proof. unfold upto_max. apply List.filter_length_le. Qed.

(** The elements between the borders are those at the positions from
    [below min] up to [upto_max max]. *)
Lemma within_run (min max : ScoreBorder) (els : list Element) :
  sorted els ->
  List.filter (within min max) els
  = take (upto_max max els - below min els) (drop (below min els) els).
Proof.
  intros Hs. set (c := below min els). set (c' := upto_max max els).
  rewrite <- (take_drop c els) at 1. rewrite List.filter_app.
  rewrite filter_none.
  2:{ intros i a Ha. pose proof (lookup_lt_Some _ _ _ Ha) as Hlt.
      rewrite length_take in Hlt. rewrite lookup_take, decide_True in Ha by lia.
      unfold within. rewrite (less_suffix min els Hs i a Ha).
      fold c. rewrite bool_decide_eq_false_2 by lia. reflexivity. }
  cbn [app]. apply filter_prefix. intros i a. rewrite lookup_drop. intros Ha.
  unfold within. rewrite (less_suffix min els Hs _ a Ha),
    (greater_prefix max els Hs _ a Ha). fold c c'.
  rewrite bool_decide_eq_true_2 by lia. cbn [andb].
  apply bool_decide_ext. lia.
Qed.

(** The count of the removal loop, for a score border: all the elements
    that are not above [max], or [limit] of them. *)
Lemma taken_score (max : ScoreBorder) (limit : Z) (l : list Element) :
  sorted l ->
  forall k, (0 < limit -> k < limit) ->
  taken (ScoreB max) limit k l
  = if limit >? 0 then Nat.min (Z.to_nat (limit - k)) (upto_max max l)
    else upto_max max l.
Proof.
  intros Hs. induction l as [|e t IH]; intros k Hk.
  - cbn. destruct (limit >? 0); [rewrite Nat.min_0_r|]; reflexivity.
  - cbn [taken Border_greater]. unfold upto_max. cbn [List.filter].
    destruct (greater max e) eqn:Hg; cbn [negb length].
    + fold (upto_max max t).
      destruct (Z.gtb_spec limit 0) as [Hpos|Hneg]; cbn [andb].
      * destruct (Z.eqb_spec (k + 1) limit) as [Heq|Hne].
        -- replace (Z.to_nat (limit - k)) with 1%nat by lia.
           destruct (upto_max max t); reflexivity.
        -- rewrite (IH (sorted_tail _ _ Hs) (k + 1)) by lia.
           destruct (Z.gtb_spec limit 0); [|lia].
           replace (Z.to_nat (limit - k))
             with (S (Z.to_nat (limit - (k + 1)))) by lia.
           reflexivity.
      * rewrite (IH (sorted_tail _ _ Hs) (k + 1)) by lia.
        destruct (Z.gtb_spec limit 0); [lia | reflexivity].
    + rewrite filter_none.
      * cbn [length]. destruct (limit >? 0); [rewrite Nat.min_0_r|];
          reflexivity.
      * intros j b Hb.
        apply (sorted_suffix (greater max) (e :: t) 0 Hs (greater_down max)
                 ltac:(intros b' [= <-]; exact Hg) (S j) b ltac:(lia) Hb).
Qed.

Lemma sorted_drop (c : nat) (els : list Element) :
  sorted els -> sorted (drop c els).
Proof.
  intros [Hn Hs]. split.
  - intros i a. rewrite lookup_drop. apply Hn.
  - intros i j a b Hij. rewrite !lookup_drop. apply Hs. lia.
Qed.

(** Past the elements below [min], those not above [max] are counted from
    the start of the list. *)
Lemma upto_max_drop (min max : ScoreBorder) (els : list Element) :
  sorted els ->
  upto_max max (drop (below min els) els)
  = (upto_max max els - below min els)%nat.
Proof.
  intros Hs. set (c := below min els). unfold upto_max at 1.
  rewrite (filter_prefix (greater max) (drop c els)
             (upto_max max els - c)).
  - rewrite length_take, length_drop.
    pose proof (upto_max_le max els). lia.
  - intros i a. rewrite lookup_drop. intros Ha.
    rewrite (greater_prefix max els Hs _ a Ha). apply bool_decide_ext. lia.
Qed.

(** *** [hasInRange], [getFirstInRange] and [getLastInRange] *)

(** What [hasInRange] computes on a list in good order: the borders are
    not crossed, the last element is not below [min] and the first one is
    not above [max]. *)
Definition spans (min max : ScoreBorder) (els : list Element) : bool :=
  negb (isIntersected min max)
  && match last els with Some t => less min t | None => false end
  && match head els with Some f => greater max f | None => false end.

Lemma hasInRange_well sl hd ns (min max : ScoreBorder) :
  Well sl hd ns ->
  hasInRange sl (ScoreB min) (ScoreB max)
  = Some (spans min max (ael <$> ns)).
Proof.
  intros W. pose proof W as (R & [_ Htail] & _).
  unfold hasInRange, spans. cbn [Border_isIntersected mbind option_bind].
  destruct (isIntersected min max); [reflexivity|]. cbn [negb andb].
  rewrite Htail, fmap_last.
  destruct (last ns) as [t|] eqn:Hlast; cbn [fmap option_fmap option_map];
    [|reflexivity].
  assert (Ht : (hd :: ns) !! S (Nat.pred (length ns)) = Some t)
    by (rewrite last_lookup in Hlast; exact Hlast).
  destruct (node_elem sl hd ns _ t W Ht) as (nd & Hnd & He).
  rewrite Hnd. cbn [mbind option_bind Border_less]. rewrite He.
  destruct (less min (ael t)); cbn [negb andb]; [|reflexivity].
  rewrite <- (rep_header _ _ _ R).
  rewrite (next_zero sl hd ns 0 hd W eq_refl).
  cbn [mbind option_bind forward]. rewrite head_lookup, list_lookup_fmap.
  destruct (ns !! 0%nat) as [f|] eqn:Hhead; cbn [fmap option_fmap option_map];
    [|reflexivity].
  assert (Hf : (hd :: ns) !! 1%nat = Some f) by exact Hhead.
  destruct (node_elem sl hd ns _ f W Hf) as (nd' & Hnd' & He').
  rewrite Hnd'. cbn [mbind option_bind Border_greater]. rewrite He'.
  destruct (greater max (ael f)); reflexivity.
Qed.

(** The element of the node that a search returns. *)
Definition elem_at (sl : skiplist) (o : option ptr) : option Element :=
  x ← o; elem <$> sl_heap sl !! x.

Lemma elem_at_node sl hd ns q a :
  Well sl hd ns -> (hd :: ns) !! q = Some a ->
  elem_at sl (Some (aptr a)) = Some (ael a).
Proof.
  intros W Hq. destruct (node_elem sl hd ns q a W Hq) as (nd & Hnd & He).
  unfold elem_at. cbn [mbind option_bind]. rewrite Hnd. cbn. rewrite He.
  reflexivity.
Qed.

Lemma spans_positions (min max : ScoreBorder) (els : list Element) :
  sorted els -> spans min max els = true ->
  (below min els < length els)%nat /\ (1 <= upto_max max els)%nat.
Proof.
  intros Hs. unfold spans.
  intros [[_ H1]%andb_true_iff H2]%andb_true_iff.
  destruct (last els) as [t|] eqn:Hlast; [|discriminate].
  destruct (head els) as [f|] eqn:Hhead; [|discriminate].
  rewrite last_lookup in Hlast. rewrite head_lookup in Hhead.
  rewrite (less_suffix min els Hs _ t Hlast) in H1.
  rewrite (greater_prefix max els Hs _ f Hhead) in H2.
  apply bool_decide_eq_true in H1. apply bool_decide_eq_true in H2.
  apply lookup_lt_Some in Hhead. lia.
Qed.

(** [getFirstInRange] returns the node at position [below min] when its
    element is not above [max]. *)
Lemma getFirstInRange_well sl hd ns (min max : ScoreBorder) :
  Well sl hd ns ->
  let els := ael <$> ns in
  getFirstInRange sl (ScoreB min) (ScoreB max)
  = Some (if spans min max els
             && bool_decide (below min els < upto_max max els)%nat
          then aptr <$> ns !! below min els else None).
Proof.
  intros W els. pose proof W as (R & B & Hs). unfold getFirstInRange.
  rewrite (hasInRange_well sl hd ns min max W). cbn [mbind option_bind].
  fold els. destruct (spans min max els) eqn:Hspan; cbn [negb andb];
    [|reflexivity].
  destruct (descend_rep sl hd ns (fun e => negb (less min e)) R)
    as (c & ac & upd & rk & Hd & Hc & Hor & Hstop & _).
  cbn [Border_less]. rewrite Hd. cbn [mbind option_bind].
  rewrite (next_zero sl hd ns c ac W Hc). cbn [mbind option_bind forward].
  assert (Hclen : (c <= length els)%nat).
  { apply lookup_lt_Some in Hc. unfold els. rewrite length_fmap.
    cbn [length] in Hc. lia. }
  destruct (below_position min els c Hs Hclen) as (Hbelow & _ & _).
  { intros a Hpos. unfold els. rewrite list_lookup_fmap.
    destruct Hor as [->|HP]; [lia|].
    destruct c as [|c']; [lia|]. change (ns !! c' = Some ac) in Hc.
    replace (S c' - 1)%nat with c' by lia. rewrite Hc. intros [= <-].
    apply negb_true_iff in HP. exact HP. }
  { intros b. unfold els. rewrite list_lookup_fmap.
    destruct (ns !! c) as [b'|] eqn:Hb; [|discriminate].
    intros [= <-]. apply negb_false_iff. apply (Hstop b' eq_refl). }
  rewrite Hbelow.
  destruct (spans_positions min max els Hs Hspan) as [Hlt _].
  rewrite Hbelow in Hlt. unfold els in Hlt. rewrite length_fmap in Hlt.
  destruct (lookup_lt_is_Some_2 ns c Hlt) as [t Ht]. rewrite Ht.
  cbn [fmap option_fmap option_map mbind option_bind].
  destruct (node_elem sl hd ns (S c) t W Ht) as (nd & Hnd & He).
  rewrite Hnd. cbn [mbind option_bind Border_greater]. rewrite He.
  rewrite (greater_prefix max els Hs c (ael t))
    by (unfold els; rewrite list_lookup_fmap, Ht; reflexivity).
  reflexivity.
Qed.

(** [getLastInRange] returns the node at position [upto_max max - 1] when
    its element is not below [min]. *)
Lemma getLastInRange_well sl hd ns (min max : ScoreBorder) :
  Well sl hd ns ->
  let els := ael <$> ns in
  getLastInRange sl (ScoreB min) (ScoreB max)
  = Some (if spans min max els
             && bool_decide (below min els < upto_max max els)%nat
          then aptr <$> ns !! (upto_max max els - 1)%nat else None).
Proof.
  intros W els. pose proof W as (R & B & Hs). unfold getLastInRange.
  rewrite (hasInRange_well sl hd ns min max W). cbn [mbind option_bind].
  fold els. destruct (spans min max els) eqn:Hspan; cbn [negb andb];
    [|reflexivity].
  destruct (descend_rep sl hd ns (greater max) R)
    as (c & ac & upd & rk & Hd & Hc & Hor & Hstop & _).
  cbn [Border_greater]. rewrite Hd. cbn [mbind option_bind].
  destruct (node_elem sl hd ns c ac W Hc) as (nd & Hnd & He).
  rewrite Hnd. cbn [mbind option_bind Border_less]. rewrite He.
  destruct (spans_positions min max els Hs Hspan) as [_ Hpos].
  assert (Hclen : (c <= length els)%nat).
  { apply lookup_lt_Some in Hc. unfold els. rewrite length_fmap.
    cbn [length] in Hc. lia. }
  assert (Hcmax : c = upto_max max els).
  { pose proof (upto_max_le max els) as Hle.
    destruct (lt_eq_lt_dec c (upto_max max els)) as [[Hlt|Heq]|Hgt];
      [|exact Heq|].
    - assert (Hlen : length els = length ns)
        by (unfold els; apply length_fmap).
      destruct (lookup_lt_is_Some_2 ns c) as [b Hb]; [lia|].
      pose proof (Hstop b Hb) as Hnb.
      rewrite (greater_prefix max els Hs c (ael b)) in Hnb
        by (unfold els; rewrite list_lookup_fmap, Hb; reflexivity).
      apply bool_decide_eq_false in Hnb. lia.
    - destruct Hor as [->|HP]; [lia|].
      destruct c as [|c']; [lia|]. change (ns !! c' = Some ac) in Hc.
      rewrite (greater_prefix max els Hs c' (ael ac)) in HP
        by (unfold els; rewrite list_lookup_fmap, Hc; reflexivity).
      apply bool_decide_eq_true in HP. lia. }
  subst c. destruct (upto_max max els) as [|c'] eqn:Hc'; [lia|].
  change (ns !! c' = Some ac) in Hc.
  replace (S c' - 1)%nat with c' by lia. rewrite Hc.
  cbn [fmap option_fmap option_map].
  rewrite (less_suffix min els Hs c' (ael ac))
    by (unfold els; rewrite list_lookup_fmap, Hc; reflexivity).
  destruct (decide (below min els <= c')%nat).
  - rewrite !bool_decide_eq_true_2 by lia. reflexivity.
  - rewrite !bool_decide_eq_false_2 by lia. reflexivity.
Qed.

(** *** The operations on the lists that [insert] and [remove] build *)

(** A list built by four inserts and one remove: [a(1) d(1) c(2)]. *)
Definition sample_ops : list op :=
  [OpInsert "a" f64_one 0; OpInsert "b" f64_two 40000;
   OpInsert "c" f64_two 65534; OpInsert "d" f64_one 7;
   OpRemove "b" f64_two].

Lemma sample_reachable sl :
  run makeSkiplist sample_ops = Some sl -> reachable sl.
Proof. intros H. exists sample_ops. split; [repeat constructor | exact H]. Qed.

Lemma elem_of_take_lookup {A} (l : list A) (c : nat) (e : A) :
  e ∈ take c l -> exists q, (q < c)%nat /\ l !! q = Some e.
Proof.
  intros (q & Hq)%list_elem_of_lookup.
  pose proof (lookup_lt_Some _ _ _ Hq) as Hlt. rewrite length_take in Hlt.
  rewrite lookup_take, decide_True in Hq by lia. exists q. split; [lia|exact Hq].
Qed.

Lemma elem_of_drop_lookup {A} (l : list A) (c : nat) (e : A) :
  e ∈ drop c l -> exists q, (c <= q)%nat /\ l !! q = Some e.
Proof.
  intros (q & Hq)%list_elem_of_lookup. rewrite lookup_drop in Hq.
  exists (c + q)%nat. split; [lia | exact Hq].
Qed.

(** [insert] puts the new element behind the elements that are strictly
    before it in the order by score and member, and in front of all the
    others; the list stays sorted and its length grows by one. *)
Theorem insert_in_order (sl : skiplist) (member : string) (score : float64)
    (u : Z) :
  reachable sl -> nan score = false ->
  exists sl' x c,
    insert sl member score u = Some (sl', x) /\
    contents sl'
    = take c (contents sl) ++ mkElement member score :: drop c (contents sl) /\
    (forall e, e ∈ take c (contents sl) -> before score member e = true) /\
    (forall e, e ∈ drop c (contents sl) -> before score member e = false) /\
    sorted (contents sl') /\
    sl_length sl' = Z.of_nat (length (contents sl')) /\
    elem_at sl' (Some x) = Some (mkElement member score).
Proof.
  intros Hreach Hnan. destruct (reachable_well sl Hreach) as (hd & ns & W).
  destruct (insert_well sl hd ns member score u W Hnan)
    as (sl' & x & c & hd' & Hins & W' & Hc & Hpre & Hsuf).
  exists sl', x, c. split; [exact Hins|].
  rewrite (Well_contents _ _ _ W), (Well_length _ _ _ W'),
    (Well_contents _ _ _ W').
  split; [rewrite fmap_ins_at; reflexivity|].
  split.
  { intros e (q & Hq & He)%elem_of_take_lookup.
    rewrite list_lookup_fmap in He.
    destruct (ns !! q) as [a|] eqn:Ha; [|discriminate]. injection He as <-.
    apply (Hpre q a Hq Ha). }
  split.
  { intros e (q & Hq & He)%elem_of_drop_lookup.
    rewrite list_lookup_fmap in He.
    destruct (ns !! q) as [a|] eqn:Ha; [|discriminate]. injection He as <-.
    apply (Hsuf q a Hq Ha). }
  split; [apply W'|]. split; [reflexivity|].
  apply (elem_at_node sl' hd' _ (S c) (mkA x (Z.to_nat (randomLevel u))
                                        (mkElement member score)) W').
  change (ins_at c (mkA x (Z.to_nat (randomLevel u))
                     (mkElement member score)) ns !! c
          = Some (mkA x (Z.to_nat (randomLevel u)) (mkElement member score))).
  rewrite lookup_ins_at by exact Hc.
  rewrite decide_False by lia. rewrite decide_True by reflexivity.
  reflexivity.
Qed.

Lemma insert_in_order_witness :
  match run makeSkiplist sample_ops with
  | Some sl =>
      exists sl' x c,
        insert sl "b" f64_one 9 = Some (sl', x) /\
        contents sl'
        = take c (contents sl) ++ mkElement "b" f64_one :: drop c (contents sl)
  | None => False
  end.
Proof.
  destruct (run makeSkiplist sample_ops) as [sl|] eqn:Hrun;
    [|vm_compute in Hrun; discriminate].
  destruct (insert_in_order sl "b" f64_one 9 (sample_reachable sl Hrun)
              eq_refl) as (sl' & x & c & H1 & H2 & _).
  exists sl', x, c. split; [exact H1 | exact H2].
Defined.

(** [remove] takes out one element that equals the one asked for (by [==]
    on the score and the member) and answers [true] when the list holds
    such an element; otherwise it leaves the list as it is and answers
    [false]. *)
Theorem remove_takes_out (sl : skiplist) (member : string)
    (score : float64) :
  reachable sl ->
  exists sl' b,
    remove sl member score = Some (sl', b) /\
    if b : bool then
      exists c e,
        contents sl !! c = Some e /\ same score member e = true /\
        contents sl' = take c (contents sl) ++ drop (S c) (contents sl) /\
        sorted (contents sl') /\ sl_length sl' = sl_length sl - 1
    else
      sl' = sl /\ forall e, e ∈ contents sl -> same score member e = false.
Proof.
  intros Hreach. destruct (reachable_well sl Hreach) as (hd & ns & W).
  destruct (remove_well sl hd ns member score W)
    as (sl' & b & Hrm & [(-> & c & t & hd' & Ht & Hsame & W')
                        |(-> & -> & Hnone)]).
  - exists sl', true. split; [exact Hrm|]. exists c, (ael t).
    rewrite (Well_contents _ _ _ W), (Well_contents _ _ _ W').
    split; [rewrite list_lookup_fmap, Ht; reflexivity|].
    split; [exact Hsame|].
    split; [rewrite fmap_del_at; reflexivity|].
    split; [apply W'|].
    rewrite (Well_length _ _ _ W), (Well_length _ _ _ W'),
      (Well_contents _ _ _ W), (Well_contents _ _ _ W').
    rewrite !length_fmap, length_del_at;
      apply lookup_lt_Some in Ht; lia.
  - exists sl, false. split; [exact Hrm|]. split; [reflexivity|].
    rewrite (Well_contents _ _ _ W).
    intros e (a & -> & (p & Hp)%list_elem_of_lookup)%list_elem_of_fmap.
    apply (Hnone p a Hp).
Qed.

Lemma remove_takes_out_witness :
  match run makeSkiplist sample_ops with
  | Some sl =>
      exists sl' b, remove sl "d" f64_one = Some (sl', b)
  | None => False
  end.
Proof.
  destruct (run makeSkiplist sample_ops) as [sl|] eqn:Hrun;
    [|vm_compute in Hrun; discriminate].
  destruct (remove_takes_out sl "d" f64_one (sample_reachable sl Hrun))
    as (sl' & b & H1 & _).
  exists sl', b. exact H1.
Defined.

(** [getByRank] returns the node of the rank asked for, ranks counted from
    1: the header for rank 0, the node that holds the element at position
    [rank - 1] for a rank up to the length, and [nil] for every other
    rank. *)
Theorem getByRank_position (sl : skiplist) (rank : Z) :
  reachable sl ->
  exists o,
    getByRank sl rank = Some o /\
    (rank = 0 -> o = Some (sl_header sl)) /\
    (1 <= rank <= sl_length sl ->
     is_Some o /\ elem_at sl o = contents sl !! Z.to_nat (rank - 1)) /\
    (rank < 0 \/ sl_length sl < rank -> o = None).
Proof.
  intros Hreach. destruct (reachable_well sl Hreach) as (hd & ns & W).
  pose proof W as (R & _ & _).
  rewrite (getByRank_rep sl hd ns rank R), (rep_length _ _ _ R).
  eexists. split; [reflexivity|]. split; [|split].
  - intros ->. destruct (Z.leb_spec 0 (Z.of_nat (length ns))); [|lia]. change (Some (aptr hd) = Some (sl_header sl)). f_equal. apply (rep_header _ _ _ R).
  - intros Hr.
    destruct (Z.leb_spec 0 rank); [|lia].
    destruct (Z.leb_spec rank (Z.of_nat (length ns))); [|lia].
    cbn [andb].
    replace (Z.to_nat rank) with (S (Z.to_nat (rank - 1))) by lia.
    destruct (lookup_lt_is_Some_2 ns (Z.to_nat (rank - 1))) as [a Ha]; [lia|].
    change ((hd :: ns) !! S (Z.to_nat (rank - 1)))
      with (ns !! Z.to_nat (rank - 1)).
    rewrite Ha. cbn [fmap option_fmap option_map]. split; [eauto|].
    rewrite (elem_at_node sl hd ns (S (Z.to_nat (rank - 1))) a W Ha).
    rewrite (Well_contents _ _ _ W), list_lookup_fmap, Ha. reflexivity.
  - intros [Hr|Hr].
    + destruct (Z.leb_spec 0 rank); [lia | reflexivity].
    + destruct (Z.leb_spec rank (Z.of_nat (length ns))); [lia|].
      rewrite andb_false_r. reflexivity.
Qed.

Lemma getByRank_position_witness :
  match run makeSkiplist sample_ops with
  | Some sl => exists o, getByRank sl 2 = Some o
  | None => False
  end.
Proof.
  destruct (run makeSkiplist sample_ops) as [sl|] eqn:Hrun;
    [|vm_compute in Hrun; discriminate].
  destruct (getByRank_position sl 2 (sample_reachable sl Hrun))
    as (o & H1 & _).
  exists o. exact H1.
Defined.

Lemma spans_false_empty (min max : ScoreBorder) (els : list Element) :
  sorted els -> isIntersected min max = false -> spans min max els = false ->
  List.filter (within min max) els = [].
Proof.
  intros Hs Hi Hsp. unfold spans in Hsp. rewrite Hi in Hsp. cbn [negb andb] in Hsp.
  apply filter_none. intros i a Ha. unfold within.
  destruct (last els) as [t|] eqn:Hlast.
  2:{ apply last_None in Hlast. subst els. discriminate. }
  destruct (head els) as [f|] eqn:Hhead.
  2:{ apply head_None in Hhead. subst els. discriminate. }
  rewrite last_lookup in Hlast. rewrite head_lookup in Hhead.
  pose proof (lookup_lt_Some _ _ _ Ha) as Hlt.
  destruct (less min t) eqn:Ht; cbn [andb] in Hsp.
  - destruct (greater max a) eqn:Hg; [|apply andb_false_r].
    exfalso. destruct (decide (i = 0)%nat) as [->|Hne].
    + rewrite Ha in Hhead. injection Hhead as <-. congruence.
    + assert (Hfa : ele f a = true)
        by (apply (proj2 Hs 0%nat i f a ltac:(lia) Hhead Ha)).
      rewrite (greater_down max f a Hfa Hg) in Hsp. discriminate.
  - destruct (less min a) eqn:Hl; [|reflexivity].
    exfalso. destruct (decide (i = pred (length els))) as [->|Hne].
    + rewrite Ha in Hlast. injection Hlast as <-. congruence.
    + assert (Hat : ele a t = true)
        by (apply (proj2 Hs i (pred (length els)) a t ltac:(lia) Ha Hlast)).
      rewrite (less_up min a t Hat Hl) in Ht. discriminate.
Qed.

(** [RemoveRange] with score borders takes out the elements whose score is
    within the borders, from the lowest on, at most [limit] of them when
    [limit] is positive and all of them otherwise; it returns them in order
    and leaves the other elements as they were. *)
Theorem RemoveRange_takes_range (sl : skiplist) (min max : ScoreBorder)
    (limit : Z) :
  reachable sl ->
  let els := contents sl in
  let inr := List.filter (within min max) els in
  let removed := if limit >? 0 then take (Z.to_nat limit) inr else inr in
  exists sl',
    RemoveRange sl (ScoreB min) (ScoreB max) limit = Some (sl', removed) /\
    contents sl'
    = take (below min els) els ++ drop (below min els + length removed) els /\
    sorted (contents sl') /\
    sl_length sl' = Z.of_nat (length (contents sl')).
Proof.
  intros Hreach els inr removed.
  destruct (reachable_well sl Hreach) as (hd & ns & W).
  assert (Hels : els = ael <$> ns) by apply (Well_contents _ _ _ W).
  assert (Hs : sorted els) by (rewrite Hels; apply W).
  destruct (RemoveRange_well sl hd ns (ScoreB min) (ScoreB max) limit W)
    as (c & sl' & hd' & Hrr & W' & Hc & Hprev & Hat).
  assert (Hpos : below min els = c).
  { apply (below_position min els c Hs).
    - rewrite Hels, length_fmap. exact Hc.
    - intros a Hc0 Ha. rewrite Hels, list_lookup_fmap in Ha.
      destruct (ns !! (c - 1)%nat) as [n|] eqn:Hn; [|discriminate].
      injection Ha as <-. apply (Hprev n Hc0 eq_refl).
    - intros b Hb. rewrite Hels, list_lookup_fmap in Hb.
      destruct (ns !! c) as [n|] eqn:Hn; [|discriminate].
      injection Hb as <-. apply (Hat n eq_refl). }
  set (n := taken (ScoreB max) limit 0 (ael <$> drop c ns)) in *.
  cbv zeta in Hrr.
  assert (Hn : n = if limit >? 0
                   then Nat.min (Z.to_nat limit)
                          (upto_max max els - below min els)
                   else (upto_max max els - below min els)%nat).
  { unfold n. rewrite fmap_drop, <- Hels, <- Hpos.
    rewrite (taken_score max limit _ (sorted_drop _ _ Hs) 0) by lia.
    rewrite (upto_max_drop min max els Hs), Z.sub_0_r. reflexivity. }
  assert (Hrem : ael <$> take n (drop c ns) = removed).
  { rewrite fmap_take, fmap_drop, <- Hels, <- Hpos. unfold removed, inr.
    rewrite (within_run min max els Hs), Hn.
    destruct (limit >? 0); [rewrite take_take|]; reflexivity. }
  assert (Hlen : length removed = n).
  { rewrite <- Hrem, length_fmap, length_take, length_drop.
    pose proof (upto_max_le max els) as Hu.
    assert (length els = length ns) by (rewrite Hels; apply length_fmap).
    destruct (limit >? 0); lia. }
  exists sl'. rewrite <- Hrem at 1. split; [exact Hrr|].
  rewrite (Well_length _ _ _ W'), (Well_contents _ _ _ W').
  split; [|split; [apply W' | reflexivity]].
  rewrite fmap_app, fmap_take, fmap_drop, <- Hels, Hpos, Hlen. reflexivity.
Qed.

Lemma RemoveRange_takes_range_witness :
  match run makeSkiplist sample_ops with
  | Some sl =>
      exists sl',
        RemoveRange sl (ScoreB (mkScoreBorder 0 f64_one false))
          (ScoreB (mkScoreBorder 0 f64_two false)) 2
        = Some (sl', take 2 (List.filter
                       (within (mkScoreBorder 0 f64_one false)
                          (mkScoreBorder 0 f64_two false)) (contents sl)))
  | None => False
  end.
Proof.
  destruct (run makeSkiplist sample_ops) as [sl|] eqn:Hrun;
    [|vm_compute in Hrun; discriminate].
  destruct (RemoveRange_takes_range sl (mkScoreBorder 0 f64_one false)
              (mkScoreBorder 0 f64_two false) 2 (sample_reachable sl Hrun))
    as (sl' & H1 & _).
  exists sl'. exact H1.
Defined.

(** With score borders that [isIntersected] does not take for crossed,
    [getFirstInRange] and [getLastInRange] return the nodes of the first and
    of the last element whose score is within the borders, and [nil] when
    there is none, and [hasInRange] says [true] whenever there is one; with
    borders it takes for crossed all three find nothing. *)
Theorem range_first_and_last (sl : skiplist) (min max : ScoreBorder) :
  reachable sl ->
  let inr := List.filter (within min max) (contents sl) in
  exists has first final,
    hasInRange sl (ScoreB min) (ScoreB max) = Some has /\
    getFirstInRange sl (ScoreB min) (ScoreB max) = Some first /\
    getLastInRange sl (ScoreB min) (ScoreB max) = Some final /\
    if isIntersected min max
    then has = false /\ first = None /\ final = None
    else (inr <> [] -> has = true) /\
         elem_at sl first = head inr /\ elem_at sl final = last inr.
Proof.
  intros Hreach inr.
  destruct (reachable_well sl Hreach) as (hd & ns & W).
  assert (Hels : contents sl = ael <$> ns) by apply (Well_contents _ _ _ W).
  assert (Hs : sorted (contents sl)) by (rewrite Hels; apply W).
  pose proof (hasInRange_well sl hd ns min max W) as Hhas.
  pose proof (getFirstInRange_well sl hd ns min max W) as Hfirst.
  pose proof (getLastInRange_well sl hd ns min max W) as Hlast.
  cbv zeta in Hfirst, Hlast. rewrite <- Hels in Hhas, Hfirst, Hlast.
  eexists _, _, _. split; [exact Hhas|]. split; [exact Hfirst|].
  split; [exact Hlast|].
  destruct (isIntersected min max) eqn:Hi.
  { unfold spans. rewrite Hi. cbn [negb andb]. auto. }
  destruct (spans min max (contents sl)) eqn:Hsp.
  2:{ cbn [andb]. unfold inr.
      rewrite (spans_false_empty min max _ Hs Hi Hsp).
      split; [congruence|]. split; reflexivity. }
  split; [reflexivity|]. cbn [andb].
  unfold inr. rewrite (within_run min max _ Hs).
  set (b := below min (contents sl)). set (u := upto_max max (contents sl)).
  pose proof (upto_max_le max (contents sl)) as Hu. fold u in Hu.
  assert (Hlen : length (contents sl) = length ns)
    by (rewrite Hels; apply length_fmap).
  destruct (decide (b < u)%nat) as [Hbu|Hbu].
  - rewrite bool_decide_eq_true_2 by exact Hbu.
    destruct (lookup_lt_is_Some_2 ns b) as [x Hx]; [lia|].
    destruct (lookup_lt_is_Some_2 ns (u - 1)) as [y Hy]; [lia|].
    rewrite Hx, Hy. cbn [fmap option_fmap option_map].
    rewrite (elem_at_node sl hd ns (S b) x W Hx).
    rewrite (elem_at_node sl hd ns (S (u - 1)) y W Hy).
    split.
    + rewrite head_lookup, lookup_take, decide_True by lia.
      rewrite lookup_drop, Nat.add_0_r, Hels, list_lookup_fmap, Hx.
      reflexivity.
    + rewrite last_lookup, length_take, length_drop.
      replace (pred (Nat.min (u - b) (length (contents sl) - b)))
        with (u - b - 1)%nat by lia.
      rewrite lookup_take, decide_True by lia.
      rewrite lookup_drop, Hels, list_lookup_fmap.
      replace (b + (u - b - 1))%nat with (u - 1)%nat by lia.
      rewrite Hy. reflexivity.
  - rewrite bool_decide_eq_false_2 by exact Hbu.
    replace (u - b)%nat with 0%nat by lia. rewrite take_0.
    split; reflexivity.
Qed.

Lemma range_first_and_last_witness :
  match run makeSkiplist sample_ops with
  | Some sl =>
      exists has first final,
        hasInRange sl (ScoreB (mkScoreBorder 0 f64_one false))
          (ScoreB (mkScoreBorder 0 f64_two false)) = Some has /\
        getFirstInRange sl (ScoreB (mkScoreBorder 0 f64_one false))
          (ScoreB (mkScoreBorder 0 f64_two false)) = Some first /\
        getLastInRange sl (ScoreB (mkScoreBorder 0 f64_one false))
          (ScoreB (mkScoreBorder 0 f64_two false)) = Some final
  | None => False
  end.
Proof.
  destruct (run makeSkiplist sample_ops) as [sl|] eqn:Hrun;
    [|vm_compute in Hrun; discriminate].
  destruct (range_first_and_last sl (mkScoreBorder 0 f64_one false)
              (mkScoreBorder 0 f64_two false) (sample_reachable sl Hrun))
    as (has & first & final & H1 & H2 & H3 & _).
  exists has, first, final. auto.
Defined.

End SkiplistProps.

(** * The sorted set: its map and its skip list *)

Module ZSetProps.
Import SortedSet SkiplistSpec SkiplistProps.

(** The calls that change a sorted set; an [Add] carries the value that the
    [randomLevel] of its [insert] draws. *)
Inductive zop :=
  | ZAdd (member : string) (score : float64) (u : Z)
  | ZRemove (member : string)
  | ZRemoveRange (min max : Border)
  | ZPopMin (count : Z).

Definition zstep (z : SortedSet) (o : zop) : option SortedSet :=
  match o with
  | ZAdd member score u => fst <$> Add z member score u
  | ZRemove member => fst <$> Remove z member
  | ZRemoveRange min max => fst <$> SortedSet_RemoveRange z min max
  | ZPopMin count => fst <$> PopMin z count
  end.

Fixpoint zrun (z : SortedSet) (ops : list zop) : option SortedSet :=
  match ops with
  | [] => Some z
  | o :: rest => z' ← zstep z o; zrun z' rest
  end.

(** An [Add] of a score that is a number. *)
Definition zop_ok (o : zop) : Prop :=
  match o with
  | ZAdd _ score _ => nan score = false
  | _ => True
  end.

(** The sets that these calls build from [Make()]. *)
Definition built (z : SortedSet) : Prop :=
  exists ops, Forall zop_ok ops /\ zrun Make ops = Some z.

(** The map and the list hold the same members, each once, with scores
    that are equal as floats. *)
Definition Tally (dict : gmap string Element) (els : list Element) : Prop :=
  NoDup (Member <$> els) /\
  dom dict = (list_to_set (Member <$> els) : gset string) /\
  forall e, e ∈ els ->
    exists d, dict !! Member e = Some d /\ Member d = Member e /\
              SFeqb (Score e) (Score d) = true.

Definition Agree (z : SortedSet) (hd : anode) (ns : list anode) : Prop :=
  Well (ss_skiplist z) hd ns /\ Tally (ss_dict z) (ael <$> ns).

Lemma Tally_empty : Tally ∅ [].
Proof.
  split; [constructor|]. split; [rewrite dom_empty_L; reflexivity|].
  intros e He. inversion He.
Qed.

Lemma Tally_size dict els : Tally dict els -> size dict = length els.
Proof.
  intros (Hnd & Hdom & _).
  rewrite <- (size_dom (D := gset string)), Hdom, size_list_to_set by exact Hnd.
  apply length_fmap.
Qed.

Lemma Tally_absent dict els m :
  Tally dict els -> dict !! m = None -> m ∉ Member <$> els.
Proof.
  intros (_ & Hdom & _) Hm Hin.
  apply (elem_of_list_to_set (C := gset string)) in Hin.
  rewrite <- Hdom in Hin. apply elem_of_dom in Hin. rewrite Hm in Hin.
  destruct Hin as [? ?]. discriminate.
Qed.

Lemma Tally_present dict els m d :
  Tally dict els -> dict !! m = Some d ->
  Member d = m /\
  exists p e, els !! p = Some e /\ Member e = m /\
              SFeqb (Score e) (Score d) = true.
Proof.
  intros (_ & Hdom & Hel) Hm.
  assert (Hin : m ∈ dom dict) by (apply elem_of_dom; eauto).
  rewrite Hdom in Hin. apply elem_of_list_to_set in Hin.
  apply list_elem_of_fmap in Hin as (e & -> & He).
  destruct (Hel e He) as (d' & Hd' & Hmem & Hsc).
  rewrite Hm in Hd'. injection Hd' as <-. split; [exact Hmem|].
  apply list_elem_of_lookup in He as (p & Hp). eauto.
Qed.

Lemma Tally_unique dict els p q a b :
  Tally dict els -> els !! p = Some a -> els !! q = Some b ->
  Member a = Member b -> p = q.
Proof.
  intros (Hnd & _) Ha Hb Hab.
  apply (NoDup_lookup (Member <$> els) p q (Member a) Hnd).
  - rewrite list_lookup_fmap, Ha. reflexivity.
  - rewrite list_lookup_fmap, Hb, Hab. reflexivity.
Qed.

Lemma del_at_perm {A} (c : nat) (l : list A) (t : A) :
  l !! c = Some t -> l ≡ₚ t :: del_at c l.
Proof.
  intros Ht. rewrite <- (take_drop_middle l c t Ht) at 1.
  unfold del_at. rewrite <- Permutation_middle. reflexivity.
Qed.

Lemma Tally_insert_new dict els c m s :
  Tally dict els -> dict !! m = None -> nan s = false ->
  Tally (<[m := mkElement m s]> dict) (ins_at c (mkElement m s) els).
Proof.
  intros T Hm Hs. pose proof (Tally_absent _ _ _ T Hm) as Hnew.
  destruct T as (Hnd & Hdom & Hel).
  assert (Hp : Member <$> ins_at c (mkElement m s) els
               ≡ₚ m :: (Member <$> els)).
  { rewrite (ins_at_perm c (mkElement m s) els). reflexivity. }
  split; [|split].
  - rewrite Hp. constructor; assumption.
  - rewrite dom_insert_L, Hdom.
    rewrite (list_to_set_perm_L _ _ Hp). reflexivity.
  - intros e He. rewrite (ins_at_perm c (mkElement m s) els) in He.
    apply elem_of_cons in He as [->|He].
    + exists (mkElement m s). cbn [Member Score].
      rewrite lookup_insert_eq. split; [reflexivity|].
      split; [reflexivity | apply feq_refl; exact Hs].
    + destruct (Hel e He) as (d & Hd & Hmem & Hsc). exists d.
      rewrite lookup_insert_ne; [auto|].
      intros ->. apply Hnew. apply list_elem_of_fmap. eauto.
Qed.

Lemma Tally_delete dict els c t :
  Tally dict els -> els !! c = Some t ->
  Tally (delete (Member t) dict) (del_at c els).
Proof.
  intros (Hnd & Hdom & Hel) Ht.
  pose proof (del_at_perm c els t Ht) as Hp.
  assert (Hpm : Member <$> els ≡ₚ Member t :: (Member <$> del_at c els))
    by (rewrite Hp at 1; reflexivity).
  rewrite Hpm in Hnd. apply NoDup_cons in Hnd as (Hnot & Hnd').
  split; [exact Hnd'|]. split.
  - rewrite dom_delete_L, Hdom, (list_to_set_perm_L _ _ Hpm).
    cbn [list_to_set foldr].
    apply set_eq. intros x. rewrite elem_of_difference, elem_of_union,
      elem_of_singleton, elem_of_list_to_set.
    split; [intros ([->|Hx] & Hne); [contradiction | exact Hx]|].
    intros Hx. split; [right; exact Hx|]. intros ->. contradiction.
  - intros e He.
    assert (He' : e ∈ els) by (rewrite Hp; right; exact He).
    destruct (Hel e He') as (d & Hd & Hmem & Hsc). exists d.
    rewrite lookup_delete_ne; [auto|].
    intros Heq. apply Hnot. rewrite Heq. apply list_elem_of_fmap. eauto.
Qed.

Lemma Tally_update dict els m d s :
  Tally dict els -> dict !! m = Some d -> SFeqb s (Score d) = true ->
  Tally (<[m := mkElement m s]> dict) els.
Proof.
  intros (Hnd & Hdom & Hel) Hm Hs. split; [exact Hnd|]. split.
  - rewrite dom_insert_L, <- Hdom.
    assert (Hin : m ∈ dom dict) by (apply elem_of_dom; eauto).
    apply set_eq. intros x. rewrite elem_of_union, elem_of_singleton.
    split; [intros [->|Hx]; assumption | auto].
  - intros e He. destruct (Hel e He) as (d' & Hd' & Hmem & Hsc).
    destruct (decide (Member e = m)) as [Heq|Hne].
    + exists (mkElement m s). rewrite Heq, lookup_insert_eq. cbn [Member Score].
      split; [reflexivity|]. split; [reflexivity|].
      rewrite Heq, Hm in Hd'. injection Hd' as <-.
      apply (feq_trans _ _ _ Hsc). apply feq_sym. exact Hs.
    + exists d'. rewrite lookup_insert_ne by congruence. auto.
Qed.

(** Deleting the members of a run of the list from the map. *)
Lemma Tally_delete_run dict els c n :
  Tally dict els -> (c + n <= length els)%nat ->
  Tally (delete_members dict (take n (drop c els)))
    (take c els ++ drop (c + n) els).
Proof.
  revert dict els. induction n as [|n IH]; intros dict els T Hlen.
  - rewrite take_0, Nat.add_0_r, take_drop. exact T.
  - destruct (lookup_lt_is_Some_2 els c) as [t Ht]; [lia|].
    rewrite (drop_S _ _ _ Ht). cbn [take]. unfold delete_members.
    cbn [foldl]. fold (delete_members (delete (Member t) dict)
                         (take n (drop (S c) els))).
    pose proof (Tally_delete dict els c t T Ht) as T'.
    assert (Hl : length (del_at c els) = pred (length els))
      by (rewrite length_del_at by (apply lookup_lt_Some in Ht; exact Ht);
          lia).
    specialize (IH _ _ T' ltac:(lia)).
    assert (Hd : drop c (del_at c els) = drop (S c) els).
    { unfold del_at. rewrite drop_app_length'; [reflexivity|].
      rewrite length_take. lia. }
    assert (Ht' : take c (del_at c els) = take c els).
    { unfold del_at. rewrite take_app_length'; [reflexivity|].
      rewrite length_take. lia. }
    assert (Hd' : drop (c + n) (del_at c els) = drop (c + S n) els).
    { rewrite <- drop_drop, Hd, drop_drop. f_equal. lia. }
    rewrite Hd, Ht', Hd' in IH. exact IH.
Qed.

Lemma same_member score member e :
  same score member e = true -> Member e = member.
Proof.
  unfold same. intros (_ & H)%andb_true_iff. apply String.eqb_eq. exact H.
Qed.

Lemma Agree_Make : Agree Make hd0 [].
Proof. split; [apply Well_makeSkiplist | apply Tally_empty]. Qed.

(** The [remove] of a member with the score that the map has for it finds
    the member's node. *)
Lemma remove_agree z hd ns m d :
  Agree z hd ns -> ss_dict z !! m = Some d ->
  exists sl' b c t hd',
    remove (ss_skiplist z) m (Score d) = Some (sl', b) /\
    ns !! c = Some t /\ Member (ael t) = m /\
    Well sl' hd' (del_at c ns) /\
    Tally (delete m (ss_dict z)) (ael <$> del_at c ns).
Proof.
  intros (W & T) Hm.
  destruct (remove_well _ hd ns m (Score d) W)
    as (sl' & b & Hrm & [(-> & c & t & hd' & Ht & Hsame & W')
                        |(-> & -> & Hnone)]).
  - exists sl', true, c, t, hd'. split; [exact Hrm|]. split; [exact Ht|].
    pose proof (same_member _ _ _ Hsame) as Hmem.
    split; [exact Hmem|]. split; [exact W'|].
    rewrite fmap_del_at, <- Hmem. apply Tally_delete; [exact T|].
    rewrite list_lookup_fmap, Ht. reflexivity.
  - exfalso. destruct (Tally_present _ _ _ _ T Hm) as (_ & p & e & Hp & <- & Hsc).
    rewrite list_lookup_fmap in Hp.
    destruct (ns !! p) as [a|] eqn:Ha; [|discriminate]. injection Hp as <-.
    specialize (Hnone p a Ha). unfold same in Hnone.
    rewrite Hsc, String.eqb_refl in Hnone. discriminate.
Qed.

Lemma Add_agree z hd ns m s u :
  Agree z hd ns -> nan s = false ->
  exists z' hd' ns',
    Add z m s u
    = Some (z', match ss_dict z !! m with Some _ => false | None => true end)
    /\ Agree z' hd' ns' /\
    ss_dict z' = <[m := mkElement m s]> (ss_dict z).
Proof.
  intros A Hs. pose proof A as (W & T). unfold Add.
  destruct (ss_dict z !! m) as [d|] eqn:Hm.
  - destruct (SFeqb s (Score d)) eqn:Heq; cbn [negb].
    + eexists _, hd, ns. split; [reflexivity|]. split; [|reflexivity].
      split; [exact W|]. apply (Tally_update _ _ _ d); assumption.
    + destruct (remove_agree z hd ns m d A Hm)
        as (sl1 & b & c & t & hd1 & Hrm & Ht & Hmem & W1 & T1).
      rewrite Hrm. cbn [mbind option_bind].
      destruct (insert_well sl1 hd1 _ m s u W1 Hs)
        as (sl2 & x & c2 & hd2 & Hins & W2 & _).
      rewrite Hins. cbn [mbind option_bind].
      eexists _, hd2, _. split; [reflexivity|]. split; [|reflexivity].
      split; [exact W2|]. cbn [ss_dict]. rewrite fmap_ins_at. cbn [ael].
      rewrite <- (insert_delete_eq (ss_dict z)).
      apply Tally_insert_new; [exact T1 | apply lookup_delete_eq | exact Hs].
  - destruct (insert_well _ hd ns m s u W Hs)
      as (sl2 & x & c2 & hd2 & Hins & W2 & _).
    rewrite Hins. cbn [mbind option_bind].
    eexists _, hd2, _. split; [reflexivity|]. split; [|reflexivity].
    split; [exact W2|]. cbn [ss_dict]. rewrite fmap_ins_at. cbn [ael].
    apply Tally_insert_new; assumption.
Qed.

Lemma Remove_agree z hd ns m :
  Agree z hd ns ->
  exists z' hd' ns',
    Remove z m
    = Some (z', match ss_dict z !! m with Some _ => true | None => false end)
    /\ Agree z' hd' ns' /\
    ss_dict z' = delete m (ss_dict z).
Proof.
  intros A. unfold Remove. destruct (ss_dict z !! m) as [d|] eqn:Hm.
  - destruct (remove_agree z hd ns m d A Hm)
      as (sl1 & b & c & t & hd1 & Hrm & Ht & Hmem & W1 & T1).
    rewrite Hrm. cbn [mbind option_bind].
    eexists _, hd1, _. split; [reflexivity|]. split; [|reflexivity].
    split; [exact W1 | exact T1].
  - exists z, hd, ns. split; [reflexivity|]. split; [exact A|].
    symmetry. apply delete_id. exact Hm.
Qed.

(** What [RemoveRange] does on the list, and the deletions of its callers
    on the map. *)
Lemma RemoveRange_agree z hd ns (min max : Border) (limit : Z) :
  Agree z hd ns ->
  exists c sl' hd',
    let n := taken max limit 0 (ael <$> drop c ns) in
    RemoveRange (ss_skiplist z) min max limit
      = Some (sl', ael <$> take n (drop c ns)) /\
    Agree (mkSortedSet
             (delete_members (ss_dict z) (ael <$> take n (drop c ns))) sl')
      hd' (take c ns ++ drop (c + n) ns) /\
    (c <= length ns)%nat /\
    (forall a, (0 < c)%nat -> ns !! (c - 1)%nat = Some a ->
               Border_less min (ael a) = false) /\
    (forall b, ns !! c = Some b -> Border_less min (ael b) = true).
Proof.
  intros (W & T).
  destruct (RemoveRange_well _ hd ns min max limit W)
    as (c & sl' & hd' & Hrr & W' & Hc & Hprev & Hat).
  exists c, sl', hd'. cbv zeta in Hrr |- *.
  split; [exact Hrr|]. split; [|auto].
  split; [exact W'|]. cbn [ss_dict].
  rewrite fmap_app, !fmap_take, !fmap_drop.
  apply Tally_delete_run; [exact T|].
  pose proof (taken_le max limit 0 (drop c (ael <$> ns))) as Hle.
  rewrite length_drop in Hle. rewrite length_fmap in Hle |- *. lia.
Qed.

Lemma SortedSet_RemoveRange_agree z hd ns min max :
  Agree z hd ns ->
  exists z' k hd' ns',
    SortedSet_RemoveRange z min max = Some (z', k) /\ Agree z' hd' ns'.
Proof.
  intros A.
  destruct (RemoveRange_agree z hd ns min max 0 A)
    as (c & sl' & hd' & Hrr & A' & _).
  cbv zeta in Hrr, A'. unfold SortedSet_RemoveRange. rewrite Hrr.
  cbn [mbind option_bind]. eexists _, _, hd', _. split; [reflexivity|].
  exact A'.
Qed.

Lemma PopMin_agree z hd ns count :
  Agree z hd ns ->
  exists z' r hd' ns', PopMin z count = Some (z', r) /\ Agree z' hd' ns'.
Proof.
  intros A. pose proof A as (W & T). unfold PopMin.
  rewrite (getFirstInRange_well _ hd ns _ _ W). cbn [mbind option_bind].
  cbv zeta.
  destruct (spans _ _ _ && bool_decide _).
  2:{ exists z, None, hd, ns. split; [reflexivity | exact A]. }
  destruct (ns !! below scoreNegativeInfBorder (ael <$> ns)) as [a|] eqn:Ha;
    cbn [fmap option_fmap option_map].
  2:{ exists z, None, hd, ns. split; [reflexivity | exact A]. }
  destruct (node_elem _ hd ns (S (below scoreNegativeInfBorder (ael <$> ns)))
              a W Ha) as (nd & Hnd & Hel).
  rewrite Hnd. cbn [mbind option_bind].
  destruct (RemoveRange_agree z hd ns
              (ScoreB (mkScoreBorder 0 (Score (elem nd)) false))
              (ScoreB scorePositiveInfBorder) count A)
    as (c & sl' & hd' & Hrr & A' & _).
  cbv zeta in Hrr, A'. rewrite Hrr. cbn [mbind option_bind].
  eexists _, _, hd', _. split; [reflexivity | exact A'].
Qed.

Lemma zstep_agree z hd ns o :
  Agree z hd ns -> zop_ok o ->
  exists z' hd' ns', zstep z o = Some z' /\ Agree z' hd' ns'.
Proof.
  intros A Hok. destruct o as [m s u|m|min max|count]; cbn [zstep].
  - destruct (Add_agree z hd ns m s u A Hok) as (z' & hd' & ns' & -> & A' & _).
    eauto.
  - destruct (Remove_agree z hd ns m A) as (z' & hd' & ns' & -> & A' & _).
    eauto.
  - destruct (SortedSet_RemoveRange_agree z hd ns min max A)
      as (z' & k & hd' & ns' & -> & A'). eauto.
  - destruct (PopMin_agree z hd ns count A) as (z' & r & hd' & ns' & -> & A').
    eauto.
Qed.

Lemma zrun_agree ops : forall z hd ns,
  Agree z hd ns -> Forall zop_ok ops ->
  exists z' hd' ns', zrun z ops = Some z' /\ Agree z' hd' ns'.
Proof.
  induction ops as [|o ops IH]; intros z hd ns A Hok; cbn [zrun].
  - eauto.
  - apply Forall_cons in Hok as (Ho & Hok).
    destruct (zstep_agree z hd ns o A Ho) as (z1 & hd1 & ns1 & -> & A1).
    cbn [mbind option_bind]. apply (IH z1 hd1 ns1 A1 Hok).
Qed.

Lemma built_agree z : built z -> exists hd ns, Agree z hd ns.
Proof.
  intros (ops & Hok & Hrun).
  destruct (zrun_agree ops Make hd0 [] Agree_Make Hok)
    as (z' & hd & ns & Hrun' & A).
  rewrite Hrun in Hrun'. injection Hrun' as <-. eauto.
Qed.

Lemma Agree_length z hd ns :
  Agree z hd ns ->
  Len z = Z.of_nat (length ns) /\
  sl_length (ss_skiplist z) = Z.of_nat (length ns).
Proof.
  intros (W & T). split.
  - unfold Len. rewrite (Tally_size _ _ T), length_fmap. reflexivity.
  - apply (rep_length _ _ _ (proj1 W)).
Qed.

(** A set built by [Add], [Remove], [RemoveRange] and [PopMin]. *)
Definition sample_zops : list zop :=
  [ZAdd "a" f64_two 0; ZAdd "b" f64_one 40000; ZAdd "c" f64_two 65534;
   ZAdd "d" f64_one 7; ZAdd "a" f64_one 3; ZRemove "d"].

Lemma sample_built z : zrun Make sample_zops = Some z -> built z.
Proof. intros H. exists sample_zops. split; [repeat constructor | exact H]. Qed.

(** No sequence of [Add] (of scores that are numbers), [Remove],
    [RemoveRange] and [PopMin] calls on a new set panics, and after it the
    skip list is sorted and holds exactly the members of the map, each
    once and with a score equal to the one that [Get] returns; [Len] is
    the number of elements of the list and its [length] field. *)
Theorem map_and_list_agree (ops : list zop) :
  Forall zop_ok ops ->
  exists z,
    zrun Make ops = Some z /\
    let els := contents (ss_skiplist z) in
    sorted els /\ NoDup (Member <$> els) /\
    dom (ss_dict z) = (list_to_set (Member <$> els) : gset string) /\
    (forall e, e ∈ els ->
       exists d, Get z (Member e) = Some d /\ Member d = Member e /\
                 SFeqb (Score e) (Score d) = true) /\
    Len z = Z.of_nat (length els) /\
    sl_length (ss_skiplist z) = Len z.
Proof.
  intros Hok.
  destruct (zrun_agree ops Make hd0 [] Agree_Make Hok)
    as (z & hd & ns & Hrun & A).
  exists z. split; [exact Hrun|]. cbv zeta.
  destruct (Agree_length z hd ns A) as (HL & Hl).
  destruct A as (W & Hnd & Hdom & Hel).
  rewrite (Well_contents _ _ _ W), length_fmap.
  split; [apply W|]. split; [exact Hnd|]. split; [exact Hdom|].
  split; [exact Hel|]. split; [exact HL | congruence].
Qed.

Lemma map_and_list_agree_witness :
  exists z, zrun Make sample_zops = Some z /\
            Len z = Z.of_nat (length (contents (ss_skiplist z))).
Proof.
  destruct (map_and_list_agree sample_zops ltac:(repeat constructor))
    as (z & Hrun & _ & _ & _ & _ & HL & _).
  exists z. split; [exact Hrun | exact HL].
Defined.

(** *** [GetRank] *)

Lemma upto_at (score : float64) (e : Element) :
  SFeqb (Score e) score = true -> upto score (Member e) e = true.
Proof.
  intros H. unfold upto. rewrite H, sleb_refl. apply orb_true_r.
Qed.

(** Behind the element of a member, no element is up to the member with an
    equal score. *)
Lemma upto_after (els : list Element) (p q : nat) (e b : Element)
    (score : float64) :
  sorted els -> NoDup (Member <$> els) ->
  els !! p = Some e -> SFeqb (Score e) score = true ->
  els !! q = Some b -> (p < q)%nat ->
  upto score (Member e) b = false.
Proof.
  intros Hs Hnd He Hsc Hb Hpq.
  destruct (upto score (Member e) b) eqn:Hu; [exfalso | reflexivity].
  set (x := mkElement (Member e) score).
  assert (Hbx : ele b x = true) by exact Hu.
  assert (Hxe : ele x e = true).
  { unfold ele, upto. cbn [Score Member x]. rewrite (feq_sym _ _ Hsc), sleb_refl.
    apply orb_true_r. }
  pose proof (ele_trans _ _ _ Hbx Hxe) as Hbe.
  pose proof (proj2 Hs p q e b Hpq He Hb) as Heb.
  destruct (ele_antisym _ _ Heb Hbe) as (_ & Hm).
  assert (p = q); [|lia].
  apply (NoDup_lookup (Member <$> els) p q (Member e) Hnd).
  - rewrite list_lookup_fmap, He. reflexivity.
  - rewrite list_lookup_fmap, Hb, Hm. reflexivity.
Qed.

Lemma getRank_agree z hd ns p a d :
  Agree z hd ns -> ns !! p = Some a ->
  ss_dict z !! Member (ael a) = Some d ->
  getRank (ss_skiplist z) (Member (ael a)) (Score d)
  = Some (Z.of_nat (S p)).
Proof.
  intros (W & T) Ha Hd. pose proof W as (R & _ & Hs).
  assert (Hea : (ael <$> ns) !! p = Some (ael a))
    by (rewrite list_lookup_fmap, Ha; reflexivity).
  assert (Hsc : SFeqb (Score (ael a)) (Score d) = true).
  { destruct T as (_ & _ & Hel).
    destruct (Hel (ael a)) as (d' & Hd' & _ & Hsc).
    - apply list_elem_of_lookup. eauto.
    - rewrite Hd in Hd'. injection Hd' as <-. exact Hsc. }
  destruct (getRank_rep _ hd ns (Member (ael a)) (Score d) R)
    as (c & ac & Hget & Hc & Hup & Hnext).
  rewrite Hget.
  assert (Hcp : c = S p).
  { destruct (decide (c <= p)%nat) as [Hle|Hgt].
    - exfalso. destruct (lookup_lt_is_Some_2 ns c) as [b Hb];
        [apply lookup_lt_Some in Ha; lia|].
      specialize (Hnext b Hb).
      assert (Hba : ele (ael b) (ael a) = true).
      { destruct (decide (c = p)) as [->|Hne].
        - rewrite Ha in Hb. injection Hb as <-.
          apply ele_refl. apply (proj1 (feq_nan _ _ Hsc)).
        - apply (proj2 Hs c p); [lia| |exact Hea].
          rewrite list_lookup_fmap, Hb. reflexivity. }
      rewrite (upto_down _ _ _ _ Hba (upto_at _ _ Hsc)) in Hnext.
      discriminate.
    - destruct (decide (c = S p)) as [->|Hne]; [reflexivity|exfalso].
      destruct c as [|c']; [lia|]. cbn [lookup list_lookup] in Hc.
      change (ns !! c' = Some ac) in Hc.
      destruct Hup as [Hup|Hup]; [discriminate|].
      rewrite (upto_after (ael <$> ns) p c' (ael a) (ael ac) (Score d) Hs
                 (proj1 T) Hea Hsc) in Hup; [discriminate| |lia].
      rewrite list_lookup_fmap, Hc. reflexivity. }
  subst c. change (ns !! p = Some ac) in Hc. rewrite Ha in Hc.
  injection Hc as <-. rewrite String.eqb_refl. reflexivity.
Qed.

(** [GetRank] of a member of the set is the position of its element in the
    list, counted from 0 and from the first element, or from the last one
    when [desc] is set; for a member that [Get] does not find it is -1. *)
Theorem GetRank_position (z : SortedSet) (desc : bool) :
  built z ->
  (forall m, Get z m = None -> GetRank z m desc = Some (-1)) /\
  (forall p e, contents (ss_skiplist z) !! p = Some e ->
     GetRank z (Member e) desc
     = Some (if desc then Len z - 1 - Z.of_nat p else Z.of_nat p)).
Proof.
  intros Hb. destruct (built_agree z Hb) as (hd & ns & A).
  split.
  - intros m Hm. unfold GetRank. unfold Get in Hm. rewrite Hm. reflexivity.
  - intros p e Hp. pose proof A as (W & T).
    rewrite (Well_contents _ _ _ W), list_lookup_fmap in Hp.
    destruct (ns !! p) as [a|] eqn:Ha; [|discriminate]. injection Hp as <-.
    destruct T as (_ & _ & Hel).
    destruct (Hel (ael a)) as (d & Hd & _ & _).
    { apply list_elem_of_lookup. exists p.
      rewrite list_lookup_fmap, Ha. reflexivity. }
    unfold GetRank. rewrite Hd, (getRank_agree z hd ns p a d A Ha Hd).
    cbn [mbind option_bind].
    destruct (Agree_length z hd ns A) as (HL & Hl). rewrite Hl, HL.
    destruct desc; f_equal; lia.
Qed.

Lemma GetRank_position_witness :
  match zrun Make sample_zops with
  | Some z => GetRank z "zz" false = Some (-1)
  | None => False
  end.
Proof.
  destruct (zrun Make sample_zops) as [z|] eqn:Hrun;
    [|vm_compute in Hrun; discriminate].
  apply (proj1 (GetRank_position z false (sample_built z Hrun))).
  vm_compute in Hrun. injection Hrun as <-. reflexivity.
Defined.

(** *** The traversals *)

(** The list in the direction of a traversal. *)
Definition toward {A} (desc : bool) (l : list A) : list A :=
  if desc then reverse l else l.

Lemma length_toward {A} desc (l : list A) : length (toward desc l) = length l.
Proof. destruct desc; [apply length_reverse | reflexivity]. Qed.

Lemma fmap_toward {A B} (f : A -> B) desc (l : list A) :
  f <$> toward desc l = toward desc (f <$> l).
Proof. destruct desc; [apply fmap_reverse | reflexivity]. Qed.

Lemma toward_elem {A} desc (l : list A) i a :
  toward desc l !! i = Some a -> exists q, l !! q = Some a.
Proof.
  destruct desc; cbn [toward]; [|eauto]. intros H.
  pose proof (lookup_lt_Some _ _ _ H) as Hlt. rewrite length_reverse in Hlt.
  rewrite reverse_lookup in H by exact Hlt. eauto.
Qed.

Lemma node_toward sl hd ns desc i a :
  Well sl hd ns -> toward desc ns !! i = Some a ->
  exists nd, sl_heap sl !! aptr a = Some nd /\ elem nd = ael a.
Proof.
  intros W (q & Hq)%toward_elem. apply (node_elem sl hd ns (S q) a W Hq).
Qed.

(** One step of a traversal leads to the next node in its direction. *)
Lemma advance_toward sl hd ns desc i a :
  Well sl hd ns -> toward desc ns !! i = Some a ->
  advance (sl_heap sl) desc (aptr a)
  = Some (aptr <$> toward desc ns !! S i).
Proof.
  intros W Ha. destruct desc; cbn [toward advance] in *.
  - pose proof (lookup_lt_Some _ _ _ Ha) as Hlt. rewrite length_reverse in Hlt.
    rewrite reverse_lookup in Ha by exact Hlt.
    destruct W as (_ & (Hbw & _) & _). specialize (Hbw _ _ Ha).
    unfold bw in Hbw. destruct (sl_heap sl !! aptr a) as [nd|]; [|discriminate].
    cbn [fmap option_fmap option_map] in Hbw. cbn [mbind option_bind].
    injection Hbw as ->. f_equal.
    destruct (decide (S i < length ns)%nat) as [Hs|Hs].
    + rewrite reverse_lookup by exact Hs.
      replace (length ns - S i)%nat with (S (length ns - S (S i))) by lia.
      reflexivity.
    + replace (length ns - S i)%nat with 0%nat by lia.
      rewrite (lookup_ge_None_2 (reverse ns)); [reflexivity|].
      rewrite length_reverse. lia.
  - rewrite (next_zero sl hd ns (S i) a W Ha). reflexivity.
Qed.

(** What a consumer makes of a list of elements, stopping at the first
    one for which it answers [false]. *)
Fixpoint feed {St} (consumer : Element -> St -> St * bool)
    (l : list Element) (s : St) : St :=
  match l with
  | [] => s
  | e :: t =>
      let '(s', continue) := consumer e s in
      if continue then feed consumer t s' else s'
  end.

Lemma ForEachByRank_loop_toward {St} sl hd ns desc
    (consumer : Element -> St -> St * bool) :
  Well sl hd ns ->
  forall n p s, (p + n <= length ns)%nat ->
    ForEachByRank_loop n (sl_heap sl) desc (aptr <$> toward desc ns !! p)
      consumer s
    = Some (feed consumer (take n (drop p (ael <$> toward desc ns))) s).
Proof.
  intros W. induction n as [|n IH]; intros p s Hlen;
    cbn [ForEachByRank_loop]; [rewrite take_0; reflexivity|].
  destruct (lookup_lt_is_Some_2 (toward desc ns) p) as [a Ha];
    [rewrite length_toward; lia|].
  rewrite Ha. cbn [fmap option_fmap option_map mbind option_bind].
  destruct (node_toward sl hd ns desc p a W Ha) as (nd & Hnd & Hel).
  rewrite Hnd. cbn [mbind option_bind].
  rewrite (drop_S (ael <$> toward desc ns) (ael a) p)
    by (rewrite list_lookup_fmap, Ha; reflexivity).
  cbn [take feed]. rewrite Hel.
  destruct (consumer (ael a) s) as [s' [|]]; cbn [negb]; [|reflexivity].
  rewrite (advance_toward sl hd ns desc p a W Ha). cbn [mbind option_bind].
  apply IH. lia.
Qed.

(** [ForEachByRank] panics unless [0 <= start < stop <= Len()]; otherwise it
    feeds its consumer the elements of ranks [start] to [stop - 1] in the
    direction asked for. *)
Lemma ForEachByRank_agree {St} z hd ns (start stop : Z) (desc : bool)
    (consumer : Element -> St -> St * bool) (s : St) :
  Agree z hd ns ->
  ForEachByRank z start stop desc consumer s
  = if (0 <=? start) && (start <? stop) && (stop <=? Len z)
    then Some (feed consumer
                 (take (Z.to_nat (stop - start))
                    (drop (Z.to_nat start)
                       (toward desc (contents (ss_skiplist z))))) s)
    else None.
Proof.
  intros A. pose proof A as (W & T).
  destruct (Agree_length z hd ns A) as (HL & Hl).
  unfold ForEachByRank. rewrite HL.
  destruct (Z.ltb_spec start 0) as [H0|H0]; cbn [orb].
  { destruct (Z.leb_spec 0 start); [lia | reflexivity]. }
  destruct (Z.leb_spec 0 start) as [_|]; [|lia]. cbn [andb].
  destruct (Z.geb_spec start (Z.of_nat (length ns))) as [H1|H1].
  { destruct (Z.ltb_spec start stop); [|reflexivity].
    destruct (Z.leb_spec stop (Z.of_nat (length ns))); [lia | reflexivity]. }
  destruct (Z.leb_spec stop start) as [H2|H2]; cbn [orb].
  { destruct (Z.ltb_spec start stop); [lia | reflexivity]. }
  destruct (Z.ltb_spec start stop) as [_|]; [|lia]. cbn [andb].
  destruct (Z.gtb_spec stop (Z.of_nat (length ns))) as [H3|H3].
  { destruct (Z.leb_spec stop (Z.of_nat (length ns))); [lia | reflexivity]. }
  destruct (Z.leb_spec stop (Z.of_nat (length ns))) as [_|]; [|lia].
  rewrite (Well_contents _ _ _ W), <- fmap_toward.
  assert (Hx : (if desc
                then if start >? 0
                     then getByRank (ss_skiplist z)
                            (Z.of_nat (length ns) - start)
                     else Some (sl_tail (ss_skiplist z))
                else l0 ← getLevel (sl_heap (ss_skiplist z))
                            (sl_header (ss_skiplist z)) 0;
                     if start >? 0 then getByRank (ss_skiplist z) (start + 1)
                     else Some (forward l0))
               = Some (aptr <$> toward desc ns !! Z.to_nat start)).
  { pose proof W as (R & (_ & Htail) & _). destruct desc; cbn [toward].
    - rewrite reverse_lookup by lia.
      destruct (Z.gtb_spec start 0) as [Hs|Hs].
      + rewrite (getByRank_rep _ hd ns _ R).
        destruct (Z.leb_spec 0 (Z.of_nat (length ns) - start)); [|lia].
        destruct (Z.leb_spec (Z.of_nat (length ns) - start)
                    (Z.of_nat (length ns))); [|lia].
        cbn [andb]. f_equal.
        replace (Z.to_nat (Z.of_nat (length ns) - start))
          with (S (length ns - S (Z.to_nat start))) by lia.
        reflexivity.
      + rewrite Htail, last_lookup. do 2 f_equal. f_equal. lia.
    - rewrite <- (rep_header _ _ _ R).
      rewrite (next_zero _ hd ns 0 hd W eq_refl). cbn [mbind option_bind].
      destruct (Z.gtb_spec start 0) as [Hs|Hs].
      + rewrite (getByRank_rep _ hd ns _ R).
        destruct (Z.leb_spec 0 (start + 1)); [|lia].
        destruct (Z.leb_spec (start + 1) (Z.of_nat (length ns))); [|lia].
        cbn [andb]. f_equal.
        replace (Z.to_nat (start + 1)) with (S (Z.to_nat start)) by lia.
        reflexivity.
      + cbn [forward]. replace (Z.to_nat start) with 0%nat by lia.
        reflexivity. }
  rewrite Hx. cbn [mbind option_bind].
  apply (ForEachByRank_loop_toward _ hd ns desc consumer W). lia.
Qed.

Lemma feed_collect (l : list Element) : forall acc,
  feed (fun element slice => (slice ++ [element], true)) l acc = acc ++ l.
Proof.
  induction l as [|e t IH]; intros acc; cbn [feed];
    [rewrite app_nil_r; reflexivity|].
  rewrite IH, <- app_assoc. reflexivity.
Qed.

(** [RangeByRank] returns the elements of ranks [start] to [stop - 1], from
    the first element on, or from the last one backwards when [desc] is
    set; it panics unless [0 <= start < stop <= Len()]. *)
Theorem RangeByRank_window (z : SortedSet) (start stop : Z) (desc : bool) :
  built z ->
  RangeByRank z start stop desc
  = if (0 <=? start) && (start <? stop) && (stop <=? Len z)
    then Some (take (Z.to_nat (stop - start))
                 (drop (Z.to_nat start)
                    (toward desc (contents (ss_skiplist z)))))
    else None.
Proof.
  intros Hb. destruct (built_agree z Hb) as (hd & ns & A).
  unfold RangeByRank.
  destruct (Z.ltb_spec (stop - start) 0) as [Hneg|Hpos].
  - destruct (Z.ltb_spec start stop); [lia|].
    rewrite andb_false_r. reflexivity.
  - rewrite (ForEachByRank_agree z hd ns start stop desc _ [] A).
    destruct (_ && _); [|reflexivity]. rewrite feed_collect. reflexivity.
Qed.

Lemma RangeByRank_window_witness :
  match zrun Make sample_zops with
  | Some z =>
      RangeByRank z 1 3 true
      = Some (take 2 (drop 1 (reverse (contents (ss_skiplist z)))))
  | None => False
  end.
Proof.
  destruct (zrun Make sample_zops) as [z|] eqn:Hrun;
    [|vm_compute in Hrun; discriminate].
  rewrite (RangeByRank_window z 1 3 true (sample_built z Hrun)).
  vm_compute in Hrun. injection Hrun as <-. reflexivity.
Defined.

(** *** [RangeCount] *)

Lemma feed_count (min max : ScoreBorder) (els : list Element) :
  sorted els ->
  forall i,
    feed (fun element i =>
            if negb (Border_less (ScoreB min) element) then (i, true)
            else if negb (Border_greater (ScoreB max) element) then (i, false)
            else (i + 1, true)) els i
    = i + Z.of_nat (length (List.filter (within min max) els)).
Proof.
  induction els as [|e t IH]; intros Hs i; cbn [feed List.filter length];
    [lia|].
  pose proof (sorted_tail e t Hs) as Hs'.
  cbn [Border_less Border_greater].
  replace (within min max e) with (less min e && greater max e)
    by reflexivity.
  destruct (less min e) eqn:Hl; cbn [negb andb];
    [|rewrite (IH Hs'); reflexivity].
  destruct (greater max e) eqn:Hg; cbn [negb].
  - rewrite (IH Hs'). cbn [length]. lia.
  - rewrite (filter_none (within min max) t); [cbn [length]; lia|].
    intros j b Hb. unfold within.
    destruct (greater max b) eqn:Hgb; [|apply andb_false_r].
    assert (Heb : ele e b = true)
      by (apply (proj2 Hs 0%nat (S j) e b ltac:(lia) eq_refl Hb)).
    rewrite (greater_down max e b Heb Hgb) in Hg. discriminate.
Qed.

(** On a set that is not empty, [RangeCount] with score borders is the
    number of elements whose score lies within the borders; on an empty
    set it panics, in the bounds check of [ForEachByRank]. *)
Theorem RangeCount_counts (z : SortedSet) (min max : ScoreBorder) :
  built z ->
  RangeCount z (ScoreB min) (ScoreB max)
  = if Len z =? 0 then None
    else Some (Z.of_nat (length (List.filter (within min max)
                                   (contents (ss_skiplist z))))).
Proof.
  intros Hb. destruct (built_agree z Hb) as (hd & ns & A).
  unfold RangeCount.
  rewrite (ForEachByRank_agree z hd ns 0 (Len z) false _ 0 A).
  destruct (Agree_length z hd ns A) as (HL & _).
  pose proof A as (W & _).
  assert (Hlen : length (contents (ss_skiplist z)) = length ns)
    by (rewrite (Well_contents _ _ _ W); apply length_fmap).
  destruct (Z.eqb_spec (Len z) 0) as [H0|H0].
  - rewrite H0. reflexivity.
  - destruct (Z.ltb_spec 0 (Len z)); [|lia]. rewrite !Z.leb_refl.
    cbn [andb toward]. change (Z.to_nat 0) with 0%nat.
    rewrite drop_0, take_ge by lia.
    rewrite feed_count; [reflexivity|].
    rewrite (Well_contents _ _ _ W). apply W.
Qed.

Lemma RangeCount_counts_witness :
  match zrun Make sample_zops with
  | Some z =>
      RangeCount z (ScoreB (mkScoreBorder 0 f64_one false))
        (ScoreB (mkScoreBorder 0 f64_one false)) = Some 2
  | None => False
  end.
Proof.
  destruct (zrun Make sample_zops) as [z|] eqn:Hrun;
    [|vm_compute in Hrun; discriminate].
  rewrite (RangeCount_counts z _ _ (sample_built z Hrun)).
  vm_compute in Hrun. injection Hrun as <-. reflexivity.
Defined.

(** *** [ForEach] and [Range] *)

(** The longest prefix of elements that pass a test. *)
Fixpoint while_in (P : Element -> bool) (l : list Element) : list Element :=
  match l with
  | [] => []
  | e :: t => if P e then e :: while_in P t else []
  end.

(** At most [n] elements when there is a limit [Some n]. *)
Definition cap {A} (left : option nat) (l : list A) : list A :=
  match left with
  | Some n => take n l
  | None => l
  end.

Lemma cap_nil {A} (left : option nat) : cap left (@nil A) = [].
Proof. destruct left as [n|]; [apply take_nil | reflexivity]. Qed.

Lemma skip_offset_toward sl hd ns desc :
  Well sl hd ns ->
  forall n i,
    skip_offset (sl_heap sl) desc n (aptr <$> toward desc ns !! i)
    = Some (aptr <$> toward desc ns !! (i + n)%nat).
Proof.
  intros W. induction n as [|n IH]; intros i; cbn [skip_offset].
  - rewrite Nat.add_0_r. destruct (_ <$> _); reflexivity.
  - destruct (toward desc ns !! i) as [a|] eqn:Ha;
      cbn [fmap option_fmap option_map].
    + rewrite (advance_toward sl hd ns desc i a W Ha). cbn [mbind option_bind].
      rewrite IH. replace (S i + n)%nat with (i + S n)%nat by lia. reflexivity.
    + rewrite (lookup_ge_None_2 (toward desc ns) (i + S n)); [reflexivity|].
      apply lookup_ge_None in Ha. lia.
Qed.

(** The second loop of [ForEach] visits the node it starts from, then the
    nodes behind it for as long as they are within the borders, up to its
    limit. *)
Lemma ForEach_loop_toward {St} sl hd ns desc (min max : Border)
    (consumer : Element -> St -> St * bool) :
  Well sl hd ns ->
  forall fuel left q a s,
    toward desc ns !! q = Some a -> (length ns - q <= fuel)%nat ->
    ForEach_loop fuel left (sl_heap sl) desc min max (aptr a) consumer s
    = Some (feed consumer
              (cap left
                 (ael a ::
                  while_in (fun e => Border_less min e && Border_greater max e)
                    (drop (S q) (ael <$> toward desc ns)))) s).
Proof.
  intros W. induction fuel as [|f IH]; intros left q a s Ha Hfuel.
  { apply lookup_lt_Some in Ha. rewrite length_toward in Ha. lia. }
  cbn [ForEach_loop].
  assert (Hbody :
    (nd ← sl_heap sl !! aptr a;
     let '(s0, continue) := consumer (elem nd) s in
     if negb continue then Some s0
     else x ← advance (sl_heap sl) desc (aptr a);
          match x with
          | Some y' =>
              nd' ← sl_heap sl !! y';
              if negb (Border_less min (elem nd'))
                 || negb (Border_greater max (elem nd'))
              then Some s0
              else ForEach_loop f (Nat.pred <$> left) (sl_heap sl) desc min max
                     y' consumer s0
          | None => Some s0
          end)
    = Some (let '(s0, continue) := consumer (ael a) s in
            if continue
            then feed consumer
                   (cap (Nat.pred <$> left)
                      (while_in
                         (fun e => Border_less min e && Border_greater max e)
                         (drop (S q) (ael <$> toward desc ns)))) s0
            else s0)).
  { destruct (node_toward sl hd ns desc q a W Ha) as (nd & Hnd & Hel).
    rewrite Hnd. cbn [mbind option_bind]. rewrite Hel.
    destruct (consumer (ael a) s) as [s0 [|]]; cbn [negb]; [|reflexivity].
    rewrite (advance_toward sl hd ns desc q a W Ha). cbn [mbind option_bind].
    destruct (toward desc ns !! S q) as [b|] eqn:Hb;
      cbn [fmap option_fmap option_map].
    - destruct (node_toward sl hd ns desc (S q) b W Hb) as (nd' & Hnd' & Hel').
      rewrite Hnd'. cbn [mbind option_bind]. rewrite Hel'.
      rewrite (drop_S (ael <$> toward desc ns) (ael b) (S q))
        by (rewrite list_lookup_fmap, Hb; reflexivity).
      cbn [while_in].
      destruct (Border_less min (ael b)); cbn [negb orb andb];
        [|rewrite cap_nil; reflexivity].
      destruct (Border_greater max (ael b)); cbn [negb];
        [|rewrite cap_nil; reflexivity].
      apply (IH _ (S q) b s0 Hb). lia.
    - rewrite drop_ge
        by (rewrite length_fmap; apply lookup_ge_None in Hb; lia).
      cbn [while_in]. rewrite cap_nil. reflexivity. }
  destruct left as [[|k]|].
  - reflexivity.
  - rewrite Hbody. cbn [cap take feed fmap option_fmap option_map Nat.pred].
    destruct (consumer (ael a) s) as [s0 [|]]; reflexivity.
  - rewrite Hbody. cbn [cap feed fmap option_fmap option_map].
    destruct (consumer (ael a) s) as [s0 [|]]; reflexivity.
Qed.

(** The first element within the borders in the direction of a traversal
    has as many elements in front of it. *)
Definition ahead (min max : ScoreBorder) (desc : bool) (els : list Element)
    : nat :=
  if desc then (length els - upto_max max els)%nat else below min els.

Lemma while_in_take (P : Element -> bool) (l : list Element) : forall m,
  (forall i e, l !! i = Some e -> P e = bool_decide (i < m)%nat) ->
  while_in P l = take m l.
Proof.
  induction l as [|x l IH]; intros m H; cbn [while_in];
    [rewrite take_nil; reflexivity|].
  rewrite (H 0%nat x eq_refl). destruct m as [|m].
  - rewrite bool_decide_eq_false_2 by lia. reflexivity.
  - rewrite bool_decide_eq_true_2 by lia. cbn [take]. f_equal.
    apply IH. intros i e He. rewrite (H (S i) e He).
    apply bool_decide_ext. lia.
Qed.

Lemma filter_window (P : Element -> bool) (l : list Element) (lo hi : nat) :
  (forall i e, l !! i = Some e ->
     P e = bool_decide (lo <= i /\ i < hi)%nat) ->
  List.filter P l = take (hi - lo) (drop lo l).
Proof.
  intros H. rewrite <- (take_drop lo l) at 1. rewrite List.filter_app.
  rewrite (filter_none P (take lo l)).
  - apply filter_prefix. intros i a Ha. rewrite lookup_drop in Ha.
    rewrite (H _ _ Ha). apply bool_decide_ext. lia.
  - intros i a Ha. pose proof (lookup_lt_Some _ _ _ Ha) as Hlt.
    rewrite length_take in Hlt.
    rewrite lookup_take, decide_True in Ha by lia.
    rewrite (H _ _ Ha). apply bool_decide_eq_false_2. lia.
Qed.

(** In either direction the elements within score borders are those at the
    positions from [ahead] on, as many as there are. *)
Lemma within_toward (min max : ScoreBorder) (desc : bool)
    (els : list Element) :
  sorted els ->
  forall i e, toward desc els !! i = Some e ->
    within min max e
    = bool_decide (ahead min max desc els <= i /\
                   i < ahead min max desc els
                       + (upto_max max els - below min els))%nat.
Proof.
  intros Hs i e He. pose proof (upto_max_le max els) as Hu.
  unfold within, ahead. destruct desc; cbn [toward] in He.
  - pose proof (lookup_lt_Some _ _ _ He) as Hlt. rewrite length_reverse in Hlt.
    rewrite reverse_lookup in He by exact Hlt.
    rewrite (less_suffix min els Hs _ e He), (greater_prefix max els Hs _ e He).
    destruct (decide (below min els <= length els - S i)%nat);
      destruct (decide (length els - S i < upto_max max els)%nat);
      repeat first [rewrite bool_decide_eq_true_2 by lia
                   |rewrite bool_decide_eq_false_2 by lia]; reflexivity.
  - rewrite (less_suffix min els Hs _ e He), (greater_prefix max els Hs _ e He).
    destruct (decide (below min els <= i)%nat);
      destruct (decide (i < upto_max max els)%nat);
      repeat first [rewrite bool_decide_eq_true_2 by lia
                   |rewrite bool_decide_eq_false_2 by lia]; reflexivity.
Qed.

Lemma within_window (min max : ScoreBorder) (desc : bool)
    (els : list Element) :
  sorted els ->
  List.filter (within min max) (toward desc els)
  = take (upto_max max els - below min els)
      (drop (ahead min max desc els) (toward desc els)).
Proof.
  intros Hs.
  rewrite (filter_window (within min max) (toward desc els)
             (ahead min max desc els)
             (ahead min max desc els + (upto_max max els - below min els)))
    by apply (within_toward min max desc els Hs).
  f_equal. lia.
Qed.

(** Where the traversal of [ForEach] starts. *)
Lemma first_toward sl hd ns (min max : ScoreBorder) (desc : bool) :
  Well sl hd ns ->
  let els := ael <$> ns in
  (if desc then getLastInRange sl (ScoreB min) (ScoreB max)
   else getFirstInRange sl (ScoreB min) (ScoreB max))
  = Some (if spans min max els
             && bool_decide (below min els < upto_max max els)%nat
          then aptr <$> toward desc ns !! ahead min max desc els
          else None).
Proof.
  intros W els. destruct desc; cbn [toward ahead].
  - rewrite (getLastInRange_well sl hd ns min max W). cbv zeta. fold els.
    destruct (spans min max els); cbn [andb]; [|reflexivity].
    destruct (decide (below min els < upto_max max els)%nat) as [H|H].
    + rewrite bool_decide_eq_true_2 by exact H.
      pose proof (upto_max_le max els) as Hu.
      assert (Hlen : length els = length ns) by apply length_fmap.
      rewrite reverse_lookup by lia. do 3 f_equal. lia.
    + rewrite bool_decide_eq_false_2 by exact H. reflexivity.
  - apply (getFirstInRange_well sl hd ns min max W).
Qed.

(** [ForEach] with score borders: what it feeds its consumer. *)
Definition visited (min max : ScoreBorder) (offset limit : Z) (desc : bool)
    (els : list Element) : list Element :=
  let seq := toward desc els in
  let inr := List.filter (within min max) seq in
  if isIntersected min max then []
  else
    match inr with
    | [] => []
    | _ :: _ =>
        cap (if limit <? 0 then None else Some (Z.to_nat limit))
          (if bool_decide (Z.to_nat offset < length inr)%nat
           then drop (Z.to_nat offset) inr
           else match seq !! (ahead min max desc els + Z.to_nat offset)%nat
                with
                | Some e => [e]
                | None => []
                end)
    end.

Lemma ForEach_agree {St} z hd ns (min max : ScoreBorder) (offset limit : Z)
    (desc : bool) (consumer : Element -> St -> St * bool) (s : St) :
  Agree z hd ns ->
  ForEach z (ScoreB min) (ScoreB max) offset limit desc consumer s
  = Some (feed consumer
            (visited min max offset limit desc (contents (ss_skiplist z))) s).
Proof.
  intros (W & _). pose proof W as (R & _ & Hs).
  unfold ForEach, visited. rewrite (Well_contents _ _ _ W).
  set (els := ael <$> ns) in *.
  rewrite (first_toward _ hd ns min max desc W). fold els.
  cbn [mbind option_bind].
  rewrite (within_window min max desc els Hs).
  set (f := below min els). set (u := upto_max max els).
  set (lo := ahead min max desc els). set (n := Z.to_nat offset).
  assert (Hlen : length els = length ns) by apply length_fmap.
  assert (Hseq : length (toward desc els) = length ns)
    by (rewrite length_toward; exact Hlen).
  pose proof (upto_max_le max els) as Hu. fold u in Hu.
  pose proof (below_le min els) as Hf. fold f in Hf.
  assert (Hlo : (lo + (u - f) <= length ns)%nat).
  { unfold lo, ahead. fold f u. destruct desc; lia. }
  assert (Hnone : forall k,
            skip_offset (sl_heap (ss_skiplist z)) desc k None = Some None)
    by (intros [|k]; reflexivity).
  destruct (isIntersected min max) eqn:Hi.
  { unfold spans. rewrite Hi. cbn [negb andb mbind option_bind].
    rewrite Hnone. reflexivity. }
  destruct (decide (f < u)%nat) as [Hfu|Hfu].
  2:{ rewrite bool_decide_eq_false_2 by exact Hfu. rewrite andb_false_r.
      rewrite Hnone. cbn [mbind option_bind].
      replace (u - f)%nat with 0%nat by lia. rewrite take_0. reflexivity. }
  rewrite bool_decide_eq_true_2 by exact Hfu. rewrite andb_true_r.
  destruct (spans min max els) eqn:Hsp.
  2:{ exfalso. pose proof (spans_false_empty min max els Hs Hi Hsp) as He.
      rewrite (within_run min max els Hs) in He. fold f u in He.
      apply (f_equal length) in He.
      rewrite length_take, length_drop in He. cbn [length] in He. lia. }
  rewrite (skip_offset_toward _ hd ns desc W). cbn [mbind option_bind].
  assert (Hinr : length (take (u - f) (drop lo (toward desc els)))
                 = (u - f)%nat)
    by (rewrite length_take, length_drop; lia).
  assert (Hne : forall X : list Element,
            match take (u - f) (drop lo (toward desc els)) with
            | [] => []
            | _ :: _ => X
            end = X).
  { intros X. destruct (take (u - f) (drop lo (toward desc els)));
      [cbn [length] in Hinr; lia | reflexivity]. }
  rewrite Hne, Hinr.
  destruct (toward desc ns !! (lo + n)%nat) as [a|] eqn:Ha;
    cbn [fmap option_fmap option_map].
  2:{ apply lookup_ge_None in Ha. rewrite length_toward in Ha.
      rewrite bool_decide_eq_false_2 by lia.
      rewrite (lookup_ge_None_2 (toward desc els)) by lia.
      rewrite cap_nil. reflexivity. }
  pose proof (lookup_lt_Some _ _ _ Ha) as Hq. rewrite length_toward in Hq.
  pose proof (links_fuel _ _ (rep_links _ _ _ R) (rep_nodup _ _ _ R)) as Hfuel.
  cbn [length] in Hfuel.
  rewrite (ForEach_loop_toward _ hd ns desc (ScoreB min) (ScoreB max)
             consumer W _ _ (lo + n)%nat a s Ha) by lia.
  do 3 f_equal. rewrite fmap_toward. fold els.
  assert (Hea : toward desc els !! (lo + n)%nat = Some (ael a)).
  { unfold els. rewrite <- fmap_toward, list_lookup_fmap, Ha. reflexivity. }
  rewrite (while_in_take _ _ (lo + (u - f) - S (lo + n))).
  2:{ intros i e He. rewrite lookup_drop in He.
      change (Border_less (ScoreB min) e && Border_greater (ScoreB max) e)
        with (within min max e).
      rewrite (within_toward min max desc els Hs _ e He). fold f u lo.
      apply bool_decide_ext. lia. }
  destruct (decide (n < u - f)%nat) as [Hn|Hn].
  - rewrite bool_decide_eq_true_2 by exact Hn.
    rewrite skipn_firstn_comm, drop_drop.
    rewrite (drop_S _ _ _ Hea).
    replace (u - f - n)%nat with (S (lo + (u - f) - S (lo + n))) by lia.
    reflexivity.
  - rewrite bool_decide_eq_false_2 by exact Hn. rewrite Hea.
    replace (lo + (u - f) - S (lo + n))%nat with 0%nat by lia.
    rewrite take_0. reflexivity.
Qed.

(** [Range] with score borders that [isIntersected] does not take for
    crossed returns the elements within the borders in the direction asked
    for, without the first [offset] of them and at most [limit] of them
    when [limit] is positive.  When [offset] is not below their number, it
    returns the one element that lies [offset] places behind the first of
    them, if there is one, although it is outside the borders. *)
Theorem Range_window (z : SortedSet) (min max : ScoreBorder)
    (offset limit : Z) (desc : bool) :
  built z ->
  Range z (ScoreB min) (ScoreB max) offset limit desc
  = Some (if (limit =? 0) || (offset <? 0) then []
          else visited min max offset limit desc (contents (ss_skiplist z))).
Proof.
  intros Hb. destruct (built_agree z Hb) as (hd & ns & A).
  unfold Range. destruct ((limit =? 0) || (offset <? 0)); [reflexivity|].
  rewrite (ForEach_agree z hd ns min max offset limit desc _ [] A).
  rewrite feed_collect. reflexivity.
Qed.

Lemma Range_window_witness :
  match zrun Make sample_zops with
  | Some z =>
      Range z (ScoreB (mkScoreBorder 0 f64_one false))
        (ScoreB (mkScoreBorder 0 f64_one false)) 2 (-1) false
      = Some [mkElement "c" f64_two]
  | None => False
  end.
Proof.
  destruct (zrun Make sample_zops) as [z|] eqn:Hrun;
    [|vm_compute in Hrun; discriminate].
  rewrite (Range_window z _ _ 2 (-1) false (sample_built z Hrun)).
  vm_compute in Hrun. injection Hrun as <-. reflexivity.
Defined.

(** *** [RemoveRange] and [PopMin] *)

Lemma lookup_delete_members (removed : list Element) : forall dict m,
  delete_members dict removed !! m
  = if bool_decide (m ∈ Member <$> removed) then None else dict !! m.
Proof.
  induction removed as [|e t IH]; intros dict m.
  - rewrite bool_decide_eq_false_2 by (intros H; inversion H). reflexivity.
  - unfold delete_members. cbn [foldl].
    fold (delete_members (delete (Member e) dict) t). rewrite IH.
    rewrite fmap_cons.
    destruct (decide (m ∈ Member <$> t)) as [Hin|Hin].
    + rewrite !bool_decide_eq_true_2; [reflexivity| |exact Hin].
      right. exact Hin.
    + rewrite (bool_decide_eq_false_2 _ Hin).
      destruct (decide (m = Member e)) as [->|Hne].
      * rewrite bool_decide_eq_true_2 by left. apply lookup_delete_eq.
      * rewrite bool_decide_eq_false_2.
        -- apply lookup_delete_ne. congruence.
        -- intros [?|?]%elem_of_cons; contradiction.
Qed.

(** [RemoveRange] with score borders on the list and the deletions of its
    callers on the map. *)
Lemma RemoveRange_score z hd ns (min max : ScoreBorder) (limit : Z) :
  Agree z hd ns ->
  let els := contents (ss_skiplist z) in
  let inr := List.filter (within min max) els in
  let removed := if limit >? 0 then take (Z.to_nat limit) inr else inr in
  exists sl' hd' ns',
    RemoveRange (ss_skiplist z) (ScoreB min) (ScoreB max) limit
      = Some (sl', removed) /\
    Agree (mkSortedSet (delete_members (ss_dict z) removed) sl') hd' ns' /\
    contents sl'
    = take (below min els) els ++ drop (below min els + length removed) els.
Proof.
  intros A els inr removed. pose proof A as (W & T).
  assert (Hels : els = ael <$> ns) by apply (Well_contents _ _ _ W).
  assert (Hs : sorted els) by (rewrite Hels; apply W).
  destruct (RemoveRange_agree z hd ns (ScoreB min) (ScoreB max) limit A)
    as (c & sl' & hd' & Hrr & A' & Hc & Hprev & Hat).
  assert (Hpos : below min els = c).
  { apply (below_position min els c Hs).
    - rewrite Hels, length_fmap. exact Hc.
    - intros a Hc0 Ha. rewrite Hels, list_lookup_fmap in Ha.
      destruct (ns !! (c - 1)%nat) as [n|] eqn:Hn; [|discriminate].
      injection Ha as <-. apply (Hprev n Hc0 eq_refl).
    - intros b Hb. rewrite Hels, list_lookup_fmap in Hb.
      destruct (ns !! c) as [n|] eqn:Hn; [|discriminate].
      injection Hb as <-. apply (Hat n eq_refl). }
  set (n := taken (ScoreB max) limit 0 (ael <$> drop c ns)) in *.
  cbv zeta in Hrr, A'. fold n in Hrr, A'.
  assert (Hn : n = if limit >? 0
                   then Nat.min (Z.to_nat limit)
                          (upto_max max els - below min els)
                   else (upto_max max els - below min els)%nat).
  { unfold n. rewrite fmap_drop, <- Hels, <- Hpos.
    rewrite (taken_score max limit _ (sorted_drop _ _ Hs) 0) by lia.
    rewrite (upto_max_drop min max els Hs), Z.sub_0_r. reflexivity. }
  assert (Hrem : ael <$> take n (drop c ns) = removed).
  { rewrite fmap_take, fmap_drop, <- Hels, <- Hpos. unfold removed, inr.
    rewrite (within_run min max els Hs), Hn.
    destruct (limit >? 0); [rewrite take_take|]; reflexivity. }
  assert (Hlen : length removed = n).
  { rewrite <- Hrem, length_fmap, length_take, length_drop.
    pose proof (upto_max_le max els) as Hu.
    assert (length els = length ns) by (rewrite Hels; apply length_fmap).
    destruct (limit >? 0); lia. }
  rewrite Hrem in Hrr, A'.
  exists sl', hd', (take c ns ++ drop (c + n) ns).
  split; [exact Hrr|]. split; [exact A'|].
  pose proof (Well_contents _ _ _ (proj1 A')) as Hc'.
  cbn [ss_skiplist] in Hc'. rewrite Hc'.
  rewrite fmap_app, fmap_take, fmap_drop, <- Hels, Hpos, Hlen. reflexivity.
Qed.

Lemma filter_outside (min max : ScoreBorder) (els : list Element) :
  sorted els ->
  List.filter (fun e => negb (within min max e)) els
  = take (below min els) els
    ++ drop (below min els
             + length (List.filter (within min max) els)) els.
Proof.
  intros Hs. set (f := below min els). set (u := upto_max max els).
  pose proof (within_toward min max false els Hs) as Hw.
  cbn [toward ahead] in Hw. fold f u in Hw.
  rewrite (within_run min max els Hs). fold f u.
  pose proof (upto_max_le max els) as Hu. fold u in Hu.
  pose proof (below_le min els) as Hf. fold f in Hf.
  rewrite length_take, length_drop.
  replace (f + Nat.min (u - f) (length els - f))%nat with (f + (u - f))%nat
    by lia.
  rewrite <- (take_drop f els) at 1. rewrite List.filter_app.
  rewrite (filter_all _ (take f els)).
  2:{ intros i a Ha. pose proof (lookup_lt_Some _ _ _ Ha) as Hlt.
      rewrite length_take in Hlt.
      rewrite lookup_take, decide_True in Ha by lia.
      rewrite (Hw _ _ Ha), bool_decide_eq_false_2 by lia. reflexivity. }
  f_equal.
  rewrite <- (take_drop (u - f) (drop f els)) at 1. rewrite List.filter_app.
  rewrite (filter_none _ (take (u - f) (drop f els))).
  2:{ intros i a Ha. pose proof (lookup_lt_Some _ _ _ Ha) as Hlt.
      rewrite length_take in Hlt.
      rewrite lookup_take, decide_True in Ha by lia.
      rewrite lookup_drop in Ha.
      rewrite (Hw _ _ Ha), bool_decide_eq_true_2 by lia. reflexivity. }
  rewrite drop_drop. cbn [app]. apply filter_all.
  intros i a Ha. rewrite lookup_drop in Ha.
  rewrite (Hw _ _ Ha), bool_decide_eq_false_2 by lia. reflexivity.
Qed.

(** [RemoveRange] with score borders removes the elements whose score lies
    within the borders from the list and their members from the map, and
    returns their number; the other elements stay, in their order, and
    [Get] finds their members as before. *)
Theorem SortedSet_RemoveRange_clears (z : SortedSet)
    (min max : ScoreBorder) :
  built z ->
  let els := contents (ss_skiplist z) in
  let inr := List.filter (within min max) els in
  exists z',
    SortedSet_RemoveRange z (ScoreB min) (ScoreB max)
      = Some (z', Z.of_nat (length inr)) /\
    contents (ss_skiplist z')
      = List.filter (fun e => negb (within min max e)) els /\
    (forall m, Get z' m
               = if bool_decide (m ∈ Member <$> inr) then None
                 else Get z m) /\
    Len z' = Len z - Z.of_nat (length inr).
Proof.
  intros Hb els inr. destruct (built_agree z Hb) as (hd & ns & A).
  destruct (RemoveRange_score z hd ns min max 0 A)
    as (sl' & hd' & ns' & Hrr & A' & Hcont).
  cbv zeta in Hrr, A', Hcont. change (0 >? 0) with false in Hrr, A', Hcont.
  cbv iota in Hrr, A', Hcont. fold els in Hrr, A', Hcont.
  fold inr in Hrr, A', Hcont.
  assert (Hs : sorted els).
  { unfold els. rewrite (Well_contents _ _ _ (proj1 A)). apply A. }
  unfold SortedSet_RemoveRange. rewrite Hrr. cbn [mbind option_bind].
  eexists. split; [reflexivity|]. cbn [ss_skiplist].
  split; [rewrite Hcont; symmetry; apply (filter_outside min max els Hs)|].
  split; [intros m; apply lookup_delete_members|].
  destruct (Agree_length z hd ns A) as (HL & _).
  destruct (Agree_length _ hd' ns' A') as (HL' & _). rewrite HL, HL'.
  pose proof (f_equal length Hcont) as Hlen.
  pose proof (Well_contents _ _ _ (proj1 A')) as Hc'.
  cbn [ss_skiplist] in Hc'. rewrite Hc' in Hlen.
  rewrite length_fmap, length_app, length_take, length_drop in Hlen.
  assert (Hels : length els = length ns).
  { unfold els. rewrite (Well_contents _ _ _ (proj1 A)). apply length_fmap. }
  assert (Hin : (below min els + length inr <= length els)%nat).
  { unfold inr. rewrite (within_run min max els Hs).
    rewrite length_take, length_drop.
    pose proof (below_le min els). lia. }
  lia.
Qed.

Lemma SortedSet_RemoveRange_clears_witness :
  match zrun Make sample_zops with
  | Some z =>
      exists z',
        SortedSet_RemoveRange z (ScoreB (mkScoreBorder 0 f64_one false))
          (ScoreB (mkScoreBorder 0 f64_one false))
        = Some (z', 2)
  | None => False
  end.
Proof.
  destruct (zrun Make sample_zops) as [z|] eqn:Hrun;
    [|vm_compute in Hrun; discriminate].
  destruct (SortedSet_RemoveRange_clears z (mkScoreBorder 0 f64_one false)
              (mkScoreBorder 0 f64_one false) (sample_built z Hrun))
    as (z' & H1 & _).
  exists z'. rewrite H1. vm_compute in Hrun. injection Hrun as <-.
  reflexivity.
Defined.

Lemma ele_score (a b : Element) :
  ele a b = true -> SFleb (Score a) (Score b) = true.
Proof.
  unfold ele, upto. rewrite SFleb_split.
  intros [H|[H _]%andb_true_iff]%orb_true_iff; rewrite H;
    [reflexivity | apply orb_true_r].
Qed.

(** Every element of a sorted list is within the borders that [PopMin]
    makes of the score of the first one. *)
Lemma within_from_first (e0 : Element) (t : list Element) :
  sorted (e0 :: t) ->
  forall i e, (e0 :: t) !! i = Some e ->
    within (mkScoreBorder 0 (Score e0) false) scorePositiveInfBorder e = true.
Proof.
  intros Hs i e He. unfold within, less, greater. cbn.
  rewrite andb_true_r. apply ele_score.
  destruct i as [|i].
  - injection He as <-. apply ele_refl. apply (proj1 Hs 0%nat e0 eq_refl).
  - apply (proj2 Hs 0%nat (S i) e0 e ltac:(lia) eq_refl He).
Qed.

(** [PopMin] on a set that is not empty removes and returns the [count]
    lowest elements, and all the elements when [count] is not positive;
    on an empty set it returns [nil]. *)
Theorem PopMin_takes_lowest (z : SortedSet) (count : Z) :
  built z ->
  let els := contents (ss_skiplist z) in
  let popped := if count >? 0 then take (Z.to_nat count) els else els in
  exists z',
    PopMin z count
      = Some (z', match els with [] => None | _ :: _ => Some popped end) /\
    contents (ss_skiplist z') = drop (length popped) els /\
    (forall m, Get z' m
               = if bool_decide (m ∈ Member <$> popped) then None
                 else Get z m) /\
    Len z' = Len z - Z.of_nat (length popped).
Proof.
  intros Hb els popped. destruct (built_agree z Hb) as (hd & ns & A).
  pose proof A as (W & T).
  assert (Hels : els = ael <$> ns) by apply (Well_contents _ _ _ W).
  assert (Hs : sorted els) by (rewrite Hels; apply W).
  assert (Hl : length els = length ns) by (rewrite Hels; apply length_fmap).
  destruct (Agree_length z hd ns A) as (HL & _).
  unfold PopMin. rewrite (getFirstInRange_well _ hd ns _ _ W). cbv zeta.
  rewrite <- Hels. cbn [mbind option_bind].
  assert (Hbelow : below scoreNegativeInfBorder els = 0%nat).
  { unfold below. rewrite filter_none; reflexivity. }
  assert (Hupto : upto_max scorePositiveInfBorder els = length els).
  { unfold upto_max. rewrite filter_all; reflexivity. }
  rewrite Hbelow, Hupto. clearbody els.
  destruct ns as [|a0 rest] eqn:Hns.
  { subst els. cbn [fmap list_fmap] in *.
    replace (spans scoreNegativeInfBorder scorePositiveInfBorder [])
      with false by reflexivity.
    cbn [andb]. exists z. split; [reflexivity|].
    assert (Hp : popped = []).
    { unfold popped. destruct (count >? 0); [apply take_nil | reflexivity]. }
    rewrite Hp. cbn [length drop fmap list_fmap].
    split; [apply (Well_contents _ _ _ W)|].
    split; [|lia].
    intros m. rewrite bool_decide_eq_false_2; [reflexivity|].
    intros H. inversion H. }
  rewrite <- Hns in *.
  assert (Hhead : els = ael a0 :: (ael <$> rest))
    by (rewrite Hels, Hns; reflexivity).
  assert (Hsp : spans scoreNegativeInfBorder scorePositiveInfBorder els
                && bool_decide (0 < length els)%nat = true).
  { rewrite Hhead. unfold spans. rewrite last_cons. cbn [head length].
    rewrite bool_decide_eq_true_2 by lia.
    destruct (last (ael <$> rest)); reflexivity. }
  rewrite Hsp.
  assert (H0 : ns !! 0%nat = Some a0) by (rewrite Hns; reflexivity).
  rewrite H0. cbn [fmap option_fmap option_map mbind option_bind].
  destruct (node_elem _ hd ns 1 a0 W H0) as (nd & Hnd & Hel).
  rewrite Hnd. cbn [mbind option_bind]. rewrite Hel.
  destruct (RemoveRange_score z hd ns (mkScoreBorder 0 (Score (ael a0)) false)
              scorePositiveInfBorder count A)
    as (sl' & hd' & ns' & Hrr & A' & Hcont).
  cbv zeta in Hrr, A', Hcont.
  rewrite (Well_contents _ _ _ W), <- Hels in Hrr, A', Hcont.
  assert (Hall : List.filter
                   (within (mkScoreBorder 0 (Score (ael a0)) false)
                      scorePositiveInfBorder) els = els).
  { apply filter_all. rewrite Hhead. apply within_from_first.
    rewrite <- Hhead. exact Hs. }
  assert (Hzero : below (mkScoreBorder 0 (Score (ael a0)) false) els = 0%nat).
  { unfold below. rewrite filter_none; [reflexivity|].
    intros i e He. rewrite Hhead in He, Hs.
    pose proof (within_from_first _ _ Hs i e He) as Hw.
    unfold within in Hw. apply andb_true_iff in Hw as [-> _]. reflexivity. }
  rewrite Hall, Hzero in Hcont. rewrite Hall in Hrr, A'.
  fold popped in Hrr, A', Hcont. rewrite Hrr. cbn [mbind option_bind].
  eexists. split; [rewrite Hhead at 1; reflexivity|].
  cbn [ss_skiplist]. split; [rewrite Hcont; reflexivity|].
  split; [intros m; apply lookup_delete_members|].
  destruct (Agree_length _ hd' ns' A') as (HL' & _). rewrite HL, HL'.
  pose proof (f_equal length Hcont) as Hlen.
  pose proof (Well_contents _ _ _ (proj1 A')) as Hc'.
  cbn [ss_skiplist] in Hc'. rewrite Hc' in Hlen.
  rewrite length_fmap, take_0, app_nil_l, length_drop in Hlen.
  assert (Hp : (length popped <= length els)%nat).
  { unfold popped. destruct (count >? 0); [rewrite length_take|]; lia. }
  cbn [Nat.add] in Hlen. lia.
Qed.

Lemma PopMin_takes_lowest_witness :
  match zrun Make sample_zops with
  | Some z =>
      exists z', PopMin z 0
                 = Some (z', Some [mkElement "a" f64_one;
                                   mkElement "b" f64_one;
                                   mkElement "c" f64_two])
  | None => False
  end.
Proof.
  destruct (zrun Make sample_zops) as [z|] eqn:Hrun;
    [|vm_compute in Hrun; discriminate].
  destruct (PopMin_takes_lowest z 0 (sample_built z Hrun)) as (z' & H1 & _).
  exists z'. rewrite H1. vm_compute in Hrun. injection Hrun as <-.
  reflexivity.
Defined.

End ZSetProps.

(** * The linked list: its nodes and the values it holds *)

Module ListProps.
Import LinkedList.
Import SkiplistSpec (ins_at, del_at, lookup_ins_at, lookup_del_at,
  length_ins_at, length_del_at, fmap_ins_at, fmap_del_at).

Section Shape.
Context {V : Type}.

(** The nodes of a list are given by their addresses and values, in the
    order of the list; [addr cs i] is the address of the node at [i]. *)
Definition addr (cs : list (nat * V)) (i : nat) : option nat :=
  fst <$> cs !! i.

Definition prev_at (cs : list (nat * V)) (i : nat) : option nat :=
  match i with
  | O => None
  | S j => addr cs j
  end.

Definition next_at (cs : list (nat * V)) (i : nat) : option nat :=
  addr cs (S i).

(** The list [l] is made of the nodes [cs], in this order, linked in both
    directions. *)
Record DL (l : LinkedList V) (cs : list (nat * V)) : Prop := mkDL {
  dl_nodup : NoDup (fst <$> cs);
  dl_cells : forall (i p : nat) (v : V), cs !! i = Some (p, v) ->
      heap l !! p = Some (mkNode v (prev_at cs i) (next_at cs i));
  dl_first : first l = addr cs 0;
  dl_last : last l = addr cs (length cs - 1);
  dl_size : size l = Z.of_nat (length cs)
}.

Lemma addr_Some cs i p v : cs !! i = Some (p, v) -> addr cs i = Some p.
Proof. intros H. unfold addr. rewrite H. reflexivity. Qed.

Lemma addr_None cs i : (length cs <= i)%nat -> addr cs i = None.
Proof. intros H. unfold addr. rewrite lookup_ge_None_2 by lia. reflexivity. Qed.

Lemma addr_app_l cs ds i :
  (i < length cs)%nat -> addr (cs ++ ds) i = addr cs i.
Proof. intros H. unfold addr. rewrite lookup_app_l by lia. reflexivity. Qed.

Lemma addr_app_r cs ds i :
  (length cs <= i)%nat -> addr (cs ++ ds) i = addr ds (i - length cs).
Proof. intros H. unfold addr. rewrite lookup_app_r by lia. reflexivity. Qed.

Lemma DL_empty : DL empty [].
Proof.
  split; cbn; try reflexivity; [constructor|]. intros i p v H. discriminate.
Qed.

Lemma cell_inj (cs : list (nat * V)) i j p v w :
  NoDup (fst <$> cs) -> cs !! i = Some (p, v) -> cs !! j = Some (p, w) ->
  i = j.
Proof.
  intros Hnd Hi Hj. apply (NoDup_lookup (fst <$> cs) i j p Hnd);
    rewrite list_lookup_fmap; [rewrite Hi | rewrite Hj]; reflexivity.
Qed.

Lemma cell_valid l cs i p v :
  DL l cs -> cs !! i = Some (p, v) -> (p < length (heap l))%nat.
Proof.
  intros D Hi. eapply lookup_lt_Some. apply (dl_cells l cs D i p v Hi).
Qed.

Lemma cells_le l cs : DL l cs -> (length cs <= length (heap l))%nat.
Proof.
  intros D.
  assert (Hsub : (fst <$> cs) ⊆+ seq 0 (length (heap l))).
  { apply NoDup_submseteq; [apply (dl_nodup l cs D)|].
    intros y (c & -> & Hc)%list_elem_of_fmap.
    apply list_elem_of_lookup in Hc as [i Hi]. destruct c as [p v].
    apply elem_of_seq. pose proof (cell_valid l cs i p v D Hi). cbn. lia. }
  apply submseteq_length in Hsub. rewrite length_fmap, length_seq in Hsub.
  exact Hsub.
Qed.

Lemma fresh_cell l cs :
  DL l cs -> length (heap l) ∉ fst <$> cs.
Proof.
  intros D (c & Hc & Hin)%list_elem_of_fmap.
  apply list_elem_of_lookup in Hin as [i Hi]. destruct c as [p v].
  pose proof (cell_valid l cs i p v D Hi). cbn in Hc. lia.
Qed.

(** *** Walking over the nodes *)

Lemma deref_cell l cs i p v :
  DL l cs -> cs !! i = Some (p, v) ->
  deref (heap l) (addr cs i)
  = Some (mkNode v (prev_at cs i) (next_at cs i)).
Proof.
  intros D Hi. rewrite (addr_Some cs i p v Hi). unfold deref, ptr.
  cbn [mbind option_bind]. apply (dl_cells l cs D i p v Hi).
Qed.

Lemma forward_DL l cs :
  DL l cs ->
  forall k i, (i + k <= length cs)%nat ->
    forward (heap l) k (addr cs i) = Some (addr cs (i + k)).
Proof.
  intros D. induction k as [|k IH]; intros i Hik; cbn [forward].
  - rewrite Nat.add_0_r. reflexivity.
  - destruct (lookup_lt_is_Some_2 cs i) as [[p v] Hi]; [lia|].
    rewrite (deref_cell l cs i p v D Hi).
    cbn [mbind option_bind next]. unfold next_at. rewrite IH by lia.
    replace (S i + k)%nat with (i + S k)%nat by lia. reflexivity.
Qed.

Lemma back_DL l cs :
  DL l cs ->
  forall k i, (k <= i)%nat -> (i < length cs)%nat ->
    back (heap l) k (addr cs i) = Some (addr cs (i - k)).
Proof.
  intros D. induction k as [|k IH]; intros i Hk Hi; cbn [back].
  - rewrite Nat.sub_0_r. reflexivity.
  - destruct (lookup_lt_is_Some_2 cs i) as [[p v] Hp]; [lia|].
    rewrite (deref_cell l cs i p v D Hp).
    cbn [mbind option_bind prev].
    destruct i as [|i]; [lia|]. cbn [prev_at].
    rewrite IH by lia. replace (S i - S k)%nat with (i - k)%nat by lia.
    reflexivity.
Qed.

(** [find] returns the node of an index of the list. *)
Lemma find_DL l cs (index : Z) :
  DL l cs -> 0 <= index < size l ->
  find l index = Some (addr cs (Z.to_nat index)).
Proof.
  intros D Hi. pose proof (dl_size l cs D) as Hsz. unfold find.
  destruct (index <? Z.quot (size l) 2).
  - rewrite (dl_first l cs D), (forward_DL l cs D) by lia. reflexivity.
  - rewrite (dl_last l cs D), (back_DL l cs D) by lia.
    do 2 f_equal. lia.
Qed.

(** With the index [size] it returns the last node. *)
Lemma find_end (l : LinkedList V) :
  0 <= size l -> find l (size l) = Some (last l).
Proof.
  intros Hs. unfold find.
  destruct (Z.ltb_spec (size l) (Z.quot (size l) 2)) as [H|H].
  - pose proof (Z.quot_le_upper_bound (size l) 2 (size l) ltac:(lia)
                  ltac:(lia)). lia.
  - replace (size l - 1 - size l) with (-1) by lia. reflexivity.
Qed.

(** The values in the order of the nodes. *)
Lemma values_from_DL l cs :
  DL l cs ->
  forall fuel i, (length cs - i <= fuel)%nat ->
    values_from fuel (heap l) (addr cs i) = snd <$> drop i cs.
Proof.
  intros D. induction fuel as [|f IH]; intros i Hf.
  - rewrite drop_ge by lia. reflexivity.
  - destruct (cs !! i) as [[p v]|] eqn:Hi.
    + rewrite (addr_Some cs i p v Hi). cbn [values_from]. unfold ptr.
      rewrite (dl_cells l cs D i p v Hi). cbn [val next].
      rewrite (drop_S cs (p, v) i Hi), fmap_cons. cbn [snd]. f_equal.
      unfold next_at. apply IH. lia.
    + apply lookup_ge_None in Hi. rewrite (addr_None cs i Hi).
      rewrite drop_ge by lia. reflexivity.
Qed.

Lemma values_DL l cs : DL l cs -> values l = snd <$> cs.
Proof.
  intros D. unfold values. rewrite (dl_first l cs D).
  rewrite (values_from_DL l cs D) by (pose proof (cells_le l cs D); lia).
  reflexivity.
Qed.

(** *** Writing to a node *)

Lemma set_next_at (h : list (node V)) (n : option nat) (x : nat) nd v :
  n = Some x -> h !! x = Some nd ->
  set_next h n v = Some (<[x := mkNode (val nd) (prev nd) v]> h).
Proof. intros -> H. unfold set_next, ptr. cbn. rewrite H. reflexivity. Qed.

Lemma set_prev_at (h : list (node V)) (n : option nat) (x : nat) nd v :
  n = Some x -> h !! x = Some nd ->
  set_prev h n v = Some (<[x := mkNode (val nd) v (next nd)]> h).
Proof. intros -> H. unfold set_prev, ptr. cbn. rewrite H. reflexivity. Qed.

Lemma set_val_at (h : list (node V)) (n : option nat) (x : nat) nd v :
  n = Some x -> h !! x = Some nd ->
  set_val h n v = Some (<[x := mkNode v (prev nd) (next nd)]> h).
Proof. intros -> H. unfold set_val, ptr. cbn. rewrite H. reflexivity. Qed.

Lemma prev_at_app (cs ds : list (nat * V)) i :
  (i <= length cs)%nat -> prev_at (cs ++ ds) i = prev_at cs i.
Proof.
  intros Hi. destruct i as [|j]; [reflexivity|]. cbn [prev_at].
  apply addr_app_l. lia.
Qed.

(** [Add] puts a new node behind the last one. *)
Lemma Add_DL l cs v :
  DL l cs ->
  exists l', Add l v = Some l' /\ DL l' (cs ++ [(length (heap l), v)]).
Proof.
  intros D. pose proof (fresh_cell l cs D) as Hfresh.
  set (n := length (heap l)) in *. unfold Add. fold n.
  rewrite (dl_last l cs D).
  assert (Hh0 : forall q : nat, (q < n)%nat ->
            (heap l ++ [mkNode v None None]) !! q = heap l !! q)
    by (intros q Hq; apply lookup_app_l; fold n; lia).
  assert (Hhn : (heap l ++ [mkNode v None None]) !! n
                = Some (mkNode v None None)).
  { rewrite lookup_app_r by (fold n; lia). fold n. rewrite Nat.sub_diag.
    reflexivity. }
  destruct (cs !! (length cs - 1)%nat) as [[pl vl]|] eqn:Hl.
  - pose proof (lookup_lt_Some _ _ _ Hl) as Hlen.
    pose proof (dl_cells l cs D _ pl vl Hl) as Hpl.
    pose proof (cell_valid l cs _ pl vl D Hl) as Hv. fold n in Hv.
    pose proof (addr_Some cs _ pl vl Hl) as Hal.
    assert (Hnext : next_at cs (length cs - 1) = None)
      by (apply addr_None; lia).
    rewrite Hnext in Hpl. rewrite Hal.
    erewrite (set_next_at _ _ pl); [|reflexivity|rewrite Hh0 by lia; exact Hpl].
    cbn [mbind option_bind val prev].
    erewrite (set_prev_at _ _ n (mkNode v None None));
      [|reflexivity|rewrite list_lookup_insert_ne by lia; exact Hhn].
    cbn [mbind option_bind val next].
    eexists. split; [reflexivity|].
    split; cbn [heap first last size].
    + rewrite fmap_app. apply NoDup_app. split; [apply (dl_nodup l cs D)|].
      split; [|cbn; apply NoDup_singleton].
      intros x Hx [->|H]%elem_of_cons; [contradiction | inversion H].
    + intros i q w Hi. unfold ptr.
      destruct (decide (i < length cs - 1)%nat) as [Hlt|Hge].
      * rewrite lookup_app_l in Hi by lia.
        pose proof (cell_valid l cs i q w D Hi) as Hq. fold n in Hq.
        assert (q <> pl).
        { intros ->. pose proof (cell_inj cs _ _ _ _ _ (dl_nodup l cs D) Hi Hl).
          lia. }
        rewrite !list_lookup_insert_ne by lia. rewrite Hh0 by lia.
        rewrite (dl_cells l cs D i q w Hi). f_equal. f_equal.
        -- symmetry. apply prev_at_app. lia.
        -- symmetry. apply addr_app_l. lia.
      * destruct (decide (i = length cs - 1)%nat) as [->|Hne].
        -- rewrite lookup_app_l in Hi by lia. rewrite Hl in Hi.
           injection Hi as <- <-.
           rewrite list_lookup_insert_ne by lia.
           rewrite list_lookup_insert_eq
             by (rewrite length_app; cbn [length]; fold n; lia).
           f_equal. f_equal; [symmetry; apply prev_at_app; lia|].
           unfold next_at. rewrite addr_app_r by lia.
           replace (S (length cs - 1) - length cs)%nat with 0%nat by lia.
           reflexivity.
        -- assert (i = length cs).
           { apply lookup_lt_Some in Hi. rewrite length_app in Hi.
             cbn [length] in Hi. lia. }
           subst i. rewrite lookup_app_r in Hi by lia.
           rewrite Nat.sub_diag in Hi. injection Hi as <- <-.
           rewrite list_lookup_insert_eq
             by (rewrite length_insert, length_app; cbn [length]; fold n; lia).
           f_equal. f_equal.
           ++ destruct (length cs) as [|k] eqn:Hk; [lia|]. cbn [prev_at].
              rewrite addr_app_l by lia.
              replace (S k - 1)%nat with k in Hal by lia. symmetry. exact Hal.
           ++ unfold next_at. rewrite addr_None; [reflexivity|].
              rewrite length_app. cbn [length]. lia.
    + rewrite (dl_first l cs D). symmetry. apply addr_app_l. lia.
    + rewrite length_app. cbn [length].
      rewrite addr_app_r by lia.
      replace (length cs + 1 - 1 - length cs)%nat with 0%nat by lia.
      reflexivity.
    + rewrite (dl_size l cs D), length_app. cbn [length]. lia.
  - assert (Hnil : cs = []).
    { destruct cs as [|c cs']; [reflexivity|].
      apply lookup_ge_None in Hl. cbn [length] in Hl. lia. }
    subst cs. cbn [length Nat.sub]. rewrite (addr_None [] 0) by (cbn; lia).
    eexists. split; [reflexivity|].
    split; cbn [heap first last size app length].
    + cbn. apply NoDup_singleton.
    + intros [|i] q w Hi; [|discriminate]. injection Hi as <- <-.
      exact Hhn.
    + reflexivity.
    + reflexivity.
    + rewrite (dl_size l [] D). reflexivity.
Qed.

Lemma cell_ne (cs : list (nat * V)) i j p q v w :
  NoDup (fst <$> cs) -> cs !! i = Some (p, v) -> cs !! j = Some (q, w) ->
  i <> j -> p <> q.
Proof.
  intros Hnd Hi Hj Hij ->. apply Hij. eapply cell_inj; eauto.
Qed.

Lemma addr_ins_at (cs : list (nat * V)) i c j :
  (i <= length cs)%nat ->
  addr (ins_at i c cs) j
  = if decide (j < i)%nat then addr cs j
    else if decide (j = i) then Some (fst c) else addr cs (j - 1).
Proof.
  intros Hi. unfold addr. rewrite lookup_ins_at by exact Hi.
  repeat case_decide; reflexivity.
Qed.

Lemma addr_del_at (cs : list (nat * V)) i j :
  (i <= length cs)%nat ->
  addr (del_at i cs) j
  = if decide (j < i)%nat then addr cs j else addr cs (S j).
Proof.
  intros Hi. unfold addr. rewrite lookup_del_at by exact Hi.
  case_decide; reflexivity.
Qed.

Lemma prev_at_S (cs : list (nat * V)) j : prev_at cs (S j) = addr cs j.
Proof. reflexivity. Qed.

Lemma prev_at_pos (cs : list (nat * V)) j :
  (0 < j)%nat -> prev_at cs j = addr cs (j - 1).
Proof.
  intros H. destruct j as [|j]; [lia|]. cbn [prev_at]. f_equal. lia.
Qed.

(** [Insert] puts a new node in front of the node of the index. *)
Lemma Insert_DL l cs (index : Z) v :
  DL l cs -> 0 <= index <= size l ->
  exists l',
    Insert l index v = Some l' /\
    DL l' (ins_at (Z.to_nat index) (length (heap l), v) cs).
Proof.
  intros D Hi. pose proof (dl_size l cs D) as Hsz. unfold Insert.
  destruct (Z.ltb_spec index 0); [lia|].
  destruct (Z.gtb_spec index (size l)); [lia|]. cbn [orb].
  destruct (Z.eqb_spec index (size l)) as [Heq|Hne].
  { destruct (Add_DL l cs v D) as (l' & HA & D'). exists l'.
    split; [exact HA|]. unfold ins_at.
    rewrite take_ge, drop_ge by lia. exact D'. }
  set (i := Z.to_nat index). assert (Hil : (i < length cs)%nat) by lia.
  rewrite (find_DL l cs index D) by lia. fold i. cbn [mbind option_bind].
  destruct (lookup_lt_is_Some_2 cs i Hil) as [[pp pv] Hp].
  pose proof (addr_Some cs i pp pv Hp) as Hap.
  pose proof (dl_cells l cs D i pp pv Hp) as Hpp.
  pose proof (cell_valid l cs i pp pv D Hp) as Hvp.
  rewrite (deref_cell l cs i pp pv D Hp). cbn [mbind option_bind prev].
  set (n := length (heap l)) in *.
  set (h0 := heap l ++ [mkNode v (prev_at cs i) (addr cs i)]).
  assert (Hh0 : forall q : nat, (q < n)%nat -> h0 !! q = heap l !! q)
    by (intros q Hq; apply lookup_app_l; fold n; lia).
  assert (Hhn : h0 !! n = Some (mkNode v (prev_at cs i) (addr cs i))).
  { unfold h0. rewrite lookup_app_r by (fold n; lia). fold n.
    rewrite Nat.sub_diag. reflexivity. }
  assert (Hlen0 : length h0 = S n)
    by (unfold h0; rewrite length_app; cbn [length]; fold n; lia).
  pose proof (fresh_cell l cs D) as Hfresh. fold n in Hfresh.
  fold h0.
  match goal with
  | |- context [mbind _ ?m] =>
      lazymatch m with
      | match prev_at cs i with Some _ => _ | None => _ end => idtac
      end;
      assert (Hstep : exists h1 fst_,
                m = Some (h1, fst_) /\
                length h1 = S n /\
                fst_ = addr (ins_at i (n, v) cs) 0 /\
                (forall q : nat, Some q <> prev_at cs i ->
                   h1 !! q = h0 !! q) /\
                (forall j q w, cs !! j = Some (q, w) -> S j = i ->
                   h1 !! q = Some (mkNode w (prev_at cs j) (Some n))))
  end.
  { destruct i as [|i'] eqn:Hi'.
    - cbn [prev_at]. exists h0, (Some n). split; [reflexivity|].
      split; [exact Hlen0|]. split; [|split; [auto | intros; lia]].
      rewrite addr_ins_at by lia. reflexivity.
    - cbn [prev_at].
      destruct (lookup_lt_is_Some_2 cs i') as [[pq qv] Hq]; [lia|].
      pose proof (addr_Some cs i' pq qv Hq) as Haq.
      pose proof (dl_cells l cs D i' pq qv Hq) as Hpq.
      pose proof (cell_valid l cs i' pq qv D Hq) as Hvq. fold n in Hvq.
      rewrite Haq.
      erewrite (set_next_at _ _ pq); [|reflexivity|rewrite Hh0 by lia; exact Hpq].
      cbn [mbind option_bind val prev].
      eexists _, _. split; [reflexivity|].
      split; [rewrite length_insert; exact Hlen0|].
      split; [rewrite addr_ins_at, decide_True by lia; apply (dl_first l cs D)|].
      split.
      + intros q Hq'. apply list_lookup_insert_ne. congruence.
      + intros j q w Hj Hji. assert (j = i') by lia. subst j.
        rewrite Hq in Hj. injection Hj as <- <-.
        rewrite list_lookup_insert_eq by lia. reflexivity. }
  destruct Hstep as (h1 & fst_ & -> & Hlen1 & Hfst & Hother & Hpred).
  cbn [mbind option_bind]. rewrite Hap.
  assert (Hpp1 : h1 !! pp = Some (mkNode pv (prev_at cs i) (next_at cs i))).
  { rewrite Hother; [rewrite Hh0 by lia; exact Hpp|].
    destruct i as [|i']; [discriminate|]. cbn [prev_at].
    destruct (cs !! i') as [[pq qv]|] eqn:Hq.
    - rewrite (addr_Some cs i' pq qv Hq). intros [= ->].
      pose proof (cell_inj cs _ _ _ _ _ (dl_nodup l cs D) Hp Hq). lia.
    - unfold addr. rewrite Hq. discriminate. }
  erewrite (set_prev_at _ _ pp); [|reflexivity|exact Hpp1].
  cbn [mbind option_bind val next].
  eexists. split; [reflexivity|].
  fold n in Hvp.
  split; cbn [heap first last size].
  - rewrite fmap_ins_at. cbn [fst].
    rewrite (SkiplistSpec.ins_at_perm i n (fst <$> cs)).
    constructor; [exact Hfresh | apply (dl_nodup l cs D)].
  - intros j q w Hj. rewrite lookup_ins_at in Hj by lia. unfold ptr.
    unfold next_at. rewrite !addr_ins_at by lia. cbn [fst].
    destruct (decide (j < i)%nat) as [Hlt|Hge].
    + pose proof (cell_valid l cs j q w D Hj) as Hvq. fold n in Hvq.
      pose proof (cell_ne cs j i q pp w pv (dl_nodup l cs D) Hj Hp
                    ltac:(lia)) as Hqp.
      rewrite list_lookup_insert_ne by congruence.
      assert (Hprev : prev_at (ins_at i (n, v) cs) j = prev_at cs j).
      { destruct j as [|j']; [reflexivity|]. cbn [prev_at].
        rewrite addr_ins_at, decide_True by lia. reflexivity. }
      rewrite Hprev.
      destruct (decide (S j = i)) as [Hji|Hji].
      * rewrite (Hpred j q w Hj Hji).
        rewrite decide_False by lia. reflexivity.
      * rewrite decide_True by lia.
        rewrite Hother; [rewrite Hh0 by lia; apply (dl_cells l cs D j q w Hj)|].
        destruct i as [|i']; [discriminate|]. cbn [prev_at].
        destruct (cs !! i') as [[pq qv]|] eqn:Hq.
        -- rewrite (addr_Some cs i' pq qv Hq). intros [= ->].
           pose proof (cell_inj cs _ _ _ _ _ (dl_nodup l cs D) Hj Hq). lia.
        -- unfold addr. rewrite Hq. discriminate.
    + destruct (decide (j = i)) as [->|Hji].
      * injection Hj as <- <-.
        rewrite list_lookup_insert_ne by lia.
        rewrite Hother; [rewrite Hhn|].
        2:{ destruct i as [|i']; [discriminate|]. cbn [prev_at].
            destruct (cs !! i') as [[pq qv]|] eqn:Hq.
            - rewrite (addr_Some cs i' pq qv Hq). intros [= <-].
              pose proof (cell_valid l cs i' n qv D Hq). fold n in H1. lia.
            - unfold addr. rewrite Hq. discriminate. }
        rewrite decide_False, decide_False by lia.
        replace (S i - 1)%nat with i by lia.
        assert (Hprev : prev_at (ins_at i (n, v) cs) i = prev_at cs i).
        { destruct i as [|i']; [reflexivity|]. cbn [prev_at].
          rewrite addr_ins_at, decide_True by lia. reflexivity. }
        rewrite Hprev. reflexivity.
      * rewrite decide_False, decide_False by lia.
        replace (S j - 1)%nat with j by lia.
        rewrite (prev_at_pos _ j) by lia.
        rewrite addr_ins_at by lia.
        destruct (decide (j = S i)) as [->|Hjs].
        -- replace (S i - 1)%nat with i in * by lia.
           rewrite Hp in Hj. injection Hj as <- <-.
           rewrite list_lookup_insert_eq by lia.
           rewrite decide_False, decide_True by lia. reflexivity.
        -- pose proof (cell_valid l cs _ q w D Hj) as Hvq. fold n in Hvq.
           pose proof (cell_ne cs _ i q pp w pv (dl_nodup l cs D) Hj Hp
                         ltac:(lia)) as Hqp.
           rewrite list_lookup_insert_ne by congruence.
           rewrite Hother.
           ++ rewrite Hh0 by lia. rewrite (dl_cells l cs D _ q w Hj).
              rewrite decide_False, decide_False by lia.
              rewrite (prev_at_pos cs (j - 1)) by lia.
              unfold next_at. do 3 f_equal; lia.
           ++ destruct i as [|i']; [discriminate|]. cbn [prev_at].
              destruct (cs !! i') as [[pq qv]|] eqn:Hq.
              ** rewrite (addr_Some cs i' pq qv Hq). intros [= ->].
                 pose proof (cell_inj cs _ _ _ _ _ (dl_nodup l cs D) Hj Hq).
                 lia.
              ** unfold addr. rewrite Hq. discriminate.
  - exact Hfst.
  - rewrite (dl_last l cs D), length_ins_at, addr_ins_at by lia.
    rewrite decide_False, decide_False by lia.
    f_equal. lia.
  - rewrite length_ins_at. lia.
Qed.

Lemma addr_inv (cs : list (nat * V)) i (q : nat) :
  addr cs i = Some q -> exists w, cs !! i = Some (q, w).
Proof.
  unfold addr. destruct (cs !! i) as [[q' w]|]; [|discriminate].
  intros [= ->]. eauto.
Qed.

Lemma addr_ne (cs : list (nat * V)) i j (q : nat) w :
  NoDup (fst <$> cs) -> cs !! j = Some (q, w) -> i <> j ->
  Some q <> addr cs i.
Proof.
  intros Hnd Hj Hij Heq. symmetry in Heq.
  destruct (addr_inv cs i q Heq) as [w' Hi].
  apply Hij. eapply cell_inj; eauto.
Qed.

Lemma prev_at_ne (cs : list (nat * V)) i j (q : nat) w :
  NoDup (fst <$> cs) -> cs !! j = Some (q, w) -> i <> S j ->
  Some q <> prev_at cs i.
Proof.
  intros Hnd Hj Hij. destruct i as [|i']; [discriminate|]. cbn [prev_at].
  apply (addr_ne cs i' j q w Hnd Hj). lia.
Qed.

Lemma next_at_ne (cs : list (nat * V)) i j (q : nat) w :
  NoDup (fst <$> cs) -> cs !! j = Some (q, w) -> j <> S i ->
  Some q <> next_at cs i.
Proof.
  intros Hnd Hj Hij. apply (addr_ne cs (S i) j q w Hnd Hj). lia.
Qed.

(** [removeNode] takes the node at [i] out and clears its links. *)
Lemma removeNode_DL l cs i p v :
  DL l cs -> cs !! i = Some (p, v) ->
  exists l',
    removeNode l (addr cs i) = Some l' /\
    DL l' (del_at i cs) /\
    heap l' !! p = Some (mkNode v None None) /\
    length (heap l') = length (heap l).
Proof.
  intros D Hp. pose proof (dl_nodup l cs D) as Hnd.
  pose proof (lookup_lt_Some _ _ _ Hp) as Hil.
  pose proof (addr_Some cs i p v Hp) as Hap.
  pose proof (dl_cells l cs D i p v Hp) as Hpp.
  unfold removeNode. rewrite (deref_cell l cs i p v D Hp).
  cbn [mbind option_bind prev next].
  match goal with
  | |- context [mbind _ ?m] =>
      lazymatch m with
      | match prev_at cs i with Some _ => _ | None => _ end => idtac
      end;
      assert (Hstep : exists h1 fst_,
                m = Some (h1, fst_) /\
                length h1 = length (heap l) /\
                fst_ = addr (del_at i cs) 0 /\
                (forall q : nat, Some q <> prev_at cs i ->
                   h1 !! q = heap l !! q) /\
                (forall j q w, cs !! j = Some (q, w) -> S j = i ->
                   h1 !! q = Some (mkNode w (prev_at cs j) (next_at cs i))))
  end.
  { destruct i as [|i'] eqn:Hi'.
    - cbn [prev_at]. eexists _, _. split; [reflexivity|].
      split; [reflexivity|]. split; [|split; [auto | intros; lia]].
      rewrite addr_del_at, decide_False by lia. reflexivity.
    - cbn [prev_at].
      destruct (lookup_lt_is_Some_2 cs i') as [[pq qv] Hq]; [lia|].
      pose proof (addr_Some cs i' pq qv Hq) as Haq.
      pose proof (dl_cells l cs D i' pq qv Hq) as Hpq.
      rewrite Haq.
      erewrite (set_next_at _ _ pq); [|reflexivity|exact Hpq].
      cbn [mbind option_bind val prev].
      eexists _, _. split; [reflexivity|].
      split; [apply length_insert|].
      split; [rewrite addr_del_at, decide_True by lia; apply (dl_first l cs D)|].
      split.
      + intros q Hq'. apply list_lookup_insert_ne. congruence.
      + intros j q w Hj Hji. assert (j = i') by lia. subst j.
        rewrite Hq in Hj. injection Hj as <- <-.
        rewrite list_lookup_insert_eq by (eapply lookup_lt_Some; eauto).
        reflexivity. }
  destruct Hstep as (h1 & fst_ & Hs1 & Hlen1 & Hfst & Hother1 & Hpred).
  rewrite Hs1. cbn [mbind option_bind].
  match goal with
  | |- context [mbind _ ?m] =>
      lazymatch m with
      | match next_at cs i with Some _ => _ | None => _ end => idtac
      end;
      assert (Hstep : exists h2 lst,
                m = Some (h2, lst) /\
                length h2 = length (heap l) /\
                lst = addr (del_at i cs) (length cs - 2) /\
                (forall q : nat, Some q <> next_at cs i ->
                   h2 !! q = h1 !! q) /\
                (forall j q w, cs !! j = Some (q, w) -> j = S i ->
                   h2 !! q = Some (mkNode w (prev_at cs i) (next_at cs j))))
  end.
  { unfold next_at at 1 2.
    destruct (cs !! S i) as [[pn nv]|] eqn:Hn.
    - pose proof (addr_Some cs (S i) pn nv Hn) as Han.
      pose proof (dl_cells l cs D (S i) pn nv Hn) as Hpn.
      pose proof (lookup_lt_Some _ _ _ Hn) as Hnl.
      rewrite Han.
      erewrite (set_prev_at _ _ pn); [|reflexivity|].
      2:{ rewrite Hother1; [exact Hpn|].
          apply (prev_at_ne cs _ (S i) pn nv Hnd Hn). lia. }
      cbn [mbind option_bind val next].
      eexists _, _. split; [reflexivity|].
      split; [rewrite length_insert; exact Hlen1|].
      split.
      { rewrite addr_del_at, decide_False by lia.
        rewrite (dl_last l cs D). f_equal. lia. }
      split.
      + intros q Hq'. apply list_lookup_insert_ne.
        unfold next_at in Hq'. rewrite Han in Hq'. congruence.
      + intros j q w Hj ->. rewrite Hn in Hj. injection Hj as <- <-.
        rewrite list_lookup_insert_eq.
        * reflexivity.
        * rewrite Hlen1. eapply lookup_lt_Some; exact Hpn.
    - apply lookup_ge_None in Hn.
      rewrite (addr_None cs (S i)) by lia.
      eexists _, _. split; [reflexivity|].
      split; [exact Hlen1|]. split; [|split; [auto|]].
      + destruct i as [|i']; cbn [prev_at].
        * rewrite addr_None; [reflexivity|].
          rewrite length_del_at by lia. lia.
        * rewrite addr_del_at, decide_True by lia. f_equal. lia.
      + intros j q w Hj ->. apply lookup_lt_Some in Hj. lia. }
  destruct Hstep as (h2 & lst & Hs2 & Hlen2 & Hlst & Hother2 & Hsucc).
  rewrite Hs2. cbn [mbind option_bind]. rewrite Hap.
  assert (Hvp : (p < length h2)%nat)
    by (rewrite Hlen2; eapply lookup_lt_Some; exact Hpp).
  destruct (lookup_lt_is_Some_2 h2 p Hvp) as [nd2 Hnd2].
  erewrite (set_prev_at _ _ p); [|reflexivity|exact Hnd2].
  cbn [mbind option_bind].
  erewrite (set_next_at _ _ p);
    [|reflexivity|apply list_lookup_insert_eq; exact Hvp].
  cbn [mbind option_bind val prev next].
  assert (Hval : val nd2 = v).
  { destruct (decide (Some p = next_at cs i)) as [Heq|Hne].
    - exfalso. symmetry in Heq. destruct (addr_inv cs (S i) p Heq) as [w Hw].
      pose proof (cell_inj cs _ _ _ _ _ Hnd Hp Hw). lia.
    - rewrite (Hother2 p Hne) in Hnd2.
      destruct (decide (Some p = prev_at cs i)) as [Heq'|Hne'].
      + exfalso. destruct i as [|i']; [discriminate|]. cbn [prev_at] in Heq'.
        symmetry in Heq'. destruct (addr_inv cs i' p Heq') as [w Hw].
        pose proof (cell_inj cs _ _ _ _ _ Hnd Hp Hw). lia.
      + rewrite (Hother1 p Hne'), Hpp in Hnd2. injection Hnd2 as <-.
        reflexivity. }
  eexists. split; [reflexivity|]. cbn [heap].
  split; [|split].
  - split; cbn [heap first last size].
    + rewrite fmap_del_at. unfold del_at.
      rewrite <- (take_drop_middle (fst <$> cs) i p) in Hnd
        by (rewrite list_lookup_fmap, Hp; reflexivity).
      apply NoDup_app in Hnd as (H1 & H2 & H3).
      apply NoDup_cons in H3 as (_ & H3).
      apply NoDup_app. split; [exact H1|]. split; [|exact H3].
      intros x Hx Hx'. apply (H2 x Hx). right. exact Hx'.
    + intros j q w Hj. rewrite lookup_del_at in Hj by lia. unfold ptr.
      assert (Hqp : q <> p).
      { intros ->. destruct (decide (j < i)%nat).
        - pose proof (cell_inj cs _ _ _ _ _ Hnd Hp Hj). lia.
        - pose proof (cell_inj cs _ _ _ _ _ Hnd Hp Hj). lia. }
      rewrite !list_lookup_insert_ne by congruence.
      unfold next_at. rewrite addr_del_at by lia.
      destruct (decide (j < i)%nat) as [Hlt|Hge].
      * assert (Hprev : prev_at (del_at i cs) j = prev_at cs j).
        { destruct j as [|j']; [reflexivity|]. cbn [prev_at].
          rewrite addr_del_at, decide_True by lia. reflexivity. }
        rewrite Hprev, Hother2
          by (apply (next_at_ne cs _ j q w Hnd Hj); lia).
        destruct (decide (S j = i)) as [Hji|Hji].
        -- rewrite (Hpred j q w Hj Hji). rewrite decide_False by lia.
           subst i. reflexivity.
        -- rewrite decide_True by lia. rewrite Hother1.
           ++ apply (dl_cells l cs D j q w Hj).
           ++ apply (prev_at_ne cs _ j q w Hnd Hj). lia.
      * rewrite decide_False by lia.
        destruct (decide (j = i)) as [->|Hji].
        -- rewrite (Hsucc (S i) q w Hj eq_refl). f_equal. f_equal.
           destruct i as [|i']; [reflexivity|]. cbn [prev_at].
           rewrite addr_del_at, decide_True by lia. reflexivity.
        -- rewrite Hother2 by (apply (next_at_ne cs _ (S j) q w Hnd Hj); lia).
           rewrite Hother1.
           ++ rewrite (dl_cells l cs D (S j) q w Hj). f_equal. f_equal.
              cbn [prev_at]. destruct j as [|j']; [lia|]. cbn [prev_at].
              rewrite addr_del_at, decide_False by lia. reflexivity.
           ++ apply (prev_at_ne cs _ (S j) q w Hnd Hj). lia.
    + exact Hfst.
    + rewrite Hlst, length_del_at by lia. f_equal. lia.
    + rewrite length_del_at by lia. rewrite (dl_size l cs D). lia.
  - rewrite list_lookup_insert_eq by (rewrite length_insert; exact Hvp).
    rewrite Hval. reflexivity.
  - rewrite !length_insert. exact Hlen2.
Qed.

(** *** The calls on a list of nodes [cs] *)

Lemma Get_DL l cs (index : Z) :
  DL l cs ->
  Get l index
  = if (0 <=? index) && (index <? size l)
    then snd <$> cs !! Z.to_nat index else None.
Proof.
  intros D. pose proof (dl_size l cs D) as Hsz. unfold Get.
  destruct (Z.ltb_spec index 0) as [H0|H0]; cbn [orb].
  { destruct (Z.leb_spec 0 index); [lia | reflexivity]. }
  destruct (Z.leb_spec 0 index); [|lia]. cbn [andb].
  destruct (Z.geb_spec index (size l)) as [H1|H1].
  { destruct (Z.ltb_spec index (size l)); [lia | reflexivity]. }
  destruct (Z.ltb_spec index (size l)); [|lia].
  rewrite (find_DL l cs index D) by lia. cbn [mbind option_bind].
  destruct (lookup_lt_is_Some_2 cs (Z.to_nat index)) as [[p v] Hp]; [lia|].
  rewrite (deref_cell l cs _ p v D Hp), Hp. reflexivity.
Qed.

(** Writing a value to the node at [k]. *)
Definition put (k : nat) (v : V) (cs : list (nat * V)) : list (nat * V) :=
  alter (fun c => (fst c, v)) k cs.

Lemma addr_put k v cs i : addr (put k v cs) i = addr cs i.
Proof.
  unfold addr, put. destruct (decide (k = i)) as [->|Hne].
  - rewrite list_lookup_alter_eq. destruct (cs !! i) as [[p w]|]; reflexivity.
  - rewrite list_lookup_alter_ne by exact Hne. reflexivity.
Qed.

Lemma snd_put k v cs : snd <$> put k v cs = <[k := v]> (snd <$> cs).
Proof.
  unfold put. apply list_eq. intros i. rewrite list_lookup_fmap.
  destruct (decide (k = i)) as [->|Hne].
  - rewrite list_lookup_alter_eq.
    destruct (cs !! i) as [[p w]|] eqn:Hi.
    + rewrite list_lookup_insert_eq
        by (rewrite length_fmap; eapply lookup_lt_Some; eauto).
      reflexivity.
    + rewrite list_insert_ge
        by (rewrite length_fmap; apply lookup_ge_None in Hi; lia).
      rewrite list_lookup_fmap, Hi. reflexivity.
  - rewrite list_lookup_alter_ne, list_lookup_insert_ne by exact Hne.
    rewrite list_lookup_fmap. reflexivity.
Qed.

Lemma set_val_DL l cs k p v0 v :
  DL l cs -> cs !! k = Some (p, v0) ->
  exists h',
    set_val (heap l) (addr cs k) v = Some h' /\
    DL (mkList h' (first l) (last l) (size l)) (put k v cs).
Proof.
  intros D Hk. pose proof (dl_cells l cs D k p v0 Hk) as Hp.
  erewrite (set_val_at _ _ p); [|apply (addr_Some cs k p v0 Hk)|exact Hp].
  eexists. split; [reflexivity|]. cbn [prev next].
  assert (Hfst : fst <$> put k v cs = fst <$> cs).
  { unfold put. apply list_eq. intros i. rewrite !list_lookup_fmap.
    destruct (decide (k = i)) as [->|Hne].
    - rewrite list_lookup_alter_eq. destruct (cs !! i) as [[? ?]|]; reflexivity.
    - rewrite list_lookup_alter_ne by exact Hne. reflexivity. }
  assert (Hprev : forall i, prev_at (put k v cs) i = prev_at cs i)
    by (intros [|i]; [reflexivity | apply addr_put]).
  split; cbn [heap first last size].
  - rewrite Hfst. apply (dl_nodup l cs D).
  - intros i q w Hi. unfold put in Hi. unfold next_at.
    rewrite Hprev, addr_put.
    destruct (decide (k = i)) as [->|Hne].
    + rewrite list_lookup_alter_eq, Hk in Hi. injection Hi as <- <-.
      rewrite list_lookup_insert_eq by (eapply lookup_lt_Some; eauto).
      reflexivity.
    + rewrite list_lookup_alter_ne in Hi by exact Hne.
      rewrite list_lookup_insert_ne.
      * apply (dl_cells l cs D i q w Hi).
      * apply (cell_ne cs k i p q v0 w (dl_nodup l cs D) Hk Hi Hne).
  - rewrite addr_put. apply (dl_first l cs D).
  - unfold put. rewrite length_alter. fold (put k v cs). rewrite addr_put.
    apply (dl_last l cs D).
  - unfold put. rewrite length_alter. apply (dl_size l cs D).
Qed.

(** [Set] writes to the node of the index, and to the last node when the
    index is [size]; it panics for other indices and on an empty list. *)
Lemma Set_DL l cs (index : Z) v :
  DL l cs ->
  match Set_ l index v with
  | Some l' =>
      0 <= index <= size l /\ 0 < size l /\
      DL l' (put (Z.to_nat (Z.min index (size l - 1))) v cs)
  | None => ~ (0 <= index <= size l /\ 0 < size l)
  end.
Proof.
  intros D. pose proof (dl_size l cs D) as Hsz. unfold Set_.
  destruct (Z.ltb_spec index 0) as [H0|H0]; cbn [orb]; [lia|].
  destruct (Z.gtb_spec index (size l)) as [H1|H1]; [lia|].
  assert (Hfind : find l index
                  = Some (addr cs (Z.to_nat (Z.min index (size l - 1))))).
  { destruct (decide (index = size l)) as [->|Hne].
    - rewrite find_end by lia. rewrite (dl_last l cs D). do 2 f_equal. lia.
    - rewrite (find_DL l cs index D) by lia. do 2 f_equal. lia. }
  rewrite Hfind. cbn [mbind option_bind].
  set (k := Z.to_nat (Z.min index (size l - 1))).
  destruct (cs !! k) as [[p v0]|] eqn:Hk.
  - destruct (set_val_DL l cs k p v0 v D Hk) as (h' & -> & D').
    cbn [mbind option_bind]. apply lookup_lt_Some in Hk.
    split; [lia|]. split; [lia | exact D'].
  - apply lookup_ge_None in Hk. rewrite (addr_None cs k Hk).
    cbn. lia.
Qed.

Lemma Insert_spec l cs (index : Z) v :
  DL l cs ->
  match Insert l index v with
  | Some l' =>
      0 <= index <= size l /\
      DL l' (ins_at (Z.to_nat index) (length (heap l), v) cs)
  | None => ~ (0 <= index <= size l)
  end.
Proof.
  intros D. destruct (decide (0 <= index <= size l)) as [Hi|Hi].
  - destruct (Insert_DL l cs index v D Hi) as (l' & -> & D'). auto.
  - unfold Insert.
    destruct (Z.ltb_spec index 0); cbn [orb]; [exact Hi|].
    destruct (Z.gtb_spec index (size l)); [exact Hi | lia].
Qed.

Lemma Remove_DL l cs (index : Z) :
  DL l cs ->
  match Remove l index with
  | Some (l', x) =>
      0 <= index < size l /\
      snd <$> cs !! Z.to_nat index = Some x /\
      DL l' (del_at (Z.to_nat index) cs)
  | None => ~ (0 <= index < size l)
  end.
Proof.
  intros D. pose proof (dl_size l cs D) as Hsz. unfold Remove.
  destruct (Z.ltb_spec index 0) as [H0|H0]; cbn [orb]; [lia|].
  destruct (Z.geb_spec index (size l)) as [H1|H1]; [lia|].
  rewrite (find_DL l cs index D) by lia. cbn [mbind option_bind].
  destruct (lookup_lt_is_Some_2 cs (Z.to_nat index)) as [[p v] Hp]; [lia|].
  rewrite (deref_cell l cs _ p v D Hp). cbn [mbind option_bind].
  destruct (removeNode_DL l cs _ p v D Hp) as (l' & -> & D' & _).
  cbn [mbind option_bind val]. rewrite Hp. auto.
Qed.

Lemma RemoveLast_DL l cs :
  DL l cs ->
  exists l',
    RemoveLast l = Some (l', snd <$> cs !! (length cs - 1)%nat) /\
    DL l' (take (length cs - 1) cs).
Proof.
  intros D. unfold RemoveLast. rewrite (dl_last l cs D).
  destruct (cs !! (length cs - 1)%nat) as [[p v]|] eqn:Hp.
  - pose proof (lookup_lt_Some _ _ _ Hp) as Hlt.
    destruct (removeNode_DL l cs _ p v D Hp) as (l' & Hrm & D' & Hnode & _).
    rewrite (addr_Some cs _ p v Hp) in Hrm |- *. rewrite Hrm.
    cbn [mbind option_bind]. unfold deref, ptr. cbn [mbind option_bind].
    rewrite Hnode. cbn [mbind option_bind val fmap option_fmap option_map snd].
    eexists. split; [reflexivity|].
    unfold del_at in D'. rewrite drop_ge, app_nil_r in D' by lia. exact D'.
  - apply lookup_ge_None in Hp. rewrite (addr_None cs _ Hp).
    exists l. split; [reflexivity|].
    rewrite take_ge by lia. exact D.
Qed.

(** *** The traversals *)

(** What an indexed consumer makes of a list of values, stopping at the
    first one for which it answers [false]. *)
Fixpoint feedi {St} (consumer : Z -> V -> St -> St * bool) (i : Z)
    (vs : list V) (s : St) : St :=
  match vs with
  | [] => s
  | v :: t =>
      let '(s', continue) := consumer i v s in
      if continue then feedi consumer (i + 1) t s' else s'
  end.

Lemma ForEach_loop_DL {St} l cs (consumer : Z -> V -> St -> St * bool) :
  DL l cs ->
  forall fuel i k s, (length cs - i < fuel)%nat ->
    ForEach_loop fuel (heap l) (addr cs i) k consumer s
    = Some (feedi consumer k (snd <$> drop i cs) s).
Proof.
  intros D. induction fuel as [|f IH]; intros i k s Hf; [lia|].
  destruct (cs !! i) as [[p v]|] eqn:Hi.
  - rewrite (addr_Some cs i p v Hi). cbn [ForEach_loop]. unfold ptr.
    rewrite (dl_cells l cs D i p v Hi). cbn [mbind option_bind val next].
    rewrite (drop_S cs (p, v) i Hi), fmap_cons. cbn [snd feedi].
    destruct (consumer k v s) as [s' [|]]; cbn [negb]; [|reflexivity].
    apply IH. apply lookup_lt_Some in Hi. lia.
  - apply lookup_ge_None in Hi. rewrite (addr_None cs i Hi).
    rewrite drop_ge by lia. reflexivity.
Qed.

Lemma feedi_contains (expected : V -> bool) (vs : list V) : forall k b,
  feedi (fun _ v contains =>
           if expected v then (true, false) else (contains, true)) k vs b
  = b || existsb expected vs.
Proof.
  induction vs as [|v t IH]; intros k b; cbn [feedi existsb];
    [rewrite orb_false_r; reflexivity|].
  destruct (expected v); cbn [orb]; [rewrite orb_true_r; reflexivity|].
  apply IH.
Qed.

(** The number of values that are expected. *)
Definition matches {A} (P : A -> bool) (l : list A) : Z :=
  Z.of_nat (length (List.filter P l)).

Lemma RemoveAllByVal_loop_DL (expected : V -> bool) :
  forall fuel l cs i removed,
    DL l cs -> (length cs - i < fuel)%nat ->
    exists l',
      RemoveAllByVal_loop fuel expected l (addr cs i) removed
      = Some (l', removed
                  + matches (fun c => expected (snd c)) (drop i cs)) /\
      DL l' (take i cs
             ++ List.filter (fun c => negb (expected (snd c))) (drop i cs)).
Proof.
  induction fuel as [|f IH]; intros l cs i removed D Hf; [lia|].
  destruct (cs !! i) as [[p v]|] eqn:Hi.
  - pose proof (addr_Some cs i p v Hi) as Hap.
    pose proof (lookup_lt_Some _ _ _ Hi) as Hlt.
    destruct (removeNode_DL l cs i p v D Hi) as (l1 & Hrm & D1 & _).
    rewrite Hap in Hrm |- *. cbn [RemoveAllByVal_loop]. unfold ptr.
    rewrite (dl_cells l cs D i p v Hi). cbn [mbind option_bind val next].
    rewrite (drop_S cs (p, v) i Hi). unfold matches.
    cbn [List.filter snd].
    destruct (expected v) eqn:He; cbn [negb].
    + rewrite Hrm. cbn [mbind option_bind].
      assert (Hn : next_at cs i = addr (del_at i cs) i)
        by (rewrite addr_del_at, decide_False by lia; reflexivity).
      rewrite Hn.
      destruct (IH l1 (del_at i cs) i (removed + 1) D1) as (l' & -> & D').
      { rewrite length_del_at by lia. lia. }
      assert (Hd : drop i (del_at i cs) = drop (S i) cs).
      { unfold del_at. rewrite drop_app_length'; [reflexivity|].
        rewrite length_take. lia. }
      assert (Ht : take i (del_at i cs) = take i cs).
      { unfold del_at. rewrite take_app_length'; [reflexivity|].
        rewrite length_take. lia. }
      rewrite Hd, Ht in D'. rewrite Hd. exists l'. split; [|exact D'].
      unfold matches. cbn [length]. do 2 f_equal. lia.
    + unfold next_at.
      destruct (IH l cs (S i) removed D) as (l' & -> & D'); [lia|].
      exists l'. split; [reflexivity|].
      rewrite (take_S_r cs i (p, v) Hi), <- app_assoc in D'. exact D'.
  - apply lookup_ge_None in Hi. rewrite (addr_None cs i Hi).
    rewrite drop_ge by lia. unfold matches. cbn [List.filter length].
    exists l. split; [cbn; do 2 f_equal; lia|].
    rewrite app_nil_r, take_ge by lia. exact D.
Qed.

(** The loop of [RemoveByVal] on a list of values: what it keeps, and its
    count. *)
Fixpoint cut {A} (P : A -> bool) (count removed : Z) (l : list A)
    : list A * Z :=
  match l with
  | [] => ([], removed)
  | a :: t =>
      let removed' := if P a then removed + 1 else removed in
      let keep := if P a then [] else [a] in
      if count =? removed' then (keep ++ t, removed')
      else let '(r, k) := cut P count removed' t in (keep ++ r, k)
  end.

Lemma RemoveByVal_loop_forward (expected : V -> bool) (count : Z) :
  forall fuel l cs i removed,
    DL l cs -> (length cs - i < fuel)%nat ->
    exists l',
      RemoveByVal_loop fuel false expected count l (addr cs i) removed
      = Some (l', snd (cut (fun c => expected (snd c)) count removed
                         (drop i cs))) /\
      DL l' (take i cs
             ++ fst (cut (fun c => expected (snd c)) count removed
                       (drop i cs))).
Proof.
  induction fuel as [|f IH]; intros l cs i removed D Hf; [lia|].
  destruct (cs !! i) as [[p v]|] eqn:Hi.
  - pose proof (addr_Some cs i p v Hi) as Hap.
    pose proof (lookup_lt_Some _ _ _ Hi) as Hlt.
    destruct (removeNode_DL l cs i p v D Hi) as (l1 & Hrm & D1 & _).
    rewrite Hap in Hrm |- *. cbn [RemoveByVal_loop]. unfold ptr.
    rewrite (dl_cells l cs D i p v Hi). cbn [mbind option_bind val next].
    rewrite (drop_S cs (p, v) i Hi). cbn [cut snd].
    assert (Hd : drop i (del_at i cs) = drop (S i) cs).
    { unfold del_at. rewrite drop_app_length'; [reflexivity|].
      rewrite length_take. lia. }
    assert (Ht : take i (del_at i cs) = take i cs).
    { unfold del_at. rewrite take_app_length'; [reflexivity|].
      rewrite length_take. lia. }
    destruct (expected v) eqn:He.
    + rewrite Hrm. cbn [mbind option_bind app].
      destruct (count =? removed + 1) eqn:Hc.
      * exists l1. split; [reflexivity|]. cbn [fst]. exact D1.
      * assert (Hn : next_at cs i = addr (del_at i cs) i)
          by (rewrite addr_del_at, decide_False by lia; reflexivity).
        rewrite Hn.
        destruct (IH l1 (del_at i cs) i (removed + 1) D1) as (l' & -> & D').
        { rewrite length_del_at by lia. lia. }
        rewrite Hd, Ht in D'. rewrite Hd. exists l'.
        destruct (cut _ count (removed + 1) (drop (S i) cs)) as [r k].
        split; [reflexivity | exact D'].
    + cbn [mbind option_bind].
      destruct (count =? removed) eqn:Hc.
      * exists l. split; [reflexivity|]. cbn [fst app].
        rewrite <- (drop_S cs (p, v) i Hi), take_drop. exact D.
      * unfold next_at.
        destruct (IH l cs (S i) removed D) as (l' & -> & D'); [lia|].
        exists l'.
        destruct (cut _ count removed (drop (S i) cs)) as [r k].
        split; [reflexivity|]. cbn [fst snd app] in *.
        rewrite (take_S_r cs i (p, v) Hi), <- app_assoc in D'. exact D'.
  - apply lookup_ge_None in Hi. rewrite (addr_None cs i Hi).
    rewrite drop_ge by lia. cbn [cut fst snd].
    exists l. split; [reflexivity|].
    rewrite app_nil_r, take_ge by lia. exact D.
Qed.

Lemma prev_at_del_at (cs : list (nat * V)) m :
  (m < length cs)%nat -> prev_at (del_at m cs) m = prev_at cs m.
Proof.
  intros Hm. destruct m as [|m']; [reflexivity|]. cbn [prev_at].
  rewrite addr_del_at, decide_True by lia. reflexivity.
Qed.

Lemma RemoveByVal_loop_backward (expected : V -> bool) (count : Z) :
  forall fuel l cs m removed,
    DL l cs -> (m <= length cs)%nat -> (m < fuel)%nat ->
    exists l',
      RemoveByVal_loop fuel true expected count l (prev_at cs m) removed
      = Some (l', snd (cut (fun c => expected (snd c)) count removed
                         (reverse (take m cs)))) /\
      DL l' (reverse (fst (cut (fun c => expected (snd c)) count removed
                             (reverse (take m cs))))
             ++ drop m cs).
Proof.
  induction fuel as [|f IH]; intros l cs m removed D Hm Hf; [lia|].
  destruct m as [|m'].
  - cbn [prev_at take reverse cut fst snd RemoveByVal_loop].
    exists l. split; [reflexivity|]. exact D.
  - destruct (lookup_lt_is_Some_2 cs m') as [[p v] Hi]; [lia|].
    pose proof (addr_Some cs m' p v Hi) as Hap.
    destruct (removeNode_DL l cs m' p v D Hi) as (l1 & Hrm & D1 & _).
    cbn [prev_at]. rewrite Hap in Hrm |- *.
    cbn [RemoveByVal_loop]. unfold ptr.
    rewrite (dl_cells l cs D m' p v Hi). cbn [mbind option_bind val prev].
    rewrite (take_S_r cs m' (p, v) Hi), reverse_app.
    change (reverse [(p, v)]) with [(p, v)]. cbn [app cut snd].
    assert (Hd : drop m' (del_at m' cs) = drop (S m') cs).
    { unfold del_at. rewrite drop_app_length'; [reflexivity|].
      rewrite length_take. lia. }
    assert (Ht : take m' (del_at m' cs) = take m' cs).
    { unfold del_at. rewrite take_app_length'; [reflexivity|].
      rewrite length_take. lia. }
    destruct (expected v) eqn:He.
    + rewrite Hrm. cbn [mbind option_bind app].
      destruct (count =? removed + 1) eqn:Hc.
      * exists l1. split; [reflexivity|]. cbn [fst].
        rewrite reverse_involutive. exact D1.
      * rewrite <- (prev_at_del_at cs m') by lia.
        destruct (IH l1 (del_at m' cs) m' (removed + 1) D1) as (l' & -> & D').
        { rewrite length_del_at by lia. lia. }
        { lia. }
        rewrite Hd, Ht in D'. rewrite Ht. exists l'.
        destruct (cut _ count (removed + 1) (reverse (take m' cs))) as [r k].
        split; [reflexivity | exact D'].
    + cbn [mbind option_bind].
      destruct (count =? removed) eqn:Hc.
      * exists l. split; [reflexivity|]. cbn [fst app].
        rewrite reverse_cons, reverse_involutive, <- app_assoc. cbn [app].
        rewrite <- (drop_S cs (p, v) m' Hi), take_drop. exact D.
      * destruct (IH l cs m' removed D) as (l' & -> & D'); [lia|lia|].
        exists l'.
        destruct (cut _ count removed (reverse (take m' cs))) as [r k].
        split; [reflexivity|]. cbn [fst snd app] in *.
        rewrite reverse_cons, <- app_assoc. cbn [app].
        rewrite <- (drop_S cs (p, v) m' Hi). exact D'.
Qed.

Lemma RemoveAllByVal_DL l cs (expected : V -> bool) :
  DL l cs ->
  exists l',
    RemoveAllByVal l expected
    = Some (l', matches (fun c => expected (snd c)) cs) /\
    DL l' (List.filter (fun c => negb (expected (snd c))) cs).
Proof.
  intros D. unfold RemoveAllByVal. rewrite (dl_first l cs D).
  destruct (RemoveAllByVal_loop_DL expected (S (length (heap l))) l cs 0 0 D)
    as (l' & Hrun & D'); [pose proof (cells_le l cs D); lia|].
  exists l'. rewrite drop_0 in Hrun, D'. split; [exact Hrun | exact D'].
Qed.

Lemma RemoveByVal_DL l cs (expected : V -> bool) (count : Z) :
  DL l cs ->
  exists l',
    RemoveByVal l expected count
    = Some (l', snd (cut (fun c => expected (snd c)) count 0 cs)) /\
    DL l' (fst (cut (fun c => expected (snd c)) count 0 cs)).
Proof.
  intros D. unfold RemoveByVal. rewrite (dl_first l cs D).
  destruct (RemoveByVal_loop_forward expected count (S (length (heap l)))
              l cs 0 0 D)
    as (l' & Hrun & D'); [pose proof (cells_le l cs D); lia|].
  exists l'. rewrite drop_0 in Hrun, D'. split; [exact Hrun | exact D'].
Qed.

Lemma ReverseRemoveByVal_DL l cs (expected : V -> bool) (count : Z) :
  DL l cs ->
  exists l',
    ReverseRemoveByVal l expected count
    = Some (l', snd (cut (fun c => expected (snd c)) count 0 (reverse cs)))
    /\
    DL l' (reverse (fst (cut (fun c => expected (snd c)) count 0
                           (reverse cs)))).
Proof.
  intros D. unfold ReverseRemoveByVal.
  assert (Hlast : last l = prev_at cs (length cs)).
  { rewrite (dl_last l cs D). destruct (length cs) as [|n] eqn:Hn.
    - apply addr_None. lia.
    - cbn [prev_at]. f_equal. lia. }
  rewrite Hlast.
  destruct (RemoveByVal_loop_backward expected count (S (length (heap l)))
              l cs (length cs) 0 D)
    as (l' & Hrun & D'); [lia | pose proof (cells_le l cs D); lia|].
  exists l'. rewrite firstn_all in Hrun, D'.
  rewrite drop_all, app_nil_r in D'. split; [exact Hrun | exact D'].
Qed.

(** [Make] adds its values one after the other. *)
Lemma Make_from (vals : list V) : forall l cs,
  DL l cs ->
  exists l' cs',
    foldl (fun l v => l ← l; Add l v) (Some l) vals = Some l' /\
    DL l' cs' /\ snd <$> cs' = (snd <$> cs) ++ vals.
Proof.
  induction vals as [|v vals IH]; intros l cs D; cbn [foldl].
  - exists l, cs. rewrite app_nil_r. auto.
  - cbn [mbind option_bind]. destruct (Add_DL l cs v D) as (l1 & -> & D1).
    destruct (IH l1 _ D1) as (l' & cs' & H & D' & Hv).
    exists l', cs'. split; [exact H|]. split; [exact D'|].
    rewrite Hv, fmap_app, <- app_assoc. reflexivity.
Qed.

Lemma Make_DL (vals : list V) :
  exists l cs, Make vals = Some l /\ DL l cs /\ values l = vals.
Proof.
  destruct (Make_from vals empty [] DL_empty) as (l & cs & H & D & Hv).
  exists l, cs. split; [exact H|]. split; [exact D|].
  rewrite (values_DL l cs D), Hv. reflexivity.
Qed.

(** The loop of [Range] fills its slice with the values from [start] to
    [stop - 1]. *)
Lemma Range_loop_DL l cs (start stop : nat) :
  DL l cs -> (start <= stop <= length cs)%nat ->
  forall fuel j, (j <= stop)%nat -> (length cs - j < fuel)%nat ->
    Range_loop fuel (heap l) (addr cs j) (Z.of_nat j) (Z.of_nat start)
      (Z.of_nat stop)
      ((Some <$> take (j - start) (drop start (snd <$> cs)))
       ++ replicate (stop - start - (j - start)) None)
      (j - start)
    = Some (Some <$> take (stop - start) (drop start (snd <$> cs))).
Proof.
  intros D Hb. induction fuel as [|f IH]; intros j Hj Hf; [lia|].
  destruct (cs !! j) as [[p v]|] eqn:Hc.
  - pose proof (lookup_lt_Some _ _ _ Hc) as Hlt.
    rewrite (addr_Some cs j p v Hc). cbn [Range_loop]. unfold ptr.
    rewrite (dl_cells l cs D j p v Hc). cbn [mbind option_bind val next].
    assert (Hlen : length (take (j - start) (drop start (snd <$> cs)))
                   = (j - start)%nat).
    { rewrite length_take, length_drop, length_fmap. lia. }
    destruct (Z.geb_spec (Z.of_nat j) (Z.of_nat start)) as [Hge|Hlo];
      cbn [andb].
    + destruct (Z.ltb_spec (Z.of_nat j) (Z.of_nat stop)) as [Hin|Hout].
      * rewrite decide_True
          by (rewrite length_app, length_fmap, Hlen, length_replicate; lia).
        replace (Z.of_nat j + 1) with (Z.of_nat (S j)) by lia.
        replace (S (j - start)) with (S j - start)%nat by lia.
        unfold next_at. rewrite <- (IH (S j)) by lia. f_equal.
        assert (Hv : drop start (snd <$> cs) !! (j - start)%nat = Some v).
        { rewrite lookup_drop, list_lookup_fmap.
          replace (start + (j - start))%nat with j by lia.
          rewrite Hc. reflexivity. }
        replace (S j - start)%nat with (S (j - start)) by lia.
        rewrite (take_S_r _ _ _ Hv), fmap_app, <- app_assoc.
        replace (stop - start - (j - start))%nat
          with (S (stop - start - S (j - start))) by lia.
        cbn [replicate fmap list_fmap app].
        rewrite insert_app_r_alt by (rewrite length_fmap, Hlen; lia).
        rewrite length_fmap, Hlen, Nat.sub_diag. reflexivity.
      * destruct (Z.geb_spec (Z.of_nat j) (Z.of_nat stop)); [|lia].
        replace (j - start)%nat with (stop - start)%nat by lia.
        rewrite Nat.sub_diag. cbn [replicate]. rewrite app_nil_r. reflexivity.
    + destruct (Z.geb_spec (Z.of_nat j) (Z.of_nat stop)); [lia|].
      replace (Z.of_nat j + 1) with (Z.of_nat (S j)) by lia.
      unfold next_at. rewrite <- (IH (S j)) by lia.
      replace (S j - start)%nat with (j - start)%nat by lia. reflexivity.
  - apply lookup_ge_None in Hc. rewrite (addr_None cs j Hc).
    cbn [Range_loop]. destruct f; cbn [Range_loop];
      replace (j - start)%nat with (stop - start)%nat by lia;
      rewrite Nat.sub_diag; cbn [replicate]; rewrite app_nil_r; reflexivity.
Qed.

(** [Range] returns the values of the indices from [start] to [stop - 1],
    and panics unless [0 <= start < size] and [start <= stop <= size]. *)
Lemma Range_slice_DL l cs (start stop : Z) :
  DL l cs ->
  Range_slice l start stop
  = (fun r : list V => Some <$> r) <$> Range l start stop.
Proof.
  intros D. pose proof (dl_size l cs D) as Hsz.
  unfold Range_slice, Range.
  destruct ((start <? 0) || (start >=? size l)) eqn:H1; [reflexivity|].
  destruct ((stop >? size l) || (stop <? start)) eqn:H2; [reflexivity|].
  apply orb_false_iff in H1 as [H1a H1b]. apply orb_false_iff in H2 as [H2a H2b].
  apply Z.ltb_ge in H1a, H2b.
  destruct (Z.geb_spec start (size l)); [discriminate|].
  destruct (Z.gtb_spec stop (size l)); [discriminate|].
  cbn [fmap option_fmap option_map]. rewrite (values_DL l cs D).
  rewrite (dl_first l cs D).
  pose proof (Range_loop_DL l cs (Z.to_nat start) (Z.to_nat stop) D
                ltac:(lia) (S (length (heap l))) 0 ltac:(lia)
                ltac:(pose proof (cells_le l cs D); lia)) as HR.
  rewrite !Z2Nat.id in HR by lia.
  replace (Z.to_nat stop - Z.to_nat start)%nat
    with (Z.to_nat (stop - start)) in HR by lia.
  change (0 - Z.to_nat start)%nat with 0%nat in HR.
  rewrite take_0, Nat.sub_0_r in HR. exact HR.
Qed.

End Shape.

(** *** The loop of [RemoveByVal] in closed form *)

Section Cut.
Context {A : Type} (P : A -> bool).

(** Without the first [n] values that are expected. *)
Fixpoint remove_first (n : nat) (l : list A) : list A :=
  match n, l with
  | O, _ => l
  | _, [] => []
  | S n', a :: t =>
      if P a then remove_first n' t else a :: remove_first n t
  end.

(** What [RemoveByVal] and [ReverseRemoveByVal] keep of the values in the
    order in which they visit them, and the number they return.  With
    [count = 0] the loop stops behind the first value unless that value
    is expected. *)
Definition by_val (count : Z) (l : list A) : list A * Z :=
  if count >? 0
  then (remove_first (Z.to_nat count) l, Z.min count (matches P l))
  else if (count <? 0) || match l with a :: _ => P a | [] => false end
       then (List.filter (fun a => negb (P a)) l, matches P l)
       else (l, 0).

Lemma matches_cons a l :
  matches P (a :: l) = (if P a then 1 else 0) + matches P l.
Proof.
  unfold matches. cbn [List.filter]. destruct (P a); cbn [length]; lia.
Qed.

Lemma matches_nonneg l : 0 <= matches P l.
Proof. unfold matches. lia. Qed.

Lemma cut_past (count : Z) (l : list A) : forall removed,
  count < removed ->
  cut P count removed l
  = (List.filter (fun a => negb (P a)) l, removed + matches P l).
Proof.
  induction l as [|a t IH]; intros removed Hc; cbn [cut List.filter].
  - unfold matches. cbn [List.filter length]. f_equal; lia.
  - rewrite matches_cons. destruct (P a); cbn [negb app].
    + destruct (Z.eqb_spec count (removed + 1)); [lia|].
      rewrite IH by lia. f_equal; lia.
    + destruct (Z.eqb_spec count removed); [lia|].
      rewrite IH by lia. f_equal; lia.
Qed.

Lemma remove_first_nil n : remove_first n [] = [].
Proof. destruct n; reflexivity. Qed.

Lemma remove_first_0 l : remove_first 0 l = l.
Proof. destruct l; reflexivity. Qed.

Lemma cut_first (count : Z) (l : list A) : forall removed,
  0 <= removed < count ->
  cut P count removed l
  = (remove_first (Z.to_nat (count - removed)) l,
     removed + Z.min (count - removed) (matches P l)).
Proof.
  induction l as [|a t IH]; intros removed Hc; cbn [cut].
  - rewrite remove_first_nil. unfold matches. cbn [List.filter length].
    f_equal; lia.
  - rewrite matches_cons. pose proof (matches_nonneg t) as Hm.
    destruct (Z.to_nat (count - removed)) as [|n] eqn:Hn; [lia|].
    cbn [remove_first]. destruct (P a); cbn [app].
    + destruct (Z.eqb_spec count (removed + 1)) as [He|He].
      * assert (n = 0%nat) by lia. subst n. rewrite remove_first_0.
        f_equal; lia.
      * rewrite IH by lia.
        replace (Z.to_nat (count - (removed + 1))) with n by lia.
        f_equal; lia.
    + destruct (Z.eqb_spec count removed); [lia|].
      rewrite IH by lia. rewrite Hn. f_equal; lia.
Qed.

Lemma cut_by_val (count : Z) (l : list A) :
  cut P count 0 l = by_val count l.
Proof.
  unfold by_val. destruct (Z.gtb_spec count 0) as [Hpos|Hle].
  - rewrite cut_first by lia. rewrite Z.sub_0_r. reflexivity.
  - destruct (Z.ltb_spec count 0) as [Hneg|H0]; cbn [orb].
    + rewrite cut_past by lia. reflexivity.
    + assert (count = 0) by lia. subst count.
      destruct l as [|a t]; [reflexivity|]. cbn [cut List.filter].
      rewrite matches_cons. destruct (P a); cbn [negb app].
      * cbn [Z.eqb Z.add]. rewrite cut_past by lia. f_equal; lia.
      * reflexivity.
Qed.

End Cut.

Lemma filter_fmap {A B} (f : A -> B) (P : B -> bool) (l : list A) :
  List.filter P (f <$> l) = f <$> List.filter (fun a => P (f a)) l.
Proof.
  induction l as [|a t IH]; [reflexivity|]. cbn [fmap list_fmap List.filter].
  fold (f <$> t). rewrite IH. destruct (P (f a)); reflexivity.
Qed.

Lemma matches_fmap {A B} (f : A -> B) (P : B -> bool) (l : list A) :
  matches P (f <$> l) = matches (fun a => P (f a)) l.
Proof. unfold matches. rewrite filter_fmap, length_fmap. reflexivity. Qed.

Lemma cut_fmap {A B} (f : A -> B) (P : B -> bool) (count : Z) (l : list A) :
  forall removed,
    cut P count removed (f <$> l)
    = (f <$> fst (cut (fun a => P (f a)) count removed l),
       snd (cut (fun a => P (f a)) count removed l)).
Proof.
  induction l as [|a t IH]; intros removed; [reflexivity|].
  cbn [fmap list_fmap cut]. fold (f <$> t).
  destruct (P (f a)).
  - destruct (count =? removed + 1); [reflexivity|].
    rewrite IH. destruct (cut _ count (removed + 1) t). reflexivity.
  - destruct (count =? removed); [reflexivity|].
    rewrite IH. destruct (cut _ count removed t). reflexivity.
Qed.

(** *** The lists that the calls build *)

Section Built.
Context {V : Type}.

(** The calls that change a list. *)
Inductive lop :=
  | LAdd (v : V)
  | LInsert (index : Z) (v : V)
  | LSet (index : Z) (v : V)
  | LRemove (index : Z)
  | LRemoveLast
  | LRemoveAllByVal (expected : V -> bool)
  | LRemoveByVal (expected : V -> bool) (count : Z)
  | LReverseRemoveByVal (expected : V -> bool) (count : Z).

Definition lstep (l : LinkedList V) (o : lop) : option (LinkedList V) :=
  match o with
  | LAdd v => Add l v
  | LInsert index v => Insert l index v
  | LSet index v => Set_ l index v
  | LRemove index => fst <$> Remove l index
  | LRemoveLast => fst <$> RemoveLast l
  | LRemoveAllByVal expected => fst <$> RemoveAllByVal l expected
  | LRemoveByVal expected count => fst <$> RemoveByVal l expected count
  | LReverseRemoveByVal expected count =>
      fst <$> ReverseRemoveByVal l expected count
  end.

Fixpoint lrun (l : LinkedList V) (ops : list lop) : option (LinkedList V) :=
  match ops with
  | [] => Some l
  | o :: rest => l' ← lstep l o; lrun l' rest
  end.

(** The lists that a sequence of calls builds from a list that [Make]
    returns, without a panic. *)
Definition list_built (l : LinkedList V) : Prop :=
  exists vals ops, (l0 ← Make vals; lrun l0 ops) = Some l.

Lemma lstep_DL (l : LinkedList V) (cs : list (nat * V)) o l' :
  DL l cs -> lstep l o = Some l' -> exists cs', DL l' cs'.
Proof.
  intros D. destruct o as [v|index v|index v|index| |e|e count|e count];
    cbn [lstep].
  - destruct (Add_DL l cs v D) as (l1 & -> & D1). intros [= <-]. eauto.
  - pose proof (Insert_spec l cs index v D) as H.
    destruct (Insert l index v) as [l1|]; [|discriminate].
    intros [= <-]. destruct H as (_ & D1). eauto.
  - pose proof (Set_DL l cs index v D) as H.
    destruct (Set_ l index v) as [l1|]; [|discriminate].
    intros [= <-]. destruct H as (_ & _ & D1). eauto.
  - pose proof (Remove_DL l cs index D) as H.
    destruct (Remove l index) as [[l1 x]|]; [|discriminate].
    intros [= <-]. destruct H as (_ & _ & D1). eauto.
  - destruct (RemoveLast_DL l cs D) as (l1 & -> & D1). intros [= <-]. eauto.
  - destruct (RemoveAllByVal_DL l cs e D) as (l1 & -> & D1).
    intros [= <-]. eauto.
  - destruct (RemoveByVal_DL l cs e count D) as (l1 & -> & D1).
    intros [= <-]. eauto.
  - destruct (ReverseRemoveByVal_DL l cs e count D) as (l1 & -> & D1).
    intros [= <-]. eauto.
Qed.

Lemma lrun_DL ops : forall (l : LinkedList V) (cs : list (nat * V)) l',
  DL l cs -> lrun l ops = Some l' -> exists cs', DL l' cs'.
Proof.
  induction ops as [|o ops IH]; intros l cs l' D; cbn [lrun].
  - intros [= <-]. eauto.
  - destruct (lstep l o) as [l1|] eqn:Hs; [|discriminate].
    cbn [mbind option_bind]. destruct (lstep_DL l cs o l1 D Hs) as (cs1 & D1).
    apply (IH l1 cs1 l' D1).
Qed.

Lemma built_DL (l : LinkedList V) : list_built l -> exists cs, DL l cs.
Proof.
  intros (vals & ops & Hrun).
  destruct (Make_DL vals) as (l0 & cs0 & HM & D0 & _).
  rewrite HM in Hrun. apply (lrun_DL ops l0 cs0 l D0 Hrun).
Qed.

Lemma DL_Len (l : LinkedList V) (cs : list (nat * V)) :
  DL l cs -> Len l = Z.of_nat (length (values l)).
Proof.
  intros D. rewrite (values_DL l cs D), length_fmap. apply (dl_size l cs D).
Qed.

Lemma Range_bounds (l : LinkedList V) (start stop : Z) :
  Range l start stop
  = if (0 <=? start) && (start <? size l) && (start <=? stop)
       && (stop <=? size l)
    then Some (take (Z.to_nat (stop - start))
                 (drop (Z.to_nat start) (values l)))
    else None.
Proof.
  unfold Range.
  destruct (Z.ltb_spec start 0), (Z.leb_spec 0 start); try lia;
    cbn [orb andb]; [reflexivity|].
  destruct (Z.geb_spec start (size l)), (Z.ltb_spec start (size l)); try lia;
    cbn [orb andb]; [reflexivity|].
  destruct (Z.gtb_spec stop (size l)), (Z.leb_spec stop (size l)); try lia;
    cbn [orb andb]; [rewrite andb_false_r; reflexivity|].
  destruct (Z.ltb_spec stop start), (Z.leb_spec start stop); try lia;
    reflexivity.
Qed.

(** On a list built by these calls, [Len] is the number of its values,
    [Get] returns the value at an index from 0 to [Len() - 1] and panics
    for every other index, [Contains] tells whether one of the values is
    expected, and [Range] returns the values of the indices from [start]
    to [stop - 1] and panics unless [0 <= start < Len()] and
    [start <= stop <= Len()]. *)
Theorem list_reads (l : LinkedList V) :
  list_built l ->
  Len l = Z.of_nat (length (values l)) /\
  (forall index,
     Get l index
     = if (0 <=? index) && (index <? Len l)
       then values l !! Z.to_nat index else None) /\
  (forall expected,
     Contains l expected = Some (existsb expected (values l))) /\
  (forall start stop,
     Range_slice l start stop
     = if (0 <=? start) && (start <? Len l) && (start <=? stop)
          && (stop <=? Len l)
       then Some (Some <$> take (Z.to_nat (stop - start))
                             (drop (Z.to_nat start) (values l)))
       else None).
Proof.
  intros Hb. destruct (built_DL l Hb) as (cs & D).
  split; [apply (DL_Len l cs D)|]. split; [|split].
  - intros index. rewrite (Get_DL l cs index D), (values_DL l cs D).
    rewrite list_lookup_fmap. reflexivity.
  - intros expected. unfold Contains, ForEach. rewrite (dl_first l cs D).
    rewrite (ForEach_loop_DL l cs _ D)
      by (pose proof (cells_le l cs D); lia).
    rewrite drop_0, feedi_contains, <- (values_DL l cs D). reflexivity.
  - intros start stop. rewrite (Range_slice_DL l cs start stop D).
    rewrite Range_bounds. unfold Len. destruct (_ && _); reflexivity.
Qed.

(** [Make] returns a list that holds its arguments, in their order.  On a
    list built by these calls, [Add] appends its value, and [Insert] puts
    its value in front of the value at an index from 0 to [Len() - 1], or
    behind the last value for the index [Len()]; it panics for every other
    index. *)
Theorem Insert_at (l : LinkedList V) (index : Z) (v : V) (vals : list V) :
  list_built l ->
  (exists l0, Make vals = Some l0 /\ values l0 = vals) /\
  (exists l', Add l v = Some l' /\ values l' = values l ++ [v] /\
              Len l' = Len l + 1) /\
  match Insert l index v with
  | Some l' =>
      0 <= index <= Len l /\
      values l'
      = take (Z.to_nat index) (values l)
        ++ v :: drop (Z.to_nat index) (values l) /\
      Len l' = Len l + 1
  | None => index < 0 \/ Len l < index
  end.
Proof.
  intros Hb. destruct (built_DL l Hb) as (cs & D).
  pose proof (DL_Len l cs D) as HL. split; [|split].
  - destruct (Make_DL vals) as (l0 & cs0 & HM & _ & Hv). eauto.
  - destruct (Add_DL l cs v D) as (l' & HA & D'). exists l'.
    split; [exact HA|].
    rewrite (DL_Len l' _ D'), HL, (values_DL l' _ D'), (values_DL l cs D).
    rewrite fmap_app, length_app, !length_fmap. cbn [length fmap list_fmap snd].
    split; [reflexivity | lia].
  - pose proof (Insert_spec l cs index v D) as H.
    destruct (Insert l index v) as [l'|].
    + destruct H as (Hi & D'). split; [exact Hi|].
      rewrite (DL_Len l' _ D'), HL, (values_DL l' _ D'), (values_DL l cs D).
      rewrite fmap_ins_at, length_ins_at, !length_fmap. cbn [snd].
      split; [reflexivity | lia].
    + unfold Len. lia.
Qed.

(** On a list built by these calls, [Remove] takes out and returns the
    value at an index from 0 to [Len() - 1] and panics for every other
    index; [RemoveLast] takes out and returns the last value, and returns
    [nil] on an empty list. *)
Theorem Remove_at (l : LinkedList V) (index : Z) :
  list_built l ->
  match Remove l index with
  | Some (l', x) =>
      0 <= index < Len l /\
      values l !! Z.to_nat index = Some x /\
      values l'
      = take (Z.to_nat index) (values l)
        ++ drop (S (Z.to_nat index)) (values l) /\
      Len l' = Len l - 1
  | None => index < 0 \/ Len l <= index
  end /\
  exists l',
    RemoveLast l = Some (l', values l !! (length (values l) - 1)%nat) /\
    values l' = take (length (values l) - 1) (values l).
Proof.
  intros Hb. destruct (built_DL l Hb) as (cs & D).
  pose proof (DL_Len l cs D) as HL. pose proof (dl_size l cs D) as Hsz.
  split.
  - pose proof (Remove_DL l cs index D) as H.
    destruct (Remove l index) as [[l' x]|].
    + destruct H as (Hi & Hx & D'). split; [exact Hi|].
      rewrite (DL_Len l' _ D'), HL, (values_DL l' _ D'), (values_DL l cs D).
      rewrite list_lookup_fmap, fmap_del_at. split; [exact Hx|].
      split; [reflexivity|].
      rewrite length_del_at, !length_fmap by (rewrite length_fmap; lia). lia.
    + unfold Len. lia.
  - destruct (RemoveLast_DL l cs D) as (l' & HR & D'). exists l'.
    rewrite (values_DL l' _ D'), (values_DL l cs D), length_fmap.
    rewrite list_lookup_fmap, fmap_take. split; [exact HR | reflexivity].
Qed.

(** On a list built by these calls that is not empty, [Set] replaces the
    value at an index from 0 to [Len() - 1], and the last value for the
    index [Len()]; it panics for every other index and on an empty list. *)
Theorem Set_at (l : LinkedList V) (index : Z) (v : V) :
  list_built l ->
  match Set_ l index v with
  | Some l' =>
      0 <= index <= Len l /\ 0 < Len l /\
      values l'
      = <[Z.to_nat (Z.min index (Len l - 1)) := v]> (values l) /\
      Len l' = Len l
  | None => index < 0 \/ Len l < index \/ Len l = 0
  end.
Proof.
  intros Hb. destruct (built_DL l Hb) as (cs & D).
  pose proof (DL_Len l cs D) as HL. pose proof (dl_size l cs D) as Hsz.
  pose proof (Set_DL l cs index v D) as H.
  destruct (Set_ l index v) as [l'|].
  - destruct H as (Hi & Hpos & D'). split; [exact Hi|]. split; [exact Hpos|].
    split.
    + rewrite (values_DL l' _ D'), (values_DL l cs D), snd_put. reflexivity.
    + unfold Len. rewrite (dl_size l' _ D'), Hsz. unfold put.
      rewrite length_alter. reflexivity.
  - unfold Len. lia.
Qed.

(** On a list built by these calls, [RemoveAllByVal] takes out every value
    that is expected and returns their number.  [RemoveByVal] with a
    positive [count] takes out the first [count] of them, and all of them
    with a negative one; with [count = 0] it takes out all of them when
    the first value of the list is expected and none otherwise.
    [ReverseRemoveByVal] does the same from the end of the list. *)
Theorem RemoveByVal_keeps (l : LinkedList V) (expected : V -> bool)
    (count : Z) :
  list_built l ->
  exists l1 l2 l3,
    RemoveAllByVal l expected = Some (l1, matches expected (values l)) /\
    values l1 = List.filter (fun v => negb (expected v)) (values l) /\
    RemoveByVal l expected count
      = Some (l2, snd (by_val expected count (values l))) /\
    values l2 = fst (by_val expected count (values l)) /\
    ReverseRemoveByVal l expected count
      = Some (l3, snd (by_val expected count (reverse (values l)))) /\
    values l3 = reverse (fst (by_val expected count (reverse (values l)))).
Proof.
  intros Hb. destruct (built_DL l Hb) as (cs & D).
  destruct (RemoveAllByVal_DL l cs expected D) as (l1 & H1 & D1).
  destruct (RemoveByVal_DL l cs expected count D) as (l2 & H2 & D2).
  destruct (ReverseRemoveByVal_DL l cs expected count D) as (l3 & H3 & D3).
  exists l1, l2, l3.
  rewrite (values_DL l cs D), (values_DL l1 _ D1), (values_DL l2 _ D2),
    (values_DL l3 _ D3).
  rewrite matches_fmap, filter_fmap, <- fmap_reverse, <- !cut_by_val.
  rewrite !cut_fmap. cbn [fst snd]. rewrite fmap_reverse.
  repeat split; assumption.
Qed.

End Built.

(** A list of four values. *)
Definition sample_list : option (LinkedList Z) :=
  l0 ← Make [5; 7]; lrun l0 [LInsert 1 6; LAdd 6; LRemove 0; LInsert 0 4].

Lemma sample_list_built l : sample_list = Some l -> list_built l.
Proof. intros H. eexists _, _. exact H. Qed.

Lemma list_reads_witness :
  match sample_list with
  | Some l => Get l 1 = Some 6 /\ Contains l (Z.eqb 5) = Some false
  | None => False
  end.
Proof.
  destruct sample_list as [l|] eqn:Hl; [|vm_compute in Hl; discriminate].
  destruct (list_reads l (sample_list_built l Hl)) as (_ & HG & HC & _).
  rewrite HG, HC. vm_compute in Hl. injection Hl as <-.
  split; reflexivity.
Defined.

Lemma Insert_at_witness :
  match sample_list with
  | Some l => exists l', Add l 9 = Some l' /\ values l' = values l ++ [9]
  | None => False
  end.
Proof.
  destruct sample_list as [l|] eqn:Hl; [|vm_compute in Hl; discriminate].
  destruct (proj1 (proj2 (Insert_at l 0 9 [] (sample_list_built l Hl))))
    as (l' & H1 & H2 & _).
  exists l'. split; assumption.
Defined.

Lemma Remove_at_witness :
  match sample_list with
  | Some l =>
      exists l',
        RemoveLast l = Some (l', values l !! (length (values l) - 1)%nat)
  | None => False
  end.
Proof.
  destruct sample_list as [l|] eqn:Hl; [|vm_compute in Hl; discriminate].
  destruct (proj2 (Remove_at l 0 (sample_list_built l Hl))) as (l' & H1 & _).
  exists l'. exact H1.
Defined.

Lemma Set_at_witness :
  match sample_list with
  | Some l =>
      match Set_ l 4 0 with
      | Some l' => values l' = <[3%nat := 0]> (values l)
      | None => False
      end
  | None => False
  end.
Proof.
  destruct sample_list as [l|] eqn:Hl; [|vm_compute in Hl; discriminate].
  pose proof (Set_at l 4 0 (sample_list_built l Hl)) as H.
  destruct (Set_ l 4 0) as [l'|] eqn:HS.
  - destruct H as (_ & _ & Hv & _). rewrite Hv. f_equal.
    vm_compute in Hl. injection Hl as <-. reflexivity.
  - vm_compute in Hl. injection Hl as <-. vm_compute in HS. discriminate.
Defined.

Lemma RemoveByVal_keeps_witness :
  match sample_list with
  | Some l =>
      exists l2,
        RemoveByVal l (Z.eqb 6) 0 = Some (l2, 0) /\ values l2 = values l
  | None => False
  end.
Proof.
  destruct sample_list as [l|] eqn:Hl; [|vm_compute in Hl; discriminate].
  destruct (RemoveByVal_keeps l (Z.eqb 6) 0 (sample_list_built l Hl))
    as (l1 & l2 & l3 & _ & _ & H2 & Hv & _).
  exists l2. rewrite H2, Hv. vm_compute in Hl. injection Hl as <-.
  split; reflexivity.
Defined.

End ListProps.
